(** * Katana graph topology: CSR adjacency and its derived views

    A shallow embedding of [libgalois/include/katana/GraphTopology.h],
    [libgalois/src/GraphTopology.cpp] and the topology part of
    [libgalois/src/PropertyGraph.cpp], followed by the properties of
    the specification that are settled on it.

    Conventions of the embedding.
    - Node and edge identifiers are positions in arrays that live in
      memory; they are modelled as [nat].  The unsigned arithmetic the
      code does on them (prefix sums, cursors, range sizes) stays below
      the array lengths under the CSR invariants, so it never wraps.
      Values read from an untrusted byte buffer ([MapTopology]) are
      64-bit and 32-bit words modelled in [Z], with the wrap-around of
      [GetGraphSize] written out.
    - A [NUMAArray<T>] is a [list]; [a[i] = v] is [<[i:=v]> a] and
      [a[i]] is [a !!! i].
    - [katana::do_all] runs its body once per item; the embedding runs
      the items in iteration order.  Shared cursors are updated with
      [fetch_and_add], one atomic step at a time.
    - [KATANA_LOG_DEBUG_ASSERT] is compiled out of release builds.
      The functions that assert a condition on the data they compute
      or receive ([SortNodesByDegree], [MakeNodeSortedTopo],
      [MakeFrom], [edges(N, type)], [MapTopology], [find_edges]) take
      the build kind [debug] as an argument and abort when the
      condition fails in a debug build.  Where an assertion only guards
      the array access that follows it, the failure is modelled once,
      at the access: an index outside of the array is [Undefined] (or
      [Fatal], for [at]) in both builds.  The accessors [edges],
      [edge_dest] and [edge_property_index] are total functions;
      [edge_dest_at] is the accessor at an index its caller did not
      check.  Assertions that a pointer is not null, and those of
      [Make] and of the constructors of the shuffle topologies on the
      state and the sizes they were just given, have no counterpart. *)

From Stdlib Require Import ZArith Lia.
From stdpp Require Import base tactics option list sorting gmap.

Open Scope nat_scope.

(** * Model *)

(** ** Outcomes of fallible code *)

Inductive ErrorCode := InvalidArgument | NotImplemented.

(** [Ok]: the call returns a value.  [Err]: it returns an error result.
    [Fatal]: an assertion aborts the process.  [Undefined]: the code
    reads outside of an array. *)
Inductive outcome (A : Type) :=
  | Ok (a : A)
  | Err (c : ErrorCode)
  | Fatal
  | Undefined.
Arguments Ok {A} a.
Arguments Err {A} c.
Arguments Fatal {A}.
Arguments Undefined {A}.

Global Instance outcome_ret : MRet outcome := λ A a, Ok a.
Global Instance outcome_bind : MBind outcome := λ A B k m,
  match m with
  | Ok a => k a
  | Err c => Err c
  | Fatal => Fatal
  | Undefined => Undefined
  end.

(** ** GraphTopologyTypes *)

Abbreviation Node := nat (only parsing).
Abbreviation Edge := nat (only parsing).
Abbreviation PropertyIndex := nat (only parsing).
Abbreviation EntityType := nat (only parsing).

(** [StandardRange<edge_iterator>]: the pair of its begin and end. *)
Definition edges_range : Type := Edge * Edge.

Definition range_begin (r : edges_range) : Edge := r.1.
Definition range_end (r : edges_range) : Edge := r.2.
Definition range_size (r : edges_range) : nat := r.2 - r.1.
Definition range_empty (r : edges_range) : bool := bool_decide (r.1 = r.2).
(** The edges a range-based [for] visits. *)
Definition range_items (r : edges_range) : list Edge := seq r.1 (r.2 - r.1).

(** ** Parallel primitives *)

Definition do_all {A S : Type} (items : list A) (body : A → S → S) (s : S) : S :=
  foldl (λ st x, body x st) s items.

(** A loop whose body may abort. *)
Fixpoint do_all_m {A S : Type} (items : list A) (body : A → S → outcome S)
    (s : S) : outcome S :=
  match items with
  | [] => Ok s
  | x :: items => s' ← body x s; do_all_m items body s'
  end.

Definition iterate (b e : nat) : list nat := seq b (e - b).

(** [NUMAArray::allocateInterleaved]: every slot is written before it
    is read, so the initial content does not matter. *)
Definition allocateInterleaved (n : nat) : list nat := replicate n 0.

(** [__sync_add_and_fetch(&a[i], 1)], result unused. *)
Definition sync_add_and_fetch (i : nat) (a : list nat) : list nat :=
  <[i := a !!! i + 1]> a.

(** [__sync_fetch_and_add(&a[i], 1)]: the old value and the new array. *)
Definition sync_fetch_and_add (i : nat) (a : list nat) : nat * list nat :=
  (a !!! i, <[i := a !!! i + 1]> a).

Fixpoint partial_sum_from (acc : nat) (l : list nat) : list nat :=
  match l with
  | [] => []
  | x :: l => (acc + x) :: partial_sum_from (acc + x) l
  end.

(** [ParallelSTL::partial_sum(a.begin(), a.end(), a.begin())]. *)
Definition partial_sum (l : list nat) : list nat := partial_sum_from 0 l.

(** ** GraphTopology *)

Record GraphTopology := mkGraphTopology {
  adj_indices_ : list Edge;
  dests_ : list Node
}.

Definition empty_topology : GraphTopology := mkGraphTopology [] [].

Definition num_nodes (t : GraphTopology) : nat := length (adj_indices_ t).
Definition num_edges (t : GraphTopology) : nat := length (dests_ t).

Definition edges (t : GraphTopology) (node : Node) : edges_range :=
  (if decide (0 < node) then adj_indices_ t !!! (node - 1) else 0,
   adj_indices_ t !!! node).

Definition edge_dest (t : GraphTopology) (edge_id : Edge) : Node :=
  dests_ t !!! edge_id.

Definition all_nodes (t : GraphTopology) : list Node := seq 0 (num_nodes t).
Definition all_edges (t : GraphTopology) : list Edge := seq 0 (num_edges t).
Definition degree (t : GraphTopology) (node : Node) : nat :=
  range_size (edges t node).

Definition Equals (t that : GraphTopology) : bool :=
  if negb (bool_decide (num_nodes t = num_nodes that)) then false
  else if negb (bool_decide (num_edges t = num_edges that)) then false
  else bool_decide (adj_indices_ t = adj_indices_ that)
       && bool_decide (dests_ t = dests_ that).

(** The destinations of a node's out-edges, in edge order. *)
Definition out_neighbors (t : GraphTopology) (n : Node) : list Node :=
  edge_dest t <$> range_items (edges t n).

(** The CSR invariants of the data model. *)
Definition csr_wf (t : GraphTopology) : Prop :=
  Sorted (≤) (adj_indices_ t)
  ∧ num_edges t =
      (if decide (num_nodes t = 0) then 0
       else adj_indices_ t !!! (num_nodes t - 1))
  ∧ Forall (λ d, d < num_nodes t) (dests_ t).

Global Instance csr_wf_dec t : Decision (csr_wf t).
Proof. unfold csr_wf. apply _. Defined.

(** ** PropertyGraph *)

(** The topology and the per-edge entity type ids
    ([edge_entity_type_id_]) of a property graph. *)
Record PropertyGraph := mkPropertyGraph {
  topology : GraphTopology;
  edge_entity_type_id_ : list EntityType
}.

Definition kUnknownEntityType : EntityType := 0.

Definition GetUnknownEntityTypeIDs (num_rows : nat) : list EntityType :=
  do_all (iterate 0 num_rows)
    (λ row ids, <[row := kUnknownEntityType]> ids)
    (allocateInterleaved num_rows).

(** [PropertyGraph()] and [PropertyGraph(GraphTopology&&)]: a graph
    without properties; its edges have the unknown type, as in
    [ConstructEntityTypeIDs]. *)
Definition PropertyGraph_default : PropertyGraph :=
  mkPropertyGraph empty_topology [].
Definition PropertyGraph_of (topo : GraphTopology) : PropertyGraph :=
  mkPropertyGraph topo (GetUnknownEntityTypeIDs (num_edges topo)).

Definition GetTypeOfEdge (pg : PropertyGraph) (e : Edge) : EntityType :=
  edge_entity_type_id_ pg !!! e.

(** ** CreateTransposeGraphTopology *)

(** One step of the scatter loops: take the next free slot of [tgt]
    and store [val] there. *)
Definition scatter_edge (tgt val : nat) (st : list nat * list nat)
    : list nat * list nat :=
  let '(offsets, out_dests) := st in
  let '(e_new, offsets) := sync_fetch_and_add tgt offsets in
  (offsets, <[e_new := val]> out_dests).

(** The start of every node's block: [offset[0] = 0],
    [offset[n] = out_indices[n - 1]]. *)
Definition block_starts (num_nodes : nat) (out_indices : list nat) : list nat :=
  do_all (iterate 1 num_nodes)
    (λ n off, <[n := out_indices !!! (n - 1)]> off)
    (<[0 := 0]> (allocateInterleaved num_nodes)).

Definition CreateTransposeGraphTopology (topology : GraphTopology)
    : PropertyGraph :=
  if decide (num_nodes topology = 0) then PropertyGraph_default
  else
    let out_indices := allocateInterleaved (num_nodes topology) in
    let out_dests := allocateInterleaved (num_edges topology) in
    let out_indices :=
      do_all (iterate 0 (num_nodes topology))
        (λ n oi, <[n := 0]> oi) out_indices in
    let out_indices :=
      do_all (all_edges topology)
        (λ e oi, sync_add_and_fetch (edge_dest topology e) oi)
        out_indices in
    let out_indices := partial_sum out_indices in
    let out_dests_offset := block_starts (num_nodes topology) out_indices in
    let '(_, out_dests) :=
      do_all (all_nodes topology)
        (λ src st,
           do_all (range_items (edges topology src))
             (λ e st, scatter_edge (edge_dest topology e) src st) st)
        (out_dests_offset, out_dests) in
    PropertyGraph_of (mkGraphTopology out_indices out_dests).

(** ** CreateSymmetricGraph *)

Definition CreateSymmetricGraph (pg : PropertyGraph) : PropertyGraph :=
  let topology := topology pg in
  if decide (num_nodes topology = 0) then PropertyGraph_default
  else
    let out_indices := allocateInterleaved (num_nodes topology) in
    let out_indices :=
      do_all (all_nodes topology)
        (λ n oi,
           let edges := edges topology n in
           <[n := range_end edges - range_begin edges]> oi)
        out_indices in
    let out_indices :=
      do_all (all_nodes topology)
        (λ n oi,
           do_all (range_items (edges topology n))
             (λ e oi,
                let dest := edge_dest topology e in
                if decide (n ≠ dest) then sync_add_and_fetch dest oi else oi)
             oi)
        out_indices in
    let out_indices := partial_sum out_indices in
    let num_nodes_symmetric := num_nodes topology in
    let num_edges_symmetric := out_indices !!! (num_nodes_symmetric - 1) in
    let out_dests_offset := block_starts (num_nodes topology) out_indices in
    let out_dests := allocateInterleaved num_edges_symmetric in
    let '(_, out_dests) :=
      do_all (all_nodes topology)
        (λ src st,
           do_all (range_items (edges topology src))
             (λ e st,
                let dest := edge_dest topology e in
                let st := scatter_edge src dest st in
                if decide (dest ≠ src) then scatter_edge dest src st else st)
             st)
        (out_dests_offset, out_dests) in
    PropertyGraph_of (mkGraphTopology out_indices out_dests).

(** The spec's example: N = 4 with edges (0,1), (0,2), (1,2), (3,3). *)
Definition example_topology : GraphTopology :=
  mkGraphTopology [2; 3; 3; 4] [1; 2; 2; 3].

(** ** The edges of a topology and the steps of the scatter loops *)

(** A scatter loop given as the list of its atomic steps, each a
    (target, value) pair. *)
Definition scatter (evs : list (nat * nat)) (st : list nat * list nat)
    : list nat * list nat :=
  foldl (λ st ev, scatter_edge ev.1 ev.2 st) st evs.

Definition hits (t : nat) (evs : list (nat * nat)) : list (nat * nat) :=
  filter (λ ev, ev.1 = t) evs.

(** The number of occurrences of [x] in [l]. *)
Definition occ {A} `{EqDecision A} (x : A) (l : list A) : nat :=
  length (filter (λ y, y = x) l).

(** All edges as (source, destination) pairs, in edge order. *)
Definition edge_pairs (t : GraphTopology) : list (Node * Node) :=
  src ← all_nodes t; (λ e, (src, edge_dest t e)) <$> range_items (edges t src).

(** All edges as (source, edge id) pairs, in edge order. *)
Definition edge_ids (t : GraphTopology) : list (Node * Edge) :=
  src ← all_nodes t; (λ e, (src, e)) <$> range_items (edges t src).

Definition swap (p : nat * nat) : nat * nat := (p.2, p.1).

(** The atomic steps of the last loop of [CreateSymmetricGraph] for one
    edge: the edge itself, then its reverse unless it is a self-loop. *)
Definition sym_steps (p : nat * nat) : list (nat * nat) :=
  (p.1, p.2) :: if decide (p.2 ≠ p.1) then [(p.2, p.1)] else [].

Definition num_self_loops (t : GraphTopology) : nat :=
  length (filter (λ p, p.1 = p.2) (edge_pairs t)).

(** ** EdgeShuffleTopology and ShuffleTopology *)

Module TransposeKind.
Inductive t := kNo | kYes.
End TransposeKind.

Module EdgeSortKind.
Inductive t := kAny | kSortedByDestID | kSortedByEdgeType | kSortedByNodeType.
End EdgeSortKind.

Module NodeSortKind.
Inductive t := kAny | kSortedByDegree | kSortedByNodeType.
End NodeSortKind.

Global Instance TransposeKind_eq_dec : EqDecision TransposeKind.t.
Proof. solve_decision. Defined.
Global Instance EdgeSortKind_eq_dec : EqDecision EdgeSortKind.t.
Proof. solve_decision. Defined.
Global Instance NodeSortKind_eq_dec : EqDecision NodeSortKind.t.
Proof. solve_decision. Defined.

(** [class EdgeShuffleTopology : public GraphTopology]. *)
Record EdgeShuffleTopology := mkEdgeShuffleTopology {
  est_base : GraphTopology;
  is_valid_ : bool;
  tpose_state_ : TransposeKind.t;
  edge_sort_state_ : EdgeSortKind.t;
  edge_prop_indices_ : list PropertyIndex
}.

(** The protected constructor: [is_valid_(true)]. *)
Definition EdgeShuffleTopology_make (tpose_todo : TransposeKind.t)
    (edge_sort_todo : EdgeSortKind.t) (adj_indices : list Edge)
    (dests : list Node) (edge_prop_indices : list PropertyIndex)
    : EdgeShuffleTopology :=
  mkEdgeShuffleTopology (mkGraphTopology adj_indices dests) true
    tpose_todo edge_sort_todo edge_prop_indices.

Definition has_edges_sorted_by (topo : EdgeShuffleTopology)
    (kind : EdgeSortKind.t) : bool :=
  if decide (kind = EdgeSortKind.kAny) then true
  else bool_decide (edge_sort_state_ topo = kind).

Definition edge_property_index (topo : EdgeShuffleTopology) (eid : Edge)
    : PropertyIndex :=
  edge_prop_indices_ topo !!! eid.

(** [class ShuffleTopology : public EdgeShuffleTopology]. *)
Record ShuffleTopology := mkShuffleTopology {
  st_base : EdgeShuffleTopology;
  node_sort_state_ : NodeSortKind.t;
  node_prop_indices_ : list PropertyIndex
}.

Definition ShuffleTopology_make (tpose_todo : TransposeKind.t)
    (node_sort_todo : NodeSortKind.t) (edge_sort_todo : EdgeSortKind.t)
    (adj_indices : list Edge) (node_prop_indices : list PropertyIndex)
    (dests : list Node) (edge_prop_indices : list PropertyIndex)
    : ShuffleTopology :=
  mkShuffleTopology
    (EdgeShuffleTopology_make tpose_todo edge_sort_todo adj_indices dests
       edge_prop_indices)
    node_sort_todo node_prop_indices.

Definition st_topology (s : ShuffleTopology) : GraphTopology :=
  est_base (st_base s).

(** [std::is_sorted] on a range of numbers. *)
Definition is_sorted (l : list nat) : bool := bool_decide (Sorted (≤) l).

(** [std::greater<std::pair<uint64_t, uint32_t>>]: [a > b] is [b < a]
    in the lexicographic order of pairs. *)
Definition pair_greater (a b : nat * nat) : bool :=
  bool_decide (b.1 < a.1)
  || (negb (bool_decide (a.1 < b.1)) && bool_decide (b.2 < a.2)).

Section node_sort.
(** [ParallelSTL::sort] is not part of the sources.  It is taken as a
    parameter; the proofs assume what the C++ standard promises for a
    sort: the result is a permutation of the input, and no element
    compares less than an element before it. *)
Variable psort : ∀ A : Type, (A → A → bool) → list A → list A.

(** [SortNodesByDegree] rewrites the topology of [pg] in place; the
    embedding returns the graph after the call. *)
Definition SortNodesByDegree (debug : bool) (pg : PropertyGraph)
    : outcome PropertyGraph :=
  let topo := topology pg in
  let num_nodes := num_nodes topo in
  let num_edges := num_edges topo in
  let dn_pairs : list (nat * nat) := replicate num_nodes (0, 0) in
  let dn_pairs :=
    do_all (all_nodes topo)
      (λ node dn,
         let node_degree := range_size (edges (topology pg) node) in
         <[node := (node_degree, node)]> dn)
      dn_pairs in
  let dn_pairs := psort _ pair_greater dn_pairs in
  let old_to_new_mapping := allocateInterleaved num_nodes in
  let new_prefix_sum := allocateInterleaved num_nodes in
  let '(new_prefix_sum, old_to_new_mapping) :=
    do_all (iterate 0 num_nodes)
      (λ index '(ps, o2n),
         (<[index := (dn_pairs !!! index).1]> ps,
          <[(dn_pairs !!! index).2 := index]> o2n))
      (new_prefix_sum, old_to_new_mapping) in
  let new_prefix_sum := partial_sum new_prefix_sum in
  let new_out_dest := allocateInterleaved num_edges in
  let out_dests_data := dests_ topo in
  let out_indices_data := adj_indices_ topo in
  new_out_dest ←
    do_all_m (all_nodes topo)
      (λ old_node_id new_out_dest,
         let new_node_id := old_to_new_mapping !!! old_node_id in
         let new_out_index :=
           if decide (new_node_id = 0) then 0
           else new_prefix_sum !!! (new_node_id - 1) in
         let '(new_out_index, new_out_dest) :=
           do_all (range_items (edges topo old_node_id))
             (λ e '(new_out_index, new_out_dest),
                let old_edge_dest := out_dests_data !!! e in
                let new_edge_dest := old_to_new_mapping !!! old_edge_dest in
                (new_out_index + 1,
                 <[new_out_index := new_edge_dest]> new_out_dest))
             (new_out_index, new_out_dest) in
         if debug && negb (bool_decide
                             (new_out_index = new_prefix_sum !!! new_node_id))
         then Fatal
         else Ok new_out_dest)
      new_out_dest;
  let out_indices_data :=
    do_all (iterate 0 num_nodes)
      (λ node_id oi, <[node_id := new_prefix_sum !!! node_id]> oi)
      out_indices_data in
  let out_dests_data :=
    do_all (iterate 0 num_edges)
      (λ edge_id od, <[edge_id := new_out_dest !!! edge_id]> od)
      out_dests_data in
  Ok (mkPropertyGraph (mkGraphTopology out_indices_data out_dests_data)
        (edge_entity_type_id_ pg)).

Definition MakeNodeSortedTopo (debug : bool) (seed_topo : EdgeShuffleTopology)
    (cmp : PropertyIndex → PropertyIndex → bool)
    (node_sort_todo : NodeSortKind.t) : outcome ShuffleTopology :=
  let seed := est_base seed_topo in
  let node_prop_indices := seq 0 (num_nodes seed) in
  let node_prop_indices := psort _ (λ i1 i2, cmp i1 i2) node_prop_indices in
  let degrees := allocateInterleaved (num_nodes seed) in
  let old_to_new_map := allocateInterleaved (num_nodes seed) in
  let '(old_to_new_map, degrees) :=
    do_all (iterate 0 (length node_prop_indices))
      (λ i '(o2n, degrees),
         (<[node_prop_indices !!! i := i]> o2n,
          <[i := degree seed (node_prop_indices !!! i)]> degrees))
      (old_to_new_map, degrees) in
  if debug && negb (is_sorted degrees) then Fatal
  else
    let degrees := partial_sum degrees in
    let new_dest_vec := allocateInterleaved (num_edges seed) in
    let edge_prop_indices := allocateInterleaved (num_edges seed) in
    '(new_dest_vec, edge_prop_indices) ←
      do_all_m (all_nodes seed)
        (λ old_srd_id '(new_dest_vec, edge_prop_indices),
           let new_srd_id := old_to_new_map !!! old_srd_id in
           let new_out_index :=
             if decide (0 < new_srd_id) then degrees !!! (new_srd_id - 1)
             else 0 in
           '(_, new_dest_vec, edge_prop_indices) ←
             do_all_m (range_items (edges seed old_srd_id))
               (λ e '(new_out_index, new_dest_vec, edge_prop_indices),
                  let new_edge_dest :=
                    old_to_new_map !!! (edge_dest seed e) in
                  let new_edge_id := new_out_index in
                  let new_out_index := new_out_index + 1 in
                  if debug && negb (bool_decide
                                      (new_out_index ≤ degrees !!! new_srd_id))
                  then Fatal
                  else
                    Ok (new_out_index,
                        <[new_edge_id := new_edge_dest]> new_dest_vec,
                        <[new_edge_id := edge_property_index seed_topo e]>
                          edge_prop_indices))
               (new_out_index, new_dest_vec, edge_prop_indices);
           Ok (new_dest_vec, edge_prop_indices))
        (new_dest_vec, edge_prop_indices);
    Ok (ShuffleTopology_make (tpose_state_ seed_topo) node_sort_todo
          (edge_sort_state_ seed_topo) degrees node_prop_indices
          new_dest_vec edge_prop_indices).

(** The comparator [cmp] of [MakeSortedByDegree]. *)
Definition MakeSortedByDegree_cmp (seed_topo : EdgeShuffleTopology)
    (i1 i2 : PropertyIndex) : bool :=
  let d1 := degree (est_base seed_topo) i1 in
  let d2 := degree (est_base seed_topo) i2 in
  if decide (d1 = d2) then bool_decide (d1 < d2)
  else bool_decide (d1 < d2).

(** [MakeSortedByDegree]; its [PropertyGraph] argument is unnamed and
    unused. *)
Definition MakeSortedByDegree (debug : bool) (seed_topo : EdgeShuffleTopology)
    : outcome ShuffleTopology :=
  MakeNodeSortedTopo debug seed_topo (MakeSortedByDegree_cmp seed_topo)
    NodeSortKind.kSortedByDegree.
End node_sort.

(** The (source degree, destination degree) pair of every edge. *)
Definition degree_pairs (t : GraphTopology) : list (nat * nat) :=
  (λ p, (degree t p.1, degree t p.2)) <$> edge_pairs t.

(** A sort that meets the contract assumed of [ParallelSTL::sort]; it
    is used to run the model on concrete graphs. *)
Definition merge_psort (A : Type) (cmp : A → A → bool) (l : list A) : list A :=
  @merge_sort A (λ a b, cmp b a = false)
    (λ a b, decide (cmp b a = false)) l.

(** Another sort that meets the contract: [merge_psort] on the
    reversed list. *)
Definition merge_psort_rev (A : Type) (cmp : A → A → bool) (l : list A)
    : list A :=
  merge_psort A cmp (reverse l).

(** A seed topology: the original copy of [example_topology]. *)
Definition example_seed : EdgeShuffleTopology :=
  EdgeShuffleTopology_make TransposeKind.kNo EdgeSortKind.kAny
    [2; 3; 3; 4] [1; 2; 2; 3] [0; 1; 2; 3].

(** ** CondensedTypeIDMap *)

(** [std::set<EntityType>] as the list of its elements in ascending
    order; [set_insert] is [std::set::insert]. *)
Fixpoint set_insert (x : EntityType) (s : list EntityType) : list EntityType :=
  match s with
  | [] => [x]
  | y :: s' =>
      if decide (x < y) then x :: y :: s'
      else if decide (x = y) then y :: s'
      else y :: set_insert x s'
  end.

Record CondensedTypeIDMap := mkCondensedTypeIDMap {
  type_to_index_map_ : gmap EntityType nat;
  index_to_type_map_ : list EntityType;
  map_is_valid_ : bool
}.

(** The private constructor, with its [KATANA_LOG_ASSERT]. *)
Definition CondensedTypeIDMap_make (type_to_index : gmap EntityType nat)
    (index_to_type : list EntityType) : outcome CondensedTypeIDMap :=
  if decide (length index_to_type = size type_to_index)
  then Ok (mkCondensedTypeIDMap type_to_index index_to_type true)
  else Fatal.

(** [index_to_type_map_[index]]: reading past the vector is undefined. *)
Definition GetType (m : CondensedTypeIDMap) (index : nat) : outcome EntityType :=
  match index_to_type_map_ m !! index with
  | Some ty => Ok ty
  | None => Undefined
  end.

(** [type_to_index_map_.at(edge_type)]: [at] throws on a missing key,
    which terminates a [noexcept] function. *)
Definition GetIndex (m : CondensedTypeIDMap) (edge_type : EntityType)
    : outcome nat :=
  match type_to_index_map_ m !! edge_type with
  | Some i => Ok i
  | None => Fatal
  end.

Definition num_unique_types (m : CondensedTypeIDMap) : nat :=
  length (index_to_type_map_ m).

Definition has_edge_type_id (m : CondensedTypeIDMap) (edge_type : EntityType)
    : bool :=
  bool_decide (is_Some (type_to_index_map_ m !! edge_type)).

(** [activeThreads] worker threads run the iterations of the first
    loop; [sched e] is the thread that runs iteration [e], and
    [edgeTypes] holds one set per thread. *)
Definition MakeFromEdgeTypes (activeThreads : nat) (sched : Edge → nat)
    (pg : PropertyGraph) : outcome CondensedTypeIDMap :=
  let edgeTypes : list (list EntityType) := replicate activeThreads [] in
  let topo := topology pg in
  let edgeTypes :=
    do_all (iterate 0 (num_edges topo))
      (λ e edgeTypes,
         let type := GetTypeOfEdge pg e in
         <[sched e := set_insert type (edgeTypes !!! sched e)]> edgeTypes)
      edgeTypes in
  let mergedSet :=
    do_all (iterate 0 activeThreads)
      (λ i mergedSet,
         let edgeTypesSet := edgeTypes !!! i in
         do_all edgeTypesSet (λ edgeType mergedSet, set_insert edgeType mergedSet)
           mergedSet)
      [] in
  let '(edge_type_to_index, edge_index_to_type, _) :=
    do_all mergedSet
      (λ edgeType '(type_to_index, index_to_type, num_edge_types),
         (<[edgeType := num_edge_types]> type_to_index,
          index_to_type ++ [edgeType],
          num_edge_types + 1))
      ((∅ : gmap EntityType nat), [], 0) in
  CondensedTypeIDMap_make edge_type_to_index edge_index_to_type.

Definition edge_type_present (pg : PropertyGraph) (ty : EntityType) : Prop :=
  ∃ e, e < num_edges (topology pg) ∧ GetTypeOfEdge pg e = ty.

(** ** EdgeTypeAwareTopology *)

(** [a[i]] where the code does not know [i] to be in range. *)
Definition read (a : list nat) (i : nat) : outcome nat :=
  match a !! i with
  | Some x => Ok x
  | None => Undefined
  end.

Record EdgeTypeAwareTopology := mkEdgeTypeAwareTopology {
  edge_type_index_ : CondensedTypeIDMap;
  edge_shuff_topo_ : EdgeShuffleTopology;
  per_type_adj_indices_ : list Edge
}.

(** The type an edge of a shuffled topology has in the property graph. *)
Definition resolved_type (pg : PropertyGraph) (e_topo : EdgeShuffleTopology)
    (e : Edge) : EntityType :=
  GetTypeOfEdge pg (edge_property_index e_topo e).

(** [while (type != GetType(index)) { adj_indices[offset + index] = e;
    index++; }].  Every iteration advances [index], and [GetType] is
    undefined from [num_unique_types] on, so [fuel = num_unique_types]
    iterations are never used up. *)
Fixpoint skip_types (fuel : nat) (edge_type_index : CondensedTypeIDMap)
    (type : EntityType) (e offset index : nat) (adj_indices : list Edge)
    : outcome (nat * list Edge) :=
  ty ← GetType edge_type_index index;
  if decide (type ≠ ty) then
    match fuel with
    | 0 => Undefined
    | S fuel =>
        skip_types fuel edge_type_index type e offset (index + 1)
          (<[offset + index := e]> adj_indices)
    end
  else Ok (index, adj_indices).

Definition CreatePerEdgeTypeAdjacencyIndex (pg : PropertyGraph)
    (edge_type_index : CondensedTypeIDMap) (e_topo : EdgeShuffleTopology)
    : outcome (list Edge) :=
  let topo := est_base e_topo in
  if decide (num_nodes topo = 0) then
    if decide (num_edges topo = 0) then Ok [] else Fatal
  else if decide (num_unique_types edge_type_index = 0) then
    if decide (num_edges topo = 0) then Ok [] else Fatal
  else
    let sz := num_nodes topo * num_unique_types edge_type_index in
    let adj_indices := allocateInterleaved sz in
    do_all_m (all_nodes topo)
      (λ N adj_indices,
         let offset := N * num_unique_types edge_type_index in
         '(index, adj_indices) ←
           do_all_m (range_items (edges topo N))
             (λ e '(index, adj_indices),
                let type := GetTypeOfEdge pg (edge_property_index e_topo e) in
                skip_types (num_unique_types edge_type_index) edge_type_index
                  type e offset index adj_indices)
             (0, adj_indices);
         let e := range_end (edges topo N) in
         Ok (do_all (iterate index (num_unique_types edge_type_index))
               (λ index adj_indices, <[offset + index := e]> adj_indices)
               adj_indices))
      adj_indices.

(** The constructor, with its assertion on the size of the index. *)
Definition EdgeTypeAwareTopology_make (debug : bool)
    (edge_type_index : CondensedTypeIDMap) (e_topo : EdgeShuffleTopology)
    (per_type_adj_indices : list Edge) : outcome EdgeTypeAwareTopology :=
  if debug && negb (bool_decide
                      (length per_type_adj_indices
                       = num_nodes (est_base e_topo)
                         * num_unique_types edge_type_index))
  then Fatal
  else Ok (mkEdgeTypeAwareTopology edge_type_index e_topo
             per_type_adj_indices).

Definition EdgeTypeAwareTopology_MakeFrom (debug : bool) (pg : PropertyGraph)
    (edge_type_index : CondensedTypeIDMap) (e_topo : EdgeShuffleTopology)
    : outcome EdgeTypeAwareTopology :=
  if debug && negb (has_edges_sorted_by e_topo EdgeSortKind.kSortedByEdgeType)
  then Fatal
  else if debug && negb (bool_decide (num_edges (est_base e_topo)
                                      = num_edges (topology pg)))
  then Fatal
  else
    per_type_adj_indices ←
      CreatePerEdgeTypeAdjacencyIndex pg edge_type_index e_topo;
    EdgeTypeAwareTopology_make debug edge_type_index e_topo
      per_type_adj_indices.

(** [edges(N, edge_type)]. *)
Definition edges_of_type (debug : bool) (t : EdgeTypeAwareTopology) (N : Node)
    (edge_type : EntityType) : outcome edges_range :=
  if debug && negb (bool_decide (0 < num_unique_types (edge_type_index_ t)))
  then Fatal
  else
    idx ← GetIndex (edge_type_index_ t) edge_type;
    let beg_idx := N * num_unique_types (edge_type_index_ t) + idx in
    e_beg ← (if decide (beg_idx = 0) then Ok 0
             else read (per_type_adj_indices_ t) (beg_idx - 1));
    idx ← GetIndex (edge_type_index_ t) edge_type;
    let end_idx := N * num_unique_types (edge_type_index_ t) + idx in
    e_end ← read (per_type_adj_indices_ t) end_idx;
    Ok (e_beg, e_end).

(** Every node's edges are in ascending order of their type. *)
Definition sorted_by_edge_type (pg : PropertyGraph)
    (e_topo : EdgeShuffleTopology) : Prop :=
  Forall (λ n, Sorted (≤)
                 (resolved_type pg e_topo
                    <$> range_items (edges (est_base e_topo) n)))
    (all_nodes (est_base e_topo)).

(** The order of (type, destination) pairs. *)
Definition type_dest_le (a b : EntityType * Node) : Prop :=
  a.1 < b.1 ∨ (a.1 = b.1 ∧ a.2 ≤ b.2).

(** Every node's edges are in ascending order of their type and, among
    the edges of one type, of their destination. *)
Definition sorted_by_type_then_dest (pg : PropertyGraph)
    (e_topo : EdgeShuffleTopology) : Prop :=
  Forall (λ n, Sorted type_dest_le
                 ((λ e, (resolved_type pg e_topo e,
                         edge_dest (est_base e_topo) e))
                    <$> range_items (edges (est_base e_topo) n)))
    (all_nodes (est_base e_topo)).

(** [e] is an edge from [u] to [v]. *)
Definition is_edge (t : GraphTopology) (e : Edge) (u v : Node) : Prop :=
  u < num_nodes t ∧ (edges t u).1 ≤ e < (edges t u).2 ∧ edge_dest t e = v.

(** The edges of [topo] are the edges of the graph: through
    [edge_property_index] every edge of [topo] is an edge of [pg] with
    the same end points, exchanged when [topo] is transposed, and every
    edge of [pg] is the image of one edge. *)
Definition shuffle_of (pg : PropertyGraph) (topo : EdgeShuffleTopology)
    : Prop :=
  num_nodes (est_base topo) = num_nodes (topology pg)
  ∧ num_edges (est_base topo) = num_edges (topology pg)
  ∧ edge_prop_indices_ topo ≡ₚ seq 0 (num_edges (topology pg))
  ∧ ∀ e u v, is_edge (est_base topo) e u v →
      match tpose_state_ topo with
      | TransposeKind.kNo =>
          is_edge (topology pg) (edge_property_index topo e) u v
      | TransposeKind.kYes =>
          is_edge (topology pg) (edge_property_index topo e) v u
      end.

(** The example graph with edge types 7, 3, 7, 5, and its copy with
    every node's edges sorted by (type, destination). *)
Definition example_typed_pg : PropertyGraph :=
  mkPropertyGraph example_topology [7; 3; 7; 5].

Definition example_type_sorted : EdgeShuffleTopology :=
  EdgeShuffleTopology_make TransposeKind.kNo EdgeSortKind.kSortedByEdgeType
    [2; 3; 3; 4] [2; 1; 2; 3] [1; 0; 2; 3].

Definition example_type_map : CondensedTypeIDMap :=
  mkCondensedTypeIDMap {[3 := 0; 5 := 1; 7 := 2]} [3; 5; 7] true.

(** The typed view [MakeFrom] builds of them: one row of three end
    offsets (for the types 3, 5 and 7) for each of the four nodes. *)
Definition example_typed_view : EdgeTypeAwareTopology :=
  mkEdgeTypeAwareTopology example_type_map example_type_sorted
    [1; 1; 2;  2; 2; 3;  3; 3; 3;  3; 4; 4].

(** The transposed copy of the typed example graph with every node's
    edges sorted by (type, source), and its typed view. *)
Definition example_type_sorted_in : EdgeShuffleTopology :=
  EdgeShuffleTopology_make TransposeKind.kYes EdgeSortKind.kSortedByEdgeType
    [0; 1; 3; 4] [0; 0; 1; 3] [0; 1; 2; 3].

Definition example_typed_view_in : EdgeTypeAwareTopology :=
  mkEdgeTypeAwareTopology example_type_map example_type_sorted_in
    [0; 0; 0;  0; 0; 1;  2; 2; 3;  3; 4; 4].

(** ** Building and searching an EdgeShuffleTopology *)

(** The elements [b .. e-1] of an array. *)
Definition slice {A} (a : list A) (b e : nat) : list A := take (e - b) (drop b a).

Section edge_sort.
(** [std::sort], with the same contract as [ParallelSTL::sort]. *)
Variable psort : ∀ A : Type, (A → A → bool) → list A → list A.

Definition MakeOriginalCopy (pg : PropertyGraph) : EdgeShuffleTopology :=
  let copy_topo := topology pg in
  let edge_prop_indices := seq 0 (num_edges copy_topo) in
  EdgeShuffleTopology_make TransposeKind.kNo EdgeSortKind.kAny
    (adj_indices_ copy_topo) (dests_ copy_topo) edge_prop_indices.

Definition MakeTransposeCopy (pg : PropertyGraph) : EdgeShuffleTopology :=
  let topology := topology pg in
  if decide (num_nodes topology = 0) then
    mkEdgeShuffleTopology empty_topology true TransposeKind.kYes
      EdgeSortKind.kAny []
  else
    let out_indices := replicate (num_nodes topology) 0 in
    let out_dests := allocateInterleaved (num_edges topology) in
    let edge_prop_indices := allocateInterleaved (num_edges topology) in
    let out_indices :=
      do_all (all_edges topology)
        (λ e oi, sync_add_and_fetch (edge_dest topology e) oi)
        out_indices in
    let out_indices := partial_sum out_indices in
    let out_dests_offset := block_starts (num_nodes topology) out_indices in
    let '(_, out_dests, edge_prop_indices) :=
      do_all (all_nodes topology)
        (λ src st,
           do_all (range_items (edges topology src))
             (λ e '(offsets, out_dests, edge_prop_indices),
                let dest := edge_dest topology e in
                let '(e_new, offsets) := sync_fetch_and_add dest offsets in
                (offsets, <[e_new := src]> out_dests,
                 <[e_new := e]> edge_prop_indices))
             st)
        (out_dests_offset, out_dests, edge_prop_indices) in
    EdgeShuffleTopology_make TransposeKind.kYes EdgeSortKind.kAny
      out_indices out_dests edge_prop_indices.

(** Sorting the zipped (property index, destination) entries of every
    node's range with the comparator [cmp]. *)
Definition sort_edge_ranges (cmp : nat * nat → nat * nat → bool)
    (new_state : EdgeSortKind.t) (topo : EdgeShuffleTopology)
    : EdgeShuffleTopology :=
  let base := est_base topo in
  let '(props, dests) :=
    do_all (all_nodes base)
      (λ node '(props, dests),
         let e_beg := range_begin (edges base node) in
         let e_end := range_end (edges base node) in
         let sorted :=
           psort _ cmp (zip (slice props e_beg e_end)
                            (slice dests e_beg e_end)) in
         (list_inserts e_beg sorted.*1 props,
          list_inserts e_beg sorted.*2 dests))
      (edge_prop_indices_ topo, dests_ base) in
  mkEdgeShuffleTopology (mkGraphTopology (adj_indices_ base) dests)
    (is_valid_ topo) (tpose_state_ topo) new_state props.

Definition SortEdgesByDestID (topo : EdgeShuffleTopology)
    : EdgeShuffleTopology :=
  sort_edge_ranges
    (λ tup1 tup2, let dst1 := tup1.2 in let dst2 := tup2.2 in
                  bool_decide (dst1 < dst2))
    EdgeSortKind.kSortedByDestID topo.

Definition SortEdgesByTypeThenDest (pg : PropertyGraph)
    (topo : EdgeShuffleTopology) : EdgeShuffleTopology :=
  sort_edge_ranges
    (λ tup1 tup2,
       let e1 := tup1.1 in let e2 := tup2.1 in
       let data1 := GetTypeOfEdge pg e1 in
       let data2 := GetTypeOfEdge pg e2 in
       if decide (data1 ≠ data2) then bool_decide (data1 < data2)
       else let dst1 := tup1.2 in let dst2 := tup2.2 in
            bool_decide (dst1 < dst2))
    EdgeSortKind.kSortedByEdgeType topo.

Definition sortEdges (pg : PropertyGraph) (edge_sort_todo : EdgeSortKind.t)
    (topo : EdgeShuffleTopology) : outcome EdgeShuffleTopology :=
  match edge_sort_todo with
  | EdgeSortKind.kAny => Ok topo
  | EdgeSortKind.kSortedByDestID => Ok (SortEdgesByDestID topo)
  | EdgeSortKind.kSortedByEdgeType => Ok (SortEdgesByTypeThenDest pg topo)
  | EdgeSortKind.kSortedByNodeType => Fatal
  end.

Definition EdgeShuffleTopology_Make (pg : PropertyGraph)
    (tpose_todo : TransposeKind.t) (edge_sort_todo : EdgeSortKind.t)
    : outcome EdgeShuffleTopology :=
  let ret :=
    if decide (tpose_todo = TransposeKind.kYes) then MakeTransposeCopy pg
    else MakeOriginalCopy pg in
  sortEdges pg edge_sort_todo ret.
End edge_sort.

Definition kBinarySearchThreshold : nat := 64.

(** [std::find_if] over [count] consecutive edge ids from [first]. *)
Fixpoint find_if (pred : Edge → bool) (first : Edge) (count : nat) : Edge :=
  match count with
  | 0 => first
  | S count => if pred first then first else find_if pred (S first) count
  end.

(** The loop of [std::lower_bound] and [std::upper_bound]: [go_right it]
    tells whether the search continues after [it].  [count] shrinks in
    every iteration, so [fuel = count] iterations are enough. *)
Fixpoint bound_loop (fuel : nat) (go_right : Edge → bool) (first : Edge)
    (count : nat) : Edge :=
  match fuel with
  | 0 => first
  | S fuel =>
      if decide (0 < count) then
        let step := count / 2 in
        let it := first + step in
        if go_right it then bound_loop fuel go_right (it + 1) (count - (step + 1))
        else bound_loop fuel go_right first step
      else first
  end.

(** With [EdgeDestComparator]: [comp(e, n)] is [edge_dest(e) < n] and
    [comp(n, e)] is [n < edge_dest(e)]. *)
Definition lower_bound (topo : GraphTopology) (first last : Edge) (dst : Node)
    : Edge :=
  bound_loop (last - first) (λ e, bool_decide (edge_dest topo e < dst))
    first (last - first).

Definition upper_bound (topo : GraphTopology) (first last : Edge) (dst : Node)
    : Edge :=
  bound_loop (last - first) (λ e, negb (bool_decide (dst < edge_dest topo e)))
    first (last - first).

Definition equal_range (topo : GraphTopology) (first last : Edge) (dst : Node)
    : Edge * Edge :=
  (lower_bound topo first last dst, upper_bound topo first last dst).

(** [edge_dest(edge_id)] at an id the caller did not check: the debug
    assertion [edge_id < dests_.size()] aborts a debug build, a release
    build reads past the array. *)
Definition edge_dest_at (debug : bool) (topo : GraphTopology) (edge_id : Edge)
    : outcome Node :=
  match dests_ topo !! edge_id with
  | Some d => Ok d
  | None => if debug then Fatal else Undefined
  end.

Definition find_edge (debug : bool) (topo : EdgeShuffleTopology)
    (src dst : Node) : outcome Edge :=
  let base := est_base topo in
  let e_range := edges base src in
  if decide (range_size e_range ≤ kBinarySearchThreshold) then
    Ok (find_if (λ e, bool_decide (edge_dest base e = dst))
          (range_begin e_range) (range_size e_range))
  else
    let iter := lower_bound base (range_begin e_range) (range_end e_range) dst in
    d ← edge_dest_at debug base iter;
    Ok (if decide (d = dst) then iter else range_end e_range).

(** [KATANA_LOG_VASSERT(cond, ...)] aborts when [cond] is false, in
    every build. *)
Definition find_edges (debug : bool) (topo : EdgeShuffleTopology)
    (src dst : Node) : outcome edges_range :=
  let base := est_base topo in
  let e_range := edges base src in
  if range_empty e_range then Ok e_range
  else if negb (negb (has_edges_sorted_by topo EdgeSortKind.kSortedByDestID))
  then Fatal
  else
    let '(first_it, last_it) :=
      equal_range base (range_begin e_range) (range_end e_range) dst in
    if bool_decide (first_it = range_end e_range)
       || negb (bool_decide (edge_dest base first_it = dst))
    then Ok (range_end e_range, range_end e_range)
    else
      let ret_range := (first_it, last_it) in
      if debug && negb (forallb (λ e, bool_decide (edge_dest base e = dst))
                          (range_items ret_range))
      then Fatal
      else Ok ret_range.

Definition has_edge (debug : bool) (topo : EdgeShuffleTopology)
    (src dst : Node) : outcome bool :=
  it ← find_edge debug topo src dst;
  Ok (negb (bool_decide (it = range_end (edges (est_base topo) src)))).

(** [Make(pg, kNo, kSortedByDestID)] on the example graph with node 0's
    destinations given in descending order, and without sorting. *)
Definition example_unsorted_pg : PropertyGraph :=
  PropertyGraph_of (mkGraphTopology [2; 3; 3; 4] [2; 1; 2; 3]).

(** The topology [Make(pg, kNo, kSortedByDestID)] returns for the
    example graph: sorted by destination, with the edge 0 -> 1. *)
Definition example_dest_sorted : EdgeShuffleTopology :=
  EdgeShuffleTopology_make TransposeKind.kNo EdgeSortKind.kSortedByDestID
    [2; 3; 3; 4] [1; 2; 2; 3] [1; 0; 2; 3].

(** The unsorted original copy of the same graph. *)
Definition example_dest_unsorted : EdgeShuffleTopology :=
  MakeOriginalCopy example_unsorted_pg.

(** Two nodes; node 0 has 65 edges to node 0, node 1 has none.  The
    edges are sorted by destination and node 0's range ends at [E]. *)
Definition example_wide : EdgeShuffleTopology :=
  EdgeShuffleTopology_make TransposeKind.kNo EdgeSortKind.kSortedByDestID
    [65; 65] (replicate 65 0) (seq 0 65).

(** ** SortAllEdgesByDest and FindEdgeSortedByDest *)

Section all_edges_sort.
Variable psort : ∀ A : Type, (A → A → bool) → list A → list A.

(** [SortAllEdgesByDest] sorts the destinations of [pg] in place and
    returns the permutation vector; the embedding returns the graph
    after the call with it. *)
Definition SortAllEdgesByDest (pg : PropertyGraph)
    : PropertyGraph * list nat :=
  let topo := topology pg in
  let permutation_vec := seq 0 (num_edges topo) in
  let out_dests_data := dests_ topo in
  let '(out_dests_data, permutation_vec) :=
    do_all (all_nodes (topology pg))
      (λ n '(out_dests_data, permutation_vec),
         let e_beg := range_begin (edges (topology pg) n) in
         let e_end := range_end (edges (topology pg) n) in
         let sorted :=
           psort _
             (λ tup1 tup2 : nat * nat,
                let d1 := tup1.1 in let d2 := tup2.1 in bool_decide (d1 < d2))
             (zip (slice out_dests_data e_beg e_end)
                  (slice permutation_vec e_beg e_end)) in
         (list_inserts e_beg sorted.*1 out_dests_data,
          list_inserts e_beg sorted.*2 permutation_vec))
      (out_dests_data, permutation_vec) in
  (mkPropertyGraph (mkGraphTopology (adj_indices_ topo) out_dests_data)
     (edge_entity_type_id_ pg),
   permutation_vec).
End all_edges_sort.

(** [FindEdgeSortedByDest] returns an edge id: [*iter]. *)
Definition FindEdgeSortedByDest (debug : bool) (graph : PropertyGraph)
    (src dst : Node) : outcome Edge :=
  let topo := topology graph in
  let e_range := edges topo src in
  if decide (range_size e_range ≤ kBinarySearchThreshold) then
    let iter := find_if (λ e, bool_decide (edge_dest topo e = dst))
                  (range_begin e_range) (range_size e_range) in
    Ok iter
  else
    let iter := lower_bound topo (range_begin e_range) (range_end e_range) dst in
    d ← edge_dest_at debug topo iter;
    Ok (if decide (d = dst) then iter else range_end e_range).

(** The destinations of the edges [first .. last-1] are in ascending
    order. *)
Definition dests_sorted_in (topo : GraphTopology) (first last : Edge) : Prop :=
  ∀ e e', first ≤ e → e ≤ e' → e' < last → edge_dest topo e ≤ edge_dest topo e'.

(** ** The queries of an EdgeTypeAwareTopology *)

(** [degree(N, edge_type)]. *)
Definition degree_of_type (debug : bool) (t : EdgeTypeAwareTopology)
    (N : Node) (edge_type : EntityType) : outcome nat :=
  r ← edges_of_type debug t N edge_type;
  Ok (range_size r).

Definition GetDistinctEdgeTypes (t : EdgeTypeAwareTopology)
    : list EntityType :=
  index_to_type_map_ (edge_type_index_ t).

Definition DoesEdgeTypeExist (t : EdgeTypeAwareTopology)
    (edge_type : EntityType) : bool :=
  has_edge_type_id (edge_type_index_ t) edge_type.

(** [std::binary_search] with [EdgeDestComparator]: the position
    [std::lower_bound] returns is inside the range and its element is
    not greater than the value. *)
Definition binary_search (topo : GraphTopology) (first last : Edge)
    (dst : Node) : bool :=
  let first := lower_bound topo first last dst in
  negb (bool_decide (first = last))
  && negb (bool_decide (dst < edge_dest topo first)).

Definition FindAllEdgesWithType (debug : bool) (t : EdgeTypeAwareTopology)
    (node key : Node) (edge_type : EntityType) : outcome edges_range :=
  let base := est_base (edge_shuff_topo_ t) in
  e_range ← edges_of_type debug t node edge_type;
  if range_empty e_range then Ok e_range
  else
    let '(first_it, last_it) :=
      equal_range base (range_begin e_range) (range_end e_range) key in
    if bool_decide (first_it = range_end e_range)
       || negb (bool_decide (edge_dest base first_it = key))
    then Ok (range_end e_range, range_end e_range)
    else
      let ret_range := (first_it, last_it) in
      if debug && negb (forallb (λ e, bool_decide (edge_dest base e = key))
                          (range_items ret_range))
      then Fatal
      else Ok ret_range.

Definition IsConnectedWithEdgeType (debug : bool) (t : EdgeTypeAwareTopology)
    (src dst : Node) (edge_type : EntityType) : outcome bool :=
  let base := est_base (edge_shuff_topo_ t) in
  e_range ← edges_of_type debug t src edge_type;
  if range_empty e_range then Ok false
  else Ok (binary_search base (range_begin e_range) (range_end e_range) dst).

(** The loop of [IsConnected] over the distinct edge types; it returns
    at the first type that connects the two nodes. *)
Fixpoint IsConnected_loop (debug : bool) (t : EdgeTypeAwareTopology)
    (src dst : Node) (edge_types : list EntityType) : outcome bool :=
  match edge_types with
  | [] => Ok false
  | edge_type :: edge_types =>
      c ← IsConnectedWithEdgeType debug t src dst edge_type;
      if c : bool then Ok true
      else IsConnected_loop debug t src dst edge_types
  end.

Definition IsConnected (debug : bool) (t : EdgeTypeAwareTopology)
    (src dst : Node) : outcome bool :=
  if decide (degree (est_base (edge_shuff_topo_ t)) src = 0) then Ok false
  else IsConnected_loop debug t src dst (GetDistinctEdgeTypes t).

(** ** EdgeTypeAwareBiDirTopology *)

Definition has_transpose_state (topo : EdgeShuffleTopology)
    (expected : TransposeKind.t) : bool :=
  bool_decide (tpose_state_ topo = expected).

Definition is_transposed (topo : EdgeShuffleTopology) : bool :=
  has_transpose_state topo TransposeKind.kYes.

(** [BasicBiDirTopoWrapper<EdgeTypeAwareTopology, EdgeTypeAwareTopology>]:
    [topo_ptr_] is the topology of the out-edges, [in_topo_] the one of
    the in-edges. *)
Record EdgeTypeAwareBiDirTopology := mkEdgeTypeAwareBiDirTopology {
  topo_ptr_ : EdgeTypeAwareTopology;
  in_topo_ : EdgeTypeAwareTopology
}.

Module BiDir.
(** The constructor of [BasicBiDirTopoWrapper], with its assertions. *)
Definition make (debug : bool) (out_topo in_topo : EdgeTypeAwareTopology)
    : outcome EdgeTypeAwareBiDirTopology :=
  let out_base := est_base (edge_shuff_topo_ out_topo) in
  let in_base := est_base (edge_shuff_topo_ in_topo) in
  if debug && negb (is_transposed (edge_shuff_topo_ in_topo)) then Fatal
  else if debug && negb (bool_decide (num_nodes out_base = num_nodes in_base))
  then Fatal
  else if debug && negb (bool_decide (num_edges out_base = num_edges in_base))
  then Fatal
  else Ok (mkEdgeTypeAwareBiDirTopology out_topo in_topo).

Definition IsConnectedWithEdgeType (debug : bool)
    (t : EdgeTypeAwareBiDirTopology) (src dst : Node)
    (edge_type : EntityType) : outcome bool :=
  d_out ← degree_of_type debug (topo_ptr_ t) src edge_type;
  d_in ← degree_of_type debug (in_topo_ t) dst edge_type;
  if decide (d_out = 0 ∨ d_in = 0) then Ok false
  else if decide (d_out < d_in) then
    IsConnectedWithEdgeType debug (topo_ptr_ t) src dst edge_type
  else IsConnectedWithEdgeType debug (in_topo_ t) dst src edge_type.

Definition IsConnected (debug : bool) (t : EdgeTypeAwareBiDirTopology)
    (src dst : Node) : outcome bool :=
  let d_out := degree (est_base (edge_shuff_topo_ (topo_ptr_ t))) src in
  let d_in := degree (est_base (edge_shuff_topo_ (in_topo_ t))) dst in
  if decide (d_out = 0 ∨ d_in = 0) then Ok false
  else if decide (d_out < d_in) then IsConnected debug (topo_ptr_ t) src dst
  else IsConnected debug (in_topo_ t) dst src.
End BiDir.

(** ** SimpleBiDirTopology *)

(** [BasicBiDirTopoWrapper<GraphTopology, EdgeShuffleTopology>]:
    [simple_topo_ptr_] is the [topo_ptr_] of the base wrapper, the
    topology of the out-edges; [simple_in_topo_] is [in_topo_]. *)
Record SimpleBiDirTopology := mkSimpleBiDirTopology {
  simple_topo_ptr_ : GraphTopology;
  simple_in_topo_ : EdgeShuffleTopology
}.

Module SimpleBiDir.
(** The constructor of [BasicBiDirTopoWrapper], with its assertions. *)
Definition make (debug : bool) (out_topo : GraphTopology)
    (in_topo : EdgeShuffleTopology) : outcome SimpleBiDirTopology :=
  let in_base := est_base in_topo in
  if debug && negb (is_transposed in_topo) then Fatal
  else if debug && negb (bool_decide (num_nodes out_topo = num_nodes in_base))
  then Fatal
  else if debug && negb (bool_decide (num_edges out_topo = num_edges in_base))
  then Fatal
  else Ok (mkSimpleBiDirTopology out_topo in_topo).

Definition in_edges (t : SimpleBiDirTopology) (node : Node) : edges_range :=
  edges (est_base (simple_in_topo_ t)) node.

Definition in_degree (t : SimpleBiDirTopology) (node : Node) : nat :=
  degree (est_base (simple_in_topo_ t)) node.

Definition in_edge_dest (t : SimpleBiDirTopology) (edge_id : Edge) : Node :=
  edge_dest (est_base (simple_in_topo_ t)) edge_id.

Definition in_edge_property_index (t : SimpleBiDirTopology) (eid : Edge)
    : PropertyIndex :=
  edge_property_index (simple_in_topo_ t) eid.
End SimpleBiDir.

(** ** ShuffleTopology::MakeFromTopo *)

Section node_type_sort.
Variable psort : ∀ A : Type, (A → A → bool) → list A → list A.
(** [PropertyGraph::GetTypeOfNode] is not part of the sources: the
    type of a node of a graph is a parameter. *)
Variable GetTypeOfNode : PropertyGraph → Node → EntityType.

(** The comparator [cmp] of [MakeSortedByNodeType]. *)
Definition MakeSortedByNodeType_cmp (pg : PropertyGraph)
    (i1 i2 : PropertyIndex) : bool :=
  let k1 := GetTypeOfNode pg i1 in
  let k2 := GetTypeOfNode pg i2 in
  if decide (k1 = k2) then bool_decide (i1 < i2)
  else bool_decide (k1 < k2).

Definition MakeSortedByNodeType (debug : bool) (pg : PropertyGraph)
    (seed_topo : EdgeShuffleTopology) : outcome ShuffleTopology :=
  MakeNodeSortedTopo psort debug seed_topo (MakeSortedByNodeType_cmp pg)
    NodeSortKind.kSortedByNodeType.

(** [ShuffleTopology::MakeFrom]:
    [KATANA_LOG_FATAL("Not implemented yet")]. *)
Definition ShuffleTopology_MakeFrom (pg : PropertyGraph)
    (seed_topo : EdgeShuffleTopology) : outcome ShuffleTopology :=
  Fatal.

(** [ret->sortEdges(pg, edge_sort_todo)] sorts the
    [EdgeShuffleTopology] part of [ret]. *)
Definition MakeFromTopo (debug : bool) (pg : PropertyGraph)
    (seed_topo : EdgeShuffleTopology) (node_sort_todo : NodeSortKind.t)
    (edge_sort_todo : EdgeSortKind.t) : outcome ShuffleTopology :=
  ret ← match node_sort_todo with
        | NodeSortKind.kAny => ShuffleTopology_MakeFrom pg seed_topo
        | NodeSortKind.kSortedByDegree =>
            MakeSortedByDegree psort debug seed_topo
        | NodeSortKind.kSortedByNodeType =>
            MakeSortedByNodeType debug pg seed_topo
        end;
  base ← sortEdges psort pg edge_sort_todo (st_base ret);
  Ok (mkShuffleTopology base (node_sort_state_ ret)
        (node_prop_indices_ ret)).
End node_type_sort.

(** The order of [MakeSortedByNodeType]: ascending node type, nodes of
    one type by ascending id. *)
Definition node_type_lt (GetTypeOfNode : PropertyGraph → Node → EntityType)
    (pg : PropertyGraph) (a b : Node) : Prop :=
  GetTypeOfNode pg a < GetTypeOfNode pg b
  ∨ (GetTypeOfNode pg a = GetTypeOfNode pg b ∧ a < b).

(** [node_property_index(nid)], for [nid < num_nodes()] as the source
    asserts in debug builds. *)
Definition node_property_index (st : ShuffleTopology) (nid : Node)
    : PropertyIndex :=
  node_prop_indices_ st !!! nid.

(** ** PGViewCache *)

Definition has_nodes_sorted_by (st : ShuffleTopology) (kind : NodeSortKind.t)
    : bool :=
  if decide (kind = NodeSortKind.kAny) then true
  else bool_decide (node_sort_state_ st = kind).

(** The vectors hold [unique_ptr]s and the functions return pointers
    to the objects they own.  No function of this cache writes to an
    object after it is built, so an object is modelled by its value. *)
Record PGViewCache := mkPGViewCache {
  edge_shuff_topos_ : list EdgeShuffleTopology;
  fully_shuff_topos_ : list ShuffleTopology;
  edge_type_aware_topos_ : list EdgeTypeAwareTopology;
  edge_type_id_map_ : option CondensedTypeIDMap
}.

Definition PGViewCache_default : PGViewCache := mkPGViewCache [] [] [] None.

Module ViewCache.
(** [CheckTopology(pg, t)] of GraphTopology.cpp; [pg->num_nodes()] and
    [pg->num_edges()] are the sizes of the topology of [pg]. *)
Definition CheckTopology (pg : PropertyGraph) (t : GraphTopology) : bool :=
  bool_decide (num_nodes (topology pg) = num_nodes t)
  && bool_decide (num_edges (topology pg) = num_edges t).

Section view_cache.
Variable psort : ∀ A : Type, (A → A → bool) → list A → list A.
Variable GetTypeOfNode : PropertyGraph → Node → EntityType.
Variables (activeThreads : nat) (sched : Edge → nat).

Definition BuildOrGetEdgeTypeIndex (pg : PropertyGraph) (c : PGViewCache)
    : outcome (CondensedTypeIDMap * PGViewCache) :=
  match edge_type_id_map_ c with
  | Some m =>
      if map_is_valid_ m then Ok (m, c)
      else
        m ← MakeFromEdgeTypes activeThreads sched pg;
        Ok (m, mkPGViewCache (edge_shuff_topos_ c) (fully_shuff_topos_ c)
                 (edge_type_aware_topos_ c) (Some m))
  | None =>
      m ← MakeFromEdgeTypes activeThreads sched pg;
      Ok (m, mkPGViewCache (edge_shuff_topos_ c) (fully_shuff_topos_ c)
               (edge_type_aware_topos_ c) (Some m))
  end.

Definition BuildOrGetEdgeShuffTopo (debug : bool) (pg : PropertyGraph)
    (tpose_kind : TransposeKind.t) (sort_kind : EdgeSortKind.t)
    (c : PGViewCache) : outcome (EdgeShuffleTopology * PGViewCache) :=
  let pred topo_ptr :=
    is_valid_ topo_ptr && has_transpose_state topo_ptr tpose_kind
    && has_edges_sorted_by topo_ptr sort_kind in
  match list_find (λ topo_ptr, pred topo_ptr = true) (edge_shuff_topos_ c) with
  | Some (_, it) =>
      if debug && negb (CheckTopology pg (est_base it)) then Fatal
      else Ok (it, c)
  | None =>
      topo ← EdgeShuffleTopology_Make psort pg tpose_kind sort_kind;
      let c := mkPGViewCache (edge_shuff_topos_ c ++ [topo])
                 (fully_shuff_topos_ c) (edge_type_aware_topos_ c)
                 (edge_type_id_map_ c) in
      if debug && negb (CheckTopology pg (est_base topo)) then Fatal
      else Ok (topo, c)
  end.

Definition BuildOrGetShuffTopo (debug : bool) (pg : PropertyGraph)
    (tpose_kind : TransposeKind.t) (node_sort_todo : NodeSortKind.t)
    (edge_sort_todo : EdgeSortKind.t) (c : PGViewCache)
    : outcome (ShuffleTopology * PGViewCache) :=
  let pred topo_ptr :=
    is_valid_ (st_base topo_ptr)
    && has_transpose_state (st_base topo_ptr) tpose_kind
    && has_edges_sorted_by (st_base topo_ptr) edge_sort_todo
    && has_nodes_sorted_by topo_ptr node_sort_todo in
  match list_find (λ topo_ptr, pred topo_ptr = true) (fully_shuff_topos_ c) with
  | Some (_, it) =>
      if debug && negb (CheckTopology pg (st_topology it)) then Fatal
      else Ok (it, c)
  | None =>
      '(e_topo, c) ← BuildOrGetEdgeShuffTopo debug pg tpose_kind
                       edge_sort_todo c;
      if debug && negb (has_transpose_state e_topo tpose_kind) then Fatal
      else
        topo ← MakeFromTopo psort GetTypeOfNode debug pg e_topo
                 node_sort_todo edge_sort_todo;
        let c := mkPGViewCache (edge_shuff_topos_ c)
                   (fully_shuff_topos_ c ++ [topo])
                   (edge_type_aware_topos_ c) (edge_type_id_map_ c) in
        if debug && negb (CheckTopology pg (st_topology topo)) then Fatal
        else Ok (topo, c)
  end.

Definition BuildOrGetEdgeTypeAwareTopo (debug : bool) (pg : PropertyGraph)
    (tpose_kind : TransposeKind.t) (c : PGViewCache)
    : outcome (EdgeTypeAwareTopology * PGViewCache) :=
  let pred topo_ptr :=
    is_valid_ (edge_shuff_topo_ topo_ptr)
    && has_transpose_state (edge_shuff_topo_ topo_ptr) tpose_kind in
  match list_find (λ topo_ptr, pred topo_ptr = true)
          (edge_type_aware_topos_ c) with
  | Some (_, it) =>
      if debug && negb (CheckTopology pg (est_base (edge_shuff_topo_ it)))
      then Fatal
      else Ok (it, c)
  | None =>
      '(sorted_topo, c) ← BuildOrGetEdgeShuffTopo debug pg tpose_kind
                            EdgeSortKind.kSortedByEdgeType c;
      '(edge_type_index, c) ← BuildOrGetEdgeTypeIndex pg c;
      topo ← EdgeTypeAwareTopology_MakeFrom debug pg edge_type_index
               sorted_topo;
      let c := mkPGViewCache (edge_shuff_topos_ c) (fully_shuff_topos_ c)
                 (edge_type_aware_topos_ c ++ [topo]) (edge_type_id_map_ c) in
      if debug && negb (CheckTopology pg (est_base (edge_shuff_topo_ topo)))
      then Fatal
      else Ok (topo, c)
  end.

(** [PGViewBuilder<PGViewEdgeTypeAwareBiDir>::BuildView]. *)
Definition BuildView_EdgeTypeAwareBiDir (debug : bool) (pg : PropertyGraph)
    (viewCache : PGViewCache)
    : outcome (EdgeTypeAwareBiDirTopology * PGViewCache) :=
  '(out_topo, viewCache) ← BuildOrGetEdgeTypeAwareTopo debug pg
                             TransposeKind.kNo viewCache;
  '(in_topo, viewCache) ← BuildOrGetEdgeTypeAwareTopo debug pg
                            TransposeKind.kYes viewCache;
  bt ← BiDir.make debug out_topo in_topo;
  Ok (bt, viewCache).

(** [PGViewBuilder<PGViewNodesSortedByDegreeEdgesSortedByDestID>::BuildView],
    with the assertion of the constructor of [SortedTopologyWrapper]. *)
Definition BuildView_NodesSortedByDegreeEdgesSortedByDestID (debug : bool)
    (pg : PropertyGraph) (viewCache : PGViewCache)
    : outcome (ShuffleTopology * PGViewCache) :=
  '(sorted_topo, viewCache) ← BuildOrGetShuffTopo debug pg TransposeKind.kYes
                                NodeSortKind.kSortedByDegree
                                EdgeSortKind.kSortedByDestID viewCache;
  if debug && negb (has_edges_sorted_by (st_base sorted_topo)
                      EdgeSortKind.kSortedByDestID)
  then Fatal
  else Ok (sorted_topo, viewCache).

(** [PGViewBuilder<PGViewBiDirectional>::BuildView];
    [GetOriginalTopology(pg)] is the topology of [pg]. *)
Definition BuildView_BiDirectional (debug : bool) (pg : PropertyGraph)
    (viewCache : PGViewCache) : outcome (SimpleBiDirTopology * PGViewCache) :=
  '(tpose_topo, viewCache) ← BuildOrGetEdgeShuffTopo debug pg
                               TransposeKind.kYes EdgeSortKind.kAny viewCache;
  bidir_topo ← SimpleBiDir.make debug (topology pg) tpose_topo;
  Ok (bidir_topo, viewCache).

(** [PGViewBuilder<PGViewEdgesSortedByDestID>::BuildView], with the
    assertion of the constructor of [SortedTopologyWrapper]; the
    wrapper hands [find_edge] and [has_edge] on to its topology. *)
Definition BuildView_EdgesSortedByDestID (debug : bool) (pg : PropertyGraph)
    (viewCache : PGViewCache) : outcome (EdgeShuffleTopology * PGViewCache) :=
  '(sorted_topo, viewCache) ← BuildOrGetEdgeShuffTopo debug pg
                                TransposeKind.kNo EdgeSortKind.kSortedByDestID
                                viewCache;
  if debug && negb (has_edges_sorted_by sorted_topo
                      EdgeSortKind.kSortedByDestID)
  then Fatal
  else Ok (sorted_topo, viewCache).
End view_cache.
End ViewCache.

(** What the cache keeps of its topologies: a cached
    [EdgeShuffleTopology] is a valid, well-formed topology over the
    edges of the graph, and its sort state tells the truth. *)
Definition edge_shuff_ok (pg : PropertyGraph) (topo : EdgeShuffleTopology)
    : Prop :=
  csr_wf (est_base topo) ∧ shuffle_of pg topo ∧ is_valid_ topo = true
  ∧ (edge_sort_state_ topo = EdgeSortKind.kSortedByDestID →
     ∀ n, n < num_nodes (est_base topo) →
       Sorted (≤) (out_neighbors (est_base topo) n))
  ∧ (edge_sort_state_ topo = EdgeSortKind.kSortedByEdgeType →
     sorted_by_type_then_dest pg topo).

(** A cached [EdgeTypeAwareTopology] is what [MakeFrom] builds from the
    condensed map of the graph and a cached topology sorted by edge
    type. *)
Definition typed_view_ok (debug : bool) (activeThreads : nat)
    (sched : Edge → nat) (pg : PropertyGraph) (t : EdgeTypeAwareTopology)
    : Prop :=
  edge_shuff_ok pg (edge_shuff_topo_ t)
  ∧ edge_sort_state_ (edge_shuff_topo_ t) = EdgeSortKind.kSortedByEdgeType
  ∧ MakeFromEdgeTypes activeThreads sched pg = Ok (edge_type_index_ t)
  ∧ EdgeTypeAwareTopology_MakeFrom debug pg (edge_type_index_ t)
      (edge_shuff_topo_ t) = Ok t.

Definition cache_ok (debug : bool) (activeThreads : nat) (sched : Edge → nat)
    (pg : PropertyGraph) (c : PGViewCache) : Prop :=
  Forall (edge_shuff_ok pg) (edge_shuff_topos_ c)
  ∧ Forall (typed_view_ok debug activeThreads sched pg)
      (edge_type_aware_topos_ c)
  ∧ ∀ m, edge_type_id_map_ c = Some m →
      MakeFromEdgeTypes activeThreads sched pg = Ok m.

(** A cached [ShuffleTopology] is a valid, well-formed topology whose
    edges are, through the node and edge property indices, edges of the
    graph (reversed when it is transposed), and its sort states tell
    the truth. *)
Definition shuff_ok (pg : PropertyGraph) (st : ShuffleTopology) : Prop :=
  csr_wf (st_topology st)
  ∧ is_valid_ (st_base st) = true
  ∧ num_nodes (st_topology st) = num_nodes (topology pg)
  ∧ num_edges (st_topology st) = num_edges (topology pg)
  ∧ node_prop_indices_ st ≡ₚ all_nodes (topology pg)
  ∧ (∀ e u v, is_edge (st_topology st) e u v →
       match tpose_state_ (st_base st) with
       | TransposeKind.kNo =>
           is_edge (topology pg) (edge_property_index (st_base st) e)
             (node_property_index st u) (node_property_index st v)
       | TransposeKind.kYes =>
           is_edge (topology pg) (edge_property_index (st_base st) e)
             (node_property_index st v) (node_property_index st u)
       end)
  ∧ (node_sort_state_ st = NodeSortKind.kSortedByDegree →
     ∀ n, n + 1 < num_nodes (st_topology st) →
       degree (st_topology st) n ≤ degree (st_topology st) (n + 1))
  ∧ (edge_sort_state_ (st_base st) = EdgeSortKind.kSortedByDestID →
     ∀ n, n < num_nodes (st_topology st) →
       Sorted (≤) (out_neighbors (st_topology st) n)).

(** ** The binary topology format *)

(** A byte is a [Z] in [0, 256); words are little-endian. *)
Fixpoint le_bytes (width : nat) (v : Z) : list Z :=
  match width with
  | 0 => []
  | S width => (v `mod` 256)%Z :: le_bytes width (v / 256)%Z
  end.

Fixpoint le_value (bs : list Z) : Z :=
  match bs with
  | [] => 0%Z
  | b :: bs => (b + 256 * le_value bs)%Z
  end.

Definition wrap64 (z : Z) : Z := (z `mod` 2 ^ 64)%Z.

(** [tsuba::FileView]: the mapped bytes; [size()] is their number. *)
Definition FileView : Type := list Z.

Definition view_size (file_view : FileView) : Z := Z.of_nat (length file_view).

(** Reading the [width]-byte word at byte offset [off]; undefined when
    the word is not inside the view. *)
Definition read_word (file_view : FileView) (width : nat) (off : Z)
    : outcome Z :=
  if decide (0 ≤ off ∧ off + Z.of_nat width ≤ view_size file_view)%Z
  then Ok (le_value (slice file_view (Z.to_nat off) (Z.to_nat off + width)))
  else Undefined.

(** Reading [count] consecutive words from byte offset [off]. *)
Definition read_words (file_view : FileView) (width : nat) (off count : Z)
    : outcome (list Z) :=
  if decide (0 ≤ off ∧ 0 ≤ count
             ∧ off + Z.of_nat width * count ≤ view_size file_view)%Z
  then Ok ((λ i, le_value (slice file_view (Z.to_nat off + width * i)
                             (Z.to_nat off + width * i + width)))
           <$> seq 0 (Z.to_nat count))
  else Undefined.

Definition GetGraphSize (num_nodes num_edges : Z) : Z :=
  let mandatory_fields := 4%Z in
  wrap64 (wrap64 (wrap64 (mandatory_fields + num_nodes) * 8)
          + wrap64 (num_edges * 4)).

Definition CheckTopology (out_indices : list Z) (num_nodes : Z)
    (out_dests : list Z) (num_edges : Z) : bool :=
  let has_bad_adj :=
    do_all out_indices
      (λ x bad, if decide (num_edges < x)%Z then true else bad) false in
  let has_bad_dest :=
    do_all out_dests
      (λ d bad, if decide (num_nodes ≤ d)%Z then true else bad) false in
  negb has_bad_adj && negb has_bad_dest.

(** [MapTopology]; [debug] tells whether [KATANA_LOG_DEBUG_ASSERT] is
    compiled in.  The arrays are read where the header says they are:
    [CheckTopology] and the copying constructor of [GraphTopology] visit
    [num_nodes] 64-bit words from byte 32 and [num_edges] 32-bit words
    after them. *)
Definition MapTopology (debug : bool) (file_view : FileView)
    : outcome GraphTopology :=
  if decide (view_size file_view < 4)%Z then Err InvalidArgument
  else
    version ← read_word file_view 8 0;
    if decide (version ≠ 1%Z) then Err InvalidArgument
    else
      num_nodes ← read_word file_view 8 16;
      num_edges ← read_word file_view 8 24;
      let expected_size := GetGraphSize num_nodes num_edges in
      if decide (view_size file_view < expected_size)%Z
      then Err InvalidArgument
      else
        out_indices ← read_words file_view 8 32 num_nodes;
        out_dests ← read_words file_view 4 (32 + 8 * num_nodes) num_edges;
        if debug && negb (CheckTopology out_indices num_nodes out_dests num_edges)
        then Fatal
        else Ok (mkGraphTopology (Z.to_nat <$> out_indices)
                   (Z.to_nat <$> out_dests)).

(** Modelled from the spec: [tsuba::FileFrame] is not among the sources.
    It is the byte-buffer abstraction for writing the binary format: a
    growable buffer to which [Write] appends the bytes it is given;
    [Init] and [Write] succeed. *)
Definition FileFrame : Type := list Z.
Definition FileFrame_Init : outcome FileFrame := Ok [].
Definition FileFrame_Write (ff : FileFrame) (bytes : list Z)
    : outcome FileFrame :=
  Ok (ff ++ bytes).

(** The bytes of an array of [width]-byte elements. *)
Definition array_bytes (width : nat) (a : list nat) : list Z :=
  a ≫= (λ x, le_bytes width (Z.of_nat x)).

Definition WriteTopology (topology : GraphTopology) : outcome FileFrame :=
  ff ← FileFrame_Init;
  let num_nodes := num_nodes topology in
  let num_edges := num_edges topology in
  let data := [1; 0; num_nodes; num_edges] in
  ff ← FileFrame_Write ff (array_bytes 8 data);
  ff ← (if decide (num_nodes ≠ 0)
        then FileFrame_Write ff (array_bytes 8 (adj_indices_ topology))
        else Ok ff);
  ff ← (if decide (num_edges ≠ 0)
        then FileFrame_Write ff (array_bytes 4 (dests_ topology))
        else Ok ff);
  Ok ff.

(** The bytes of the topology with two nodes and the edges 0 -> 1 and
    1 -> 0. *)
Definition example_view : FileView :=
  ([1; 0; 0; 0; 0; 0; 0; 0;  0; 0; 0; 0; 0; 0; 0; 0;
    2; 0; 0; 0; 0; 0; 0; 0;  2; 0; 0; 0; 0; 0; 0; 0;
    1; 0; 0; 0; 0; 0; 0; 0;  2; 0; 0; 0; 0; 0; 0; 0;
    1; 0; 0; 0;  0; 0; 0; 0])%Z.

(** A buffer with one node and one edge whose destination is node 5. *)
Definition bad_dest_view : FileView :=
  ([1; 0; 0; 0; 0; 0; 0; 0;  0; 0; 0; 0; 0; 0; 0; 0;
    1; 0; 0; 0; 0; 0; 0; 0;  1; 0; 0; 0; 0; 0; 0; 0;
    1; 0; 0; 0; 0; 0; 0; 0;  5; 0; 0; 0])%Z.


Definition is_bytes (file_view : FileView) : Prop :=
  Forall (λ b, (0 ≤ b < 256)%Z) file_view.

Global Instance is_bytes_dec file_view : Decision (is_bytes file_view).
Proof. unfold is_bytes. apply _. Defined.

(** * Proofs *)

(** ** Loops whose body may abort *)

Lemma outcome_bind_Ok {A B} (a : A) (k : A → outcome B) : Ok a ≫= k = k a.
Proof. reflexivity. Qed.

Lemma do_all_m_cons {A S} (x : A) (items : list A) (body : A → S → outcome S)
    (s : S) :
  do_all_m (x :: items) body s = body x s ≫= do_all_m items body.
Proof. reflexivity. Qed.

(** A loop none of whose assertions fails is the loop without them. *)
Lemma do_all_m_Ok {A S} (items : list A) (body : A → S → outcome S)
    (f : A → S → S) :
  (∀ x s, x ∈ items → body x s = Ok (f x s)) →
  ∀ s, do_all_m items body s = Ok (do_all items f s).
Proof.
  unfold do_all. induction items as [|x items IH]; intros Hbody s; [done|].
  rewrite do_all_m_cons, Hbody, outcome_bind_Ok by left. simpl.
  apply IH. intros y s' Hy. apply Hbody. by right.
Qed.

(** A loop whose body keeps an invariant that rules the assertions
    out runs to its end. *)
Lemma do_all_m_total {A St} (items : list A) (body : A → St → outcome St) :
  ∀ (I : nat → St → Prop),
  (∀ k x s, items !! k = Some x → I k s →
     ∃ s', body x s = Ok s' ∧ I (S k) s') →
  ∀ s, I 0 s → ∃ s', do_all_m items body s = Ok s' ∧ I (length items) s'.
Proof.
  induction items as [|x items IH]; intros I Hbody s Hs; [by exists s|].
  destruct (Hbody 0 x s) as (s1 & Hs1 & HI1); [done|done|].
  rewrite do_all_m_cons, Hs1, outcome_bind_Ok.
  apply (IH (λ k, I (S k))); [|done].
  intros k y s' Hy. by apply Hbody.
Qed.

(** ** The example of the specification *)

Example example_symmetric :
  topology (CreateSymmetricGraph (PropertyGraph_of example_topology))
  = mkGraphTopology [2; 4; 6; 7] [1; 2; 0; 2; 0; 1; 3].
Proof. reflexivity. Qed.

Example example_transpose :
  topology (CreateTransposeGraphTopology example_topology)
  = mkGraphTopology [0; 1; 3; 4] [0; 0; 1; 3].
Proof. reflexivity. Qed.

(** ** The scatter loops *)

Lemma hits_cons t ev evs :
  hits t (ev :: evs) = if decide (ev.1 = t) then ev :: hits t evs else hits t evs.
Proof. unfold hits. rewrite filter_cons. reflexivity. Qed.

Lemma scatter_spec evs : ∀ off out,
  (∀ ev, ev ∈ evs → ev.1 < length off) →
  (∀ t t', t < t' → t' < length off →
     off !!! t + length (hits t evs) ≤ off !!! t') →
  (∀ t, t < length off → off !!! t + length (hits t evs) ≤ length out) →
  ∃ off' out', scatter evs (off, out) = (off', out')
    ∧ length off' = length off ∧ length out' = length out
    ∧ (∀ t, t < length off → off' !!! t = off !!! t + length (hits t evs))
    ∧ (∀ t j, t < length off → j < length (hits t evs) →
         out' !! (off !!! t + j) = snd <$> hits t evs !! j)
    ∧ (∀ k, (∀ t, t < length off →
               ¬ (off !!! t ≤ k < off !!! t + length (hits t evs))) →
         out' !! k = out !! k).
Proof.
  induction evs as [|[t0 v0] evs IH]; intros off out Hin Hord Hbound.
  - exists off, out. simpl. repeat split; auto.
    intros t j _ Hj. simpl in Hj. lia.
  - assert (Ht0 : t0 < length off) by (apply (Hin (t0, v0)); left).
    set (off1 := <[t0 := off !!! t0 + 1]> off).
    set (out1 := <[off !!! t0 := v0]> out).
    assert (Hlen1 : length off1 = length off) by apply length_insert.
    assert (Hc0 : length (hits t0 ((t0, v0) :: evs)) = S (length (hits t0 evs))).
    { rewrite hits_cons. simpl. rewrite decide_True by done. done. }
    assert (Hcne : ∀ t, t ≠ t0 → hits t ((t0, v0) :: evs) = hits t evs).
    { intros t Hne. rewrite hits_cons. simpl. rewrite decide_False; auto. }
    assert (Hoff1 : ∀ t, t < length off →
      off1 !!! t + length (hits t evs)
      = off !!! t + length (hits t ((t0, v0) :: evs))).
    { intros t Ht. unfold off1. destruct (decide (t = t0)) as [->|Hne].
      - rewrite list_lookup_total_insert_eq by done. rewrite Hc0. lia.
      - rewrite list_lookup_total_insert_ne by done. rewrite Hcne by done. done. }
    assert (Hoff1le : ∀ t, t < length off → off !!! t ≤ off1 !!! t).
    { intros t Ht. unfold off1. destruct (decide (t = t0)) as [->|Hne].
      - rewrite list_lookup_total_insert_eq by done. lia.
      - rewrite list_lookup_total_insert_ne by done. done. }
    destruct (IH off1 out1) as (off' & out' & Hsc & Hl1 & Hl2 & Hfin & Hval & Hframe).
    { intros ev Hev. rewrite Hlen1. apply Hin. by right. }
    { intros t t' Hlt Ht'. rewrite Hlen1 in Ht'.
      rewrite Hoff1 by lia. specialize (Hord t t' Hlt Ht').
      specialize (Hoff1le t' Ht'). lia. }
    { intros t Ht. rewrite Hlen1 in Ht. rewrite Hoff1 by done.
      unfold out1. rewrite length_insert. by apply Hbound. }
    exists off', out'. split.
    { unfold scatter in *. simpl. fold off1 out1. exact Hsc. }
    rewrite Hlen1 in *. unfold out1 in Hl2. rewrite length_insert in Hl2.
    split; [done|]. split; [done|]. split; [|split].
    + intros t Ht. rewrite Hfin by done. by apply Hoff1.
    + intros t j Ht Hj. destruct (decide (t = t0)) as [->|Hne].
      * rewrite hits_cons. simpl. rewrite decide_True by done.
        destruct j as [|j].
        -- simpl. rewrite Hframe.
           ++ unfold out1. rewrite Nat.add_0_r. apply list_lookup_insert_eq.
              specialize (Hbound t0 Ht0). lia.
           ++ intros t Ht' [Hlo Hhi]. rewrite Nat.add_0_r in *.
              destruct (decide (t = t0)) as [->|Hne].
              ** unfold off1 in Hlo. rewrite list_lookup_total_insert_eq in Hlo by done. lia.
              ** rewrite Hoff1 in Hhi by done.
                 unfold off1 in Hlo. rewrite list_lookup_total_insert_ne in Hlo by done.
                 destruct (decide (t < t0)).
                 --- specialize (Hord t t0). lia.
                 --- specialize (Hord t0 t). lia.
        -- simpl. rewrite <- (Hval t0 j) by (rewrite Hc0 in Hj; lia).
           f_equal. unfold off1. rewrite list_lookup_total_insert_eq by done. lia.
      * rewrite Hcne in * by done. rewrite <- (Hval t j) by done.
        f_equal. unfold off1. rewrite list_lookup_total_insert_ne by done. done.
    + intros k Hk. rewrite Hframe.
      * unfold out1. apply list_lookup_insert_ne.
        intros <-. apply (Hk t0 Ht0). rewrite Hc0. lia.
      * intros t Ht [Hlo Hhi]. apply (Hk t Ht).
        rewrite Hoff1 in Hhi by done. specialize (Hoff1le t Ht). lia.
Qed.

(** ** Counting occurrences *)

Section occ.
Context {A : Type} `{EqDecision A}.
Implicit Types (x y : A) (l k : list A).

Lemma occ_nil x : occ x [] = 0.
Proof. reflexivity. Qed.

Lemma occ_cons x y l :
  occ x (y :: l) = (if decide (y = x) then 1 else 0) + occ x l.
Proof. unfold occ. rewrite filter_cons. by destruct (decide (y = x)). Qed.

Lemma occ_app x l k : occ x (l ++ k) = occ x l + occ x k.
Proof. unfold occ. by rewrite filter_app, length_app. Qed.

Lemma occ_pos x l : 0 < occ x l ↔ x ∈ l.
Proof.
  induction l as [|y l IH]; [rewrite occ_nil, elem_of_nil; lia|].
  rewrite occ_cons, elem_of_cons. destruct (decide (y = x)) as [->|Hne].
  + split; [by left|lia].
  + rewrite Nat.add_0_l, IH. split; [by right|]. intros [->|?]; done.
Qed.

Lemma occ_zero x l : x ∉ l → occ x l = 0.
Proof. rewrite <- occ_pos. lia. Qed.

Global Instance occ_Permutation x : Proper ((≡ₚ) ==> (=)) (occ x).
Proof. intros l k Hlk. unfold occ. by rewrite Hlk. Qed.

Lemma occ_perm l : ∀ k, (∀ x, occ x l = occ x k) → l ≡ₚ k.
Proof.
  induction l as [|y l IH]; intros k Hocc.
  - destruct k as [|z k]; [done|]. specialize (Hocc z).
    rewrite occ_nil, occ_cons, decide_True in Hocc by done. lia.
  - assert (y ∈ k) as [k' Hk']%elem_of_Permutation.
    { apply occ_pos. rewrite <- Hocc, occ_cons, decide_True by done. lia. }
    rewrite Hk'. constructor. apply IH. intros x.
    specialize (Hocc x). rewrite Hk', !occ_cons in Hocc. lia.
Qed.

Lemma occ_bind {B} (f : B → list A) x (l : list B) :
  occ x (l ≫= f) = sum_list ((λ b, occ x (f b)) <$> l).
Proof.
  induction l as [|b l IH]; [done|].
  rewrite bind_cons, occ_app, IH. reflexivity.
Qed.

Lemma occ_replicate x y n :
  occ x (replicate n y) = if decide (y = x) then n else 0.
Proof.
  induction n as [|n IH]; simpl; [by destruct (decide (y = x))|].
  rewrite occ_cons, IH. destruct (decide (y = x)); lia.
Qed.
End occ.

Lemma occ_fmap_inj {A B} `{EqDecision A, EqDecision B} (f : A → B)
    `{!Inj (=) (=) f} x (l : list A) :
  occ (f x) (f <$> l) = occ x l.
Proof.
  induction l as [|y l IH]; [done|].
  rewrite fmap_cons, !occ_cons, IH.
  destruct (decide (y = x)) as [->|Hne].
  - by rewrite decide_True.
  - rewrite decide_False; [done|]. intros Heq. by apply Hne, (inj f).
Qed.

Lemma occ_snd_hits t x (evs : list (nat * nat)) :
  occ x (snd <$> hits t evs) = occ (t, x) evs.
Proof.
  induction evs as [|[t' v] evs IH]; [done|].
  rewrite hits_cons, occ_cons. simpl.
  destruct (decide (t' = t)) as [->|Hne].
  - rewrite fmap_cons, occ_cons, IH. simpl.
    destruct (decide (v = x)) as [->|Hne].
    + by rewrite decide_True.
    + rewrite decide_False; [done|]. congruence.
  - rewrite IH, decide_False; [done|]. congruence.
Qed.

Lemma length_hits_occ t (evs : list (nat * nat)) :
  length (hits t evs) = occ t (fst <$> evs).
Proof.
  induction evs as [|[t' v] evs IH]; [done|].
  rewrite hits_cons, fmap_cons, occ_cons. simpl.
  destruct (decide (t' = t)); simpl; lia.
Qed.

(** ** Sums *)

Lemma sum_list_indicator a n :
  sum_list ((λ t, if decide (a = t) then 1 else 0) <$> seq 0 n)
  = if decide (a < n) then 1 else 0.
Proof.
  induction n as [|n IH]; [done|].
  rewrite seq_S, fmap_app, sum_list_with_app, IH. simpl.
  repeat case_decide; lia.
Qed.

Lemma sum_list_fmap_add {A} (f g : A → nat) (l : list A) :
  sum_list ((λ x, f x + g x) <$> l) = sum_list (f <$> l) + sum_list (g <$> l).
Proof. induction l as [|x l IH]; csimpl; lia. Qed.

Lemma sum_list_occ_seq (l : list nat) n :
  Forall (λ d, d < n) l →
  sum_list ((λ t, occ t l) <$> seq 0 n) = length l.
Proof.
  induction 1 as [|x l Hx Hl IH]; simpl.
  - induction (seq 0 n) as [|? ? IHs]; csimpl; [done|]. by rewrite IHs.
  - erewrite (list_fmap_ext _ (λ t, (if decide (x = t) then 1 else 0) + occ t l));
      [|intros; apply occ_cons].
    rewrite sum_list_fmap_add, IH, sum_list_indicator, decide_True; [done|lia].
Qed.

Lemma sum_list_take_le (l : list nat) i j :
  i ≤ j → sum_list (take i l) ≤ sum_list (take j l).
Proof.
  revert i j. induction l as [|x l IH]; intros i j Hij.
  - by rewrite !take_nil.
  - destruct i as [|i]; [simpl; lia|]. destruct j as [|j]; [lia|].
    simpl. specialize (IH i j). lia.
Qed.

Lemma sum_list_take_S (l : list nat) i :
  i < length l → sum_list (take (S i) l) = sum_list (take i l) + l !!! i.
Proof.
  intros Hi. destruct (lookup_lt_is_Some_2 l i Hi) as [x Hx].
  rewrite (take_S_r _ _ _ Hx), sum_list_with_app. simpl.
  rewrite (list_lookup_total_correct _ _ _ Hx). lia.
Qed.

(** ** Prefix sums and block starts *)

Lemma length_partial_sum_from acc l :
  length (partial_sum_from acc l) = length l.
Proof. revert acc. induction l as [|x l IH]; intros acc; simpl; [done|by rewrite IH]. Qed.

Lemma lookup_partial_sum_from l : ∀ acc i, i < length l →
  partial_sum_from acc l !! i = Some (acc + sum_list (take (S i) l)).
Proof.
  induction l as [|x l IH]; intros acc i Hi; simpl in *; [lia|].
  destruct i as [|i]; simpl.
  - f_equal. destruct l; simpl; lia.
  - rewrite IH by lia. f_equal. simpl. lia.
Qed.

Lemma length_partial_sum l : length (partial_sum l) = length l.
Proof. apply length_partial_sum_from. Qed.

Lemma lookup_total_partial_sum l i :
  i < length l → partial_sum l !!! i = sum_list (take (S i) l).
Proof.
  intros Hi. apply list_lookup_total_correct.
  unfold partial_sum. by rewrite lookup_partial_sum_from.
Qed.

Lemma Sorted_partial_sum_from l : ∀ acc, Sorted (≤) (partial_sum_from acc l).
Proof.
  induction l as [|x l IH]; intros acc; simpl; [constructor|].
  constructor; [apply IH|]. destruct l; simpl; constructor. lia.
Qed.

(** Writing [f n] at every [n] of a range. *)
Lemma do_all_insert_seq {A} (f : nat → A) k : ∀ a (l : list A),
  let l' := do_all (seq a k) (λ n l, <[n := f n]> l) l in
  length l' = length l
  ∧ ∀ i, l' !! i = if decide (a ≤ i < a + k) then (λ _, f i) <$> l !! i else l !! i.
Proof.
  induction k as [|k IH]; intros a l; simpl.
  - split; [done|]. intros i. rewrite decide_False; [done|lia].
  - destruct (IH (S a) (<[a := f a]> l)) as [Hlen Hlook]. split.
    + unfold do_all in *. rewrite Hlen. apply length_insert.
    + intros i. unfold do_all in *. rewrite Hlook.
      destruct (decide (i = a)) as [->|Hne].
      * rewrite decide_False by lia. rewrite decide_True by lia.
        destruct (decide (a < length l)).
        -- rewrite list_lookup_insert_eq by done.
           destruct (lookup_lt_is_Some_2 l a) as [y ->]; done.
        -- rewrite list_insert_ge by lia. rewrite lookup_ge_None_2 by lia. done.
      * rewrite list_lookup_insert_ne by done.
        repeat case_decide; try done; lia.
Qed.

Lemma length_block_starts n ps : length (block_starts n ps) = n.
Proof.
  unfold block_starts, iterate.
  destruct (do_all_insert_seq (λ n, ps !!! (n - 1)) (n - 1) 1
              (<[0:=0]> (allocateInterleaved n))) as [-> _].
  unfold allocateInterleaved. by rewrite length_insert, length_replicate.
Qed.

Lemma lookup_total_block_starts n cnts i :
  length cnts = n → i < n →
  block_starts n (partial_sum cnts) !!! i = sum_list (take i cnts).
Proof.
  intros Hlen Hi. apply list_lookup_total_correct.
  unfold block_starts, iterate.
  destruct (do_all_insert_seq (λ n, partial_sum cnts !!! (n - 1)) (n - 1) 1
              (<[0:=0]> (allocateInterleaved n))) as [_ ->].
  unfold allocateInterleaved.
  destruct i as [|i].
  - rewrite decide_False by lia.
    rewrite list_lookup_insert_eq by (rewrite length_replicate; lia). done.
  - rewrite decide_True by lia.
    rewrite list_lookup_insert_ne by done.
    rewrite lookup_replicate_2 by lia. simpl.
    rewrite Nat.sub_0_r, lookup_total_partial_sum by lia. done.
Qed.

(** The counting loops. *)
Lemma do_all_sync_add (ts : list nat) : ∀ (oi : list nat),
  let oi' := do_all ts sync_add_and_fetch oi in
  length oi' = length oi
  ∧ ∀ v, v < length oi → oi' !!! v = oi !!! v + occ v ts.
Proof.
  induction ts as [|t ts IH]; intros oi; simpl.
  - split; [done|]. intros v _. rewrite occ_nil. lia.
  - destruct (IH (sync_add_and_fetch t oi)) as [Hlen Hlook].
    unfold do_all in *. unfold sync_add_and_fetch in *.
    rewrite length_insert in *. split; [done|].
    intros v Hv. rewrite Hlook, occ_cons by done.
    destruct (decide (t = v)) as [->|Hne].
    + rewrite list_lookup_total_insert_eq by done. lia.
    + rewrite list_lookup_total_insert_ne by done. lia.
Qed.

Lemma list_eq_total (l k : list nat) :
  length l = length k → (∀ i, i < length l → l !!! i = k !!! i) → l = k.
Proof.
  intros Hlen Hlook. apply list_eq. intros i.
  destruct (decide (i < length l)) as [Hi|Hi].
  - rewrite !list_lookup_lookup_total_lt by lia. f_equal. by apply Hlook.
  - rewrite !lookup_ge_None_2 by lia. done.
Qed.

(** ** The edges of a CSR topology *)

Lemma foldl_bind {A B S} (f : S → B → S) (g : A → list B) (l : list A) (s : S) :
  foldl f s (l ≫= g) = foldl (λ s a, foldl f s (g a)) s l.
Proof.
  revert s. induction l as [|a l IH]; intros s; [done|].
  rewrite bind_cons, foldl_app, IH. done.
Qed.

Lemma foldl_ext_in {A S} (f g : S → A → S) (l : list A) (s : S) :
  (∀ s a, a ∈ l → f s a = g s a) → foldl f s l = foldl g s l.
Proof.
  revert s. induction l as [|a l IH]; intros s Hfg; [done|]. simpl.
  rewrite Hfg by left. apply IH. intros. apply Hfg. by right.
Qed.

(** The nested loops over nodes and their edges visit [edge_pairs]. *)
Lemma do_all_edges {S} (t : GraphTopology) (body : Node → Node → S → S) (s : S) :
  do_all (all_nodes t)
    (λ src st, do_all (range_items (edges t src))
                 (λ e st, body src (edge_dest t e) st) st) s
  = foldl (λ st p, body p.1 p.2 st) s (edge_pairs t).
Proof.
  unfold do_all, edge_pairs. rewrite foldl_bind.
  apply foldl_ext_in. intros st src _. by rewrite foldl_fmap.
Qed.

Lemma Sorted_le_lookup (l : list nat) i j :
  Sorted (≤) l → i ≤ j → j < length l → l !!! i ≤ l !!! j.
Proof.
  intros Hs%Sorted_StronglySorted; [|apply _]. revert i j.
  induction Hs as [|x l Hs IH Hall]; intros i j Hij Hj; simpl in *; [lia|].
  destruct j as [|j]; [by replace i with 0 by lia|].
  destruct i as [|i]; simpl.
  - rewrite Forall_forall in Hall. apply Hall.
    apply list_elem_of_lookup_total_2. lia.
  - apply IH; lia.
Qed.

Lemma edges_le t n : csr_wf t → n < num_nodes t → (edges t n).1 ≤ (edges t n).2.
Proof.
  intros (Hs & _ & _) Hn. unfold edges. simpl. case_decide; [|lia].
  apply Sorted_le_lookup; [done|lia|done].
Qed.

Lemma csr_ranges_prefix t k :
  csr_wf t → k ≤ num_nodes t →
  seq 0 k ≫= (λ n, range_items (edges t n))
  = seq 0 (if decide (k = 0) then 0 else adj_indices_ t !!! (k - 1)).
Proof.
  intros Hwf. induction k as [|k IH]; intros Hk; [done|].
  rewrite seq_S, bind_app, IH by lia. simpl. rewrite app_nil_r.
  pose proof (edges_le t k Hwf) as Hle. unfold range_items.
  unfold edges in *. simpl in *. rewrite Nat.sub_0_r.
  destruct k as [|k]; simpl in *.
  - by rewrite Nat.sub_0_r.
  - rewrite Nat.sub_0_r in *. rewrite <- seq_app. f_equal. lia.
Qed.

(** The edge ranges of the nodes partition [0, E). *)
Lemma csr_ranges_concat t :
  csr_wf t → all_nodes t ≫= (λ n, range_items (edges t n)) = all_edges t.
Proof.
  intros Hwf. unfold all_nodes, all_edges.
  rewrite csr_ranges_prefix by done. destruct Hwf as (_ & -> & _). done.
Qed.

Lemma edge_pairs_snd t : csr_wf t → snd <$> edge_pairs t = dests_ t.
Proof.
  intros Hwf. unfold edge_pairs.
  transitivity (edge_dest t <$> (all_nodes t ≫= (λ n, range_items (edges t n)))).
  - generalize (all_nodes t). intros l. induction l as [|n l IH]; [done|].
    rewrite !bind_cons, !fmap_app, IH. f_equal.
    rewrite <- list_fmap_compose. done.
  - rewrite csr_ranges_concat by done. unfold all_edges, num_edges, edge_dest.
    apply list_eq. intros i. rewrite list_lookup_fmap.
    destruct (decide (i < length (dests_ t))) as [Hi|Hi].
    + rewrite lookup_seq_lt by done. simpl.
      by rewrite list_lookup_lookup_total_lt.
    + rewrite lookup_seq_ge, lookup_ge_None_2 by lia. done.
Qed.

Lemma length_edge_pairs t : csr_wf t → length (edge_pairs t) = num_edges t.
Proof.
  intros Hwf. rewrite <- (length_fmap snd), edge_pairs_snd by done. done.
Qed.

Lemma edge_pairs_src t p : p ∈ edge_pairs t → p.1 < num_nodes t.
Proof.
  unfold edge_pairs. rewrite list_elem_of_bind.
  intros (src & Hp & Hsrc). apply list_elem_of_fmap in Hp as (e & -> & _).
  simpl. apply elem_of_seq in Hsrc. unfold all_nodes in *. lia.
Qed.

Lemma edge_pairs_dst t p : csr_wf t → p ∈ edge_pairs t → p.2 < num_nodes t.
Proof.
  intros Hwf Hp. pose proof (edge_pairs_snd t Hwf) as Hsnd.
  destruct Hwf as (_ & _ & Hd). rewrite Forall_forall in Hd. apply Hd.
  rewrite <- Hsnd. by apply list_elem_of_fmap_2.
Qed.

(** A node's out-neighbours are the destinations of its pairs. *)
Lemma out_neighbors_hits t n :
  n < num_nodes t → out_neighbors t n = snd <$> hits n (edge_pairs t).
Proof.
  intros Hn. unfold edge_pairs, all_nodes, out_neighbors.
  set (r := λ n, range_items (edges t n)).
  change (range_items (edges t n)) with (r n).
  change (λ src, (λ e, (src, edge_dest t e)) <$> range_items (edges t src))
    with (λ src, (λ e, (src, edge_dest t e)) <$> r src).
  clearbody r.
  assert (Hgen : ∀ a k, snd <$> hits n (seq a k ≫=
      (λ src, (λ e, (src, edge_dest t e)) <$> r src))
    = if decide (a ≤ n < a + k) then edge_dest t <$> r n else []).
  { intros a k. revert a. induction k as [|k IH]; intros a.
    - simpl. rewrite decide_False; [done|lia].
    - simpl seq. rewrite bind_cons. unfold hits in *.
      rewrite filter_app, fmap_app, IH.
      destruct (decide (a = n)) as [->|Hne].
      + replace (filter _ _) with ((λ e, (n, edge_dest t e)) <$> r n).
        * rewrite <- list_fmap_compose.
          repeat case_decide; try lia. by rewrite app_nil_r.
        * generalize (r n). intros l.
          induction l as [|e l IHl]; [done|]. csimpl.
          rewrite filter_cons. simpl. rewrite decide_True by done.
          by rewrite <- IHl.
      + replace (filter _ _) with (@nil (nat * nat)).
        * simpl. repeat case_decide; try done; lia.
        * generalize (r a). intros l.
          induction l as [|e l IHl]; [done|]. csimpl.
          rewrite filter_cons. simpl. by rewrite decide_False. }
  rewrite Hgen, decide_True by lia. done.
Qed.

Lemma occ_edge_pairs t u v :
  occ (u, v) (edge_pairs t)
  = if decide (u < num_nodes t) then occ v (out_neighbors t u) else 0.
Proof.
  case_decide as Hu.
  - by rewrite out_neighbors_hits, occ_snd_hits.
  - apply occ_zero. intros Hin%edge_pairs_src. simpl in *. lia.
Qed.

(** ** The layout produced by counting, prefix sum and scatter *)

Lemma layout_total n (evs : list (nat * nat)) cnts :
  0 < n → length cnts = n →
  (∀ ev, ev ∈ evs → ev.1 < n) →
  (∀ t, t < n → cnts !!! t = length (hits t evs)) →
  partial_sum cnts !!! (n - 1) = length evs.
Proof.
  intros Hn Hlen Htgt Hcnt.
  rewrite lookup_total_partial_sum by lia.
  replace (S (n - 1)) with n by lia. rewrite take_ge by lia.
  assert (cnts = (λ t, occ t (fst <$> evs)) <$> seq 0 n) as ->.
  { apply list_eq_total.
    - by rewrite length_fmap, length_seq.
    - intros i Hi. rewrite Hcnt by lia. symmetry.
      apply list_lookup_total_correct. rewrite list_lookup_fmap.
      rewrite lookup_seq_lt by lia. simpl. by rewrite length_hits_occ. }
  rewrite sum_list_occ_seq, length_fmap; [done|].
  apply Forall_forall. intros d Hd.
  apply list_elem_of_fmap in Hd as (ev & -> & Hev). by apply Htgt.
Qed.

Lemma layout_spec n (evs : list (nat * nat)) cnts out0 :
  0 < n → length cnts = n →
  (∀ ev, ev ∈ evs → ev.1 < n) →
  (∀ t, t < n → cnts !!! t = length (hits t evs)) →
  length out0 = length evs →
  ∃ off' out',
    scatter evs (block_starts n (partial_sum cnts), out0) = (off', out')
    ∧ length out' = length evs
    ∧ ∀ t, t < n →
        out_neighbors (mkGraphTopology (partial_sum cnts) out') t
        = snd <$> hits t evs.
Proof.
  intros Hn Hlen Htgt Hcnt Hout.
  pose proof (layout_total n evs cnts Hn Hlen Htgt Hcnt) as Htot.
  assert (Hstart : ∀ t, t < n →
    block_starts n (partial_sum cnts) !!! t + length (hits t evs)
    = sum_list (take (S t) cnts)).
  { intros t Ht. rewrite lookup_total_block_starts, sum_list_take_S by lia.
    rewrite Hcnt by done. done. }
  destruct (scatter_spec evs (block_starts n (partial_sum cnts)) out0)
    as (off' & out' & Hsc & _ & Hl & _ & Hval & _).
  { intros ev Hev. rewrite length_block_starts. by apply Htgt. }
  { intros t t' Hlt Ht'. rewrite length_block_starts in Ht'.
    rewrite Hstart by lia. rewrite lookup_total_block_starts by lia.
    apply sum_list_take_le. lia. }
  { intros t Ht. rewrite length_block_starts in Ht. rewrite Hstart by lia.
    rewrite Hout, <- Htot, lookup_total_partial_sum by lia.
    apply sum_list_take_le. lia. }
  exists off', out'. split; [done|]. split; [lia|].
  intros t Ht. unfold out_neighbors, range_items, edges, edge_dest. simpl.
  assert (Hb : (if decide (0 < t) then partial_sum cnts !!! (t - 1) else 0)
               = block_starts n (partial_sum cnts) !!! t).
  { rewrite lookup_total_block_starts by lia. case_decide.
    - rewrite lookup_total_partial_sum by lia.
      by replace (S (t - 1)) with t by lia.
    - by replace t with 0 by lia. }
  rewrite Hb. rewrite lookup_total_partial_sum, <- Hstart by lia.
  replace (_ + length (hits t evs) - _) with (length (hits t evs)) by lia.
  apply list_eq. intros j. rewrite !list_lookup_fmap.
  destruct (decide (j < length (hits t evs))) as [Hj|Hj].
  - rewrite lookup_seq_lt by done. simpl.
    rewrite length_block_starts in Hval.
    specialize (Hval t j Ht Hj).
    rewrite <- Hval. symmetry. apply list_lookup_lookup_total_lt.
    apply lookup_lt_is_Some. rewrite Hval.
    apply fmap_is_Some, lookup_lt_is_Some. done.
  - rewrite lookup_seq_ge, lookup_ge_None_2 by lia. done.
Qed.

Lemma scatter_Forall (P : nat → Prop) evs : ∀ off out,
  Forall P out → (∀ ev, ev ∈ evs → P ev.2) → Forall P (scatter evs (off, out)).2.
Proof.
  induction evs as [|[t v] evs IH]; intros off out Hout Hevs; [done|].
  unfold scatter in *. simpl. apply IH.
  - apply Forall_insert; [done|]. apply (Hevs (t, v)). left.
  - intros ev Hev. apply Hevs. by right.
Qed.

(** Counting the targets, taking the prefix sum and scattering the
    values builds a CSR topology whose node [t] holds the values sent
    to [t], in the order of the steps. *)
Lemma counting_sort_topology n (evs : list (nat * nat)) cnts :
  0 < n → length cnts = n →
  (∀ ev, ev ∈ evs → ev.1 < n ∧ ev.2 < n) →
  (∀ t, t < n → cnts !!! t = length (hits t evs)) →
  ∃ off' out',
    scatter evs (block_starts n (partial_sum cnts),
                 allocateInterleaved (partial_sum cnts !!! (n - 1)))
    = (off', out')
    ∧ let t' := mkGraphTopology (partial_sum cnts) out' in
      num_nodes t' = n ∧ num_edges t' = length evs ∧ csr_wf t'
      ∧ ∀ t, t < n → out_neighbors t' t = snd <$> hits t evs.
Proof.
  intros Hn Hlen Hevs Hcnt.
  assert (Htgt : ∀ ev, ev ∈ evs → ev.1 < n) by (intros; by apply Hevs).
  pose proof (layout_total n evs cnts Hn Hlen Htgt Hcnt) as Htot.
  destruct (layout_spec n evs cnts (allocateInterleaved (length evs)))
    as (off' & out' & Hsc & Hl & Hnb); try done.
  { apply length_replicate. }
  rewrite Htot. exists off', out'. split; [done|]. simpl.
  unfold csr_wf. unfold num_nodes, num_edges. simpl.
  rewrite length_partial_sum, Hlen, Hl.
  repeat split; try done.
  - apply Sorted_partial_sum_from.
  - rewrite decide_False by lia. done.
  - change out' with (off', out').2. rewrite <- Hsc.
    apply scatter_Forall.
    + apply Forall_replicate. lia.
    + intros ev Hev. by apply Hevs.
Qed.

(** ** CreateTransposeGraphTopology *)

Lemma do_all_zero n :
  do_all (iterate 0 n) (λ n oi, <[n := 0]> oi) (allocateInterleaved n)
  = replicate n 0.
Proof.
  unfold iterate, allocateInterleaved. rewrite Nat.sub_0_r.
  destruct (do_all_insert_seq (λ _, 0) n 0 (replicate n 0)) as [Hlen Hlook].
  apply list_eq. intros i. rewrite Hlook.
  case_decide; [|done]. rewrite lookup_replicate_2 by lia. done.
Qed.

Lemma fmap_edge_dest_all_edges t : edge_dest t <$> all_edges t = dests_ t.
Proof.
  unfold all_edges, num_edges, edge_dest.
  apply list_eq. intros i. rewrite list_lookup_fmap.
  destruct (decide (i < length (dests_ t))) as [Hi|Hi].
  - rewrite lookup_seq_lt by done. simpl.
    by rewrite list_lookup_lookup_total_lt.
  - rewrite lookup_seq_ge, lookup_ge_None_2 by lia. done.
Qed.

Global Instance swap_inj : Inj (=) (=) swap.
Proof. intros [a b] [c d]. unfold swap. simpl. congruence. Qed.

Lemma transpose_spec t :
  csr_wf t → 0 < num_nodes t →
  let t' := topology (CreateTransposeGraphTopology t) in
  num_nodes t' = num_nodes t ∧ num_edges t' = num_edges t ∧ csr_wf t'
  ∧ ∀ n, n < num_nodes t →
      out_neighbors t' n = snd <$> hits n (swap <$> edge_pairs t).
Proof.
  intros Hwf Hn. unfold CreateTransposeGraphTopology.
  rewrite decide_False by lia.
  rewrite do_all_zero.
  set (cnts := do_all (all_edges t) _ _).
  destruct (do_all_sync_add (dests_ t) (replicate (num_nodes t) 0))
    as [Hclen Hcnt].
  assert (Hcnts : cnts = do_all (dests_ t) sync_add_and_fetch
                           (replicate (num_nodes t) 0)).
  { unfold cnts, do_all. rewrite <- (fmap_edge_dest_all_edges t).
    by rewrite foldl_fmap. }
  rewrite <- Hcnts in Hclen, Hcnt. rewrite length_replicate in Hclen, Hcnt.
  pose proof (edge_pairs_snd t Hwf) as Hsnd.
  destruct (counting_sort_topology (num_nodes t) (swap <$> edge_pairs t) cnts)
    as (off' & out' & Hsc & Hnum & Hed & Hwf' & Hnb); try done.
  { intros ev (p & -> & Hp)%list_elem_of_fmap. simpl.
    split; [by apply edge_pairs_dst|by apply edge_pairs_src]. }
  { intros v Hv. rewrite Hcnt by done.
    rewrite lookup_total_replicate_2 by done.
    rewrite length_hits_occ, <- list_fmap_compose. simpl.
    change (fst ∘ swap) with (@snd nat nat). by rewrite Hsnd. }
  rewrite (do_all_edges t (λ src dest st, scatter_edge dest src st)).
  assert (Hscat : foldl (λ st p, scatter_edge p.2 p.1 st)
      (block_starts (num_nodes t) (partial_sum cnts),
       allocateInterleaved (num_edges t)) (edge_pairs t) = (off', out')).
  { rewrite <- Hsc. unfold scatter. rewrite foldl_fmap.
    rewrite (layout_total (num_nodes t) (swap <$> edge_pairs t) cnts);
      try done.
    - by rewrite length_fmap, length_edge_pairs.
    - intros ev (p & -> & Hp)%list_elem_of_fmap. simpl. by apply edge_pairs_dst.
    - intros v Hv. rewrite Hcnt by done.
      rewrite lookup_total_replicate_2 by done.
      rewrite length_hits_occ, <- list_fmap_compose. simpl.
      change (fst ∘ swap) with (@snd nat nat). by rewrite Hsnd. }
  rewrite Hscat. simpl.
  rewrite length_fmap, length_edge_pairs in Hed by done.
  done.
Qed.

Lemma occ_edge_pairs_transpose t u v :
  csr_wf t → 0 < num_nodes t →
  occ (u, v) (edge_pairs (topology (CreateTransposeGraphTopology t)))
  = occ (v, u) (edge_pairs t).
Proof.
  intros Hwf Hn. destruct (transpose_spec t Hwf Hn) as (HN & _ & _ & Hnb).
  rewrite occ_edge_pairs, HN. case_decide as Hu.
  - rewrite Hnb, occ_snd_hits by done.
    change (u, v) with (swap (v, u)). by rewrite occ_fmap_inj by apply _.
  - symmetry. apply occ_zero. intros Hin%edge_pairs_dst; [|done].
    simpl in *. lia.
Qed.

(** C5: transposing twice gives back, for every node, the same multiset
    of out-neighbours (the order inside a node's range may differ), over
    the same node set. *)
Theorem transpose_involutive (t : GraphTopology) (n : Node) :
  csr_wf t → n < num_nodes t →
  let tt := topology (CreateTransposeGraphTopology
                        (topology (CreateTransposeGraphTopology t))) in
  num_nodes tt = num_nodes t ∧ out_neighbors tt n ≡ₚ out_neighbors t n.
Proof.
  intros Hwf Hn. simpl.
  destruct (transpose_spec t Hwf) as (HN & _ & Hwf' & _); [lia|].
  set (t' := topology (CreateTransposeGraphTopology t)) in *.
  destruct (transpose_spec t' Hwf') as (HN' & _ & _ & _); [lia|].
  split; [congruence|].
  apply occ_perm. intros v.
  pose proof (occ_edge_pairs (topology (CreateTransposeGraphTopology t')) n v) as H1.
  pose proof (occ_edge_pairs t n v) as H2.
  rewrite decide_True in H1 by lia. rewrite decide_True in H2 by lia.
  rewrite <- H1, <- H2.
  rewrite occ_edge_pairs_transpose by (done || lia).
  unfold t'. rewrite occ_edge_pairs_transpose by (done || lia). done.
Qed.

Lemma transpose_involutive_witness :
  let tt := topology (CreateTransposeGraphTopology
              (topology (CreateTransposeGraphTopology example_topology))) in
  num_nodes tt = num_nodes example_topology
  ∧ out_neighbors tt 0 ≡ₚ out_neighbors example_topology 0.
Proof.
  apply (transpose_involutive example_topology 0).
  - apply (bool_decide_unpack _). vm_compute. exact I.
  - vm_compute. lia.
Defined.

(** ** CreateSymmetricGraph *)

Lemma occ_sym_steps u v (l : list (nat * nat)) :
  occ (u, v) (l ≫= sym_steps)
  = occ (u, v) l + (if decide (u ≠ v) then occ (v, u) l else 0).
Proof.
  induction l as [|[a b] l IH]; [by destruct (decide (u ≠ v))|].
  rewrite bind_cons, occ_app, IH, !occ_cons. unfold sym_steps. simpl.
  destruct (decide (u ≠ v)) as [Huv|Huv].
  - destruct (decide (b ≠ a)) as [Hba|Hba]; rewrite ?occ_cons, ?occ_nil;
      repeat case_decide; simplify_eq; lia.
  - destruct (decide (b ≠ a)) as [Hba|Hba]; rewrite ?occ_cons, ?occ_nil;
      repeat case_decide; simplify_eq; lia.
Qed.

Lemma occ_fst_sym_steps v (l : list (nat * nat)) :
  occ v (fst <$> (l ≫= sym_steps))
  = occ v (fst <$> l)
    + occ v (l ≫= (λ p, if decide (p.1 ≠ p.2) then [p.2] else [])).
Proof.
  induction l as [|[a b] l IH]; [done|].
  rewrite !bind_cons, !fmap_app, !occ_app, IH, fmap_cons, occ_cons.
  unfold sym_steps. simpl.
  destruct (decide (b ≠ a)); destruct (decide (a ≠ b)); try congruence;
    csimpl; rewrite ?occ_cons, ?occ_nil; lia.
Qed.

Lemma length_sym_steps (l : list (nat * nat)) :
  length (l ≫= sym_steps) + length (filter (λ p, p.1 = p.2) l) = 2 * length l.
Proof.
  induction l as [|[a b] l IH]; [done|].
  rewrite bind_cons, length_app, filter_cons. unfold sym_steps at 1. simpl.
  destruct (decide (b ≠ a)); destruct (decide (a = b)); simpl; lia.
Qed.

Lemma degree_length_out_neighbors t n :
  degree t n = length (out_neighbors t n).
Proof.
  unfold degree, out_neighbors, range_size, range_items.
  by rewrite length_fmap, length_seq.
Qed.

Lemma symmetric_spec pg :
  csr_wf (topology pg) → 0 < num_nodes (topology pg) →
  let t := topology pg in
  let sym := topology (CreateSymmetricGraph pg) in
  num_nodes sym = num_nodes t
  ∧ num_edges sym = length (edge_pairs t ≫= sym_steps)
  ∧ csr_wf sym
  ∧ ∀ n, n < num_nodes t →
      out_neighbors sym n = snd <$> hits n (edge_pairs t ≫= sym_steps).
Proof.
  intros Hwf Hn. unfold CreateSymmetricGraph.
  set (t := topology pg) in *. simpl.
  rewrite decide_False by lia.
  set (deg := do_all (all_nodes t) _ (allocateInterleaved _)).
  assert (Hdeg : length deg = num_nodes t
                 ∧ ∀ n, n < num_nodes t → deg !!! n = degree t n).
  { unfold deg, all_nodes.
    destruct (do_all_insert_seq
                (λ n, range_end (edges t n) - range_begin (edges t n))
                (num_nodes t) 0 (allocateInterleaved (num_nodes t)))
      as [Hl Hlook].
    unfold allocateInterleaved in *. rewrite length_replicate in Hl.
    split; [done|]. intros n Hn'. apply list_lookup_total_correct.
    rewrite Hlook, decide_True by lia.
    rewrite lookup_replicate_2 by done. done. }
  destruct Hdeg as [Hdlen Hdeg].
  pose proof (do_all_edges t
    (λ n dest oi, if decide (n ≠ dest) then sync_add_and_fetch dest oi else oi)
    deg) as Hloop.
  cbv beta in Hloop. rewrite Hloop. clear Hloop.
  set (cnts := foldl _ deg (edge_pairs t)).
  set (rev := edge_pairs t ≫= (λ p, if decide (p.1 ≠ p.2) then [p.2] else [])).
  assert (Hcnts : cnts = do_all rev sync_add_and_fetch deg).
  { unfold cnts, rev, do_all. rewrite foldl_bind.
    apply foldl_ext_in. intros oi [a b] _. simpl. by case_decide. }
  destruct (do_all_sync_add rev deg) as [Hclen Hcnt].
  rewrite <- Hcnts in Hclen, Hcnt. rewrite Hdlen in Hclen, Hcnt.
  destruct (counting_sort_topology (num_nodes t) (edge_pairs t ≫= sym_steps) cnts)
    as (off' & out' & Hsc & Hnum & Hed & Hwf' & Hnb); try done.
  { intros ev (p & Hev & Hp)%list_elem_of_bind.
    pose proof (edge_pairs_src t p Hp). pose proof (edge_pairs_dst t p Hwf Hp).
    unfold sym_steps in Hev. apply elem_of_cons in Hev as [->|Hev]; [done|].
    case_decide; [|by apply elem_of_nil in Hev].
    apply list_elem_of_singleton in Hev as ->. done. }
  { intros v Hv. rewrite Hcnt, Hdeg by done.
    rewrite length_hits_occ, occ_fst_sym_steps. fold rev. f_equal.
    rewrite degree_length_out_neighbors, out_neighbors_hits by done.
    by rewrite length_fmap, length_hits_occ. }
  pose proof (do_all_edges t
    (λ src dest st,
       let st := scatter_edge src dest st in
       if decide (dest ≠ src) then scatter_edge dest src st else st)
    (block_starts (num_nodes t) (partial_sum cnts),
     allocateInterleaved (partial_sum cnts !!! (num_nodes t - 1)))) as Hloop.
  cbv beta zeta in Hloop. rewrite Hloop. clear Hloop.
  assert (Hscat : foldl
      (λ st p, if decide (p.2 ≠ p.1)
               then scatter_edge p.2 p.1 (scatter_edge p.1 p.2 st)
               else scatter_edge p.1 p.2 st)
      (block_starts (num_nodes t) (partial_sum cnts),
       allocateInterleaved (partial_sum cnts !!! (num_nodes t - 1)))
      (edge_pairs t) = (off', out')).
  { rewrite <- Hsc. unfold scatter. rewrite foldl_bind.
    apply foldl_ext_in. intros st [a b] _. unfold sym_steps. simpl.
    by case_decide. }
  rewrite Hscat. simpl. done.
Qed.

(** C1: the symmetric graph holds every non-loop edge in both
    directions, holds every self-loop as often as the input does, and
    has [2 * E - (number of self-loops)] edges. *)
Theorem symmetric_graph_edges (pg : PropertyGraph) :
  csr_wf (topology pg) →
  let t := topology pg in
  let sym := topology (CreateSymmetricGraph pg) in
  (∀ u v, (u, v) ∈ edge_pairs t → u ≠ v →
     (u, v) ∈ edge_pairs sym ∧ (v, u) ∈ edge_pairs sym)
  ∧ (∀ u, occ (u, u) (edge_pairs sym) = occ (u, u) (edge_pairs t))
  ∧ num_edges sym = 2 * num_edges t - num_self_loops t
  ∧ num_self_loops t ≤ num_edges t.
Proof.
  intros Hwf. simpl. set (t := topology pg) in *.
  pose proof (length_sym_steps (edge_pairs t)) as Hlen.
  rewrite length_edge_pairs in Hlen by done. fold (num_self_loops t) in Hlen.
  assert (Hloops : num_self_loops t ≤ num_edges t).
  { unfold num_self_loops. rewrite <- length_edge_pairs by done.
    apply length_filter. }
  destruct (decide (num_nodes t = 0)) as [Hz|Hnz].
  - unfold CreateSymmetricGraph. fold t. rewrite decide_True by done.
    assert (Hep : edge_pairs t = []).
    { unfold edge_pairs, all_nodes. by rewrite Hz. }
    rewrite Hep in *. simpl in *.
    split; [|split; [|split]]; try done.
    + intros u v Huv. by apply elem_of_nil in Huv.
    + change (num_edges empty_topology) with 0. lia.
  - destruct (symmetric_spec pg Hwf) as (HN & HE & Hwf' & Hnb); [fold t; lia|].
    fold t in HN, HE, Hnb.
    set (sym := topology (CreateSymmetricGraph pg)) in *.
    assert (Hocc : ∀ u v, occ (u, v) (edge_pairs sym)
      = occ (u, v) (edge_pairs t)
        + (if decide (u ≠ v) then occ (v, u) (edge_pairs t) else 0)).
    { intros u v. rewrite occ_edge_pairs, HN. case_decide as Hu.
      - by rewrite Hnb, occ_snd_hits, occ_sym_steps.
      - rewrite (occ_zero _ (edge_pairs t)).
        + case_decide; [|done]. rewrite occ_zero; [done|].
          intros Hin%edge_pairs_dst; [|done]. simpl in *. lia.
        + intros Hin%edge_pairs_src. simpl in *. lia. }
    split; [|split; [|split]].
    + intros u v Huv Hne. rewrite <- !occ_pos, !Hocc.
      apply occ_pos in Huv. rewrite !decide_True by done. lia.
    + intros u. rewrite Hocc, decide_False; [lia|]. intros ?; done.
    + lia.
    + done.
Qed.

Lemma symmetric_graph_edges_witness :
  let t := example_topology in
  let sym := topology (CreateSymmetricGraph (PropertyGraph_of example_topology)) in
  (∀ u v, (u, v) ∈ edge_pairs t → u ≠ v →
     (u, v) ∈ edge_pairs sym ∧ (v, u) ∈ edge_pairs sym)
  ∧ (∀ u, occ (u, u) (edge_pairs sym) = occ (u, u) (edge_pairs t))
  ∧ num_edges sym = 2 * num_edges t - num_self_loops t
  ∧ num_self_loops t ≤ num_edges t.
Proof.
  apply (symmetric_graph_edges (PropertyGraph_of example_topology)).
  apply (bool_decide_unpack _). vm_compute. exact I.
Defined.

(** The spec's scenario: 7 edges, node 2 with degree 2 and node 3 with
    degree 1. *)
Example symmetric_example_counts :
  let sym := topology (CreateSymmetricGraph (PropertyGraph_of example_topology)) in
  num_edges sym = 7 ∧ degree sym 2 = 2 ∧ degree sym 3 = 1
  ∧ out_neighbors sym 2 = [0; 1] ∧ out_neighbors sym 3 = [3].
Proof. repeat split. Qed.

(** ** Relabelling the nodes of a topology *)

Lemma do_all_pair {A S1 S2} (f : A → S1 → S1) (g : A → S2 → S2) (l : list A) :
  ∀ s1 s2, do_all l (λ x '(a, b), (f x a, g x b)) (s1, s2)
           = (do_all l f s1, do_all l g s2).
Proof.
  unfold do_all. induction l as [|x l IH]; intros s1 s2; [done|].
  simpl. by rewrite IH.
Qed.

Lemma do_all_block_write {A} (g : nat → A) (l : list nat) : ∀ i (out : list A),
  do_all l (λ e '(noi, out), (noi + 1, <[noi := g e]> out)) (i, out)
  = (i + length l, list_inserts i (g <$> l) out).
Proof.
  unfold do_all. induction l as [|e l IH]; intros i out; simpl.
  - f_equal. lia.
  - rewrite IH. f_equal; [lia|]. csimpl.
    replace (i + 1) with (S i) by lia.
    by rewrite list_insert_inserts_lt by lia.
Qed.

Lemma do_all_insert_keys (key : nat → nat) k : ∀ (m : list nat),
  (∀ i, i < k → key i < length m) →
  (∀ i j, i < k → j < k → key i = key j → i = j) →
  let m' := do_all (seq 0 k) (λ i m, <[key i := i]> m) m in
  length m' = length m ∧ ∀ i, i < k → m' !!! key i = i.
Proof.
  unfold do_all. induction k as [|k IH]; intros m Hlt Hinj.
  - split; [done|]. intros; lia.
  - rewrite seq_S, foldl_app. simpl.
    destruct (IH m) as [Hlen Hlook]; [intros; apply Hlt; lia|
      intros; apply Hinj; (lia || done)|].
    rewrite length_insert. split; [done|].
    intros i Hi. destruct (decide (i = k)) as [->|Hne].
    + rewrite list_lookup_total_insert_eq; [done|].
      rewrite Hlen. apply Hlt. lia.
    + rewrite list_lookup_total_insert_ne.
      * apply Hlook. lia.
      * intros Heq. apply Hne. symmetry. apply Hinj; (lia || done).
Qed.

Lemma blocks_lookup {A} (pos : nat → nat) (B : nat → list A) (us : list nat) :
  ∀ out : list A,
  (∀ u, u ∈ us → pos u + length (B u) ≤ length out) →
  (∀ u u', u ∈ us → u' ∈ us → u ≠ u' →
     pos u + length (B u) ≤ pos u' ∨ pos u' + length (B u') ≤ pos u) →
  let res := foldl (λ out u, list_inserts (pos u) (B u) out) out us in
  length res = length out
  ∧ (∀ u j, u ∈ us → j < length (B u) → res !! (pos u + j) = B u !! j)
  ∧ (∀ k, (∀ u, u ∈ us → ¬ (pos u ≤ k < pos u + length (B u))) →
       res !! k = out !! k).
Proof.
  induction us as [|u0 us IH]; intros out Hbound Hdisj; simpl.
  - split; [done|]. split; [|done]. intros u j Hu. by apply elem_of_nil in Hu.
  - destruct (IH (list_inserts (pos u0) (B u0) out)) as (Hlen & Hval & Hframe).
    { intros u Hu. rewrite length_inserts. apply Hbound. by right. }
    { intros u u' Hu Hu'. apply Hdisj; by right. }
    rewrite length_inserts in Hlen.
    assert (Hhead : ∀ j, j < length (B u0) →
      list_inserts (pos u0) (B u0) out !! (pos u0 + j) = B u0 !! j).
    { intros j Hj. rewrite list_lookup_inserts.
      - f_equal. lia.
      - lia.
      - assert (u0 ∈ u0 :: us) as Hu0%Hbound by left. lia. }
    split; [done|]. split.
    + intros u j Hu Hj. destruct (decide (u ∈ us)) as [Hin|Hnin].
      * by apply Hval.
      * apply elem_of_cons in Hu as [->|Hu]; [|done].
        rewrite Hframe; [by apply Hhead|].
        intros u' Hu' Hrange.
        destruct (Hdisj u0 u') as [Hd|Hd]; [by left|by right| |lia|lia].
        intros ->. done.
    + intros k Hk. rewrite Hframe.
      * destruct (decide (k < pos u0)).
        -- by apply list_lookup_inserts_lt.
        -- apply list_lookup_inserts_ge.
           assert (u0 ∈ u0 :: us) as Hu0%Hk by left. lia.
      * intros u Hu. apply Hk. by right.
Qed.

Lemma length_bind_sum {A B} (f : A → list B) (l : list A) :
  length (l ≫= f) = sum_list ((length ∘ f) <$> l).
Proof.
  induction l as [|x l IH]; [done|].
  rewrite bind_cons, length_app, IH. done.
Qed.

Lemma sum_degrees t :
  csr_wf t → sum_list (degree t <$> all_nodes t) = num_edges t.
Proof.
  intros Hwf.
  pose proof (f_equal length (csr_ranges_concat t Hwf)) as Hlen.
  rewrite length_bind_sum in Hlen. unfold all_edges in Hlen.
  rewrite length_seq in Hlen. rewrite <- Hlen. f_equal.
  apply list_fmap_ext. intros _ n _. simpl.
  unfold degree, range_size, range_items. by rewrite length_seq.
Qed.

Global Instance sum_list_Permutation : Proper ((≡ₚ) ==> (=)) sum_list.
Proof. induction 1; simpl; lia. Qed.

Lemma Sorted_lookup_adjacent {A} (R : relation A) (l : list A) i a b :
  Sorted R l → l !! i = Some a → l !! (S i) = Some b → R a b.
Proof.
  intros Hs. revert i. induction Hs as [|x l Hs IH Hhd]; intros i Ha Hb; [done|].
  destruct i as [|i]; simpl in *.
  - simplify_eq. destruct Hhd; simpl in *; simplify_eq. done.
  - by apply (IH i).
Qed.

Lemma relabel_spec t (perm o2n : list nat) :
  csr_wf t → perm ≡ₚ all_nodes t → length o2n = num_nodes t →
  (∀ i, i < num_nodes t → o2n !!! (perm !!! i) = i) →
  let ps := partial_sum (degree t <$> perm) in
  let pos u := if decide (o2n !!! u = 0) then 0 else ps !!! (o2n !!! u - 1) in
  let B u := (λ e, o2n !!! (dests_ t !!! e)) <$> range_items (edges t u) in
  let nod := foldl (λ out u, list_inserts (pos u) (B u) out)
               (allocateInterleaved (num_edges t)) (all_nodes t) in
  let t' := mkGraphTopology ps nod in
  num_nodes t' = num_nodes t ∧ num_edges t' = num_edges t
  ∧ ∀ i, i < num_nodes t →
      degree t' i = degree t (perm !!! i)
      ∧ out_neighbors t' i = (λ d, o2n !!! d) <$> out_neighbors t (perm !!! i).
Proof.
  intros Hwf Hperm Hlen Ho2n ps pos B nod t'.
  set (N := num_nodes t) in *. set (degs := degree t <$> perm) in *.
  assert (HlenP : length perm = N).
  { rewrite Hperm. unfold all_nodes. apply length_seq. }
  assert (HlenD : length degs = N) by (unfold degs; by rewrite length_fmap).
  assert (Hdegs : ∀ i, i < N → degs !!! i = degree t (perm !!! i)).
  { intros i Hi. unfold degs. apply list_lookup_total_fmap. lia. }
  assert (Hmem : ∀ i, i < N → perm !!! i < N).
  { intros i Hi. assert (perm !!! i ∈ all_nodes t) as Hin.
    { rewrite <- Hperm. apply list_elem_of_lookup_total_2. lia. }
    unfold all_nodes in Hin. apply elem_of_seq in Hin. lia. }
  assert (Hinv : ∀ u, u < N → o2n !!! u < N ∧ perm !!! (o2n !!! u) = u).
  { intros u Hu. assert (u ∈ perm) as Hin.
    { rewrite Hperm. unfold all_nodes. apply elem_of_seq. lia. }
    apply list_elem_of_lookup_total in Hin as (i & Hi & <-).
    rewrite Ho2n by lia. split; [lia|done]. }
  assert (Hsum : sum_list degs = num_edges t).
  { unfold degs. rewrite Hperm. by apply sum_degrees. }
  assert (Hpos : ∀ u, u < N → pos u = sum_list (take (o2n !!! u) degs)).
  { intros u Hu. unfold pos, ps. destruct (Hinv u Hu) as [Hlt _].
    case_decide as Hz; [by rewrite Hz|].
    rewrite lookup_total_partial_sum by lia.
    by replace (S (o2n !!! u - 1)) with (o2n !!! u) by lia. }
  assert (HlenB : ∀ u, u < N → length (B u) = degs !!! (o2n !!! u)).
  { intros u Hu. destruct (Hinv u Hu) as [Hlt Heq].
    rewrite Hdegs, Heq by done. unfold B, degree, range_size, range_items.
    by rewrite length_fmap, length_seq. }
  assert (Hend : ∀ u, u < N →
    pos u + length (B u) = sum_list (take (S (o2n !!! u)) degs)).
  { intros u Hu. destruct (Hinv u Hu) as [Hlt _].
    rewrite Hpos, HlenB, sum_list_take_S by lia. done. }
  destruct (blocks_lookup pos B (all_nodes t)
              (allocateInterleaved (num_edges t))) as (Hl & Hval & _).
  { intros u Hu. unfold all_nodes in Hu. apply elem_of_seq in Hu.
    rewrite Hend by lia. unfold allocateInterleaved.
    rewrite length_replicate, <- Hsum.
    rewrite <- (take_ge degs N) at 2 by lia.
    apply sum_list_take_le. destruct (Hinv u); lia. }
  { intros u u' Hu Hu' Hne. unfold all_nodes in Hu, Hu'.
    apply elem_of_seq in Hu, Hu'.
    destruct (Hinv u) as [? Hpu]; [lia|]. destruct (Hinv u') as [? Hpu']; [lia|].
    rewrite !Hend by lia. rewrite !Hpos by lia.
    destruct (decide (o2n !!! u < o2n !!! u')).
    - left. apply sum_list_take_le. lia.
    - right. apply sum_list_take_le.
      assert (o2n !!! u ≠ o2n !!! u') by congruence. lia. }
  fold nod in Hl, Hval.
  unfold allocateInterleaved in Hl. rewrite length_replicate in Hl.
  assert (HN' : num_nodes t' = N).
  { unfold t', num_nodes. simpl. unfold ps. by rewrite length_partial_sum. }
  split; [done|]. split; [done|].
  intros i Hi.
  assert (Hb : (edges t' i).1 = sum_list (take i degs)).
  { unfold edges, t', ps. simpl. case_decide.
    - rewrite lookup_total_partial_sum by lia.
      by replace (S (i - 1)) with i by lia.
    - by replace i with 0 by lia. }
  assert (He : (edges t' i).2 = sum_list (take i degs) + degs !!! i).
  { unfold edges, t', ps. simpl.
    rewrite lookup_total_partial_sum, sum_list_take_S by lia. done. }
  split.
  - unfold degree at 1. unfold range_size. rewrite Hb, He, Hdegs by done. lia.
  - unfold out_neighbors at 1. unfold range_items. rewrite Hb, He.
    replace (_ + degs !!! i - _) with (degs !!! i) by lia.
    pose proof (Hmem i Hi) as Hu.
    assert (Ho : o2n !!! (perm !!! i) = i) by (by apply Ho2n).
    assert (HBu : B (perm !!! i)
                  = (λ d, o2n !!! d) <$> out_neighbors t (perm !!! i)).
    { unfold B, out_neighbors. rewrite <- list_fmap_compose. done. }
    rewrite <- HBu.
    pose proof (HlenB _ Hu) as HlB. rewrite Ho in HlB.
    pose proof (Hpos _ Hu) as Hp. rewrite Ho in Hp.
    apply list_eq. intros j. rewrite list_lookup_fmap.
    destruct (decide (j < degs !!! i)) as [Hj|Hj].
    + rewrite lookup_seq_lt by done. simpl. unfold edge_dest, t'. simpl.
      rewrite <- Hp. rewrite <- Hval.
      * symmetry. apply list_lookup_lookup_total_lt.
        rewrite Hl, <- Hsum.
        assert (pos (perm !!! i) + length (B (perm !!! i)) ≤ sum_list degs).
        { rewrite Hend by done. rewrite <- (take_ge degs N) at 2 by lia.
          apply sum_list_take_le. rewrite Ho. lia. }
        lia.
      * unfold all_nodes. apply elem_of_seq. lia.
      * lia.
    + rewrite lookup_seq_ge by lia. rewrite lookup_ge_None_2 by lia. done.
Qed.

(** The block of a node ends where the prefix sum of its new id says:
    what the assertions of the relabelling loops check. *)
Lemma relabel_block_end t (perm o2n : list nat) u :
  perm ≡ₚ all_nodes t →
  (∀ i, i < num_nodes t → o2n !!! (perm !!! i) = i) →
  u < num_nodes t →
  let ps := partial_sum (degree t <$> perm) in
  (if decide (o2n !!! u = 0) then 0 else ps !!! (o2n !!! u - 1)) + degree t u
  = ps !!! (o2n !!! u).
Proof.
  intros Hperm Ho2n Hu ps.
  assert (HlenP : length perm = num_nodes t).
  { rewrite Hperm. unfold all_nodes. apply length_seq. }
  assert (u ∈ perm) as Hin.
  { rewrite Hperm. unfold all_nodes. apply elem_of_seq. lia. }
  apply list_elem_of_lookup_total in Hin as (i & Hi & <-).
  rewrite Ho2n by lia. unfold ps.
  assert (Hld : length (degree t <$> perm) = length perm)
    by apply length_fmap.
  rewrite (lookup_total_partial_sum _ i), sum_list_take_S by lia.
  assert ((degree t <$> perm) !!! i = degree t (perm !!! i)) as ->.
  { apply list_lookup_total_fmap. lia. }
  case_decide as Hz.
  - rewrite Hz. simpl. lia.
  - rewrite lookup_total_partial_sum by lia.
    by replace (S (i - 1)) with i by lia.
Qed.

Lemma do_all_copy {A} `{Inhabited A} (src dst : list A) :
  length dst = length src →
  do_all (iterate 0 (length src)) (λ i d, <[i := src !!! i]> d) dst = src.
Proof.
  intros Hlen. unfold iterate. rewrite Nat.sub_0_r.
  destruct (do_all_insert_seq (λ i, src !!! i) (length src) 0 dst)
    as [Hl Hlook].
  apply list_eq. intros i. rewrite Hlook.
  destruct (decide (i < length src)) as [Hi|Hi].
  - rewrite decide_True by lia.
    destruct (lookup_lt_is_Some_2 dst i) as [y ->]; [lia|]. simpl.
    symmetry. by apply list_lookup_lookup_total_lt.
  - rewrite decide_False by lia. rewrite !lookup_ge_None_2 by lia. done.
Qed.

Lemma fmap_lookup_total_seq {A} `{Inhabited A} (l : list A) :
  (λ i, l !!! i) <$> seq 0 (length l) = l.
Proof.
  apply list_eq. intros i. rewrite list_lookup_fmap.
  destruct (decide (i < length l)) as [Hi|Hi].
  - rewrite lookup_seq_lt by done. simpl.
    symmetry. by apply list_lookup_lookup_total_lt.
  - rewrite lookup_seq_ge, lookup_ge_None_2 by lia. done.
Qed.

Lemma bind_ext_in {A B} (f g : A → list B) (l : list A) :
  (∀ x, x ∈ l → f x = g x) → l ≫= f = l ≫= g.
Proof.
  induction l as [|x l IH]; intros Hfg; [done|].
  rewrite !bind_cons, Hfg by left. f_equal. apply IH.
  intros y Hy. apply Hfg. by right.
Qed.

Lemma fmap_bind_comm {A B C} (h : B → C) (f : A → list B) (l : list A) :
  h <$> (l ≫= f) = l ≫= (λ x, h <$> f x).
Proof.
  induction l as [|x l IH]; [done|].
  by rewrite !bind_cons, fmap_app, IH.
Qed.

Lemma fmap_ext_in {A B} (f g : A → B) (l : list A) :
  (∀ x, x ∈ l → f x = g x) → f <$> l = g <$> l.
Proof.
  induction l as [|x l IH]; intros Hfg; [done|].
  csimpl. rewrite Hfg by left. f_equal. apply IH.
  intros y Hy. apply Hfg. by right.
Qed.

Lemma edge_pairs_out_neighbors t :
  edge_pairs t = all_nodes t ≫= (λ n, (λ d, (n, d)) <$> out_neighbors t n).
Proof.
  unfold edge_pairs, out_neighbors. apply bind_ext_in. intros n _.
  by rewrite <- list_fmap_compose.
Qed.

(** A relabelled topology has the edges of the original one, relabelled. *)
Lemma relabel_edge_pairs t t' (perm : list nat) (σ : nat → nat) :
  csr_wf t → perm ≡ₚ all_nodes t →
  num_nodes t' = num_nodes t →
  (∀ i, i < num_nodes t → σ (perm !!! i) = i) →
  (∀ i, i < num_nodes t →
     degree t' i = degree t (perm !!! i)
     ∧ out_neighbors t' i = σ <$> out_neighbors t (perm !!! i)) →
  edge_pairs t' ≡ₚ prod_map σ σ <$> edge_pairs t
  ∧ degree_pairs t' ≡ₚ degree_pairs t.
Proof.
  intros Hwf Hperm HN Hσ Hrel.
  assert (HlenP : length perm = num_nodes t).
  { rewrite Hperm. unfold all_nodes. apply length_seq. }
  assert (Hep : edge_pairs t' ≡ₚ prod_map σ σ <$> edge_pairs t).
  { rewrite (edge_pairs_out_neighbors t'), (edge_pairs_out_neighbors t).
    rewrite fmap_bind_comm.
    set (F := λ u, prod_map σ σ <$> ((λ d, (u, d)) <$> out_neighbors t u)).
    rewrite <- Hperm.
    assert (perm ≫= F = seq 0 (length perm) ≫= (λ i, F (perm !!! i))) as ->.
    { rewrite <- (fmap_lookup_total_seq perm) at 1.
      by rewrite list_fmap_bind. }
    rewrite HlenP. unfold all_nodes. rewrite HN.
    erewrite bind_ext_in; [reflexivity|].
    intros n Hn%elem_of_seq. simpl. unfold F.
    destruct (Hrel n) as [_ ->]; [lia|].
    rewrite <- !list_fmap_compose. apply list_fmap_ext.
    intros _ d _. simpl. unfold prod_map. simpl. rewrite Hσ by lia. done. }
  split; [done|].
  unfold degree_pairs. rewrite Hep, <- list_fmap_compose.
  erewrite fmap_ext_in; [reflexivity|].
  intros [u d] Hp. simpl.
  pose proof (edge_pairs_src t _ Hp) as Hu.
  pose proof (edge_pairs_dst t _ Hwf Hp) as Hd. simpl in *.
  assert (Hinv : ∀ u, u < num_nodes t →
    σ u < num_nodes t ∧ perm !!! (σ u) = u).
  { intros v Hv. assert (v ∈ perm) as Hin.
    { rewrite Hperm. unfold all_nodes. apply elem_of_seq. lia. }
    apply list_elem_of_lookup_total in Hin as (i & Hi & <-).
    rewrite Hσ by lia. split; [lia|done]. }
  destruct (Hinv u Hu) as [Hu1 Hu2]. destruct (Hinv d Hd) as [Hd1 Hd2].
  destruct (Hrel (σ u) Hu1) as [-> _]. destruct (Hrel (σ d) Hd1) as [-> _].
  by rewrite Hu2, Hd2.
Qed.

(** ** SortNodesByDegree and MakeSortedByDegree *)

Lemma pair_greater_asym a b : pair_greater a b = true → pair_greater b a = false.
Proof.
  unfold pair_greater. destruct a as [a1 a2], b as [b1 b2]. simpl.
  repeat case_bool_decide; simpl; try done; lia.
Qed.

Lemma pair_greater_false a b : pair_greater b a = false → b.1 ≤ a.1.
Proof.
  unfold pair_greater. destruct a as [a1 a2], b as [b1 b2]. simpl.
  repeat case_bool_decide; simpl; try done; lia.
Qed.

Lemma merge_psort_perm A (cmp : A → A → bool) l : merge_psort A cmp l ≡ₚ l.
Proof. apply merge_sort_Permutation. Qed.

Lemma merge_psort_sorted A (cmp : A → A → bool) l :
  (∀ a b, cmp a b = true → cmp b a = false) →
  Sorted (λ a b, cmp b a = false) (merge_psort A cmp l).
Proof.
  intros Hasym. apply Sorted_merge_sort.
  intros a b. destruct (cmp b a) eqn:Hba; [right; by apply Hasym|by left].
Qed.

Section node_sort_proofs.
Variable psort : ∀ A : Type, (A → A → bool) → list A → list A.
Hypothesis psort_perm : ∀ A (cmp : A → A → bool) l, psort A cmp l ≡ₚ l.
Hypothesis psort_sorted : ∀ A (cmp : A → A → bool) l,
  (∀ a b, cmp a b = true → cmp b a = false) →
  Sorted (λ a b, cmp b a = false) (psort A cmp l).

(** What [SortNodesByDegree] computes: [perm] lists the old node ids
    in their new order and [o2n] is the [old_to_new_mapping]. *)
Lemma SortNodesByDegree_spec debug pg :
  csr_wf (topology pg) →
  let t := topology pg in
  ∃ pg' (perm o2n : list nat),
    let t' := topology pg' in
    SortNodesByDegree psort debug pg = Ok pg'
    ∧ perm ≡ₚ all_nodes t
    ∧ (∀ i, i < num_nodes t → o2n !!! (perm !!! i) = i)
    ∧ (∀ i, S i < num_nodes t →
         degree t (perm !!! S i) ≤ degree t (perm !!! i))
    ∧ num_nodes t' = num_nodes t ∧ num_edges t' = num_edges t
    ∧ ∀ i, i < num_nodes t →
        degree t' i = degree t (perm !!! i)
        ∧ out_neighbors t' i
          = (λ d, o2n !!! d) <$> out_neighbors t (perm !!! i).
Proof.
  intros Hwf t. unfold SortNodesByDegree. fold t.
  set (N := num_nodes t).
  set (dn0 := do_all (all_nodes t) _ (replicate N (0, 0))).
  assert (Hdn0 : dn0 = (λ n, (degree t n, n)) <$> seq 0 N).
  { unfold dn0, all_nodes. fold N.
    destruct (do_all_insert_seq (λ n, (range_size (edges t n), n)) N 0
                (replicate N (0, 0))) as [Hl Hlook].
    apply list_eq. intros i. rewrite Hlook, list_lookup_fmap.
    destruct (decide (i < N)) as [Hi|Hi].
    - rewrite decide_True by lia.
      rewrite lookup_replicate_2, lookup_seq_lt by done. done.
    - rewrite decide_False by lia.
      rewrite lookup_seq_ge by lia. apply lookup_replicate_None. lia. }
  set (dn := psort _ pair_greater dn0).
  set (perm := snd <$> dn).
  assert (Hdn : dn ≡ₚ dn0) by apply psort_perm.
  assert (Hperm : perm ≡ₚ all_nodes t).
  { unfold perm. rewrite Hdn, Hdn0, <- list_fmap_compose.
    unfold all_nodes. fold N. by rewrite list_fmap_id. }
  assert (HlenP : length perm = N).
  { rewrite Hperm. unfold all_nodes. apply length_seq. }
  assert (HlenDn : length dn = N).
  { unfold perm in HlenP. by rewrite length_fmap in HlenP. }
  assert (Hfst : ∀ p, p ∈ dn → p.1 = degree t p.2).
  { intros p Hp. rewrite Hdn, Hdn0 in Hp.
    apply list_elem_of_fmap in Hp as (n & -> & _). done. }
  assert (Hpermi : ∀ i, i < N → perm !!! i = (dn !!! i).2).
  { intros i Hi. unfold perm. apply list_lookup_total_fmap. lia. }
  assert (Hdegi : ∀ i, i < N → (dn !!! i).1 = degree t (perm !!! i)).
  { intros i Hi. rewrite Hpermi by done. apply Hfst.
    apply list_elem_of_lookup_total_2. lia. }
  rewrite do_all_pair.
  set (ps0 := do_all (iterate 0 N) _ (allocateInterleaved N)).
  set (o2n := do_all (iterate 0 N) _ (allocateInterleaved N)).
  assert (Hps0 : ps0 = degree t <$> perm).
  { unfold ps0, iterate. rewrite Nat.sub_0_r.
    destruct (do_all_insert_seq (λ i, (dn !!! i).1) N 0
                (allocateInterleaved N)) as [Hl Hlook].
    apply list_eq. intros i. rewrite Hlook, list_lookup_fmap.
    unfold allocateInterleaved.
    destruct (decide (i < N)) as [Hi|Hi].
    - rewrite decide_True by lia.
      rewrite lookup_replicate_2 by done. simpl.
      rewrite list_lookup_lookup_total_lt by lia. simpl.
      by rewrite Hdegi.
    - rewrite decide_False by lia.
      rewrite (lookup_ge_None_2 perm) by lia.
      apply lookup_replicate_None. lia. }
  assert (Hnodup : NoDup perm).
  { rewrite Hperm. apply NoDup_seq. }
  assert (Hmem : ∀ i, i < N → perm !!! i < N).
  { intros i Hi. assert (perm !!! i ∈ all_nodes t) as Hin.
    { rewrite <- Hperm. apply list_elem_of_lookup_total_2. lia. }
    unfold all_nodes in Hin. apply elem_of_seq in Hin. lia. }
  assert (Ho2n : length o2n = N ∧ ∀ i, i < N → o2n !!! (perm !!! i) = i).
  { unfold o2n, iterate. rewrite Nat.sub_0_r.
    destruct (do_all_insert_keys (λ i, (dn !!! i).2) N
                (allocateInterleaved N)) as [Hl Hlook].
    - intros i Hi. unfold allocateInterleaved.
      rewrite length_replicate, <- Hpermi by done. by apply Hmem.
    - intros i j Hi Hj Heq. rewrite <- !Hpermi in Heq by done.
      apply (NoDup_lookup perm i j (perm !!! i)); [done| |].
      + apply list_lookup_lookup_total_lt. lia.
      + rewrite Heq. apply list_lookup_lookup_total_lt. lia.
    - unfold allocateInterleaved in Hl. rewrite length_replicate in Hl.
      split; [done|]. intros i Hi. rewrite Hpermi by done. by apply Hlook. }
  destruct Ho2n as [Hlo2n Ho2n].
  set (ps := partial_sum ps0).
  destruct (relabel_spec t perm o2n Hwf Hperm Hlo2n Ho2n)
    as (HN' & HE' & Hrel).
  rewrite <- Hps0 in HN', HE', Hrel. fold ps in HN', HE', Hrel.
  match type of HE' with
  | num_edges {| adj_indices_ := _; dests_ := ?x |} = _ => set (nod' := x) in *
  end.
  match goal with
  | |- context [do_all_m ?l ?b ?s] =>
      assert (Hnod : do_all_m l b s = Ok nod')
  end.
  { apply (do_all_m_Ok _ _
      (λ u out, list_inserts
         (if decide (o2n !!! u = 0) then 0 else ps !!! (o2n !!! u - 1))
         ((λ e, o2n !!! (dests_ t !!! e)) <$> range_items (edges t u)) out)).
    intros u out Hu%elem_of_seq.
    pose proof (do_all_block_write (λ e, o2n !!! (dests_ t !!! e))
                  (range_items (edges t u))) as Hbw.
    cbv zeta. rewrite Hbw.
    pose proof (relabel_block_end t perm o2n u Hperm Ho2n) as Hend.
    rewrite <- Hps0 in Hend. fold ps in Hend.
    rewrite bool_decide_eq_true_2; [by rewrite andb_false_r|].
    rewrite <- Hend by (fold N; lia).
    unfold degree, range_size, range_items. by rewrite length_seq. }
  rewrite Hnod, outcome_bind_Ok.
  assert (Hlps : length ps = N).
  { unfold num_nodes in HN'. simpl in HN'. done. }
  assert (Hlnod : length nod' = num_edges t).
  { unfold num_edges in HE'. simpl in HE'. done. }
  assert (Hadj : do_all (iterate 0 N)
                   (λ node_id oi, <[node_id := ps !!! node_id]> oi)
                   (adj_indices_ t) = ps).
  { rewrite <- Hlps. apply do_all_copy. by rewrite Hlps. }
  assert (Hdst : do_all (iterate 0 (num_edges t))
                   (λ edge_id od, <[edge_id := nod' !!! edge_id]> od)
                   (dests_ t) = nod').
  { rewrite <- Hlnod. apply do_all_copy. by rewrite Hlnod. }
  rewrite Hadj, Hdst.
  eexists _, perm, o2n. split; [reflexivity|]. simpl.
  split; [done|]. split; [done|]. split; [|done].
  intros i Hi. rewrite <- !Hdegi by lia.
  apply pair_greater_false.
  apply (Sorted_lookup_adjacent (λ a b, pair_greater b a = false) dn i).
  - apply psort_sorted, pair_greater_asym.
  - apply list_lookup_lookup_total_lt. lia.
  - apply list_lookup_lookup_total_lt. lia.
Qed.

(** C6: [SortNodesByDegree] completes, in debug and in release
    builds; afterwards the degrees do not increase with the node id,
    and the new topology is the old one relabelled by
    [old_to_new_mapping]: degrees and edges follow the relabelling,
    so the (source degree, destination degree) pairs over all edges
    are the same multiset. *)
Theorem sort_nodes_by_degree (debug : bool) (pg : PropertyGraph) :
  csr_wf (topology pg) →
  let t := topology pg in
  ∃ pg', SortNodesByDegree psort debug pg = Ok pg' ∧
  let t' := topology pg' in
  (∀ n, n + 1 < num_nodes t' → degree t' (n + 1) ≤ degree t' n)
  ∧ degree_pairs t' ≡ₚ degree_pairs t
  ∧ ∃ σ : nat → nat,
      (∀ u, u < num_nodes t → σ u < num_nodes t')
      ∧ (∀ u, u < num_nodes t → degree t' (σ u) = degree t u)
      ∧ edge_pairs t' ≡ₚ prod_map σ σ <$> edge_pairs t.
Proof.
  intros Hwf t.
  destruct (SortNodesByDegree_spec debug pg Hwf)
    as (pg' & perm & o2n & Hrun & Hperm & Ho2n & Hdesc & HN & HE & Hrel).
  exists pg'. split; [exact Hrun|]. intros t'.
  fold t t' in Hperm, Ho2n, Hdesc, HN, HE, Hrel.
  destruct (relabel_edge_pairs t t' perm (λ d, o2n !!! d))
    as [Hep Hdp]; try done.
  assert (Hinv : ∀ u, u < num_nodes t →
    o2n !!! u < num_nodes t ∧ perm !!! (o2n !!! u) = u).
  { intros v Hv. assert (v ∈ perm) as Hin.
    { rewrite Hperm. unfold all_nodes. apply elem_of_seq. lia. }
    assert (length perm = num_nodes t) as HlenP.
    { rewrite Hperm. unfold all_nodes. apply length_seq. }
    apply list_elem_of_lookup_total in Hin as (i & Hi & <-).
    rewrite Ho2n by lia. split; [lia|done]. }
  split; [|split; [done|]].
  - intros n Hn. rewrite HN in Hn. replace (n + 1) with (S n) in * by lia.
    destruct (Hrel n) as [-> _]; [lia|].
    destruct (Hrel (S n)) as [-> _]; [lia|].
    by apply Hdesc.
  - exists (λ d, o2n !!! d). split; [|split; [|done]].
    + intros u Hu. rewrite HN. by apply Hinv.
    + intros u Hu. destruct (Hinv u Hu) as [Hlt Heq].
      destruct (Hrel _ Hlt) as [-> _]. by rewrite Heq.
Qed.

Lemma degree_partial_sum (degs dests : list nat) i :
  i < length degs →
  degree (mkGraphTopology (partial_sum degs) dests) i = degs !!! i.
Proof.
  intros Hi. unfold degree, range_size, edges. simpl.
  rewrite lookup_total_partial_sum, sum_list_take_S by lia.
  case_decide.
  - rewrite lookup_total_partial_sum by lia.
    replace (S (i - 1)) with i by lia. lia.
  - replace i with 0 by lia. simpl. lia.
Qed.

Lemma MakeSortedByDegree_cmp_lt seed i1 i2 :
  MakeSortedByDegree_cmp seed i1 i2
  = bool_decide (degree (est_base seed) i1 < degree (est_base seed) i2).
Proof. unfold MakeSortedByDegree_cmp. by case_decide. Qed.

(** C10: [MakeSortedByDegree] returns a topology whose degrees do not
    decrease with the node id, in debug and in release builds (the
    assertions of [MakeNodeSortedTopo] hold, and the arrays have the
    sizes the constructors assert).  Its comparator is
    "strictly smaller degree"; the tie branch returns [false] like
    the main branch does for equal degrees. *)
Theorem make_sorted_by_degree_ascending (debug : bool)
    (seed_topo : EdgeShuffleTopology) :
  csr_wf (est_base seed_topo) →
  (∀ i1 i2, MakeSortedByDegree_cmp seed_topo i1 i2
            = bool_decide (degree (est_base seed_topo) i1
                           < degree (est_base seed_topo) i2))
  ∧ ∃ st, MakeSortedByDegree psort debug seed_topo = Ok st
      ∧ node_sort_state_ st = NodeSortKind.kSortedByDegree
      ∧ num_nodes (st_topology st) = num_nodes (est_base seed_topo)
      ∧ node_prop_indices_ st ≡ₚ all_nodes (est_base seed_topo)
      ∧ length (edge_prop_indices_ (st_base st)) = num_edges (st_topology st)
      ∧ (∀ n, n < num_nodes (st_topology st) →
           degree (st_topology st) n
           = degree (est_base seed_topo) (node_prop_indices_ st !!! n))
      ∧ ∀ n, n + 1 < num_nodes (st_topology st) →
          degree (st_topology st) n ≤ degree (st_topology st) (n + 1).
Proof.
  intros Hwf. split; [apply MakeSortedByDegree_cmp_lt|].
  unfold MakeSortedByDegree, MakeNodeSortedTopo.
  set (seed := est_base seed_topo) in *. set (N := num_nodes seed).
  set (npi := psort _ _ (seq 0 N)).
  assert (Hperm : npi ≡ₚ seq 0 N) by apply psort_perm.
  assert (HlenP : length npi = N) by (by rewrite Hperm, length_seq).
  assert (Hsorted : Sorted (≤) (degree seed <$> npi)).
  { apply (Sorted_fmap _
      (λ a b, MakeSortedByDegree_cmp seed_topo b a = false)).
    - intros a b. rewrite MakeSortedByDegree_cmp_lt. fold seed.
      intros Hc%bool_decide_eq_false. lia.
    - apply psort_sorted. intros a b.
      rewrite !MakeSortedByDegree_cmp_lt.
      intros Hc%bool_decide_eq_true. apply bool_decide_eq_false. lia. }
  rewrite do_all_pair.
  set (degs := do_all (iterate 0 (length npi))
                 (λ i d, <[i := degree seed (npi !!! i)]> d)
                 (allocateInterleaved N)).
  set (o2n := do_all (iterate 0 (length npi)) _ (allocateInterleaved N)).
  assert (Hdegs : degs = degree seed <$> npi).
  { unfold degs, iterate. rewrite Nat.sub_0_r, HlenP.
    destruct (do_all_insert_seq (λ i, degree seed (npi !!! i)) N 0
                (allocateInterleaved N)) as [Hl Hlook].
    apply list_eq. intros i. rewrite Hlook, list_lookup_fmap.
    unfold allocateInterleaved.
    destruct (decide (i < N)) as [Hi|Hi].
    - rewrite decide_True by lia.
      rewrite lookup_replicate_2 by done. simpl.
      rewrite list_lookup_lookup_total_lt by lia. done.
    - rewrite decide_False by lia.
      rewrite (lookup_ge_None_2 npi) by lia.
      apply lookup_replicate_None. lia. }
  assert (His : is_sorted degs = true).
  { unfold is_sorted. rewrite Hdegs. by apply bool_decide_eq_true. }
  rewrite His, andb_false_r.
  assert (Hnodup : NoDup npi) by (rewrite Hperm; apply NoDup_seq).
  assert (Hmem : ∀ i, i < N → npi !!! i < N).
  { intros i Hi. assert (npi !!! i ∈ seq 0 N) as Hin%elem_of_seq; [|lia].
    rewrite <- Hperm. apply list_elem_of_lookup_total_2. lia. }
  assert (Ho2n : ∀ i, i < N → o2n !!! (npi !!! i) = i).
  { unfold o2n, iterate. rewrite Nat.sub_0_r, HlenP.
    destruct (do_all_insert_keys (λ i, npi !!! i) N (allocateInterleaved N))
      as [_ Hlook]; [| |exact Hlook].
    - intros i Hi. unfold allocateInterleaved. rewrite length_replicate.
      by apply Hmem.
    - intros i j Hi Hj Heq.
      apply (NoDup_lookup npi i j (npi !!! i)); [done| |].
      + apply list_lookup_lookup_total_lt. lia.
      + rewrite Heq. apply list_lookup_lookup_total_lt. lia. }
  set (E := num_edges seed).
  match goal with
  | |- context [do_all_m ?l ?b ?s0] =>
      destruct (do_all_m_total l b
                  (λ _ st, length st.1 = E ∧ length st.2 = E))
        with (s := s0) as ([ndv epi] & Hloop & Hlndv & Hlepi)
  end.
  { intros k old [ndv epi] Hold%list_elem_of_lookup_2%elem_of_seq [Hl1 Hl2].
    pose proof (relabel_block_end seed npi o2n old Hperm Ho2n) as Hend.
    rewrite <- Hdegs in Hend. cbv zeta in Hend.
    match goal with
    | |- context [do_all_m ?l ?b ?s0] =>
        destruct (do_all_m_total l b
                    (λ k st, st.1.1 = s0.1.1 + k
                             ∧ length st.1.2 = E ∧ length st.2 = E))
          with (s := s0) as ([[noi ndv'] epi'] & Hedges & _ & Hl1' & Hl2')
    end.
    - intros j e [[noi ndv'] epi'] He (Hnoi & Hl1' & Hl2'). simpl in *.
      apply lookup_lt_Some in He.
      unfold range_items in He. rewrite length_seq in He.
      rewrite bool_decide_eq_true_2.
      + rewrite andb_false_r. eexists. split; [reflexivity|]. simpl.
        rewrite !length_insert. lia.
      + rewrite <- Hend by (fold N; lia). unfold degree, range_size.
        subst noi. case_decide; case_decide; lia.
    - simpl in *. lia.
    - rewrite Hedges, outcome_bind_Ok. by eexists. }
  { split; apply length_replicate. }
  simpl in Hlndv, Hlepi.
  rewrite Hloop, outcome_bind_Ok.
  eexists. split; [reflexivity|].
  unfold st_topology, ShuffleTopology_make, EdgeShuffleTopology_make.
  simpl. unfold num_nodes at 1 2 3. simpl.
  assert (HlenD : length degs = N).
  { by rewrite Hdegs, length_fmap. }
  rewrite length_partial_sum, HlenD.
  split; [done|]. split; [done|]. split; [done|].
  split; [unfold num_edges; simpl; lia|]. split.
  - intros n Hn. rewrite degree_partial_sum by lia.
    rewrite Hdegs. apply list_lookup_total_fmap. lia.
  - intros n Hn. rewrite !degree_partial_sum by lia.
    rewrite Hdegs in *.
    apply (Sorted_lookup_adjacent (≤) (degree seed <$> npi) n); [done| |].
    + apply list_lookup_lookup_total_lt. rewrite length_fmap. lia.
    + replace (n + 1) with (S n) by lia.
      apply list_lookup_lookup_total_lt. rewrite length_fmap. lia.
Qed.
End node_sort_proofs.

Example SortNodesByDegree_example :
  SortNodesByDegree merge_psort true (PropertyGraph_of example_topology)
  = Ok (mkPropertyGraph (mkGraphTopology [2; 3; 4; 4] [2; 3; 1; 3])
          [0; 0; 0; 0]).
Proof. vm_compute. reflexivity. Qed.

Example MakeSortedByDegree_example :
  MakeSortedByDegree merge_psort true example_seed
  = Ok (ShuffleTopology_make TransposeKind.kNo NodeSortKind.kSortedByDegree
          EdgeSortKind.kAny [0; 1; 2; 4] [2; 1; 3; 0] [0; 2; 1; 0]
          [2; 3; 0; 1]).
Proof. vm_compute. reflexivity. Qed.

Lemma sort_nodes_by_degree_witness :
  let t := topology (PropertyGraph_of example_topology) in
  ∃ pg', SortNodesByDegree merge_psort true
           (PropertyGraph_of example_topology) = Ok pg' ∧
  let t' := topology pg' in
  (∀ n, n + 1 < num_nodes t' → degree t' (n + 1) ≤ degree t' n)
  ∧ degree_pairs t' ≡ₚ degree_pairs t
  ∧ ∃ σ : nat → nat,
      (∀ u, u < num_nodes t → σ u < num_nodes t')
      ∧ (∀ u, u < num_nodes t → degree t' (σ u) = degree t u)
      ∧ edge_pairs t' ≡ₚ prod_map σ σ <$> edge_pairs t.
Proof.
  apply (sort_nodes_by_degree merge_psort merge_psort_perm merge_psort_sorted
           true (PropertyGraph_of example_topology)).
  apply (bool_decide_unpack _). vm_compute. exact I.
Defined.

Lemma make_sorted_by_degree_ascending_witness :
  (∀ i1 i2, MakeSortedByDegree_cmp example_seed i1 i2
            = bool_decide (degree (est_base example_seed) i1
                           < degree (est_base example_seed) i2))
  ∧ ∃ st, MakeSortedByDegree merge_psort true example_seed = Ok st
      ∧ node_sort_state_ st = NodeSortKind.kSortedByDegree
      ∧ num_nodes (st_topology st) = num_nodes (est_base example_seed)
      ∧ node_prop_indices_ st ≡ₚ all_nodes (est_base example_seed)
      ∧ length (edge_prop_indices_ (st_base st)) = num_edges (st_topology st)
      ∧ (∀ n, n < num_nodes (st_topology st) →
           degree (st_topology st) n
           = degree (est_base example_seed) (node_prop_indices_ st !!! n))
      ∧ ∀ n, n + 1 < num_nodes (st_topology st) →
          degree (st_topology st) n ≤ degree (st_topology st) (n + 1).
Proof.
  apply (make_sorted_by_degree_ascending merge_psort merge_psort_perm
           merge_psort_sorted true example_seed).
  apply (bool_decide_unpack _). vm_compute. exact I.
Defined.

(** ** CondensedTypeIDMap *)

Example MakeFromEdgeTypes_example :
  MakeFromEdgeTypes 2 (λ e, e `mod` 2)
    (mkPropertyGraph example_topology [7; 3; 7; 5])
  = Ok (mkCondensedTypeIDMap {[3 := 0; 5 := 1; 7 := 2]} [3; 5; 7] true).
Proof. vm_compute. reflexivity. Qed.

Lemma elem_of_set_insert x s y : y ∈ set_insert x s ↔ y = x ∨ y ∈ s.
Proof.
  induction s as [|z s IH]; simpl.
  - rewrite list_elem_of_singleton, elem_of_nil. tauto.
  - repeat case_decide; rewrite ?elem_of_cons, ?IH; subst; tauto.
Qed.

Lemma set_insert_sorted x s :
  StronglySorted (<) s → StronglySorted (<) (set_insert x s).
Proof.
  induction 1 as [|z s Hs IH Hall]; simpl.
  - repeat constructor.
  - repeat case_decide.
    + constructor; [by constructor|].
      constructor; [done|]. eapply Forall_impl; [done|]. simpl. lia.
    + by constructor.
    + constructor; [done|]. apply Forall_forall. intros y Hy.
      apply elem_of_set_insert in Hy as [->|Hy]; [lia|].
      rewrite Forall_forall in Hall. by apply Hall.
Qed.

Lemma do_all_set_insert (l : list nat) : ∀ s,
  let s' := do_all l set_insert s in
  (StronglySorted (<) s → StronglySorted (<) s')
  ∧ ∀ y, y ∈ s' ↔ y ∈ s ∨ y ∈ l.
Proof.
  unfold do_all. induction l as [|x l IH]; intros s; simpl.
  - split; [done|]. intros y. rewrite elem_of_nil. tauto.
  - destruct (IH (set_insert x s)) as [Hs Hin]. split.
    + intros Hsorted. by apply Hs, set_insert_sorted.
    + intros y. rewrite Hin, elem_of_set_insert, elem_of_cons. tauto.
Qed.

Lemma sorted_lt_unique (l1 l2 : list nat) :
  StronglySorted (<) l1 → StronglySorted (<) l2 →
  (∀ y, y ∈ l1 ↔ y ∈ l2) → l1 = l2.
Proof.
  intros H1 H2 Hiff.
  assert (Hnd : ∀ l, StronglySorted (<) l → NoDup l).
  { induction 1 as [|z l Hl IH Hall]; constructor; [|done].
    intros Hz. rewrite Forall_forall in Hall. specialize (Hall z Hz). lia. }
  apply (StronglySorted_unique_strong (<)); [|done|done|].
  - intros x y _ _ Hxy Hyx. lia.
  - apply NoDup_Permutation; auto.
Qed.

(** The first loop: whatever the schedule, the per-thread sets hold
    together the types of the edges processed so far. *)
Lemma per_thread_sets (ty : Edge → EntityType) (sched : Edge → nat)
    (es : list Edge) : ∀ (ets : list (list EntityType)),
  (∀ e, e ∈ es → sched e < length ets) →
  let ets' := do_all es
    (λ e ets, <[sched e := set_insert (ty e) (ets !!! sched e)]> ets) ets in
  length ets' = length ets
  ∧ ∀ y, y ∈ mjoin ets' ↔ y ∈ mjoin ets ∨ ∃ e, e ∈ es ∧ ty e = y.
Proof.
  unfold do_all. induction es as [|e es IH]; intros ets Hs; simpl.
  - split; [done|]. intros y. split; [by left|].
    intros [?|(e & He & _)]; [done|]. by apply elem_of_nil in He.
  - assert (He : sched e < length ets) by (apply Hs; left).
    destruct (IH (<[sched e := set_insert (ty e) (ets !!! sched e)]> ets))
      as [Hlen Hin].
    { intros e' He'. rewrite length_insert. apply Hs. by right. }
    rewrite length_insert in Hlen. split; [done|].
    intros y. rewrite Hin.
    assert (Hstep : y ∈ mjoin (<[sched e := set_insert (ty e) (ets !!! sched e)]> ets)
                    ↔ y = ty e ∨ y ∈ mjoin ets).
    { rewrite !list_elem_of_join. split.
      - intros (s & Hy & Hs').
        apply list_elem_of_lookup in Hs' as (i & Hi).
        destruct (decide (i = sched e)) as [->|Hne].
        + rewrite list_lookup_insert_eq in Hi by done. simplify_eq.
          apply elem_of_set_insert in Hy as [->|Hy]; [by left|].
          right. exists (ets !!! sched e). split; [done|].
          by apply list_elem_of_lookup_total_2.
        + rewrite list_lookup_insert_ne in Hi by done.
          right. exists s. split; [done|]. by eapply list_elem_of_lookup_2.
      - intros [->|(s & Hy & Hs')].
        + exists (set_insert (ty e) (ets !!! sched e)). split.
          * apply elem_of_set_insert. by left.
          * eapply list_elem_of_lookup_2. by apply list_lookup_insert_eq.
        + apply list_elem_of_lookup in Hs' as (i & Hi).
          destruct (decide (i = sched e)) as [->|Hne].
          * exists (set_insert (ty e) (ets !!! sched e)). split.
            -- apply elem_of_set_insert. right.
               by rewrite (list_lookup_total_correct _ _ _ Hi).
            -- eapply list_elem_of_lookup_2. by apply list_lookup_insert_eq.
          * exists s. split; [done|].
            eapply list_elem_of_lookup_2.
            rewrite list_lookup_insert_ne by done. done. }
    rewrite Hstep. split.
    + intros [[->|Hy]|(e' & He' & <-)].
      * right. exists e. split; [left|done].
      * by left.
      * right. exists e'. split; [by right|done].
    + intros [Hy|(e' & He' & <-)].
      * left. by right.
      * apply elem_of_cons in He' as [->|He'].
        -- left. by left.
        -- right. by exists e'.
Qed.

(** The merge loop over the threads. *)
Lemma merge_thread_sets (ets : list (list EntityType)) :
  let merged := do_all (iterate 0 (length ets))
    (λ i mergedSet, do_all (ets !!! i) set_insert mergedSet) [] in
  StronglySorted (<) merged ∧ ∀ y, y ∈ merged ↔ y ∈ mjoin ets.
Proof.
  assert (Heq : do_all (iterate 0 (length ets))
      (λ i mergedSet, do_all (ets !!! i) set_insert mergedSet) []
    = do_all (mjoin ets) set_insert []).
  { assert (Hj : mjoin ets = seq 0 (length ets) ≫= (λ i, ets !!! i)).
    { rewrite list_join_bind.
      transitivity (((λ i, ets !!! i) <$> seq 0 (length ets)) ≫= id).
      - by rewrite fmap_lookup_total_seq.
      - by rewrite list_fmap_bind. }
    unfold do_all, iterate. rewrite Nat.sub_0_r, Hj, foldl_bind. done. }
  simpl. rewrite Heq.
  destruct (do_all_set_insert (mjoin ets) []) as [Hs Hin]. split.
  - apply Hs. constructor.
  - intros y. rewrite Hin, elem_of_nil. tauto.
Qed.

(** The numbering loop. *)
Lemma number_types (ms : list EntityType) :
  ∀ (t2i : gmap EntityType nat) (i2t : list EntityType),
  NoDup (i2t ++ ms) →
  size t2i = length i2t →
  (∀ ty i, t2i !! ty = Some i ↔ i2t !! i = Some ty) →
  ∃ t2i', do_all ms
      (λ edgeType '(type_to_index, index_to_type, num_edge_types),
         (<[edgeType := num_edge_types]> type_to_index,
          index_to_type ++ [edgeType], num_edge_types + 1))
      (t2i, i2t, length i2t)
    = (t2i', i2t ++ ms, length (i2t ++ ms))
    ∧ size t2i' = length (i2t ++ ms)
    ∧ ∀ ty i, t2i' !! ty = Some i ↔ (i2t ++ ms) !! i = Some ty.
Proof.
  unfold do_all. induction ms as [|x ms IH]; intros t2i i2t Hnd Hsize Hrel.
  - exists t2i. rewrite app_nil_r. done.
  - simpl. replace (length i2t + 1) with (length (i2t ++ [x]))
      by (rewrite length_app; simpl; lia).
    assert (Hfresh : x ∉ i2t).
    { apply NoDup_app in Hnd as (_ & Hdisj & _). intros Hx.
      apply (Hdisj x Hx). left. }
    assert (Hnone : t2i !! x = None).
    { destruct (t2i !! x) as [i|] eqn:Hx; [|done].
      apply Hrel in Hx. exfalso. apply Hfresh.
      by eapply list_elem_of_lookup_2. }
    destruct (IH (<[x := length i2t]> t2i) (i2t ++ [x]))
      as (t2i' & Heq & Hsz & Hrel').
    + by rewrite <- app_assoc.
    + rewrite map_size_insert_None by done. rewrite length_app. simpl. lia.
    + intros ty i. rewrite lookup_insert.
      destruct (decide (x = ty)) as [->|Hne].
      * split.
        -- intros [= <-]. rewrite lookup_app_r by lia.
           by rewrite Nat.sub_diag.
        -- intros Hi. f_equal.
           destruct (decide (i < length i2t)) as [Hlt|Hge].
           ++ rewrite lookup_app_l in Hi by done. exfalso. apply Hfresh.
              by eapply list_elem_of_lookup_2.
           ++ apply lookup_lt_Some in Hi. rewrite length_app in Hi.
              simpl in Hi. lia.
      * rewrite Hrel. split.
        -- intros Hi. rewrite lookup_app_l; [done|].
           by eapply lookup_lt_Some.
        -- intros Hi. destruct (decide (i < length i2t)) as [Hlt|Hge].
           ++ by rewrite lookup_app_l in Hi.
           ++ rewrite lookup_app_r in Hi by lia.
              destruct (i - length i2t); simpl in Hi; [congruence|done].
    + exists t2i'. rewrite <- app_assoc in *. done.
Qed.

Lemma MakeFromEdgeTypes_spec activeThreads sched pg :
  (∀ e, e < num_edges (topology pg) → sched e < activeThreads) →
  ∃ t2i ms,
    MakeFromEdgeTypes activeThreads sched pg
    = Ok (mkCondensedTypeIDMap t2i ms true)
    ∧ StronglySorted (<) ms
    ∧ (∀ ty, ty ∈ ms ↔ edge_type_present pg ty)
    ∧ (∀ ty i, t2i !! ty = Some i ↔ ms !! i = Some ty).
Proof.
  intros Hsched. unfold MakeFromEdgeTypes.
  set (E := num_edges (topology pg)) in *.
  destruct (per_thread_sets (GetTypeOfEdge pg) sched (iterate 0 E)
              (replicate activeThreads [])) as [Hlen Hin].
  { intros e He. rewrite length_replicate. apply Hsched.
    unfold iterate in He. apply elem_of_seq in He. lia. }
  set (ets := do_all (iterate 0 E) _ (replicate activeThreads [])) in *.
  rewrite length_replicate in Hlen.
  destruct (merge_thread_sets ets) as [Hsorted Hmerged].
  rewrite Hlen in Hsorted, Hmerged.
  set (ms := do_all (iterate 0 activeThreads) _ []) in *.
  assert (Hpresent : ∀ ty, ty ∈ ms ↔ edge_type_present pg ty).
  { intros ty. rewrite Hmerged, Hin. unfold edge_type_present. split.
    - intros [Hy|(e & He & <-)].
      + apply list_elem_of_join in Hy as (s & Hy & Hs).
        apply elem_of_replicate in Hs as [-> _].
        by apply elem_of_nil in Hy.
      + exists e. split; [|done]. unfold iterate in He.
        apply elem_of_seq in He. lia.
    - intros (e & He & <-). right. exists e. split; [|done].
      unfold iterate. apply elem_of_seq. lia. }
  assert (Hnd : NoDup ms).
  { clear -Hsorted. induction Hsorted as [|z l Hl IH Hall]; constructor; [|done].
    intros Hz. rewrite Forall_forall in Hall. specialize (Hall z Hz). lia. }
  destruct (number_types ms ∅ []) as (t2i & Heq & Hsize & Hrel).
  { done. }
  { by rewrite map_size_empty. }
  { intros ty i. rewrite lookup_empty. by destruct i. }
  simpl in Heq, Hsize, Hrel. rewrite Heq.
  unfold CondensedTypeIDMap_make. rewrite decide_True by done.
  by exists t2i, ms.
Qed.

(** C7: for every schedule of the first loop over the worker threads,
    [MakeFromEdgeTypes] returns a map whose indices [0 .. T-1] list the
    edge types present in the graph in ascending order; [GetType] and
    [GetIndex] are inverse to each other; and every other schedule and
    thread count gives the same map. *)
Theorem condensed_type_map_bijection (activeThreads : nat) (sched : Edge → nat)
    (pg : PropertyGraph) :
  (∀ e, e < num_edges (topology pg) → sched e < activeThreads) →
  ∃ m, MakeFromEdgeTypes activeThreads sched pg = Ok m
    ∧ (∀ ty, edge_type_present pg ty
             ↔ ∃ i, i < num_unique_types m ∧ GetType m i = Ok ty)
    ∧ (∀ i j a b, i < j → GetType m i = Ok a → GetType m j = Ok b → a < b)
    ∧ (∀ i ty, GetType m i = Ok ty ↔ GetIndex m ty = Ok i)
    ∧ (∀ ty, has_edge_type_id m ty = true ↔ edge_type_present pg ty)
    ∧ ∀ activeThreads' sched',
        (∀ e, e < num_edges (topology pg) → sched' e < activeThreads') →
        MakeFromEdgeTypes activeThreads' sched' pg = Ok m.
Proof.
  intros Hsched.
  destruct (MakeFromEdgeTypes_spec activeThreads sched pg Hsched)
    as (t2i & ms & Heq & Hsorted & Hpresent & Hrel).
  exists (mkCondensedTypeIDMap t2i ms true). split; [done|].
  unfold GetType, GetIndex, num_unique_types, has_edge_type_id. simpl.
  assert (HgetT : ∀ i ty,
    match ms !! i with Some ty => Ok ty | None => Undefined end = Ok ty
    ↔ ms !! i = Some ty).
  { intros i ty. destruct (ms !! i); split; congruence. }
  assert (HgetI : ∀ i ty,
    match t2i !! ty with Some i => Ok i | None => Fatal end = Ok i
    ↔ t2i !! ty = Some i).
  { intros i ty. destruct (t2i !! ty); split; congruence. }
  split; [|split; [|split; [|split]]].
  - intros ty. rewrite <- Hpresent, list_elem_of_lookup. split.
    + intros (i & Hi). exists i. split; [by eapply lookup_lt_Some|].
      by apply HgetT.
    + intros (i & _ & Hi). exists i. by apply HgetT.
  - intros i j a b Hij Ha%HgetT Hb%HgetT.
    clear -Hsorted Hij Ha Hb. revert i j Hij Ha Hb.
    induction Hsorted as [|z l Hl IH Hall]; intros i j Hij Ha Hb; [done|].
    destruct j as [|j]; [lia|]. destruct i as [|i]; simpl in *.
    + simplify_eq. rewrite Forall_forall in Hall. apply Hall.
      by eapply list_elem_of_lookup_2.
    + apply (IH i j); (lia || done).
  - intros i ty. by rewrite HgetT, HgetI, Hrel.
  - intros ty. rewrite bool_decide_eq_true, <- Hpresent, list_elem_of_lookup.
    split.
    + intros [i Hi]. exists i. by apply Hrel.
    + intros [i Hi]. exists i. by apply Hrel.
  - intros activeThreads' sched' Hsched'.
    destruct (MakeFromEdgeTypes_spec activeThreads' sched' pg Hsched')
      as (t2i' & ms' & Heq' & Hsorted' & Hpresent' & Hrel').
    rewrite Heq'. f_equal.
    assert (ms' = ms) as ->.
    { apply sorted_lt_unique; try done.
      intros y. by rewrite Hpresent, Hpresent'. }
    f_equal. apply map_eq. intros ty. apply option_eq. intros i.
    by rewrite Hrel, Hrel'.
Qed.

Lemma condensed_type_map_bijection_witness :
  let pg := mkPropertyGraph example_topology [7; 3; 7; 5] in
  ∃ m, MakeFromEdgeTypes 2 (λ e, e `mod` 2) pg = Ok m
    ∧ (∀ ty, edge_type_present pg ty
             ↔ ∃ i, i < num_unique_types m ∧ GetType m i = Ok ty)
    ∧ (∀ i j a b, i < j → GetType m i = Ok a → GetType m j = Ok b → a < b)
    ∧ (∀ i ty, GetType m i = Ok ty ↔ GetIndex m ty = Ok i)
    ∧ (∀ ty, has_edge_type_id m ty = true ↔ edge_type_present pg ty)
    ∧ ∀ activeThreads' sched',
        (∀ e, e < num_edges (topology pg) → sched' e < activeThreads') →
        MakeFromEdgeTypes activeThreads' sched' pg = Ok m.
Proof.
  apply (condensed_type_map_bijection 2 (λ e, e `mod` 2)
           (mkPropertyGraph example_topology [7; 3; 7; 5])).
  intros e _. apply Nat.mod_upper_bound. lia.
Defined.

(** ** EdgeTypeAwareTopology *)

Example CreatePerEdgeTypeAdjacencyIndex_example :
  CreatePerEdgeTypeAdjacencyIndex example_typed_pg example_type_map
    example_type_sorted
  = Ok [1; 1; 2;  2; 2; 3;  3; 3; 3;  3; 4; 4].
Proof. vm_compute. reflexivity. Qed.

Lemma sorted_lt_lookup (l : list nat) i j a b :
  StronglySorted (<) l → l !! i = Some a → l !! j = Some b →
  (i < j ↔ a < b) ∧ (i = j ↔ a = b).
Proof.
  intros Hs.
  assert (Hlt : ∀ i j a b, i < j → l !! i = Some a → l !! j = Some b → a < b).
  { clear i j a b. induction Hs as [|z l Hl IH Hall]; intros i j a b Hij Ha Hb;
      [done|].
    destruct j as [|j]; [lia|]. destruct i as [|i]; simpl in *.
    - simplify_eq. rewrite Forall_forall in Hall. apply Hall.
      by eapply list_elem_of_lookup_2.
    - apply (IH i j); (lia || done). }
  intros Ha Hb.
  destruct (lt_eq_lt_dec i j) as [[Hij|Hij]|Hij].
  - pose proof (Hlt _ _ _ _ Hij Ha Hb). lia.
  - subst. simplify_eq. lia.
  - pose proof (Hlt _ _ _ _ Hij Hb Ha). lia.
Qed.

Section per_type_index.
Variables (pg : PropertyGraph) (m : CondensedTypeIDMap)
          (e_topo : EdgeShuffleTopology).
Let topo := est_base e_topo.
Let itt := index_to_type_map_ m.
Let T := num_unique_types m.
Let rt := resolved_type pg e_topo.

Hypothesis Hitt : StronglySorted (<) itt.

Lemma GetType_itt k ty : GetType m k = Ok ty ↔ itt !! k = Some ty.
Proof. unfold GetType. fold itt. destruct (itt !! k); split; congruence. Qed.

Lemma skip_types_spec type e offset k :
  itt !! k = Some type →
  ∀ fuel index adj, index ≤ k → k - index ≤ fuel →
  ∃ adj', skip_types fuel m type e offset index adj = Ok (k, adj')
    ∧ length adj' = length adj
    ∧ ∀ j, adj' !! j = if decide (offset + index ≤ j < offset + k)
                       then (λ _, e) <$> adj !! j else adj !! j.
Proof.
  intros Hk fuel. induction fuel as [|fuel IH]; intros index adj Hle Hfuel.
  - assert (index = k) as -> by lia. simpl. unfold GetType. fold itt.
    rewrite Hk. simpl. rewrite decide_False by (intros ?; done).
    exists adj. split; [done|]. split; [done|].
    intros j. rewrite decide_False; [done|lia].
  - simpl. unfold GetType. fold itt.
    destruct (itt !! index) as [ty0|] eqn:Hidx.
    2:{ apply lookup_ge_None in Hidx. apply lookup_lt_Some in Hk. lia. }
    simpl. destruct (sorted_lt_lookup itt index k ty0 type Hitt Hidx Hk)
      as [Hlt Heq].
    case_decide as Hne.
    + assert (index < k) as Hik.
      { destruct (decide (index = k)) as [->|]; [|lia].
        exfalso. apply Hne. symmetry. by apply Heq. }
      destruct (IH (index + 1) (<[offset + index := e]> adj))
        as (adj' & Hsk & Hlen & Hlook); [lia|lia|].
      exists adj'. split; [done|]. rewrite length_insert in Hlen.
      split; [done|]. intros j. rewrite Hlook.
      destruct (decide (j = offset + index)) as [->|Hj].
      * rewrite decide_False by lia. rewrite decide_True by lia.
        destruct (decide (offset + index < length adj)).
        -- rewrite list_lookup_insert_eq by done.
           destruct (lookup_lt_is_Some_2 adj (offset + index)) as [? ->];
             done.
        -- rewrite list_insert_ge by lia.
           rewrite lookup_ge_None_2 by lia. done.
      * rewrite list_lookup_insert_ne by done.
        repeat case_decide; try done; lia.
    + assert (index = k) as ->.
      { apply Heq. congruence. }
      exists adj. split; [done|]. split; [done|].
      intros j. rewrite decide_False; [done|lia].
Qed.

(** The row of one node. *)
Section row.
Variables (b e_end offset : nat) (adj0 : list Edge).
Hypothesis Hbe : b ≤ e_end.
Hypothesis Hrow : offset + T ≤ length adj0.
Hypothesis Htypes : ∀ y, b ≤ y < e_end → rt y ∈ itt.
Hypothesis Hsort : ∀ y y', b ≤ y → y ≤ y' → y' < e_end → rt y ≤ rt y'.

(** [v] is a valid end offset for type index [k]: it splits the
    node's edges into those of type at most [itt[k]] and the rest. *)
Definition splits (k v : nat) : Prop :=
  b ≤ v ≤ e_end ∧ ∀ y, b ≤ y < e_end → (y < v ↔ rt y ≤ itt !!! k).

Definition row_inv (x index : nat) (adj : list Edge) : Prop :=
  b ≤ x ≤ e_end
  ∧ (x = b → index = 0)
  ∧ (b < x → itt !! index = Some (rt (x - 1)))
  ∧ length adj = length adj0
  ∧ (∀ k, k < index → ∃ v, adj !! (offset + k) = Some v ∧ splits k v)
  ∧ (∀ j, ¬ (offset ≤ j < offset + T) → adj !! j = adj0 !! j).

Lemma row_edges_loop len : ∀ x index adj,
  x + len = e_end → row_inv x index adj →
  ∃ index' adj',
    do_all_m (seq x len)
      (λ e '(index, adj_indices),
         skip_types T m (GetTypeOfEdge pg (edge_property_index e_topo e))
           e offset index adj_indices)
      (index, adj)
    = Ok (index', adj')
    ∧ row_inv e_end index' adj'.
Proof.
  induction len as [|len IH]; intros x index adj Hx Hinv.
  - simpl. exists index, adj. split; [done|].
    by replace e_end with x by lia.
  - destruct Hinv as (Hxr & Hx0 & Hprev & Hlen & Hdone & Hframe).
    assert (Hxin : b ≤ x < e_end) by lia.
    destruct (list_elem_of_lookup_1 _ _ (Htypes x Hxin)) as [k Hk].
    assert (Hik : index ≤ k).
    { destruct (decide (x = b)) as [->|Hxb]; [rewrite Hx0 by done; lia|].
      assert (Hp : itt !! index = Some (rt (x - 1))) by (apply Hprev; lia).
      destruct (sorted_lt_lookup itt k index _ _ Hitt Hk Hp) as [Hlt _].
      assert (rt (x - 1) ≤ rt x) by (apply Hsort; lia).
      destruct (decide (k < index)) as [Hki|]; [|lia].
      apply Hlt in Hki. lia. }
    assert (HkT : k < T) by (by eapply lookup_lt_Some).
    destruct (skip_types_spec (rt x) x offset k Hk T index adj)
      as (adj1 & Hsk & Hlen1 & Hlook1); [done|lia|].
    simpl. fold (resolved_type pg e_topo x). fold rt. rewrite Hsk. simpl.
    destruct (IH (S x) k adj1) as (index' & adj' & Hloop & Hinv');
      [lia| |by exists index', adj'].
    split; [lia|]. split; [lia|]. split.
    { intros _. by replace (S x - 1) with x by lia. }
    split; [congruence|]. split.
    + intros k0 Hk0. destruct (decide (k0 < index)) as [Hlt|Hge].
      * destruct (Hdone k0 Hlt) as (v & Hv & Hsp). exists v.
        split; [|done]. rewrite Hlook1, decide_False by lia. done.
      * exists x. split.
        -- rewrite Hlook1, decide_True by lia.
           destruct (lookup_lt_is_Some_2 adj (offset + k0)) as [? ->];
             [lia|done].
        -- split; [lia|]. intros y Hy.
           destruct (lookup_lt_is_Some_2 itt k0) as [t0 Ht0];
             [change (length itt) with T; lia|].
           rewrite (list_lookup_total_correct _ _ _ Ht0).
           destruct (sorted_lt_lookup itt k0 k _ _ Hitt Ht0 Hk)
             as [Hlt0 _].
           assert (t0 < rt x) by (apply Hlt0; lia).
           split.
           ++ intros Hyx.
              assert (Hp : itt !! index = Some (rt (x - 1)))
                by (apply Hprev; lia).
              assert (rt y ≤ rt (x - 1)) by (apply Hsort; lia).
              destruct (sorted_lt_lookup itt index k0 _ _ Hitt Hp Ht0)
                as [Hlt1 Heq1].
              destruct (decide (index = k0)) as [Heq|Hneq].
              ** apply Heq1 in Heq. lia.
              ** assert (index < k0) as Hlt2%Hlt1 by lia. lia.
           ++ intros Hty. destruct (decide (y < x)); [done|].
              assert (rt x ≤ rt y) by (apply Hsort; lia). lia.
    + intros j Hj. rewrite Hlook1, decide_False by lia. by apply Hframe.
Qed.

Lemma row_spec :
  ∃ adj',
    ('(index, adj_indices) ←
       do_all_m (seq b (e_end - b))
         (λ e '(index, adj_indices),
            skip_types T m
              (GetTypeOfEdge pg (edge_property_index e_topo e))
              e offset index adj_indices)
         (0, adj0);
     Ok (do_all (iterate index T)
           (λ index adj_indices, <[offset + index := e_end]> adj_indices)
           adj_indices))
    = Ok adj'
    ∧ length adj' = length adj0
    ∧ (∀ k, k < T → ∃ v, adj' !! (offset + k) = Some v ∧ splits k v)
    ∧ (∀ j, ¬ (offset ≤ j < offset + T) → adj' !! j = adj0 !! j).
Proof.
  destruct (row_edges_loop (e_end - b) b 0 adj0)
    as (index & adj1 & Hloop & Hinv); [lia| |].
  { split; [lia|]. split; [done|]. split; [lia|]. split; [done|].
    split; [intros; lia|done]. }
  rewrite Hloop. simpl.
  destruct Hinv as (_ & Hx0 & Hprev & Hlen & Hdone & Hframe).
  eexists. split; [reflexivity|].
  unfold iterate.
  destruct (do_all_insert_seq (λ _ : nat, e_end) (T - index) (offset + index)
              adj1) as [Hl Hlook].
  assert (Hshift : do_all (seq index (T - index))
      (λ index adj_indices, <[offset + index := e_end]> adj_indices) adj1
    = do_all (seq (offset + index) (T - index))
        (λ n l, <[n := e_end]> l) adj1).
  { unfold do_all. rewrite <- (fmap_add_seq offset), foldl_fmap. done. }
  rewrite Hshift. split; [congruence|]. split.
  - intros k Hk. destruct (decide (k < index)) as [Hlt|Hge].
    + destruct (Hdone k Hlt) as (v & Hv & Hsp). exists v.
      split; [|done]. rewrite Hlook, decide_False by lia. done.
    + exists e_end. split.
      * rewrite Hlook, decide_True by lia.
        destruct (lookup_lt_is_Some_2 adj1 (offset + k)) as [? ->];
          [lia|done].
      * split; [lia|]. intros y Hy. split; [|lia]. intros _.
        assert (Hp : itt !! index = Some (rt (e_end - 1)))
          by (apply Hprev; lia).
        assert (rt y ≤ rt (e_end - 1)) by (apply Hsort; lia).
        destruct (lookup_lt_is_Some_2 itt k) as [t0 Ht0]; [change (length itt) with T; lia|].
        rewrite (list_lookup_total_correct _ _ _ Ht0).
        destruct (sorted_lt_lookup itt index k _ _ Hitt Hp Ht0)
          as [Hlt1 Heq1].
        destruct (decide (index = k)) as [Heq|Hneq].
        -- apply Heq1 in Heq. lia.
        -- assert (index < k) as Hlt2%Hlt1 by lia. lia.
  - intros j Hj. rewrite Hlook, decide_False by lia. by apply Hframe.
Qed.
End row.
End per_type_index.

Lemma edges_end_le t n :
  csr_wf t → n < num_nodes t → (edges t n).2 ≤ num_edges t.
Proof.
  intros (Hs & Hlast & _) Hn. rewrite Hlast, decide_False by lia.
  unfold edges. simpl. apply Sorted_le_lookup; [done|lia|].
  unfold num_nodes in *. lia.
Qed.

Lemma edges_begin_prev t n :
  0 < n → (edges t n).1 = (edges t (n - 1)).2.
Proof. intros Hn. unfold edges. simpl. by rewrite decide_True by done. Qed.

Section per_type_rows.
Variables (pg : PropertyGraph) (m : CondensedTypeIDMap)
          (e_topo : EdgeShuffleTopology).
Let topo := est_base e_topo.
Let itt := index_to_type_map_ m.
Let T := num_unique_types m.
Let rt := resolved_type pg e_topo.

Hypothesis Hitt : StronglySorted (<) itt.
Hypothesis Hwf : csr_wf topo.
Hypothesis Htypes : ∀ e, e < num_edges topo → rt e ∈ itt.
Hypothesis Hsorted : sorted_by_edge_type pg e_topo.

Lemma node_types_sorted n y y' :
  n < num_nodes topo →
  (edges topo n).1 ≤ y → y ≤ y' → y' < (edges topo n).2 → rt y ≤ rt y'.
Proof.
  intros Hn Hy Hyy' Hy'. unfold sorted_by_edge_type in Hsorted.
  rewrite Forall_forall in Hsorted.
  assert (Hin : n ∈ all_nodes (est_base e_topo)).
  { unfold all_nodes. apply elem_of_seq. fold topo. lia. }
  specialize (Hsorted n Hin). fold topo in Hsorted. fold rt in Hsorted.
  unfold range_items in Hsorted.
  set (b := (edges topo n).1) in *. set (e := (edges topo n).2) in *.
  pose proof (Sorted_le_lookup _ (y - b) (y' - b) Hsorted) as Hle.
  rewrite length_fmap, length_seq in Hle.
  assert (Hl : ∀ i, i < e - b → (rt <$> seq b (e - b)) !!! i = rt (b + i)).
  { intros i Hi. apply list_lookup_total_correct.
    rewrite list_lookup_fmap, lookup_seq_lt by done. done. }
  rewrite !Hl in Hle by lia.
  replace (b + (y - b)) with y in Hle by lia.
  replace (b + (y' - b)) with y' in Hle by lia.
  apply Hle; lia.
Qed.

Definition node_row_ok (n : Node) (adj : list Edge) : Prop :=
  ∀ i, i < T →
    ∃ v, adj !! (n * T + i) = Some v
         ∧ splits pg m e_topo (edges topo n).1 (edges topo n).2 i v.

Lemma rows_spec k : ∀ a adj,
  a + k ≤ num_nodes topo → length adj = num_nodes topo * T →
  ∃ adj',
    do_all_m (seq a k)
      (λ N adj_indices,
         '(index, adj_indices) ←
           do_all_m (range_items (edges topo N))
             (λ e '(index, adj_indices),
                skip_types T m
                  (GetTypeOfEdge pg (edge_property_index e_topo e))
                  e (N * T) index adj_indices)
             (0, adj_indices);
         Ok (do_all (iterate index T)
               (λ index adj_indices,
                  <[N * T + index := range_end (edges topo N)]> adj_indices)
               adj_indices))
      adj
    = Ok adj'
    ∧ length adj' = length adj
    ∧ (∀ n, a ≤ n < a + k → node_row_ok n adj')
    ∧ (∀ j, ¬ (a * T ≤ j < (a + k) * T) → adj' !! j = adj !! j).
Proof.
  induction k as [|k IH]; intros a adj Hak Hlen.
  - exists adj. simpl. split; [done|]. split; [done|].
    split; [intros; lia|done].
  - assert (Ha : a < num_nodes topo) by lia.
    destruct (row_spec pg m e_topo Hitt (edges topo a).1 (edges topo a).2
                (a * T) adj) as (adj1 & Hrow & Hlen1 & Hok1 & Hframe1).
    + by apply edges_le.
    + fold T. rewrite Hlen. nia.
    + intros y Hy. apply Htypes.
      pose proof (edges_end_le topo a Hwf Ha). lia.
    + intros y y' ? ? ?. by apply (node_types_sorted a).
    + fold T in Hrow, Hok1, Hframe1.
      destruct (IH (S a) adj1) as (adj' & Hloop & Hlen' & Hok' & Hframe');
        [lia|congruence|].
      exists adj'. change (seq a (S k)) with (a :: seq (S a) k).
      rewrite do_all_m_cons. unfold range_items, range_end.
      rewrite Hrow. split; [exact Hloop|].
      split; [congruence|]. split.
      * intros n Hn. destruct (decide (n = a)) as [->|Hne].
        -- intros i Hi. destruct (Hok1 i Hi) as (v & Hv & Hsp).
           exists v. split; [|done]. rewrite Hframe'; [done|]. nia.
        -- apply Hok'. lia.
      * intros j Hj. rewrite Hframe' by nia. apply Hframe1. nia.
Qed.
End per_type_rows.

Lemma per_type_index_spec pg m e_topo :
  let topo := est_base e_topo in
  StronglySorted (<) (index_to_type_map_ m) →
  csr_wf topo →
  (∀ e, e < num_edges topo → resolved_type pg e_topo e ∈ index_to_type_map_ m) →
  sorted_by_edge_type pg e_topo →
  ∃ adj, CreatePerEdgeTypeAdjacencyIndex pg m e_topo = Ok adj
    ∧ length adj = num_nodes topo * num_unique_types m
    ∧ (0 < num_unique_types m → ∀ n, n < num_nodes topo →
         node_row_ok pg m e_topo n adj).
Proof.
  intros topo Hitt Hwf Htypes Hsorted.
  unfold CreatePerEdgeTypeAdjacencyIndex. fold topo.
  destruct (decide (num_nodes topo = 0)) as [HN|HN].
  { destruct Hwf as (_ & HE & _). rewrite decide_True in HE by done.
    rewrite decide_True by done. exists []. split; [done|].
    split; [by rewrite HN|]. intros; lia. }
  destruct (decide (num_unique_types m = 0)) as [HT|HT].
  { assert (num_edges topo = 0) as HE.
    { destruct (decide (num_edges topo = 0)) as [|HE]; [done|].
      assert (0 < num_edges topo) as Hin%Htypes by lia.
      unfold num_unique_types in HT. apply nil_length_inv in HT.
      rewrite HT in Hin. by apply elem_of_nil in Hin. }
    rewrite decide_True by done. exists []. split; [done|].
    split; [rewrite HT; simpl; lia|]. intros; lia. }
  destruct (rows_spec pg m e_topo Hitt Hwf Htypes Hsorted (num_nodes topo) 0
              (allocateInterleaved (num_nodes topo * num_unique_types m)))
    as (adj' & Hloop & Hlen & Hok & _); [fold topo; lia| |].
  { unfold allocateInterleaved. by rewrite length_replicate. }
  exists adj'. split; [exact Hloop|]. split.
  - rewrite Hlen. unfold allocateInterleaved. by rewrite length_replicate.
  - intros _ n Hn. apply Hok. fold topo. lia.
Qed.

(** The typed range of a node, given the rows of the index. *)
Lemma edges_of_type_spec debug pg m e_topo adj n ty i :
  let topo := est_base e_topo in
  let rt := resolved_type pg e_topo in
  StronglySorted (<) (index_to_type_map_ m) →
  csr_wf topo →
  (∀ e, e < num_edges topo → rt e ∈ index_to_type_map_ m) →
  (∀ n, n < num_nodes topo → node_row_ok pg m e_topo n adj) →
  n < num_nodes topo →
  type_to_index_map_ m !! ty = Some i →
  index_to_type_map_ m !! i = Some ty →
  ∃ r, edges_of_type debug (mkEdgeTypeAwareTopology m e_topo adj) n ty = Ok r
    ∧ (edges topo n).1 ≤ r.1 ∧ r.1 ≤ r.2 ∧ r.2 ≤ (edges topo n).2
    ∧ ∀ x, r.1 ≤ x < r.2 ↔ ((edges topo n).1 ≤ x < (edges topo n).2 ∧ rt x = ty).
Proof.
  intros topo rt Hitt Hwf Htypes Hrows Hn Hidx Hty.
  set (itt := index_to_type_map_ m) in *.
  set (T := num_unique_types m).
  assert (HiT : i < T) by (by eapply lookup_lt_Some).
  set (b := (edges topo n).1). set (e := (edges topo n).2).
  assert (Hbe : b ≤ e) by (by apply edges_le).
  assert (HeE : e ≤ num_edges topo) by (by apply edges_end_le).
  (* the end offset *)
  destruct (Hrows n Hn i HiT) as (hi & Hhi & [Hhir Hhis]).
  fold topo b e itt rt in Hhir, Hhis.
  rewrite (list_lookup_total_correct _ _ _ Hty) in Hhis.
  (* the begin offset *)
  assert (Hlo : ∃ lo,
    (if decide (n * T + i = 0) then Ok 0 else read adj (n * T + i - 1)) = Ok lo
    ∧ b ≤ lo ≤ e ∧ ∀ y, b ≤ y < e → (y < lo ↔ rt y < ty)).
  { destruct (decide (i = 0)) as [->|Hi0].
    - assert (Hmin : ∀ y, b ≤ y < e → ¬ rt y < ty).
      { intros y Hy. assert (y < num_edges topo) as Hin%Htypes by lia.
        apply list_elem_of_lookup in Hin as [ky Hky].
        destruct (sorted_lt_lookup itt ky 0 _ _ Hitt Hky Hty) as [Hlt _].
        intros Hc%Hlt. lia. }
      exists b. split; [|split; [lia|]].
      + destruct (decide (n = 0)) as [->|Hn0].
        * rewrite decide_True by lia. unfold b, edges. simpl. done.
        * rewrite decide_False by (unfold T in *; nia).
          destruct (Hrows (n - 1)) with (i := T - 1)
            as (v & Hv & [Hvr Hvs]); [lia|lia|].
          fold topo itt rt in Hvr, Hvs.
          assert (n * T + 0 - 1 = (n - 1) * num_unique_types m + (T - 1))
            as -> by (unfold T in *; nia).
          unfold read. rewrite Hv. f_equal.
          unfold b. rewrite edges_begin_prev by lia.
          set (b' := (edges topo (n - 1)).1) in *.
          set (e' := (edges topo (n - 1)).2) in *.
          destruct (decide (v = e')) as [|Hne]; [done|].
          assert (Hvin : b' ≤ v < e') by lia.
          assert (e' ≤ num_edges topo) by (apply edges_end_le; [done|lia]).
          assert (v < num_edges topo) as Hin%Htypes by lia.
          apply list_elem_of_lookup in Hin as [kv Hkv].
          destruct (lookup_lt_is_Some_2 itt (T - 1)) as [tmax Htmax];
            [change (length itt) with T; lia|].
          rewrite (list_lookup_total_correct _ _ _ Htmax) in Hvs.
          destruct (sorted_lt_lookup itt (T - 1) kv _ _ Hitt Htmax Hkv)
            as [Hlt _].
          assert (kv < T) by (by eapply lookup_lt_Some).
          assert (rt v ≤ tmax) as Hmax.
          { destruct (decide (tmax < rt v)) as [Hc%Hlt|]; lia. }
          apply Hvs in Hmax; lia.
      + intros y Hy. split; [lia|]. intros Hc. by apply Hmin in Hc.
    - rewrite decide_False by lia.
      destruct (Hrows n Hn (i - 1)) as (lo & Hlo & [Hlor Hlos]); [lia|].
      fold topo b e itt rt in Hlor, Hlos.
      exists lo. split.
      + unfold read.
        assert (n * T + i - 1 = n * num_unique_types m + (i - 1))
          as -> by (unfold T in *; lia).
        by rewrite Hlo.
      + split; [done|]. intros y Hy. rewrite (Hlos y Hy).
        destruct (lookup_lt_is_Some_2 itt (i - 1)) as [tp Htp];
          [change (length itt) with T; lia|].
        rewrite (list_lookup_total_correct _ _ _ Htp).
        assert (y < num_edges topo) as Hin%Htypes by lia.
        apply list_elem_of_lookup in Hin as [ky Hky].
        destruct (sorted_lt_lookup itt ky (i - 1) _ _ Hitt Hky Htp)
          as [Hlt1 Heq1].
        destruct (sorted_lt_lookup itt ky i _ _ Hitt Hky Hty) as [Hlt2 Heq2].
        split.
        * intros Hle. apply Hlt2.
          destruct (decide (ky = i - 1)) as [|Hne]; [lia|].
          assert (rt y ≠ tp) by (intros Hc%Heq1; done).
          assert (ky < i - 1) by (apply Hlt1; lia). lia.
        * intros Hc%Hlt2.
          destruct (decide (ky = i - 1)) as [Heq%Heq1|Hne]; [lia|].
          assert (ky < i - 1) as Hk%Hlt1 by lia. lia. }
  destruct Hlo as (lo & Hlo & Hlor & Hlos).
  assert (Hlohi : lo ≤ hi).
  { destruct (decide (lo ≤ hi)) as [|Hc]; [done|].
    assert (Hin : b ≤ hi < e) by lia.
    pose proof (Hlos hi Hin) as H1. pose proof (Hhis hi Hin) as H2. lia. }
  exists (lo, hi). split.
  - unfold edges_of_type, GetIndex. simpl.
    rewrite bool_decide_eq_true_2, andb_false_r by (fold T; lia).
    rewrite Hidx. simpl.
    fold T. rewrite Hlo. simpl. unfold read.
    change (adj !! (n * T + i)) with (adj !! (n * num_unique_types m + i)).
    rewrite Hhi. done.
  - simpl. fold b e. split; [lia|]. split; [done|]. split; [lia|].
    intros x. split.
    + intros Hx. assert (Hin : b ≤ x < e) by lia. split; [done|].
      pose proof (Hlos x Hin). pose proof (Hhis x Hin). lia.
    + intros [Hin Hrt]. pose proof (Hlos x Hin). pose proof (Hhis x Hin). lia.
Qed.

(** C8: over a topology of the graph's edges that is in state
    [kSortedByEdgeType] and whose nodes have their edges sorted by
    type, with the condensed map of the graph, [MakeFrom] returns (in
    debug and in release builds) a topology in which [edges(n, t)] is
    a sub-range of [edges(n)] that holds exactly the edges of [n] whose
    resolved type is [t]; every edge of [n] has a type of the map, so
    it lies in the typed range of its own type and in no other. *)
Theorem typed_edges_partition (debug : bool) (activeThreads : nat)
    (sched : Edge → nat) (pg : PropertyGraph) (m : CondensedTypeIDMap)
    (e_topo : EdgeShuffleTopology) :
  (∀ e, e < num_edges (topology pg) → sched e < activeThreads) →
  MakeFromEdgeTypes activeThreads sched pg = Ok m →
  csr_wf (est_base e_topo) →
  has_edges_sorted_by e_topo EdgeSortKind.kSortedByEdgeType = true →
  num_edges (est_base e_topo) = num_edges (topology pg) →
  length (edge_prop_indices_ e_topo) = num_edges (est_base e_topo) →
  Forall (λ i, i < num_edges (topology pg)) (edge_prop_indices_ e_topo) →
  sorted_by_edge_type pg e_topo →
  let topo := est_base e_topo in
  ∃ t, EdgeTypeAwareTopology_MakeFrom debug pg m e_topo = Ok t
    ∧ (∀ n ty, n < num_nodes topo → has_edge_type_id m ty = true →
         ∃ r, edges_of_type debug t n ty = Ok r
           ∧ (edges topo n).1 ≤ r.1 ∧ r.1 ≤ r.2 ∧ r.2 ≤ (edges topo n).2
           ∧ ∀ x, r.1 ≤ x < r.2
                  ↔ ((edges topo n).1 ≤ x < (edges topo n).2
                     ∧ resolved_type pg e_topo x = ty))
    ∧ (∀ n x, n < num_nodes topo →
         (edges topo n).1 ≤ x < (edges topo n).2 →
         has_edge_type_id m (resolved_type pg e_topo x) = true).
Proof.
  intros Hsched Hm Hwf Hstate HE Hlen Hprops Hsorted topo.
  destruct (MakeFromEdgeTypes_spec activeThreads sched pg Hsched)
    as (t2i & ms & Heq & Hitt & Hpresent & Hrel).
  rewrite Heq in Hm. injection Hm as <-.
  assert (Htypes : ∀ e, e < num_edges topo → resolved_type pg e_topo e ∈ ms).
  { intros e He. apply Hpresent. unfold resolved_type, edge_type_present.
    exists (edge_property_index e_topo e). split; [|done].
    rewrite Forall_forall in Hprops. apply Hprops.
    unfold edge_property_index. apply list_elem_of_lookup_total_2.
    unfold topo in He. lia. }
  destruct (per_type_index_spec pg (mkCondensedTypeIDMap t2i ms true) e_topo)
    as (adj & Hadj & Hladj & Hrows); try done.
  fold topo in Hrows.
  exists (mkEdgeTypeAwareTopology (mkCondensedTypeIDMap t2i ms true) e_topo adj).
  split; [|split].
  - unfold EdgeTypeAwareTopology_MakeFrom, EdgeTypeAwareTopology_make.
    rewrite Hstate, andb_false_r.
    rewrite (bool_decide_eq_true_2 _ HE), andb_false_r.
    rewrite Hadj, outcome_bind_Ok.
    by rewrite (bool_decide_eq_true_2 _ Hladj), andb_false_r.
  - intros n ty Hn Hhas. unfold has_edge_type_id in Hhas. simpl in Hhas.
    apply bool_decide_eq_true in Hhas as [i Hi].
    assert (HT : 0 < num_unique_types (mkCondensedTypeIDMap t2i ms true)).
    { apply Hrel in Hi. apply lookup_lt_Some in Hi.
      unfold num_unique_types. simpl. lia. }
    apply (edges_of_type_spec debug pg (mkCondensedTypeIDMap t2i ms true) e_topo
             adj n ty i); try done.
    + by apply Hrows.
    + by apply Hrel.
  - intros n x Hn Hx. unfold has_edge_type_id. simpl.
    apply bool_decide_eq_true.
    assert (x < num_edges topo) as Hin%Htypes.
    { pose proof (edges_end_le topo n Hwf Hn). lia. }
    apply list_elem_of_lookup in Hin as [i Hi]. exists i. by apply Hrel.
Qed.

Example edges_of_type_example :
  edges_of_type true
    (mkEdgeTypeAwareTopology example_type_map example_type_sorted
       [1; 1; 2;  2; 2; 3;  3; 3; 3;  3; 4; 4]) 0 7
  = Ok (1, 2).
Proof. vm_compute. reflexivity. Qed.

Lemma typed_edges_partition_witness :
  let topo := est_base example_type_sorted in
  ∃ t, EdgeTypeAwareTopology_MakeFrom true example_typed_pg example_type_map
         example_type_sorted = Ok t
    ∧ (∀ n ty, n < num_nodes topo →
         has_edge_type_id example_type_map ty = true →
         ∃ r, edges_of_type true t n ty = Ok r
           ∧ (edges topo n).1 ≤ r.1 ∧ r.1 ≤ r.2 ∧ r.2 ≤ (edges topo n).2
           ∧ ∀ x, r.1 ≤ x < r.2
                  ↔ ((edges topo n).1 ≤ x < (edges topo n).2
                     ∧ resolved_type example_typed_pg example_type_sorted x
                       = ty))
    ∧ (∀ n x, n < num_nodes topo →
         (edges topo n).1 ≤ x < (edges topo n).2 →
         has_edge_type_id example_type_map
           (resolved_type example_typed_pg example_type_sorted x) = true).
Proof.
  apply (typed_edges_partition true 1 (λ _, 0) example_typed_pg
           example_type_map example_type_sorted).
  - intros e _. lia.
  - vm_compute. reflexivity.
  - apply (bool_decide_unpack _). vm_compute. exact I.
  - reflexivity.
  - reflexivity.
  - reflexivity.
  - apply (bool_decide_unpack _). vm_compute. exact I.
  - apply (bool_decide_unpack _). vm_compute. exact I.
Defined.

(** ** EdgeShuffleTopology::Make *)

Example Make_sorted_example :
  EdgeShuffleTopology_Make merge_psort example_unsorted_pg
    TransposeKind.kNo EdgeSortKind.kSortedByDestID
  = Ok (EdgeShuffleTopology_make TransposeKind.kNo EdgeSortKind.kSortedByDestID
          [2; 3; 3; 4] [1; 2; 2; 3] [1; 0; 2; 3]).
Proof. vm_compute. reflexivity. Qed.

Example Make_transpose_example :
  EdgeShuffleTopology_Make merge_psort example_unsorted_pg
    TransposeKind.kYes EdgeSortKind.kAny
  = Ok (EdgeShuffleTopology_make TransposeKind.kYes EdgeSortKind.kAny
          [0; 1; 3; 4] [0; 0; 1; 3] [1; 0; 2; 3]).
Proof. vm_compute. reflexivity. Qed.

Example Make_type_sorted_example :
  EdgeShuffleTopology_Make merge_psort example_typed_pg
    TransposeKind.kNo EdgeSortKind.kSortedByEdgeType
  = Ok example_type_sorted.
Proof. vm_compute. reflexivity. Qed.

Lemma lookup_slice {A} (l : list A) b e j :
  slice l b e !! j = if decide (j < e - b) then l !! (b + j) else None.
Proof.
  unfold slice. case_decide.
  - rewrite lookup_take_lt by done. apply lookup_drop.
  - apply lookup_take_ge. lia.
Qed.

Lemma length_slice {A} (l : list A) b e :
  e ≤ length l → length (slice l b e) = e - b.
Proof. intros He. unfold slice. rewrite length_take, length_drop. lia. Qed.

Lemma slice_ext {A} (l k : list A) b e :
  (∀ j, b ≤ j < e → l !! j = k !! j) → slice l b e = slice k b e.
Proof.
  intros Hlk. apply list_eq. intros j. rewrite !lookup_slice.
  case_decide; [|done]. apply Hlk. lia.
Qed.

Lemma slice_inserts {A} (l k : list A) b e :
  length l = e - b → b ≤ e → e ≤ length k →
  slice (list_inserts b l k) b e = l.
Proof.
  intros Hl Hbe He. apply list_eq. intros j. rewrite lookup_slice.
  case_decide.
  - rewrite list_lookup_inserts by lia. f_equal. lia.
  - symmetry. apply lookup_ge_None_2. lia.
Qed.

Lemma slice_lookup_total {A} `{Inhabited A} (l : list A) b e :
  e ≤ length l → (λ x, l !!! x) <$> seq b (e - b) = slice l b e.
Proof.
  intros He. apply list_eq. intros j.
  rewrite list_lookup_fmap, lookup_slice.
  case_decide.
  - rewrite lookup_seq_lt by done. simpl.
    symmetry. apply list_lookup_lookup_total_lt. lia.
  - by rewrite lookup_seq_ge by lia.
Qed.

Lemma list_inserts_app3 {A} (l k : list A) b :
  b + length l ≤ length k →
  list_inserts b l k = take b k ++ l ++ drop (b + length l) k.
Proof.
  intros Hb. apply list_eq. intros j.
  assert (Hlt : length (take b k) = b) by (rewrite length_take; lia).
  destruct (decide (j < b)).
  - rewrite list_lookup_inserts_lt by done.
    rewrite lookup_app_l by lia. by rewrite lookup_take_lt.
  - rewrite lookup_app_r, Hlt by lia.
    destruct (decide (j < b + length l)).
    + rewrite list_lookup_inserts by lia. by rewrite lookup_app_l by lia.
    + rewrite list_lookup_inserts_ge by lia.
      rewrite lookup_app_r, lookup_drop by lia. f_equal. lia.
Qed.

(** Writing a permutation of a block back in its place permutes the
    array. *)
Lemma list_inserts_Permutation {A} (l k : list A) b e :
  b ≤ e → e ≤ length k → l ≡ₚ slice k b e → list_inserts b l k ≡ₚ k.
Proof.
  intros Hbe He Hl.
  assert (Hlen : length l = e - b) by (by rewrite Hl, length_slice).
  rewrite list_inserts_app3 by lia.
  replace (b + length l) with e by lia.
  rewrite Hl. unfold slice.
  rewrite <- (take_drop b k) at 4.
  rewrite <- (take_drop (e - b) (drop b k)) at 2.
  rewrite drop_drop. by replace (b + (e - b)) with e by lia.
Qed.

Section edge_sort_proofs.
Variable psort : ∀ A : Type, (A → A → bool) → list A → list A.
Hypothesis psort_perm : ∀ A (cmp : A → A → bool) l, psort A cmp l ≡ₚ l.
Hypothesis psort_sorted : ∀ A (cmp : A → A → bool) l,
  (∀ a b, cmp a b = true → cmp b a = false) →
  Sorted (λ a b, cmp b a = false) (psort A cmp l).

(** The loop of [SortEdgesByDestID] and [SortEdgesByTypeThenDest] after
    the nodes below [k]: their ranges hold the sorted entries, the rest
    of the arrays is as before. *)
Lemma sort_edge_ranges_loop {A B} (cmp : A * B → A * B → bool) base
    (props0 : list A) (dests0 : list B) k :
  csr_wf base → length props0 = num_edges base →
  length dests0 = num_edges base → k ≤ num_nodes base →
  let st :=
    do_all (seq 0 k)
      (λ node '(props, dests),
         let e_beg := range_begin (edges base node) in
         let e_end := range_end (edges base node) in
         let sorted :=
           psort _ cmp (zip (slice props e_beg e_end)
                            (slice dests e_beg e_end)) in
         (list_inserts e_beg sorted.*1 props,
          list_inserts e_beg sorted.*2 dests))
      (props0, dests0) in
  length st.1 = num_edges base ∧ length st.2 = num_edges base
  ∧ st.1 ≡ₚ props0 ∧ st.2 ≡ₚ dests0
  ∧ (∀ j, (edges base k).1 ≤ j →
       st.1 !! j = props0 !! j ∧ st.2 !! j = dests0 !! j)
  ∧ ∀ n, n < k →
      zip (slice st.1 (edges base n).1 (edges base n).2)
          (slice st.2 (edges base n).1 (edges base n).2)
      = psort _ cmp (zip (slice props0 (edges base n).1 (edges base n).2)
                         (slice dests0 (edges base n).1 (edges base n).2)).
Proof.
  intros Hwf Hlen Hlen2. unfold do_all. induction k as [|k IH]; intros Hk.
  { cbn [seq foldl fst snd]. repeat split; try done. intros; lia. }
  rewrite seq_S, foldl_app. cbn [foldl Nat.add].
  destruct IH as (Hl1 & Hl2 & Hp1 & Hp2 & Hrest & Hdone); [lia|].
  destruct (foldl _ _ (seq 0 k)) as [props dests].
  cbv beta iota zeta. cbn [fst snd] in *.
  unfold range_begin, range_end.
  set (b := (edges base k).1) in *. set (e := (edges base k).2).
  assert (Hbe : b ≤ e) by (apply edges_le; [done|lia]).
  assert (HeE : e ≤ num_edges base) by (apply edges_end_le; [done|lia]).
  assert (Hnext : (edges base (S k)).1 = e).
  { rewrite edges_begin_prev by lia. simpl. by rewrite Nat.sub_0_r. }
  assert (Hsl1 : slice props b e = slice props0 b e).
  { apply slice_ext. intros j Hj. apply Hrest. lia. }
  assert (Hsl2 : slice dests b e = slice dests0 b e).
  { apply slice_ext. intros j Hj. apply Hrest. lia. }
  set (sorted := psort _ cmp (zip (slice props b e) (slice dests b e))).
  assert (Hsorted : sorted ≡ₚ zip (slice props b e) (slice dests b e))
    by apply psort_perm.
  assert (Hls : length sorted = e - b).
  { rewrite Hsorted, length_zip, !length_slice by lia. lia. }
  assert (Hfst : sorted.*1 ≡ₚ slice props b e).
  { rewrite Hsorted. rewrite fst_zip; [done|]. rewrite !length_slice; lia. }
  assert (Hsnd : sorted.*2 ≡ₚ slice dests b e).
  { rewrite Hsorted. rewrite snd_zip; [done|]. rewrite !length_slice; lia. }
  rewrite !length_inserts.
  split; [done|]. split; [done|]. split; [|split; [|split]].
  - rewrite <- Hp1. apply (list_inserts_Permutation _ _ b e); (lia || done).
  - rewrite <- Hp2. apply (list_inserts_Permutation _ _ b e); (lia || done).
  - rewrite Hnext. intros j Hj.
    rewrite !list_lookup_inserts_ge by (rewrite length_fmap; lia).
    apply Hrest. lia.
  - intros n Hn. destruct (decide (n = k)) as [->|Hne].
    + fold b e. rewrite !slice_inserts by (rewrite ?length_fmap; lia).
      rewrite zip_fst_snd. unfold sorted. by rewrite Hsl1, Hsl2.
    + rewrite <- Hdone by lia.
      assert ((edges base n).2 ≤ b) as Hnb.
      { unfold b. destruct Hwf as (Hs & _ & _). unfold edges. simpl.
        rewrite decide_True by lia.
        apply Sorted_le_lookup; [done|lia|]. unfold num_nodes in Hk. lia. }
      f_equal; apply slice_ext; intros j Hj;
        by rewrite list_lookup_inserts_lt by lia.
Qed.

(** Sorting the ranges keeps the adjacency index and the states other
    than the edge sort state, permutes the entries of every node, and
    leaves every range in the order of the comparator. *)
Lemma sort_edge_ranges_spec cmp new_state topo :
  let base := est_base topo in
  let res := sort_edge_ranges psort cmp new_state topo in
  csr_wf base → length (edge_prop_indices_ topo) = num_edges base →
  adj_indices_ (est_base res) = adj_indices_ base
  ∧ edge_sort_state_ res = new_state
  ∧ tpose_state_ res = tpose_state_ topo
  ∧ length (edge_prop_indices_ res) = num_edges base
  ∧ edge_prop_indices_ res ≡ₚ edge_prop_indices_ topo
  ∧ dests_ (est_base res) ≡ₚ dests_ base
  ∧ ∀ n, n < num_nodes base →
      zip (slice (edge_prop_indices_ res) (edges base n).1 (edges base n).2)
          (slice (dests_ (est_base res)) (edges base n).1 (edges base n).2)
      = psort _ cmp
          (zip (slice (edge_prop_indices_ topo) (edges base n).1
                  (edges base n).2)
               (slice (dests_ base) (edges base n).1 (edges base n).2)).
Proof.
  intros base res Hwf Hlen.
  destruct (sort_edge_ranges_loop cmp base (edge_prop_indices_ topo)
              (dests_ base) (num_nodes base) Hwf Hlen eq_refl)
    as (Hl1 & Hl2 & Hp1 & Hp2 & _ & Hdone); [done|].
  unfold res, sort_edge_ranges, all_nodes. fold base.
  destruct (do_all _ _ _) as [props dests]. simpl in *.
  repeat split; done.
Qed.

Lemma sort_edge_ranges_csr_wf cmp new_state topo :
  csr_wf (est_base topo) →
  length (edge_prop_indices_ topo) = num_edges (est_base topo) →
  csr_wf (est_base (sort_edge_ranges psort cmp new_state topo))
  ∧ ∀ n, edges (est_base (sort_edge_ranges psort cmp new_state topo)) n
         = edges (est_base topo) n.
Proof.
  intros Hwf Hlen.
  destruct (sort_edge_ranges_spec cmp new_state topo Hwf Hlen)
    as (Hadj & _ & _ & _ & _ & Hdst & _).
  split.
  - destruct Hwf as (Hs & HE & Hd). unfold csr_wf, num_nodes, num_edges.
    rewrite Hadj, Hdst. done.
  - intros n. unfold edges. by rewrite Hadj.
Qed.

(** [SortEdgesByDestID] leaves the destinations of every node in
    ascending order, and every node with the neighbours it had. *)
Lemma SortEdgesByDestID_sorted topo n :
  let base := est_base topo in
  let res := SortEdgesByDestID psort topo in
  csr_wf base → length (edge_prop_indices_ topo) = num_edges base →
  n < num_nodes base →
  Sorted (≤) (out_neighbors (est_base res) n)
  ∧ out_neighbors (est_base res) n ≡ₚ out_neighbors base n.
Proof.
  intros base res Hwf Hlen Hn.
  destruct (sort_edge_ranges_spec
              (λ tup1 tup2 : nat * nat, bool_decide (tup1.2 < tup2.2))
              EdgeSortKind.kSortedByDestID topo Hwf Hlen)
    as (Hadj & _ & _ & Hlp & _ & Hdst & Hblocks).
  fold base in Hadj, Hlp, Hdst, Hblocks.
  unfold res, SortEdgesByDestID. cbv zeta.
  set (res' := sort_edge_ranges _ _ _ _) in *.
  specialize (Hblocks n Hn).
  assert (Hedges : edges (est_base res') n = edges base n).
  { unfold edges. by rewrite Hadj. }
  set (b := (edges base n).1) in *. set (e := (edges base n).2) in *.
  assert (HeE : e ≤ num_edges base) by (by apply edges_end_le).
  assert (Hld : length (dests_ (est_base res')) = num_edges base).
  { by rewrite Hdst. }
  assert (Hout : ∀ t, edges t n = (b, e) → e ≤ num_edges t →
    out_neighbors t n = slice (dests_ t) b e).
  { intros t Ht He. unfold out_neighbors, range_items, edge_dest.
    rewrite Ht. simpl. by apply slice_lookup_total. }
  rewrite (Hout (est_base res')), (Hout base);
    [|by destruct (edges base n)|done| |unfold num_edges; lia].
  2:{ rewrite Hedges. by destruct (edges base n). }
  assert (Hz : slice (dests_ (est_base res')) b e
               = (psort _ (λ tup1 tup2 : nat * nat,
                             bool_decide (tup1.2 < tup2.2))
                    (zip (slice (edge_prop_indices_ topo) b e)
                         (slice (dests_ base) b e))).*2).
  { rewrite <- Hblocks. rewrite snd_zip; [done|].
    rewrite !length_slice by (unfold num_edges in *; lia). done. }
  rewrite Hz. split.
  - apply (Sorted_fmap _ (λ a b : nat * nat,
                            bool_decide (b.2 < a.2) = false)).
    + intros x y Hc%bool_decide_eq_false. lia.
    + apply (psort_sorted _ (λ tup1 tup2 : nat * nat,
                               bool_decide (tup1.2 < tup2.2))).
      intros x y Hc%bool_decide_eq_true. apply bool_decide_eq_false. lia.
  - rewrite psort_perm. rewrite snd_zip; [done|].
    rewrite !length_slice by (unfold num_edges in *; lia). done.
Qed.

(** [SortEdgesByTypeThenDest] leaves the edges of every node in
    ascending order of their type. *)
Lemma SortEdgesByTypeThenDest_sorted pg topo :
  csr_wf (est_base topo) →
  length (edge_prop_indices_ topo) = num_edges (est_base topo) →
  sorted_by_edge_type pg (SortEdgesByTypeThenDest psort pg topo).
Proof.
  intros Hwf Hlen. unfold sorted_by_edge_type, SortEdgesByTypeThenDest.
  set (cmp := λ tup1 tup2 : nat * nat, _).
  destruct (sort_edge_ranges_spec cmp EdgeSortKind.kSortedByEdgeType topo
              Hwf Hlen) as (Hadj & _ & _ & Hlp & _ & Hdst & Hblocks).
  set (res := sort_edge_ranges _ _ _ _) in *.
  set (base := est_base topo) in *.
  apply Forall_forall. intros n Hn%elem_of_seq.
  assert (Hn' : n < num_nodes base).
  { unfold num_nodes in *. rewrite Hadj in Hn. lia. }
  specialize (Hblocks n Hn').
  assert (Hedges : edges (est_base res) n = edges base n).
  { unfold edges. by rewrite Hadj. }
  rewrite Hedges. unfold range_items.
  set (b := (edges base n).1) in *. set (e := (edges base n).2) in *.
  assert (HeE : e ≤ num_edges base) by (by apply edges_end_le).
  assert (Hld : length (dests_ (est_base res)) = num_edges base).
  { by rewrite Hdst. }
  assert (resolved_type pg res <$> seq b (e - b)
          = GetTypeOfEdge pg <$> slice (edge_prop_indices_ res) b e) as ->.
  { rewrite <- slice_lookup_total by lia.
    rewrite <- list_fmap_compose. done. }
  assert (Hz : slice (edge_prop_indices_ res) b e
               = (psort _ cmp
                    (zip (slice (edge_prop_indices_ topo) b e)
                         (slice (dests_ base) b e))).*1).
  { rewrite <- Hblocks. rewrite fst_zip; [done|].
    rewrite !length_slice by (unfold num_edges in *; lia). done. }
  rewrite Hz, <- list_fmap_compose.
  apply (Sorted_fmap _ (λ a b : nat * nat, cmp b a = false)).
  - intros x y. unfold cmp. simpl.
    case_decide; intros Hc%bool_decide_eq_false; lia.
  - apply (psort_sorted _ cmp). intros x y. unfold cmp.
    repeat case_decide; intros Hc%bool_decide_eq_true;
      apply bool_decide_eq_false; (lia || congruence).
Qed.

(** [Make(pg, kNo, kSortedByEdgeType)] returns a topology that meets
    what [EdgeTypeAwareTopology::MakeFrom] expects of it. *)
Lemma Make_sorted_by_edge_type pg :
  csr_wf (topology pg) →
  ∃ e_topo,
    EdgeShuffleTopology_Make psort pg TransposeKind.kNo
      EdgeSortKind.kSortedByEdgeType = Ok e_topo
    ∧ csr_wf (est_base e_topo)
    ∧ has_edges_sorted_by e_topo EdgeSortKind.kSortedByEdgeType = true
    ∧ num_nodes (est_base e_topo) = num_nodes (topology pg)
    ∧ num_edges (est_base e_topo) = num_edges (topology pg)
    ∧ length (edge_prop_indices_ e_topo) = num_edges (est_base e_topo)
    ∧ Forall (λ i, i < num_edges (topology pg)) (edge_prop_indices_ e_topo)
    ∧ sorted_by_edge_type pg e_topo.
Proof.
  intros Hwf. unfold EdgeShuffleTopology_Make, sortEdges.
  rewrite decide_False by done. eexists. split; [reflexivity|].
  set (topo := MakeOriginalCopy pg).
  assert (Hbase : est_base topo = topology pg).
  { unfold topo, MakeOriginalCopy, EdgeShuffleTopology_make. simpl.
    by destruct (topology pg). }
  assert (Hprops : edge_prop_indices_ topo = seq 0 (num_edges (topology pg))).
  { done. }
  assert (Hwf' : csr_wf (est_base topo)) by (by rewrite Hbase).
  assert (Hlen : length (edge_prop_indices_ topo) = num_edges (est_base topo)).
  { by rewrite Hprops, Hbase, length_seq. }
  pose proof (SortEdgesByTypeThenDest_sorted pg topo Hwf' Hlen) as Hsorted.
  unfold SortEdgesByTypeThenDest in *.
  set (cmp := λ tup1 tup2 : nat * nat, _) in *.
  destruct (sort_edge_ranges_spec cmp EdgeSortKind.kSortedByEdgeType topo
              Hwf' Hlen) as (Hadj & Hstate & _ & Hlp & Hpp & Hdst & _).
  destruct (sort_edge_ranges_csr_wf cmp EdgeSortKind.kSortedByEdgeType topo
              Hwf' Hlen) as [Hwfr _].
  set (res := sort_edge_ranges _ _ _ _) in *.
  split; [done|]. split.
  { unfold has_edges_sorted_by. rewrite Hstate. done. }
  split. { unfold num_nodes. by rewrite Hadj, Hbase. }
  assert (HE : num_edges (est_base res) = num_edges (topology pg)).
  { unfold num_edges. by rewrite Hdst, Hbase. }
  split; [done|]. split. { by rewrite Hlp, HE, Hbase. }
  split.
  { rewrite Hpp, Hprops. apply Forall_forall. intros i Hi%elem_of_seq. lia. }
  done.
Qed.
End edge_sort_proofs.

(** ** find_edge and find_edges *)

Lemma find_if_spec pred : ∀ count first,
  let r := find_if pred first count in
  first ≤ r ≤ first + count
  ∧ (r < first + count → pred r = true)
  ∧ ∀ e, first ≤ e < r → pred e = false.
Proof.
  induction count as [|count IH]; intros first; simpl.
  - split; [lia|]. split; intros; lia.
  - destruct (pred first) eqn:Hp.
    + split; [lia|]. split; [done|]. intros; lia.
    + destruct (IH (S first)) as (Hr & Hfound & Hbefore).
      split; [lia|]. split.
      * intros Hlt. apply Hfound. lia.
      * intros e He. destruct (decide (e = first)) as [->|]; [done|].
        apply Hbefore. lia.
Qed.

(** The linear scan is right: on a range of at most 64 edges
    [find_edge] returns the first edge of [src] to [dst], or the end
    of the range when there is none. *)
Lemma find_edge_small debug topo src dst :
  let base := est_base topo in
  let r := edges base src in
  range_begin r ≤ range_end r →
  range_size r ≤ kBinarySearchThreshold →
  ∃ it, find_edge debug topo src dst = Ok it
    ∧ range_begin r ≤ it ≤ range_end r
    ∧ (it < range_end r → edge_dest base it = dst)
    ∧ ∀ e, range_begin r ≤ e < it → edge_dest base e ≠ dst.
Proof.
  intros base r Hle Hsmall. unfold find_edge. fold base r.
  rewrite decide_True by done. eexists. split; [reflexivity|].
  destruct (find_if_spec (λ e, bool_decide (edge_dest base e = dst))
              (range_size r) (range_begin r)) as (Hr & Hfound & Hbefore).
  unfold range_begin, range_end, range_size in *.
  replace (r.1 + (r.2 - r.1)) with r.2 in * by lia.
  split; [done|]. split.
  - intros Hlt. by apply Hfound, bool_decide_eq_true in Hlt.
  - intros e He. by apply Hbefore, bool_decide_eq_false in He.
Qed.

Lemma bound_loop_all_right go_right : ∀ fuel first count,
  count ≤ fuel →
  (∀ e, first ≤ e < first + count → go_right e = true) →
  bound_loop fuel go_right first count = first + count.
Proof.
  induction fuel as [|fuel IH]; intros first count Hfuel Hright;
    cbn [bound_loop].
  - lia.
  - case_decide as Hc; [|lia].
    assert (count / 2 < count) by (apply Nat.div_lt; lia).
    rewrite Hright by lia. rewrite IH.
    + lia.
    + lia.
    + intros e He. apply Hright. lia.
Qed.

(** The binary search reads the destination at the position
    [lower_bound] returns without comparing the position with the end
    of the range.  When [dst] is above every destination of [src] and
    the range of [src] is the last one, that position is [E]. *)
Lemma find_edge_large_absent debug topo src dst :
  let base := est_base topo in
  let r := edges base src in
  kBinarySearchThreshold < range_size r →
  (∀ e, range_begin r ≤ e < range_end r → edge_dest base e < dst) →
  range_end r = num_edges base →
  find_edge debug topo src dst = if debug then Fatal else Undefined.
Proof.
  intros base r Hlarge Hbelow Hend. unfold find_edge. fold base r.
  rewrite decide_False by lia.
  unfold range_begin, range_end, range_size, kBinarySearchThreshold in *.
  unfold lower_bound. rewrite bound_loop_all_right.
  - replace (r.1 + (r.2 - r.1)) with r.2 by lia.
    unfold edge_dest_at. rewrite Hend.
    rewrite (lookup_ge_None_2 (dests_ base)) by done. by destruct debug.
  - lia.
  - intros e He. apply bool_decide_eq_true, Hbelow. lia.
Qed.

(** What the assertion of [find_edges] does in general. *)
Lemma find_edges_sorted_fatal debug topo src dst :
  has_edges_sorted_by topo EdgeSortKind.kSortedByDestID = true →
  range_empty (edges (est_base topo) src) = false →
  find_edges debug topo src dst = Fatal.
Proof. intros Hs He. unfold find_edges. by rewrite He, Hs. Qed.

Lemma find_edges_unsorted_runs topo src dst :
  has_edges_sorted_by topo EdgeSortKind.kSortedByDestID = false →
  ∃ r, find_edges false topo src dst = Ok r.
Proof.
  intros Hs. unfold find_edges. rewrite Hs. simpl.
  repeat case_match; by eexists.
Qed.

(** C2: on the topology sorted by destination, where node 0 has the
    edge 0 -> 1, [find_edges(0, 1)] aborts instead of returning the
    range [0, 1); on the unsorted copy it runs and returns a range. *)
Theorem find_edges_assertion_inverted :
  EdgeShuffleTopology_Make merge_psort example_unsorted_pg
    TransposeKind.kNo EdgeSortKind.kSortedByDestID = Ok example_dest_sorted
  ∧ has_edges_sorted_by example_dest_sorted EdgeSortKind.kSortedByDestID = true
  ∧ edge_dest (est_base example_dest_sorted) 0 = 1
  ∧ find_edges false example_dest_sorted 0 1 = Fatal
  ∧ find_edges true example_dest_sorted 0 1 = Fatal
  ∧ has_edges_sorted_by example_dest_unsorted EdgeSortKind.kSortedByDestID
    = false
  ∧ find_edges false example_dest_unsorted 0 1 = Ok (2, 2).
Proof. vm_compute. repeat split. Qed.

(** C3: in state [kSortedByDestID], [find_edge] on a node of degree 65
    whose range ends at [E], asked for a destination larger than all of
    its destinations, reads [dests_[E]]: past the array in a release
    build, a failed assertion in a debug build.  [find_edges] for the
    existing edge 0 -> 1 aborts instead of returning its range.  The
    linear scan of [find_edge] on the small example is right. *)
Theorem find_edge_reads_past_end :
  has_edges_sorted_by example_wide EdgeSortKind.kSortedByDestID = true
  ∧ csr_wf (est_base example_wide)
  ∧ range_end (edges (est_base example_wide) 0)
    = num_edges (est_base example_wide)
  ∧ find_edge false example_wide 0 1 = Undefined
  ∧ find_edge true example_wide 0 1 = Fatal
  ∧ find_edges false example_dest_sorted 0 1 = Fatal
  ∧ find_edge false example_dest_sorted 0 1 = Ok 0
  ∧ find_edge false example_dest_sorted 0 3 = Ok 2.
Proof.
  split; [reflexivity|]. split.
  { apply (bool_decide_unpack _). vm_compute. exact I. }
  vm_compute. repeat split.
Qed.

(** ** The binary topology format *)

Example WriteTopology_example :
  WriteTopology (mkGraphTopology [1; 2] [1; 0]) = Ok example_view.
Proof. vm_compute. reflexivity. Qed.

Example MapTopology_example debug :
  (ff ← WriteTopology (mkGraphTopology [1; 2] [1; 0]); MapTopology debug ff)
  = Ok (mkGraphTopology [1; 2] [1; 0]).
Proof. destruct debug; vm_compute; reflexivity. Qed.

Example MapTopology_bad_dest_debug : MapTopology true bad_dest_view = Fatal.
Proof. vm_compute. reflexivity. Qed.

Lemma length_le_bytes w v : length (le_bytes w v) = w.
Proof. revert v. induction w as [|w IH]; intros v; simpl; [done|by rewrite IH]. Qed.

Lemma le_value_le_bytes w v :
  (0 ≤ v)%Z → le_value (le_bytes w v) = (v `mod` 256 ^ Z.of_nat w)%Z.
Proof.
  revert v. induction w as [|w IH]; intros v Hv.
  - simpl. by rewrite Z.mod_1_r.
  - cbn [le_bytes le_value]. rewrite IH by (apply Z.div_pos; lia).
    rewrite Nat2Z.inj_succ, Z.pow_succ_r by lia.
    rewrite Z.rem_mul_r by lia. done.
Qed.

Lemma le_bytes_is_bytes w v : is_bytes (le_bytes w v).
Proof.
  revert v. induction w as [|w IH]; intros v; simpl; constructor.
  - apply Z.mod_pos_bound. lia.
  - apply IH.
Qed.

Lemma le_value_nonneg bs : is_bytes bs → (0 ≤ le_value bs)%Z.
Proof. induction 1 as [|b bs Hb _ IH]; simpl; lia. Qed.

Lemma is_bytes_slice bs b e : is_bytes bs → is_bytes (slice bs b e).
Proof.
  intros H. unfold slice, is_bytes in *.
  apply Forall_take, Forall_drop, H.
Qed.

Lemma length_array_bytes w a : length (array_bytes w a) = w * length a.
Proof.
  unfold array_bytes. induction a as [|x a IH]; simpl; [lia|].
  rewrite length_app, length_le_bytes. unfold mbind in IH. lia.
Qed.

Lemma array_bytes_app w a1 a2 :
  array_bytes w (a1 ++ a2) = array_bytes w a1 ++ array_bytes w a2.
Proof. unfold array_bytes. apply bind_app. Qed.

Lemma slice_array_bytes w a rest i :
  i < length a →
  slice (array_bytes w a ++ rest) (w * i) (w * i + w)
  = le_bytes w (Z.of_nat (a !!! i)).
Proof.
  unfold slice. replace (w * i + w - w * i) with w by lia.
  revert i. induction a as [|x a IH]; intros i Hi; simpl in *; [lia|].
  change (array_bytes w (x :: a))
    with (le_bytes w (Z.of_nat x) ++ array_bytes w a).
  rewrite <- app_assoc. destruct i as [|i].
  - rewrite Nat.mul_0_r. simpl.
    apply take_app_length'. by rewrite length_le_bytes.
  - replace (w * S i) with (length (le_bytes w (Z.of_nat x)) + w * i)
      by (rewrite length_le_bytes; lia).
    rewrite drop_app_add. simpl. apply IH. lia.
Qed.

Lemma slice_app_r {A} (pre l : list A) b e :
  slice (pre ++ l) (length pre + b) (length pre + e) = slice l b e.
Proof.
  unfold slice. rewrite drop_app_add. f_equal. lia.
Qed.

(** The flags of [CheckTopology]. *)
Lemma do_all_flag {A} (P : A → Prop) `{∀ x, Decision (P x)} (l : list A) :
  ∀ b, do_all l (λ x bad, if decide (P x) then true else bad) b = false
       ↔ b = false ∧ Forall (λ x, ¬ P x) l.
Proof.
  unfold do_all. induction l as [|x l IH]; intros b; simpl.
  - split; [by intros ->|by intros [-> _]].
  - rewrite IH, Forall_cons. destruct (decide (P x)).
    + split; [by intros [? _]|]. intros (_ & ? & _). done.
    + tauto.
Qed.

Lemma CheckTopology_true out_indices num_nodes out_dests num_edges :
  CheckTopology out_indices num_nodes out_dests num_edges = true
  ↔ Forall (λ x, (x ≤ num_edges)%Z) out_indices
    ∧ Forall (λ d, (d < num_nodes)%Z) out_dests.
Proof.
  unfold CheckTopology. rewrite andb_true_iff, !negb_true_iff.
  rewrite (do_all_flag (λ x, (num_edges < x)%Z)).
  rewrite (do_all_flag (λ d, (num_nodes ≤ d)%Z)).
  split.
  - intros [[_ H1] [_ H2]]. split; (eapply Forall_impl; [done|]); simpl; lia.
  - intros [H1 H2].
    split; (split; [done|]); (eapply Forall_impl; [done|]); simpl; lia.
Qed.

Lemma read_words_spec file_view width off count ws :
  read_words file_view width off count = Ok ws →
  (0 ≤ off)%Z ∧ (0 ≤ count)%Z
  ∧ (off + Z.of_nat width * count ≤ view_size file_view)%Z
  ∧ length ws = Z.to_nat count
  ∧ (is_bytes file_view → Forall (λ x, (0 ≤ x)%Z) ws).
Proof.
  unfold read_words. case_decide as Hc; [|done]. intros [= <-].
  destruct Hc as (? & ? & ?). repeat split; try done.
  - by rewrite length_fmap, length_seq.
  - intros Hb. apply Forall_fmap, Forall_forall. intros i _. simpl.
    by apply le_value_nonneg, is_bytes_slice.
Qed.

(** C9, as stated, fails in a release build: the buffer
    [bad_dest_view] declares one node and has an edge to node 5, and
    [MapTopology] returns it as a topology. *)
Lemma map_topology_release_accepts_bad_dest :
  is_bytes bad_dest_view
  ∧ ∃ t, MapTopology false bad_dest_view = Ok t
         ∧ ¬ Forall (λ d, d < num_nodes t) (dests_ t).
Proof.
  split; [apply (bool_decide_unpack _); vm_compute; exact I|].
  exists (mkGraphTopology [1] [5]). split; [vm_compute; reflexivity|].
  intros H. apply Forall_cons in H as [H _]. vm_compute in H. lia.
Qed.

(** C9, amended: for a buffer with a full header, a wrong version or a
    size below the declared one gives an error result in every build.
    In a build with debug assertions, an adjacency index above [E] or
    a destination not below [N] in the arrays the header declares is a
    fatal assertion failure, and a topology that is returned has the
    declared counts, every adjacency index at most [E] and every
    destination below [N]. *)
Theorem map_topology_checks (debug : bool) (file_view : FileView) :
  is_bytes file_view →
  (32 ≤ view_size file_view)%Z →
  let version := le_value (slice file_view 0 8) in
  let N := le_value (slice file_view 16 24) in
  let E := le_value (slice file_view 24 32) in
  (version ≠ 1%Z → MapTopology debug file_view = Err InvalidArgument)
  ∧ ((view_size file_view < GetGraphSize N E)%Z →
     MapTopology debug file_view = Err InvalidArgument)
  ∧ (∀ out_indices out_dests,
       version = 1%Z → (GetGraphSize N E ≤ view_size file_view)%Z →
       read_words file_view 8 32 N = Ok out_indices →
       read_words file_view 4 (32 + 8 * N) E = Ok out_dests →
       ¬ (Forall (λ x, (x ≤ E)%Z) out_indices
          ∧ Forall (λ d, (d < N)%Z) out_dests) →
       MapTopology true file_view = Fatal)
  ∧ ∀ t, MapTopology true file_view = Ok t →
      version = 1%Z
      ∧ (GetGraphSize N E ≤ view_size file_view)%Z
      ∧ Z.of_nat (num_nodes t) = N ∧ Z.of_nat (num_edges t) = E
      ∧ Forall (λ a, a ≤ num_edges t) (adj_indices_ t)
      ∧ Forall (λ d, d < num_nodes t) (dests_ t).
Proof.
  intros Hbytes Hsize version N E.
  assert (Hv : read_word file_view 8 0 = Ok version).
  { unfold read_word. rewrite decide_True by lia. reflexivity. }
  assert (HN : read_word file_view 8 16 = Ok N).
  { unfold read_word. rewrite decide_True by lia. reflexivity. }
  assert (HE : read_word file_view 8 24 = Ok E).
  { unfold read_word. rewrite decide_True by lia. reflexivity. }
  assert (Hhead : ∀ dbg, MapTopology dbg file_view =
    if decide (version ≠ 1%Z) then Err InvalidArgument
    else if decide (view_size file_view < GetGraphSize N E)%Z
         then Err InvalidArgument
         else
           out_indices ← read_words file_view 8 32 N;
           out_dests ← read_words file_view 4 (32 + 8 * N) E;
           if dbg && negb (CheckTopology out_indices N out_dests E)
           then Fatal
           else Ok (mkGraphTopology (Z.to_nat <$> out_indices)
                      (Z.to_nat <$> out_dests))).
  { intros dbg. unfold MapTopology. rewrite decide_False by lia.
    rewrite Hv. simpl. case_decide; [done|].
    rewrite HN, HE. done. }
  split; [|split; [|split]].
  - intros Hver. rewrite Hhead. by rewrite decide_True.
  - intros Hsmall. rewrite Hhead. case_decide; [done|]. by rewrite decide_True.
  - intros ois ods Hver Hsz Hois Hods Hbad. rewrite Hhead.
    rewrite decide_False by (intros Hc; by apply Hc).
    rewrite decide_False by lia.
    rewrite Hois, outcome_bind_Ok, Hods, outcome_bind_Ok.
    destruct (CheckTopology ois N ods E) eqn:Hcheck; [|done].
    by apply CheckTopology_true in Hcheck.
  - intros t Ht. rewrite Hhead in Ht.
    case_decide as Hver; [done|]. case_decide as Hsz; [done|].
    destruct (read_words file_view 8 32 N) as [ois| | |] eqn:Hois; try done.
    destruct (read_words file_view 4 (32 + 8 * N) E) as [ods| | |] eqn:Hods;
      try done.
    simpl in Ht.
    destruct (CheckTopology ois N ods E) eqn:Hcheck; [|done].
    simpl in Ht. injection Ht as <-.
    apply read_words_spec in Hois as (_ & HN0 & _ & Hlo & Hpo).
    apply read_words_spec in Hods as (_ & HE0 & _ & Hld & Hpd).
    apply CheckTopology_true in Hcheck as [Hadj Hdst].
    specialize (Hpo Hbytes). specialize (Hpd Hbytes).
    unfold num_nodes, num_edges. simpl. rewrite !length_fmap, Hlo, Hld.
    split; [lia|]. split; [lia|]. split; [lia|]. split; [lia|]. split.
    + apply Forall_fmap. rewrite Forall_forall in Hadj, Hpo.
      apply Forall_forall. intros x Hx. simpl.
      specialize (Hadj x Hx). specialize (Hpo x Hx). lia.
    + apply Forall_fmap. rewrite Forall_forall in Hdst, Hpd.
      apply Forall_forall. intros x Hx. simpl.
      specialize (Hdst x Hx). specialize (Hpd x Hx). lia.
Qed.

Lemma map_topology_checks_witness :
  let file_view := example_view in
  let version := le_value (slice file_view 0 8) in
  let N := le_value (slice file_view 16 24) in
  let E := le_value (slice file_view 24 32) in
  (version ≠ 1%Z → MapTopology true file_view = Err InvalidArgument)
  ∧ ((view_size file_view < GetGraphSize N E)%Z →
     MapTopology true file_view = Err InvalidArgument)
  ∧ (∀ out_indices out_dests,
       version = 1%Z → (GetGraphSize N E ≤ view_size file_view)%Z →
       read_words file_view 8 32 N = Ok out_indices →
       read_words file_view 4 (32 + 8 * N) E = Ok out_dests →
       ¬ (Forall (λ x, (x ≤ E)%Z) out_indices
          ∧ Forall (λ d, (d < N)%Z) out_dests) →
       MapTopology true file_view = Fatal)
  ∧ ∀ t, MapTopology true file_view = Ok t →
      version = 1%Z
      ∧ (GetGraphSize N E ≤ view_size file_view)%Z
      ∧ Z.of_nat (num_nodes t) = N ∧ Z.of_nat (num_edges t) = E
      ∧ Forall (λ a, a ≤ num_edges t) (adj_indices_ t)
      ∧ Forall (λ d, d < num_nodes t) (dests_ t).
Proof.
  apply (map_topology_checks true example_view).
  - apply (bool_decide_unpack _). vm_compute. exact I.
  - vm_compute. discriminate.
Defined.

Lemma read_word_array w (a : list nat) rest i :
  i < length a → (Z.of_nat (a !!! i) < 256 ^ Z.of_nat w)%Z →
  read_word (array_bytes w a ++ rest) w (Z.of_nat (w * i))
  = Ok (Z.of_nat (a !!! i)).
Proof.
  intros Hi Hfit. unfold read_word, view_size.
  rewrite length_app, length_array_bytes.
  rewrite decide_True by nia. rewrite Nat2Z.id.
  rewrite slice_array_bytes, le_value_le_bytes by lia.
  rewrite Z.mod_small by lia. done.
Qed.

Lemma read_words_array w (pre : list Z) (a : list nat) rest :
  Forall (λ x, (Z.of_nat x < 256 ^ Z.of_nat w)%Z) a →
  read_words (pre ++ array_bytes w a ++ rest) w
    (Z.of_nat (length pre)) (Z.of_nat (length a))
  = Ok (Z.of_nat <$> a).
Proof.
  intros Hfit. unfold read_words, view_size.
  rewrite !length_app, length_array_bytes.
  rewrite decide_True by nia. f_equal. rewrite !Nat2Z.id.
  apply list_eq. intros i. rewrite !list_lookup_fmap.
  destruct (decide (i < length a)) as [Hi|Hi].
  - rewrite lookup_seq_lt by done. simpl.
    rewrite list_lookup_lookup_total_lt by done. simpl. f_equal.
    rewrite <- Nat.add_assoc, slice_app_r, slice_array_bytes by done.
    rewrite le_value_le_bytes by lia.
    rewrite Forall_forall in Hfit.
    rewrite Z.mod_small; [done|]. split; [lia|].
    apply Hfit. by apply list_elem_of_lookup_total_2.
  - rewrite lookup_seq_ge, lookup_ge_None_2 by lia. done.
Qed.

Lemma wrap64_le z : (0 ≤ z)%Z → (0 ≤ wrap64 z ≤ z)%Z.
Proof.
  intros Hz. unfold wrap64. split.
  - apply Z.mod_pos_bound. lia.
  - apply Z.mod_le; lia.
Qed.

Lemma GetGraphSize_le n e :
  (0 ≤ n)%Z → (0 ≤ e)%Z → (GetGraphSize n e ≤ (4 + n) * 8 + e * 4)%Z.
Proof.
  intros Hn He. unfold GetGraphSize.
  pose proof (wrap64_le (4 + n)). pose proof (wrap64_le (e * 4)).
  pose proof (wrap64_le (wrap64 (4 + n) * 8)).
  pose proof (wrap64_le (wrap64 (wrap64 (4 + n) * 8) + wrap64 (e * 4))).
  lia.
Qed.

Lemma fmap_to_nat_of_nat (l : list nat) : Z.to_nat <$> (Z.of_nat <$> l) = l.
Proof.
  rewrite <- list_fmap_compose. rewrite <- (list_fmap_id l) at 2.
  apply list_fmap_ext. intros _ x _. simpl. apply Nat2Z.id.
Qed.

Lemma Equals_refl t : Equals t t = true.
Proof. unfold Equals. by rewrite !bool_decide_eq_true_2. Qed.

(** C4: a topology that satisfies the CSR invariants, with at most
    [2^32] nodes (node ids are 32-bit) and less than [2^64] edges, is
    written by [WriteTopology] and read back by [MapTopology], in debug
    and in release builds, as an equal topology. *)
Theorem write_map_round_trip (debug : bool) (t : GraphTopology) :
  csr_wf t →
  (Z.of_nat (num_nodes t) ≤ 2 ^ 32)%Z →
  (Z.of_nat (num_edges t) < 2 ^ 64)%Z →
  ∃ ff t2, WriteTopology t = Ok ff
    ∧ MapTopology debug ff = Ok t2
    ∧ Equals t2 t = true
    ∧ num_nodes t2 = num_nodes t ∧ num_edges t2 = num_edges t
    ∧ adj_indices_ t2 = adj_indices_ t ∧ dests_ t2 = dests_ t.
Proof.
  intros Hwf HN HE. destruct t as [adj dests].
  unfold num_nodes, num_edges in HN, HE. simpl in HN, HE.
  set (N := length adj) in *. set (E := length dests) in *.
  set (hdr := [1; 0; N; E]).
  set (ff := array_bytes 8 hdr ++ array_bytes 8 adj ++ array_bytes 4 dests).
  assert (Hw : WriteTopology (mkGraphTopology adj dests) = Ok ff).
  { unfold WriteTopology, FileFrame_Init, FileFrame_Write.
    unfold num_nodes, num_edges. cbn [adj_indices_ dests_]. fold N E hdr.
    unfold mbind, outcome_bind. cbv beta iota. rewrite app_nil_l.
    destruct (decide (N ≠ 0)) as [HN0|HN0]; destruct (decide (E ≠ 0)) as [HE0|HE0].
    - by rewrite <- app_assoc.
    - assert (dests = []) as -> by (apply nil_length_inv; unfold E in HE0; lia).
      unfold ff. by rewrite !app_nil_r.
    - assert (adj = []) as -> by (apply nil_length_inv; unfold N in HN0; lia).
      done.
    - assert (adj = []) as -> by (apply nil_length_inv; unfold N in HN0; lia).
      assert (dests = []) as -> by (apply nil_length_inv; unfold E in HE0; lia).
      unfold ff. by rewrite !app_nil_r. }
  destruct Hwf as (Hsorted & Hlast & Hdst).
  unfold num_nodes, num_edges in Hlast, Hdst. simpl in Hlast, Hdst.
  fold N E in Hlast, Hdst.
  assert (Hadj : Forall (λ a, a ≤ E) adj).
  { apply Forall_forall. intros a Ha.
    apply list_elem_of_lookup_total in Ha as (i & Hi & <-). fold N in Hi.
    rewrite Hlast, decide_False by lia.
    apply Sorted_le_lookup; [done|lia|fold N; lia]. }
  assert (Hsize : view_size ff = ((4 + Z.of_nat N) * 8 + Z.of_nat E * 4)%Z).
  { unfold view_size, ff. rewrite !length_app, !length_array_bytes.
    fold N E. simpl length. lia. }
  assert (Hpow8 : (256 ^ Z.of_nat 8 = 2 ^ 64)%Z) by reflexivity.
  assert (Hpow4 : (256 ^ Z.of_nat 4 = 2 ^ 32)%Z) by reflexivity.
  assert (Hhdr : ∀ i, i < 4 →
    read_word ff 8 (Z.of_nat (8 * i)) = Ok (Z.of_nat (hdr !!! i))).
  { intros i Hi. apply read_word_array; [simpl; lia|].
    rewrite Hpow8. destruct i as [|[|[|[|i]]]]; simpl; lia. }
  assert (Hois : read_words ff 8 32 (Z.of_nat N) = Ok (Z.of_nat <$> adj)).
  { change 32%Z with (Z.of_nat (length (array_bytes 8 hdr))).
    apply read_words_array. rewrite Hpow8.
    eapply Forall_impl; [exact Hadj|]. simpl. lia. }
  assert (Hods : read_words ff 4 (32 + 8 * Z.of_nat N) (Z.of_nat E)
                 = Ok (Z.of_nat <$> dests)).
  { unfold ff. rewrite app_assoc.
    replace (32 + 8 * Z.of_nat N)%Z
      with (Z.of_nat (length (array_bytes 8 hdr ++ array_bytes 8 adj)))
      by (rewrite length_app, !length_array_bytes; fold N; simpl length; lia).
    rewrite <- (app_nil_r (array_bytes 4 dests)).
    apply read_words_array. rewrite Hpow4.
    eapply Forall_impl; [exact Hdst|]. simpl. lia. }
  assert (Hcheck : CheckTopology (Z.of_nat <$> adj) (Z.of_nat N)
                     (Z.of_nat <$> dests) (Z.of_nat E) = true).
  { apply CheckTopology_true. split; apply Forall_fmap.
    - eapply Forall_impl; [exact Hadj|]. simpl. lia.
    - eapply Forall_impl; [exact Hdst|]. simpl. lia. }
  exists ff, (mkGraphTopology adj dests). split; [done|].
  split; [|by rewrite Equals_refl].
  pose proof (Hhdr 0 ltac:(lia)) as H0.
  pose proof (Hhdr 2 ltac:(lia)) as H2.
  pose proof (Hhdr 3 ltac:(lia)) as H3.
  change (read_word ff 8 0 = Ok 1%Z) in H0.
  change (read_word ff 8 16 = Ok (Z.of_nat N)) in H2.
  change (read_word ff 8 24 = Ok (Z.of_nat E)) in H3.
  unfold MapTopology. rewrite decide_False by lia.
  rewrite H0, outcome_bind_Ok.
  rewrite (decide_False (P := 1%Z ≠ 1%Z)) by (intros ?; done).
  rewrite H2, outcome_bind_Ok, H3, outcome_bind_Ok. cbv zeta.
  rewrite decide_False.
  2:{ pose proof (GetGraphSize_le (Z.of_nat N) (Z.of_nat E)). lia. }
  rewrite Hois, outcome_bind_Ok, Hods, outcome_bind_Ok, Hcheck.
  replace (debug && negb true) with false by (by destruct debug).
  by rewrite !fmap_to_nat_of_nat.
Qed.

Lemma write_map_round_trip_witness :
  ∃ ff t2, WriteTopology example_topology = Ok ff
    ∧ MapTopology true ff = Ok t2
    ∧ Equals t2 example_topology = true
    ∧ num_nodes t2 = num_nodes example_topology
    ∧ num_edges t2 = num_edges example_topology
    ∧ adj_indices_ t2 = adj_indices_ example_topology
    ∧ dests_ t2 = dests_ example_topology.
Proof.
  apply (write_map_round_trip true example_topology).
  - apply (bool_decide_unpack _). vm_compute. exact I.
  - vm_compute. discriminate.
  - vm_compute. reflexivity.
Defined.


(** * Further properties of the code *)

(** ** Transposed and symmetric graphs *)

(** X1: [CreateTransposeGraphTopology] returns a CSR-valid topology
    with the nodes and the number of edges of its input, in which the
    edge (u, v) occurs as often as (v, u) occurs in the input; the
    empty topology gives the empty graph. *)
Theorem transpose_reverses_edges (t : GraphTopology) :
  csr_wf t →
  let t' := topology (CreateTransposeGraphTopology t) in
  csr_wf t' ∧ num_nodes t' = num_nodes t ∧ num_edges t' = num_edges t
  ∧ (∀ u v, occ (u, v) (edge_pairs t') = occ (v, u) (edge_pairs t))
  ∧ (num_nodes t = 0 → CreateTransposeGraphTopology t = PropertyGraph_default).
Proof.
  intros Hwf t'.
  destruct (decide (num_nodes t = 0)) as [Hz|Hnz].
  - assert (HE : num_edges t = 0).
    { destruct Hwf as (_ & HE & _). by rewrite decide_True in HE. }
    assert (Hdef : CreateTransposeGraphTopology t = PropertyGraph_default).
    { unfold CreateTransposeGraphTopology. by rewrite decide_True. }
    unfold t'. rewrite Hdef. simpl.
    split; [apply (bool_decide_unpack _); vm_compute; exact I|].
    split; [by rewrite Hz|]. split; [by rewrite HE|]. split; [|done].
    intros u v. unfold edge_pairs at 2, all_nodes. by rewrite Hz.
  - destruct (transpose_spec t Hwf) as (HN & HE & Hwf' & _); [lia|].
    split; [done|]. split; [done|]. split; [done|]. split; [|lia].
    intros u v. apply occ_edge_pairs_transpose; [done|lia].
Qed.

Lemma transpose_reverses_edges_witness :
  let t' := topology (CreateTransposeGraphTopology example_topology) in
  csr_wf t' ∧ num_nodes t' = num_nodes example_topology
  ∧ num_edges t' = num_edges example_topology
  ∧ (∀ u v, occ (u, v) (edge_pairs t')
            = occ (v, u) (edge_pairs example_topology))
  ∧ (num_nodes example_topology = 0 →
     CreateTransposeGraphTopology example_topology = PropertyGraph_default).
Proof.
  apply (transpose_reverses_edges example_topology).
  apply (bool_decide_unpack _). vm_compute. exact I.
Defined.

(** X2: [CreateSymmetricGraph] returns a CSR-valid topology on the
    same nodes in which, for [u <> v], the edge (u, v) occurs as often
    as (u, v) and (v, u) together occur in the input: parallel edges
    and edges present in both directions are not merged.  The result
    is symmetric. *)
Theorem symmetric_graph_multiplicities (pg : PropertyGraph) :
  csr_wf (topology pg) →
  let t := topology pg in
  let sym := topology (CreateSymmetricGraph pg) in
  csr_wf sym ∧ num_nodes sym = num_nodes t
  ∧ (∀ u v, u ≠ v →
       occ (u, v) (edge_pairs sym)
       = occ (u, v) (edge_pairs t) + occ (v, u) (edge_pairs t))
  ∧ (∀ u v, occ (u, v) (edge_pairs sym) = occ (v, u) (edge_pairs sym)).
Proof.
  intros Hwf t sym.
  destruct (decide (num_nodes t = 0)) as [Hz|Hnz].
  - assert (Hdef : CreateSymmetricGraph pg = PropertyGraph_default).
    { unfold CreateSymmetricGraph. fold t. by rewrite decide_True. }
    assert (Hep : edge_pairs t = []).
    { unfold edge_pairs, all_nodes. by rewrite Hz. }
    unfold sym. rewrite Hdef, Hep. simpl.
    split; [apply (bool_decide_unpack _); vm_compute; exact I|].
    split; [by rewrite Hz|]. done.
  - destruct (symmetric_spec pg Hwf) as (HN & HE & Hwf' & Hnb); [fold t; lia|].
    fold t sym in HN, HE, Hnb, Hwf'.
    assert (Hocc : ∀ u v, occ (u, v) (edge_pairs sym)
      = occ (u, v) (edge_pairs t)
        + (if decide (u ≠ v) then occ (v, u) (edge_pairs t) else 0)).
    { intros u v. rewrite occ_edge_pairs, HN. case_decide as Hu.
      - by rewrite Hnb, occ_snd_hits, occ_sym_steps.
      - rewrite (occ_zero _ (edge_pairs t)).
        + case_decide; [|done]. rewrite occ_zero; [done|].
          intros Hin%edge_pairs_dst; [|done]. simpl in *. lia.
        + intros Hin%edge_pairs_src. simpl in *. lia. }
    split; [done|]. split; [done|]. split.
    + intros u v Hne. by rewrite Hocc, decide_True.
    + intros u v. rewrite !Hocc.
      destruct (decide (u = v)) as [->|Hne]; [done|].
      rewrite !decide_True by done. lia.
Qed.

Lemma symmetric_graph_multiplicities_witness :
  let t := topology (PropertyGraph_of example_topology) in
  let sym := topology (CreateSymmetricGraph (PropertyGraph_of example_topology)) in
  csr_wf sym ∧ num_nodes sym = num_nodes t
  ∧ (∀ u v, u ≠ v →
       occ (u, v) (edge_pairs sym)
       = occ (u, v) (edge_pairs t) + occ (v, u) (edge_pairs t))
  ∧ (∀ u v, occ (u, v) (edge_pairs sym) = occ (v, u) (edge_pairs sym)).
Proof.
  apply (symmetric_graph_multiplicities (PropertyGraph_of example_topology)).
  apply (bool_decide_unpack _). vm_compute. exact I.
Defined.

(** ** Searching the edges of a node *)

(** The loop of the binary searches, for a predicate that holds on an
    initial part of the range only. *)
Lemma bound_loop_spec go_right : ∀ fuel first count,
  count ≤ fuel →
  (∀ e e', first ≤ e → e ≤ e' → e' < first + count →
     go_right e' = true → go_right e = true) →
  let r := bound_loop fuel go_right first count in
  first ≤ r ≤ first + count
  ∧ (∀ e, first ≤ e < r → go_right e = true)
  ∧ (∀ e, r ≤ e < first + count → go_right e = false).
Proof.
  induction fuel as [|fuel IH]; intros first count Hfuel Hmono;
    cbn [bound_loop].
  - split; [lia|]. split; intros; lia.
  - case_decide as Hc.
    2:{ split; [lia|]. split; intros; lia. }
    assert (Hstep : count / 2 < count) by (apply Nat.div_lt; lia).
    set (step := count / 2) in *.
    destruct (go_right (first + step)) eqn:Hit.
    + destruct (IH (first + step + 1) (count - (step + 1)))
        as (Hr & Htrue & Hfalse); [lia| |].
      { intros e e' He Hee' He'. apply Hmono; lia. }
      cbv zeta in *. set (r := bound_loop _ _ _ _) in *.
      split; [lia|]. split.
      * intros e He. destruct (decide (e ≤ first + step)).
        -- apply (Hmono e (first + step)); (lia || done).
        -- apply Htrue. lia.
      * intros e He. apply Hfalse. lia.
    + destruct (IH first step) as (Hr & Htrue & Hfalse); [lia| |].
      { intros e e' He Hee' He'. apply Hmono; lia. }
      cbv zeta in *. set (r := bound_loop _ _ _ _) in *.
      split; [lia|]. split; [done|].
      intros e He. destruct (decide (e < first + step)); [apply Hfalse; lia|].
      destruct (go_right e) eqn:Hge; [|done].
      rewrite (Hmono (first + step) e) in Hit; (lia || done).
Qed.

Lemma lower_bound_spec topo first last dst :
  first ≤ last → dests_sorted_in topo first last →
  let r := lower_bound topo first last dst in
  first ≤ r ≤ last
  ∧ (∀ e, first ≤ e < r → edge_dest topo e < dst)
  ∧ (∀ e, r ≤ e < last → dst ≤ edge_dest topo e).
Proof.
  intros Hle Hs. unfold lower_bound.
  destruct (bound_loop_spec (λ e, bool_decide (edge_dest topo e < dst))
              (last - first) first (last - first)) as (Hr & Htrue & Hfalse);
    [done| |].
  { intros e e' He Hee' He' Hlt%bool_decide_eq_true.
    apply bool_decide_eq_true. pose proof (Hs e e'). lia. }
  cbv zeta in *. set (r := bound_loop _ _ _ _) in *.
  split; [lia|]. split.
  - intros e He. by pose proof (Htrue e He) as H%bool_decide_eq_true.
  - intros e He. assert (¬ edge_dest topo e < dst); [|lia].
    by pose proof (Hfalse e ltac:(lia)) as H%bool_decide_eq_false.
Qed.

Lemma upper_bound_spec topo first last dst :
  first ≤ last → dests_sorted_in topo first last →
  let r := upper_bound topo first last dst in
  first ≤ r ≤ last
  ∧ (∀ e, first ≤ e < r → edge_dest topo e ≤ dst)
  ∧ (∀ e, r ≤ e < last → dst < edge_dest topo e).
Proof.
  intros Hle Hs. unfold upper_bound.
  destruct (bound_loop_spec
              (λ e, negb (bool_decide (dst < edge_dest topo e)))
              (last - first) first (last - first)) as (Hr & Htrue & Hfalse);
    [done| |].
  { intros e e' He Hee' He' Hlt%negb_true_iff%bool_decide_eq_false.
    apply negb_true_iff, bool_decide_eq_false. pose proof (Hs e e'). lia. }
  cbv zeta in *. set (r := bound_loop _ _ _ _) in *.
  split; [lia|]. split.
  - intros e He. assert (¬ dst < edge_dest topo e); [|lia].
    by pose proof (Htrue e He) as H%negb_true_iff%bool_decide_eq_false.
  - intros e He.
    by pose proof (Hfalse e ltac:(lia)) as H%negb_false_iff%bool_decide_eq_true.
Qed.

Lemma elem_of_out_neighbors t n d :
  d ∈ out_neighbors t n
  ↔ ∃ e, (edges t n).1 ≤ e < (edges t n).2 ∧ edge_dest t e = d.
Proof.
  unfold out_neighbors, range_items. rewrite list_elem_of_fmap.
  split.
  - intros (e & -> & He%elem_of_seq). exists e. split; [lia|done].
  - intros (e & He & <-). exists e. split; [done|]. apply elem_of_seq. lia.
Qed.

Lemma out_neighbors_sorted_in t n :
  Sorted (≤) (out_neighbors t n) →
  dests_sorted_in t (edges t n).1 (edges t n).2.
Proof.
  intros Hs e e' He Hee' He'.
  set (b := (edges t n).1) in *. set (l := (edges t n).2) in *.
  assert (Hlen : length (out_neighbors t n) = l - b).
  { unfold out_neighbors, range_items. by rewrite length_fmap, length_seq. }
  assert (Hlook : ∀ x, b ≤ x < l →
    out_neighbors t n !!! (x - b) = edge_dest t x).
  { intros x Hx. unfold out_neighbors, range_items. fold b l.
    apply list_lookup_total_correct.
    rewrite list_lookup_fmap, lookup_seq_lt by lia. simpl.
    f_equal. f_equal. lia. }
  rewrite <- (Hlook e), <- (Hlook e') by lia.
  apply Sorted_le_lookup; (lia || done).
Qed.

(** The search shared by [find_edge] and [FindEdgeSortedByDest]. *)
Lemma find_edge_core debug topo src dst :
  let r := edges topo src in
  r.1 ≤ r.2 → r.2 ≤ num_edges topo →
  (kBinarySearchThreshold < range_size r →
     dests_sorted_in topo r.1 r.2
     ∧ (r.2 < num_edges topo ∨ ∃ e, r.1 ≤ e < r.2 ∧ dst ≤ edge_dest topo e)) →
  ∃ it,
    (if decide (range_size r ≤ kBinarySearchThreshold) then
       Ok (find_if (λ e, bool_decide (edge_dest topo e = dst))
             (range_begin r) (range_size r))
     else
       d ← edge_dest_at debug topo (lower_bound topo (range_begin r)
                                       (range_end r) dst);
       Ok (if decide (d = dst)
           then lower_bound topo (range_begin r) (range_end r) dst
           else range_end r)) = Ok it
    ∧ r.1 ≤ it ≤ r.2
    ∧ (it < r.2 → edge_dest topo it = dst)
    ∧ (∀ e, r.1 ≤ e < it → edge_dest topo e ≠ dst)
    ∧ (it = r.2 → ∀ e, r.1 ≤ e < r.2 → edge_dest topo e ≠ dst).
Proof.
  intros r Hle HE Hlarge.
  unfold range_begin, range_end, range_size in *.
  case_decide as Hsz.
  - eexists. split; [reflexivity|].
    destruct (find_if_spec (λ e, bool_decide (edge_dest topo e = dst))
                (r.2 - r.1) r.1) as (Hr & Hfound & Hbefore).
    cbv zeta in *. set (it := find_if _ _ _) in *.
    replace (r.1 + (r.2 - r.1)) with r.2 in * by lia.
    assert (Hne : ∀ e, r.1 ≤ e < it → edge_dest topo e ≠ dst).
    { intros e He. by pose proof (Hbefore e He) as H%bool_decide_eq_false. }
    split; [done|]. split.
    + intros Hlt. by pose proof (Hfound Hlt) as H%bool_decide_eq_true.
    + split; [done|]. intros ->. done.
  - destruct Hlarge as [Hs Hin]; [lia|].
    destruct (lower_bound_spec topo r.1 r.2 dst Hle Hs)
      as (Hr & Hbelow & Habove).
    cbv zeta in *. set (it := lower_bound _ _ _ _) in *.
    assert (Hit : it < num_edges topo).
    { destruct Hin as [?|(e & He & Hd)]; [lia|].
      destruct (decide (e < it)) as [Hlt|]; [|lia].
      pose proof (Hbelow e ltac:(lia)). lia. }
    unfold edge_dest_at.
    destruct (lookup_lt_is_Some_2 (dests_ topo) it Hit) as [d Hd].
    rewrite Hd, outcome_bind_Ok.
    assert (Hdest : edge_dest topo it = d).
    { unfold edge_dest. by apply list_lookup_total_correct. }
    assert (Hnb : ∀ e, r.1 ≤ e < it → edge_dest topo e ≠ dst).
    { intros e He. pose proof (Hbelow e He). lia. }
    case_decide as Heq.
    + exists it. split; [done|]. split; [done|]. split; [congruence|].
      split; [done|]. intros ->. done.
    + exists r.2. split; [done|]. split; [lia|]. split; [lia|].
      assert (Hall : ∀ e, r.1 ≤ e < r.2 → edge_dest topo e ≠ dst).
      { intros e He. destruct (decide (e < it)); [apply Hnb; lia|].
        pose proof (Habove it). pose proof (Hs it e).
        destruct (decide (it < r.2)); [|lia]. lia. }
      split; [done|]. done.
Qed.

Lemma find_edge_core_csr debug topo src dst :
  let r := edges topo src in
  csr_wf topo → src < num_nodes topo →
  (kBinarySearchThreshold < degree topo src →
     Sorted (≤) (out_neighbors topo src)
     ∧ (range_end r < num_edges topo
        ∨ Exists (λ d, dst ≤ d) (out_neighbors topo src))) →
  ∃ it, FindEdgeSortedByDest debug (mkPropertyGraph topo []) src dst = Ok it
    ∧ range_begin r ≤ it ≤ range_end r
    ∧ (it < range_end r →
       edge_dest topo it = dst
       ∧ ∀ e, range_begin r ≤ e < it → edge_dest topo e ≠ dst)
    ∧ (it = range_end r ↔ dst ∉ out_neighbors topo src).
Proof.
  intros r Hwf Hsrc Hlarge.
  assert (Hle : r.1 ≤ r.2) by (by apply edges_le).
  assert (HE : r.2 ≤ num_edges topo) by (by apply edges_end_le).
  destruct (find_edge_core debug topo src dst Hle HE)
    as (it & Hrun & Hr & Hfound & Hbefore & Hnone).
  { intros Hsz. destruct (Hlarge Hsz) as [Hs Hin].
    split; [by apply out_neighbors_sorted_in|].
    destruct Hin as [?|Hex]; [by left|right].
    apply Exists_exists in Hex as (d & Hd%elem_of_out_neighbors & Hdst).
    destruct Hd as (e & He & <-). by exists e. }
  exists it. split; [exact Hrun|].
  unfold range_begin, range_end. subst r.
  split; [done|]. split; [by split; [apply Hfound|]|].
  rewrite elem_of_out_neighbors. split.
  - intros Hit (e & He & Hd). by apply (Hnone Hit e).
  - intros Hno.
    destruct (decide (it = (edges topo src).2)) as [|Hne]; [done|].
    exfalso. apply Hno. exists it. split; [lia|]. apply Hfound. lia.
Qed.

(** X3: [find_edge] on a node of a CSR-valid topology returns the
    first edge of [src] to [dst], or [edges(src).end()] when there is
    none, and [has_edge] tells whether there is one: for up to 64
    edges without any condition, for more when the destinations of
    [src] are in ascending order and the position [lower_bound] stops
    at is inside the array (the range of [src] is not the last one, or
    some destination of [src] is at least [dst]). *)
Theorem find_edge_finds (debug : bool) (topo : EdgeShuffleTopology)
    (src dst : Node) :
  let base := est_base topo in
  let r := edges base src in
  csr_wf base → src < num_nodes base →
  (kBinarySearchThreshold < degree base src →
     Sorted (≤) (out_neighbors base src)
     ∧ (range_end r < num_edges base
        ∨ Exists (λ d, dst ≤ d) (out_neighbors base src))) →
  ∃ it, find_edge debug topo src dst = Ok it
    ∧ range_begin r ≤ it ≤ range_end r
    ∧ (it < range_end r →
       edge_dest base it = dst
       ∧ ∀ e, range_begin r ≤ e < it → edge_dest base e ≠ dst)
    ∧ (it = range_end r ↔ dst ∉ out_neighbors base src)
    ∧ has_edge debug topo src dst
      = Ok (bool_decide (dst ∈ out_neighbors base src)).
Proof.
  intros base r Hwf Hsrc Hlarge.
  destruct (find_edge_core_csr debug base src dst Hwf Hsrc Hlarge)
    as (it & Hrun & Hr & Hfound & Hend).
  change (find_edge debug topo src dst = Ok it) in Hrun.
  exists it. split; [done|]. split; [done|]. split; [done|].
  split; [done|].
  unfold has_edge. rewrite Hrun, outcome_bind_Ok. fold base r. f_equal.
  destruct (decide (dst ∈ out_neighbors base src)) as [Hin|Hnin].
  - rewrite (bool_decide_eq_true_2 _ Hin).
    rewrite bool_decide_eq_false_2; [done|]. intros Hc%Hend. done.
  - rewrite (bool_decide_eq_false_2 _ Hnin).
    rewrite bool_decide_eq_true_2; [done|]. by apply Hend.
Qed.

Lemma find_edge_finds_witness :
  ∃ it, find_edge true example_wide 0 0 = Ok it
    ∧ range_begin (edges (est_base example_wide) 0) ≤ it
      ≤ range_end (edges (est_base example_wide) 0)
    ∧ (it < range_end (edges (est_base example_wide) 0) →
       edge_dest (est_base example_wide) it = 0
       ∧ ∀ e, range_begin (edges (est_base example_wide) 0) ≤ e < it →
              edge_dest (est_base example_wide) e ≠ 0)
    ∧ (it = range_end (edges (est_base example_wide) 0)
       ↔ 0 ∉ out_neighbors (est_base example_wide) 0)
    ∧ has_edge true example_wide 0 0
      = Ok (bool_decide (0 ∈ out_neighbors (est_base example_wide) 0)).
Proof.
  apply (find_edge_finds true example_wide 0 0).
  - apply (bool_decide_unpack _). vm_compute. exact I.
  - vm_compute. lia.
  - intros _. split.
    + apply (bool_decide_unpack _). vm_compute. exact I.
    + right. apply (bool_decide_unpack _). vm_compute. exact I.
Defined.

(** X4: [FindEdgeSortedByDest] returns the first edge of [src] to
    [dst], or the end of the range of [src] when there is none, under
    the conditions of [find_edge]: at most 64 edges, or ascending
    destinations and a position inside the array. *)
Theorem FindEdgeSortedByDest_finds (debug : bool) (graph : PropertyGraph)
    (src dst : Node) :
  let topo := topology graph in
  let r := edges topo src in
  csr_wf topo → src < num_nodes topo →
  (kBinarySearchThreshold < degree topo src →
     Sorted (≤) (out_neighbors topo src)
     ∧ (range_end r < num_edges topo
        ∨ Exists (λ d, dst ≤ d) (out_neighbors topo src))) →
  ∃ it, FindEdgeSortedByDest debug graph src dst = Ok it
    ∧ range_begin r ≤ it ≤ range_end r
    ∧ (it < range_end r →
       edge_dest topo it = dst
       ∧ ∀ e, range_begin r ≤ e < it → edge_dest topo e ≠ dst)
    ∧ (it = range_end r ↔ dst ∉ out_neighbors topo src).
Proof.
  intros topo r Hwf Hsrc Hlarge.
  exact (find_edge_core_csr debug topo src dst Hwf Hsrc Hlarge).
Qed.

Lemma FindEdgeSortedByDest_finds_witness :
  let graph := PropertyGraph_of (est_base example_wide) in
  let topo := topology graph in
  let r := edges topo 0 in
  ∃ it, FindEdgeSortedByDest true graph 0 0 = Ok it
    ∧ range_begin r ≤ it ≤ range_end r
    ∧ (it < range_end r →
       edge_dest topo it = 0
       ∧ ∀ e, range_begin r ≤ e < it → edge_dest topo e ≠ 0)
    ∧ (it = range_end r ↔ 0 ∉ out_neighbors topo 0).
Proof.
  apply (FindEdgeSortedByDest_finds true
           (PropertyGraph_of (est_base example_wide)) 0 0).
  - apply (bool_decide_unpack _). vm_compute. exact I.
  - vm_compute. lia.
  - intros _. split.
    + apply (bool_decide_unpack _). vm_compute. exact I.
    + right. apply (bool_decide_unpack _). vm_compute. exact I.
Defined.

(** X5: [FindEdgeSortedByDest] on a node with more than 64 edges, all
    to destinations below [dst], whose range is the last of the
    topology, reads [dests_[E]]: it does not compare the position
    [lower_bound] returns with the end of the range before it reads
    the destination there.  A debug build aborts on the bounds
    assertion of [edge_dest]. *)
Theorem FindEdgeSortedByDest_reads_past_end (debug : bool)
    (graph : PropertyGraph) (src dst : Node) :
  let topo := topology graph in
  let r := edges topo src in
  kBinarySearchThreshold < range_size r →
  Forall (λ d, d < dst) (out_neighbors topo src) →
  range_end r = num_edges topo →
  FindEdgeSortedByDest debug graph src dst
  = if debug then Fatal else Undefined.
Proof.
  intros topo r Hlarge Hbelow Hend.
  rewrite Forall_forall in Hbelow.
  unfold FindEdgeSortedByDest. fold topo r.
  rewrite decide_False by lia. cbv zeta.
  unfold range_begin, range_end, range_size, kBinarySearchThreshold in *.
  unfold lower_bound. rewrite bound_loop_all_right.
  - replace (r.1 + (r.2 - r.1)) with r.2 by lia.
    unfold edge_dest_at. rewrite Hend.
    rewrite (lookup_ge_None_2 (dests_ topo)) by done. by destruct debug.
  - lia.
  - intros e He. apply bool_decide_eq_true_2, Hbelow.
    apply elem_of_out_neighbors. exists e. fold topo r. split; [lia|done].
Qed.

Lemma FindEdgeSortedByDest_reads_past_end_witness :
  FindEdgeSortedByDest false (PropertyGraph_of (est_base example_wide)) 0 1
  = Undefined.
Proof.
  apply (FindEdgeSortedByDest_reads_past_end false
           (PropertyGraph_of (est_base example_wide)) 0 1).
  - vm_compute. lia.
  - apply (bool_decide_unpack _). vm_compute. exact I.
  - reflexivity.
Defined.

(** ** SortAllEdgesByDest *)

Lemma lookup_zip_Some {A B} (l : list A) (k : list B) j x y :
  zip l k !! j = Some (x, y) ↔ l !! j = Some x ∧ k !! j = Some y.
Proof.
  rewrite lookup_zip_with_Some. split.
  - intros (a & b & [= -> ->] & Ha & Hb). done.
  - intros [Ha Hb]. by exists x, y.
Qed.

Lemma slice_seq b e n : e ≤ n → slice (seq 0 n) b e = seq b (e - b).
Proof.
  intros He. apply list_eq. intros j. rewrite lookup_slice.
  case_decide.
  - rewrite !lookup_seq_lt by lia. done.
  - by rewrite lookup_seq_ge by lia.
Qed.

Section all_edges_sort_proofs.
Variable psort : ∀ A : Type, (A → A → bool) → list A → list A.
Hypothesis psort_perm : ∀ A (cmp : A → A → bool) l, psort A cmp l ≡ₚ l.
Hypothesis psort_sorted : ∀ A (cmp : A → A → bool) l,
  (∀ a b, cmp a b = true → cmp b a = false) →
  Sorted (λ a b, cmp b a = false) (psort A cmp l).

Lemma SortAllEdgesByDest_spec pg :
  csr_wf (topology pg) →
  let t := topology pg in
  let pg' := (SortAllEdgesByDest psort pg).1 in
  let permutation_vec := (SortAllEdgesByDest psort pg).2 in
  let t' := topology pg' in
  csr_wf t' ∧ adj_indices_ t' = adj_indices_ t
  ∧ edge_entity_type_id_ pg' = edge_entity_type_id_ pg
  ∧ permutation_vec ≡ₚ seq 0 (num_edges t)
  ∧ (∀ n, n < num_nodes t →
       Sorted (≤) (out_neighbors t' n)
       ∧ out_neighbors t' n ≡ₚ out_neighbors t n)
  ∧ ∀ n e, n < num_nodes t → (edges t n).1 ≤ e < (edges t n).2 →
      (edges t n).1 ≤ permutation_vec !!! e < (edges t n).2
      ∧ edge_dest t' e = edge_dest t (permutation_vec !!! e).
Proof.
  intros Hwf t.
  set (cmp := λ tup1 tup2 : nat * nat, bool_decide (tup1.1 < tup2.1)).
  destruct (sort_edge_ranges_loop psort psort_perm cmp t (dests_ t)
              (seq 0 (num_edges t)) (num_nodes t) Hwf eq_refl)
    as (Hl1 & Hl2 & Hp1 & Hp2 & _ & Hdone); [apply length_seq|done|].
  unfold SortAllEdgesByDest, all_nodes. fold t. cbv zeta in *.
  fold cmp.
  destruct (do_all _ _ _) as [dests' perm]. cbn [fst snd topology] in *.
  cbn [edge_entity_type_id_ adj_indices_].
  set (t' := mkGraphTopology (adj_indices_ t) dests').
  assert (Hedges : ∀ n, edges t' n = edges t n) by done.
  assert (Hwf' : csr_wf t').
  { destruct Hwf as (Hs & HE & Hd). unfold csr_wf, num_nodes, num_edges, t'.
    cbn [adj_indices_ dests_]. rewrite Hp1. done. }
  assert (Hblock : ∀ n, n < num_nodes t →
    let b := (edges t n).1 in let e := (edges t n).2 in
    b ≤ e ∧ e ≤ num_edges t
    ∧ slice dests' b e
      = (psort _ cmp (zip (slice (dests_ t) b e) (seq b (e - b)))).*1
    ∧ slice perm b e
      = (psort _ cmp (zip (slice (dests_ t) b e) (seq b (e - b)))).*2).
  { intros n Hn b e.
    assert (Hbe : b ≤ e) by (by apply edges_le).
    assert (HeE : e ≤ num_edges t) by (by apply edges_end_le).
    specialize (Hdone n Hn). fold b e in Hdone.
    rewrite slice_seq in Hdone by done.
    split; [done|]. split; [done|]. rewrite <- Hdone.
    rewrite fst_zip, snd_zip by (rewrite !length_slice; lia). done. }
  split; [done|]. split; [done|]. split; [done|]. split; [done|]. split.
  - intros n Hn. destruct (Hblock n Hn) as (Hbe & HeE & Hd & _).
    set (b := (edges t n).1) in *. set (e := (edges t n).2) in *.
    assert (Hout : ∀ g, edges g n = edges t n → e ≤ num_edges g →
      out_neighbors g n = slice (dests_ g) b e).
    { intros g Hg He. unfold out_neighbors, range_items, edge_dest.
      rewrite Hg. fold b e. by apply slice_lookup_total. }
    rewrite (Hout t'), (Hout t) by (done || (unfold num_edges in *; simpl; lia)).
    cbn [dests_ t']. rewrite Hd. split.
    + apply (Sorted_fmap _ (λ a b : nat * nat, cmp b a = false)).
      * intros x y Hc%bool_decide_eq_false. lia.
      * apply psort_sorted. intros x y Hc%bool_decide_eq_true.
        apply bool_decide_eq_false. lia.
    + rewrite psort_perm, fst_zip; [done|].
      rewrite length_slice, length_seq by done. lia.
  - intros n e Hn He. destruct (Hblock n Hn) as (Hbe & HeE & Hd & Hp).
    set (b := (edges t n).1) in *. set (l := (edges t n).2) in *.
    set (sorted := psort _ cmp (zip (slice (dests_ t) b l) (seq b (l - b))))
      in *.
    assert (Hall : Forall (λ xp : nat * nat,
      b ≤ xp.2 < l ∧ xp.1 = dests_ t !!! xp.2) sorted).
    { unfold sorted. rewrite psort_perm. apply Forall_lookup.
      intros j [x p] [Hx Hpj]%lookup_zip_Some.
      rewrite lookup_slice in Hx. case_decide; [|done].
      rewrite lookup_seq_lt in Hpj by done. simplify_eq. simpl.
      split; [lia|]. symmetry. by apply list_lookup_total_correct. }
    assert (Hlook : sorted !! (e - b) = Some (dests' !!! e, perm !!! e)).
    { rewrite <- (zip_fst_snd sorted), <- Hd, <- Hp.
      apply lookup_zip_Some. rewrite !lookup_slice.
      rewrite !decide_True by lia.
      replace (b + (e - b)) with e by lia.
      split; apply list_lookup_lookup_total_lt; lia. }
    rewrite Forall_lookup in Hall. apply Hall in Hlook. simpl in Hlook.
    unfold edge_dest. done.
Qed.

(** X6: [SortAllEdgesByDest] keeps the adjacency index and the entity
    types, leaves the destinations of every node in ascending order
    and the same as a multiset, and returns a permutation of the edge
    ids that gives, for every edge, the edge of the same node it was
    before the call. *)
Theorem SortAllEdgesByDest_sorts (pg : PropertyGraph) :
  csr_wf (topology pg) →
  let t := topology pg in
  let pg' := (SortAllEdgesByDest psort pg).1 in
  let permutation_vec := (SortAllEdgesByDest psort pg).2 in
  let t' := topology pg' in
  csr_wf t' ∧ adj_indices_ t' = adj_indices_ t
  ∧ edge_entity_type_id_ pg' = edge_entity_type_id_ pg
  ∧ permutation_vec ≡ₚ seq 0 (num_edges t)
  ∧ (∀ n, n < num_nodes t →
       Sorted (≤) (out_neighbors t' n)
       ∧ out_neighbors t' n ≡ₚ out_neighbors t n)
  ∧ ∀ n e, n < num_nodes t → (edges t n).1 ≤ e < (edges t n).2 →
      (edges t n).1 ≤ permutation_vec !!! e < (edges t n).2
      ∧ edge_dest t' e = edge_dest t (permutation_vec !!! e).
Proof. exact (SortAllEdgesByDest_spec pg). Qed.

(** X7: after [SortAllEdgesByDest], [FindEdgeSortedByDest] finds an
    edge from [src] to [dst] exactly when the graph has one, and the
    permutation vector gives an edge from [src] to [dst] of the graph
    before the sort; for a node with more than 64 edges this needs the
    position of the binary search to be inside the array. *)
Theorem FindEdgeSortedByDest_after_sort (debug : bool) (pg : PropertyGraph)
    (src dst : Node) :
  let t := topology pg in
  let r := edges t src in
  let pg' := (SortAllEdgesByDest psort pg).1 in
  let permutation_vec := (SortAllEdgesByDest psort pg).2 in
  csr_wf t → src < num_nodes t →
  (kBinarySearchThreshold < degree t src →
     range_end r < num_edges t
     ∨ Exists (λ d, dst ≤ d) (out_neighbors t src)) →
  ∃ it, FindEdgeSortedByDest debug pg' src dst = Ok it
    ∧ range_begin r ≤ it ≤ range_end r
    ∧ (it < range_end r ↔ dst ∈ out_neighbors t src)
    ∧ (it < range_end r →
       range_begin r ≤ permutation_vec !!! it < range_end r
       ∧ edge_dest t (permutation_vec !!! it) = dst).
Proof.
  intros t r pg' permutation_vec Hwf Hsrc Hlarge.
  destruct (SortAllEdgesByDest_spec pg Hwf)
    as (Hwf' & Hadj & _ & _ & Hnb & Hperm).
  fold t pg' permutation_vec in Hwf', Hadj, Hnb, Hperm.
  set (t' := topology pg') in *.
  assert (Hedges : ∀ n, edges t' n = edges t n).
  { intros n. unfold edges. by rewrite Hadj. }
  assert (HN : num_nodes t' = num_nodes t).
  { unfold num_nodes. by rewrite Hadj. }
  destruct (Hnb src Hsrc) as [Hs Hp].
  assert (HE : num_edges t' = num_edges t).
  { destruct Hwf as (_ & HE & _), Hwf' as (_ & HE' & _).
    rewrite HE, HE', HN, Hadj. done. }
  destruct (find_edge_core_csr debug t' src dst Hwf')
    as (it & Hrun & Hr & Hfound & Hend); [lia| |].
  { intros Hsz. split; [done|]. rewrite Hedges, HE, Hp.
    apply Hlarge. unfold degree in *. by rewrite <- Hedges. }
  rewrite Hedges in Hr, Hfound, Hend. fold r in Hr, Hfound, Hend.
  rewrite Hp in Hend.
  exists it. split; [exact Hrun|]. split; [done|].
  unfold range_begin, range_end in *. split.
  - split.
    + intros Hlt. destruct (decide (dst ∈ out_neighbors t src)); [done|].
      assert (it = r.2) by (by apply Hend). lia.
    + intros Hin. destruct (decide (it = r.2)) as [Heq%Hend|]; [done|lia].
  - intros Hlt. destruct (Hfound Hlt) as [Hd _].
    destruct (Hperm src it Hsrc) as [Hpr Hpd]; [fold r; lia|].
    fold r in Hpr. split; [done|]. by rewrite <- Hpd.
Qed.
End all_edges_sort_proofs.

Example SortAllEdgesByDest_example :
  SortAllEdgesByDest merge_psort example_unsorted_pg
  = (mkPropertyGraph (mkGraphTopology [2; 3; 3; 4] [1; 2; 2; 3]) [0; 0; 0; 0],
     [1; 0; 2; 3]).
Proof. vm_compute. reflexivity. Qed.

Lemma SortAllEdgesByDest_sorts_witness :
  let pg := example_unsorted_pg in
  let t := topology pg in
  let pg' := (SortAllEdgesByDest merge_psort pg).1 in
  let permutation_vec := (SortAllEdgesByDest merge_psort pg).2 in
  let t' := topology pg' in
  csr_wf t' ∧ adj_indices_ t' = adj_indices_ t
  ∧ edge_entity_type_id_ pg' = edge_entity_type_id_ pg
  ∧ permutation_vec ≡ₚ seq 0 (num_edges t)
  ∧ (∀ n, n < num_nodes t →
       Sorted (≤) (out_neighbors t' n)
       ∧ out_neighbors t' n ≡ₚ out_neighbors t n)
  ∧ ∀ n e, n < num_nodes t → (edges t n).1 ≤ e < (edges t n).2 →
      (edges t n).1 ≤ permutation_vec !!! e < (edges t n).2
      ∧ edge_dest t' e = edge_dest t (permutation_vec !!! e).
Proof.
  apply (SortAllEdgesByDest_sorts merge_psort merge_psort_perm
           merge_psort_sorted example_unsorted_pg).
  apply (bool_decide_unpack _). vm_compute. exact I.
Defined.

Lemma FindEdgeSortedByDest_after_sort_witness :
  let pg := example_unsorted_pg in
  let t := topology pg in
  let r := edges t 0 in
  let pg' := (SortAllEdgesByDest merge_psort pg).1 in
  let permutation_vec := (SortAllEdgesByDest merge_psort pg).2 in
  ∃ it, FindEdgeSortedByDest true pg' 0 1 = Ok it
    ∧ range_begin r ≤ it ≤ range_end r
    ∧ (it < range_end r ↔ 1 ∈ out_neighbors t 0)
    ∧ (it < range_end r →
       range_begin r ≤ permutation_vec !!! it < range_end r
       ∧ edge_dest t (permutation_vec !!! it) = 1).
Proof.
  apply (FindEdgeSortedByDest_after_sort merge_psort merge_psort_perm
           merge_psort_sorted true example_unsorted_pg 0 1).
  - apply (bool_decide_unpack _). vm_compute. exact I.
  - vm_compute. lia.
  - intros H. vm_compute in H. lia.
Defined.

(** ** Sorting the edges of a shuffled topology *)

Section shuffle_proofs.
Variable psort : ∀ A : Type, (A → A → bool) → list A → list A.
Hypothesis psort_perm : ∀ A (cmp : A → A → bool) l, psort A cmp l ≡ₚ l.
Hypothesis psort_sorted : ∀ A (cmp : A → A → bool) l,
  (∀ a b, cmp a b = true → cmp b a = false) →
  Sorted (λ a b, cmp b a = false) (psort A cmp l).

(** What holds of every entry of a range holds of every entry of the
    sorted range. *)
Lemma sorted_block_lookup {A B} `{Inhabited A, Inhabited B}
    (cmp : A * B → A * B → bool) (a a' : list A) (d d' : list B) b l e
    (Q : A * B → Prop) :
  b ≤ e < l → l ≤ length a → l ≤ length d → l ≤ length a' → l ≤ length d' →
  zip (slice a' b l) (slice d' b l)
  = psort _ cmp (zip (slice a b l) (slice d b l)) →
  (∀ x, b ≤ x < l → Q (a !!! x, d !!! x)) →
  Q (a' !!! e, d' !!! e).
Proof.
  intros He Hla Hld Hla' Hld' Hblock HQ.
  assert (Hall : Forall Q (zip (slice a' b l) (slice d' b l))).
  { rewrite Hblock, psort_perm. apply Forall_lookup.
    intros j [x y] [Hx Hy]%lookup_zip_Some.
    rewrite lookup_slice in Hx. rewrite lookup_slice in Hy.
    case_decide; [|done].
    apply list_lookup_total_correct in Hx. apply list_lookup_total_correct in Hy.
    subst. apply HQ. lia. }
  rewrite Forall_lookup in Hall. apply (Hall (e - b)).
  apply lookup_zip_Some. rewrite !lookup_slice, !decide_True by lia.
  replace (b + (e - b)) with e by lia.
  split; apply list_lookup_lookup_total_lt; lia.
Qed.

Lemma shuffle_of_length pg topo :
  shuffle_of pg topo →
  length (edge_prop_indices_ topo) = num_edges (est_base topo).
Proof. intros (_ & HE & Hp & _). by rewrite Hp, length_seq. Qed.

(** Sorting the ranges keeps the edges. *)
Lemma sort_edge_ranges_shuffle_of pg cmp new_state topo :
  csr_wf (est_base topo) → shuffle_of pg topo →
  shuffle_of pg (sort_edge_ranges psort cmp new_state topo).
Proof.
  intros Hwf Hsh. pose proof (shuffle_of_length _ _ Hsh) as Hlen.
  destruct (sort_edge_ranges_spec psort psort_perm cmp new_state topo Hwf Hlen)
    as (Hadj & _ & Htp & Hlp & Hpp & Hdst & Hblocks).
  set (res := sort_edge_ranges psort cmp new_state topo) in *.
  set (base := est_base topo) in *.
  destruct Hsh as (HN & HE & Hp & Hedge).
  assert (HN' : num_nodes (est_base res) = num_nodes base).
  { unfold num_nodes. by rewrite Hadj. }
  assert (HE' : num_edges (est_base res) = num_edges base).
  { unfold num_edges. by rewrite Hdst. }
  unfold shuffle_of.
  split; [by rewrite HN'|]. split; [by rewrite HE'|].
  split; [by rewrite Hpp|].
  intros e u v (Hu & He & Hd). rewrite HN' in Hu.
  assert (Hedges : edges (est_base res) u = edges base u).
  { unfold edges. by rewrite Hadj. }
  rewrite Hedges in He. rewrite Htp.
  set (b := (edges base u).1) in *. set (l := (edges base u).2) in *.
  assert (HlE : l ≤ num_edges base) by (by apply edges_end_le).
  unfold edge_property_index, edge_dest in *. subst v.
  apply (sorted_block_lookup cmp (edge_prop_indices_ topo)
           (edge_prop_indices_ res) (dests_ base) (dests_ (est_base res))
           b l e
           (λ pd, match tpose_state_ topo with
                  | TransposeKind.kNo => is_edge (topology pg) pd.1 u pd.2
                  | TransposeKind.kYes => is_edge (topology pg) pd.1 pd.2 u
                  end)); try (unfold num_edges in *; lia).
  - by apply Hblocks.
  - intros x Hx. simpl. apply (Hedge x u (dests_ base !!! x)).
    split; [done|]. split; [done|]. done.
Qed.

Lemma sort_edge_ranges_is_valid cmp new_state topo :
  is_valid_ (sort_edge_ranges psort cmp new_state topo) = is_valid_ topo.
Proof. unfold sort_edge_ranges. by destruct (do_all _ _ _). Qed.

Lemma SortEdgesByDestID_spec pg topo :
  csr_wf (est_base topo) → shuffle_of pg topo →
  let base := est_base topo in
  let res := SortEdgesByDestID psort topo in
  csr_wf (est_base res)
  ∧ adj_indices_ (est_base res) = adj_indices_ base
  ∧ tpose_state_ res = tpose_state_ topo
  ∧ is_valid_ res = is_valid_ topo
  ∧ edge_sort_state_ res = EdgeSortKind.kSortedByDestID
  ∧ (∀ n, n < num_nodes base →
       Sorted (≤) (out_neighbors (est_base res) n)
       ∧ out_neighbors (est_base res) n ≡ₚ out_neighbors base n)
  ∧ shuffle_of pg res.
Proof.
  intros Hwf Hsh base res.
  pose proof (shuffle_of_length _ _ Hsh) as Hlen.
  unfold res, SortEdgesByDestID.
  set (cmp := λ tup1 tup2 : nat * nat, _).
  destruct (sort_edge_ranges_spec psort psort_perm cmp
              EdgeSortKind.kSortedByDestID topo Hwf Hlen)
    as (Hadj & Hst & Htp & _ & _ & _ & _).
  destruct (sort_edge_ranges_csr_wf psort psort_perm cmp
              EdgeSortKind.kSortedByDestID topo Hwf Hlen) as [Hwf' _].
  split; [done|]. split; [done|]. split; [done|].
  split; [apply sort_edge_ranges_is_valid|].
  split; [done|]. split.
  - intros n Hn.
    apply (SortEdgesByDestID_sorted psort psort_perm psort_sorted topo n);
      done.
  - by apply sort_edge_ranges_shuffle_of.
Qed.

(** X8: [SortEdgesByDestID] keeps the adjacency index, the transpose
    state and the edges of the topology (every edge still has, through
    its property index, its end points in the graph), leaves the
    destinations of every node in ascending order, and sets the state
    [kSortedByDestID]. *)
Theorem SortEdgesByDestID_sorts (pg : PropertyGraph)
    (topo : EdgeShuffleTopology) :
  csr_wf (est_base topo) → shuffle_of pg topo →
  let base := est_base topo in
  let res := SortEdgesByDestID psort topo in
  csr_wf (est_base res)
  ∧ adj_indices_ (est_base res) = adj_indices_ base
  ∧ tpose_state_ res = tpose_state_ topo
  ∧ is_valid_ res = is_valid_ topo
  ∧ edge_sort_state_ res = EdgeSortKind.kSortedByDestID
  ∧ (∀ n, n < num_nodes base →
       Sorted (≤) (out_neighbors (est_base res) n)
       ∧ out_neighbors (est_base res) n ≡ₚ out_neighbors base n)
  ∧ shuffle_of pg res.
Proof. exact (SortEdgesByDestID_spec pg topo). Qed.

Lemma type_dest_le_cmp pg (x y : nat * nat) :
  (if decide (GetTypeOfEdge pg y.1 ≠ GetTypeOfEdge pg x.1)
   then bool_decide (GetTypeOfEdge pg y.1 < GetTypeOfEdge pg x.1)
   else bool_decide (y.2 < x.2)) = false →
  type_dest_le (GetTypeOfEdge pg x.1, x.2) (GetTypeOfEdge pg y.1, y.2).
Proof.
  unfold type_dest_le. simpl.
  case_decide; intros Hc%bool_decide_eq_false; lia.
Qed.

Lemma SortEdgesByTypeThenDest_spec pg topo :
  csr_wf (est_base topo) → shuffle_of pg topo →
  let base := est_base topo in
  let res := SortEdgesByTypeThenDest psort pg topo in
  csr_wf (est_base res)
  ∧ adj_indices_ (est_base res) = adj_indices_ base
  ∧ tpose_state_ res = tpose_state_ topo
  ∧ is_valid_ res = is_valid_ topo
  ∧ edge_sort_state_ res = EdgeSortKind.kSortedByEdgeType
  ∧ sorted_by_type_then_dest pg res
  ∧ shuffle_of pg res.
Proof.
  intros Hwf Hsh base res.
  pose proof (shuffle_of_length _ _ Hsh) as Hlen.
  unfold res, SortEdgesByTypeThenDest.
  set (cmp := λ tup1 tup2 : nat * nat, _).
  destruct (sort_edge_ranges_spec psort psort_perm cmp
              EdgeSortKind.kSortedByEdgeType topo Hwf Hlen)
    as (Hadj & Hst & Htp & Hlp & _ & Hdst & Hblocks).
  destruct (sort_edge_ranges_csr_wf psort psort_perm cmp
              EdgeSortKind.kSortedByEdgeType topo Hwf Hlen) as [Hwf' _].
  pose proof (sort_edge_ranges_shuffle_of pg cmp
                EdgeSortKind.kSortedByEdgeType topo Hwf Hsh) as Hsh'.
  set (res' := sort_edge_ranges _ _ _ _) in *. fold base in Hadj, Hblocks.
  split; [done|]. split; [done|]. split; [done|].
  split; [apply sort_edge_ranges_is_valid|].
  split; [done|]. split; [|done].
  apply Forall_forall. intros n Hn%elem_of_seq.
  assert (Hn' : n < num_nodes base).
  { unfold num_nodes in *. rewrite Hadj in Hn. lia. }
  specialize (Hblocks n Hn').
  assert (Hedges : edges (est_base res') n = edges base n).
  { unfold edges. by rewrite Hadj. }
  rewrite Hedges. unfold range_items.
  set (b := (edges base n).1) in *. set (e := (edges base n).2) in *.
  assert (HeE : e ≤ num_edges base) by (by apply edges_end_le).
  assert (Hld : length (dests_ (est_base res')) = num_edges base).
  { by rewrite Hdst. }
  assert ((λ x, (resolved_type pg res' x, edge_dest (est_base res') x))
            <$> seq b (e - b)
          = (λ pd : nat * nat, (GetTypeOfEdge pg pd.1, pd.2))
              <$> zip (slice (edge_prop_indices_ res') b e)
                      (slice (dests_ (est_base res')) b e)) as ->.
  { apply list_eq. intros j. rewrite !list_lookup_fmap.
    destruct (decide (j < e - b)) as [Hj|Hj].
    - rewrite lookup_seq_lt by done. simpl.
      assert (zip (slice (edge_prop_indices_ res') b e)
                  (slice (dests_ (est_base res')) b e) !! j
              = Some (edge_prop_indices_ res' !!! (b + j),
                      dests_ (est_base res') !!! (b + j))) as ->.
      { apply lookup_zip_Some. rewrite !lookup_slice, !decide_True by done.
        fold base in Hlp.
        split; apply list_lookup_lookup_total_lt; lia. }
      done.
    - rewrite lookup_seq_ge by lia.
      rewrite (lookup_ge_None_2 (zip _ _)); [done|].
      fold base in Hlp.
      rewrite length_zip, !length_slice by lia. lia. }
  rewrite Hblocks.
  apply (Sorted_fmap _ (λ a b : nat * nat, cmp b a = false)).
  - intros x y. apply type_dest_le_cmp.
  - apply (psort_sorted _ cmp). intros x y. unfold cmp.
    repeat case_decide; intros Hc%bool_decide_eq_true;
      apply bool_decide_eq_false; (lia || congruence).
Qed.

(** X9: [SortEdgesByTypeThenDest] keeps the adjacency index, the
    transpose state and the edges of the topology, leaves the edges of
    every node in ascending order of their type and, within one type,
    of their destination, and sets the state [kSortedByEdgeType]. *)
Theorem SortEdgesByTypeThenDest_sorts (pg : PropertyGraph)
    (topo : EdgeShuffleTopology) :
  csr_wf (est_base topo) → shuffle_of pg topo →
  let base := est_base topo in
  let res := SortEdgesByTypeThenDest psort pg topo in
  csr_wf (est_base res)
  ∧ adj_indices_ (est_base res) = adj_indices_ base
  ∧ tpose_state_ res = tpose_state_ topo
  ∧ is_valid_ res = is_valid_ topo
  ∧ edge_sort_state_ res = EdgeSortKind.kSortedByEdgeType
  ∧ sorted_by_type_then_dest pg res
  ∧ shuffle_of pg res.
Proof. exact (SortEdgesByTypeThenDest_spec pg topo). Qed.

Lemma MakeOriginalCopy_spec pg :
  csr_wf (topology pg) →
  let topo := MakeOriginalCopy pg in
  est_base topo = topology pg
  ∧ tpose_state_ topo = TransposeKind.kNo
  ∧ edge_sort_state_ topo = EdgeSortKind.kAny
  ∧ is_valid_ topo = true
  ∧ shuffle_of pg topo.
Proof.
  intros Hwf topo.
  assert (Hbase : est_base topo = topology pg).
  { unfold topo, MakeOriginalCopy, EdgeShuffleTopology_make. simpl.
    by destruct (topology pg). }
  split; [done|]. split; [done|]. split; [done|]. split; [done|].
  unfold shuffle_of. rewrite Hbase.
  split; [done|]. split; [done|]. split; [done|].
  intros e u v (Hu & He & Hd). change (tpose_state_ topo) with TransposeKind.kNo.
  cbv iota.
  assert (edge_property_index topo e = e) as ->.
  { unfold edge_property_index, topo, MakeOriginalCopy.
    cbn [edge_prop_indices_ EdgeShuffleTopology_make].
    apply list_lookup_total_correct. apply lookup_seq_lt.
    pose proof (edges_end_le (topology pg) u Hwf Hu). lia. }
  done.
Qed.
End shuffle_proofs.

(** ** MakeTransposeCopy and Make *)

Lemma do_all_edge_ids {S} (t : GraphTopology) (body : Node → Edge → S → S)
    (s : S) :
  do_all (all_nodes t)
    (λ src st, do_all (range_items (edges t src))
                 (λ e st, body src e st) st) s
  = foldl (λ st p, body p.1 p.2 st) s (edge_ids t).
Proof.
  unfold do_all, edge_ids. rewrite foldl_bind.
  apply foldl_ext_in. intros st src _. by rewrite foldl_fmap.
Qed.

Lemma edge_pairs_edge_ids t :
  edge_pairs t = (λ p, (p.1, edge_dest t p.2)) <$> edge_ids t.
Proof.
  unfold edge_pairs, edge_ids. rewrite fmap_bind_comm.
  apply bind_ext_in. intros n _. by rewrite <- list_fmap_compose.
Qed.

Lemma snd_edge_ids t : csr_wf t → snd <$> edge_ids t = all_edges t.
Proof.
  intros Hwf. rewrite <- (csr_ranges_concat t Hwf).
  unfold edge_ids. rewrite fmap_bind_comm.
  apply bind_ext_in. intros n _.
  rewrite <- list_fmap_compose. apply list_fmap_id.
Qed.

Lemma elem_of_edge_ids t p :
  p ∈ edge_ids t
  ↔ p.1 < num_nodes t ∧ (edges t p.1).1 ≤ p.2 < (edges t p.1).2.
Proof.
  unfold edge_ids. rewrite list_elem_of_bind. split.
  - intros (n & (e & -> & He%elem_of_seq)%list_elem_of_fmap & Hn%elem_of_seq).
    cbn [fst snd]. lia.
  - intros [Hn He]. exists p.1. split.
    + apply list_elem_of_fmap. exists p.2. split; [by destruct p|].
      apply elem_of_seq. lia.
    + apply elem_of_seq. lia.
Qed.

(** The scatter loop of [MakeTransposeCopy] fills two arrays with one
    cursor: it is two scatter loops with the same targets. *)
Lemma scatter_two {X} (tgt v1 v2 : X → nat) (l : list X) : ∀ off o1 o2,
  foldl (λ '(offsets, out1, out2) x,
           let '(e_new, offsets) := sync_fetch_and_add (tgt x) offsets in
           (offsets, <[e_new := v1 x]> out1, <[e_new := v2 x]> out2))
    (off, o1, o2) l
  = ((scatter ((λ x, (tgt x, v1 x)) <$> l) (off, o1)).1,
     (scatter ((λ x, (tgt x, v1 x)) <$> l) (off, o1)).2,
     (scatter ((λ x, (tgt x, v2 x)) <$> l) (off, o2)).2)
  ∧ (scatter ((λ x, (tgt x, v1 x)) <$> l) (off, o1)).1
    = (scatter ((λ x, (tgt x, v2 x)) <$> l) (off, o2)).1.
Proof.
  unfold scatter. induction l as [|x l IH]; intros off o1 o2; [done|].
  rewrite !fmap_cons. cbn [foldl].
  exact (IH (<[tgt x := off !!! tgt x + 1]> off)
            (<[off !!! tgt x := v1 x]> o1) (<[off !!! tgt x := v2 x]> o2)).
Qed.

Lemma hits_fmap {X} (tgt val : X → nat) (l : list X) v :
  hits v ((λ x, (tgt x, val x)) <$> l)
  = (λ x, (tgt x, val x)) <$> filter (λ x, tgt x = v) l.
Proof.
  induction l as [|x l IH]; [done|].
  csimpl. rewrite hits_cons, filter_cons, IH. simpl.
  by destruct (decide (tgt x = v)).
Qed.

Lemma occ_hits (y : nat * nat) v evs :
  occ y (hits v evs) = if decide (y.1 = v) then occ y evs else 0.
Proof.
  induction evs as [|ev evs IH].
  - by case_decide.
  - rewrite hits_cons, (occ_cons y ev evs).
    destruct (decide (ev.1 = v)) as [Hev|Hev].
    + rewrite occ_cons, IH. case_decide as Hy; [done|].
      rewrite decide_False; [done|]. intros <-. by apply Hy.
    + rewrite IH. case_decide as Hy; [|done].
      rewrite decide_False; [done|]. intros ->. by apply Hev.
Qed.

Lemma sum_list_single a c n :
  sum_list ((λ t, if decide (a = t) then c else 0) <$> seq 0 n)
  = if decide (a < n) then c else 0.
Proof.
  induction n as [|n IH]; [done|].
  rewrite seq_S, fmap_app, sum_list_with_app, IH. simpl.
  repeat case_decide; lia.
Qed.

(** The events of a scatter loop, grouped by target. *)
Lemma hits_partition n (evs : list (nat * nat)) :
  Forall (λ ev, ev.1 < n) evs → seq 0 n ≫= (λ v, hits v evs) ≡ₚ evs.
Proof.
  intros Hevs. apply occ_perm. intros y. rewrite occ_bind.
  erewrite list_fmap_ext; [|intros _ v _; apply occ_hits].
  rewrite sum_list_single. case_decide as Hy; [done|].
  symmetry. apply occ_zero. intros Hin.
  rewrite Forall_forall in Hevs. apply Hevs in Hin. lia.
Qed.

(** The array of a topology is the concatenation of the ranges of its
    nodes, also when it holds something else than destinations. *)
Lemma dests_concat g t :
  csr_wf t → adj_indices_ g = adj_indices_ t → num_edges g = num_edges t →
  dests_ g = all_nodes t ≫= out_neighbors g.
Proof.
  intros Hwf Hadj HE. rewrite <- (fmap_edge_dest_all_edges g).
  unfold all_edges. rewrite HE. fold (all_edges t).
  rewrite <- (csr_ranges_concat t Hwf), fmap_bind_comm.
  apply bind_ext_in. intros n _. unfold out_neighbors, edges.
  by rewrite Hadj.
Qed.

Lemma MakeTransposeCopy_spec pg :
  csr_wf (topology pg) →
  let topo := MakeTransposeCopy pg in
  csr_wf (est_base topo)
  ∧ tpose_state_ topo = TransposeKind.kYes
  ∧ edge_sort_state_ topo = EdgeSortKind.kAny
  ∧ is_valid_ topo = true
  ∧ shuffle_of pg topo.
Proof.
  intros Hwf. set (t := topology pg) in *.
  destruct (decide (num_nodes t = 0)) as [Hz|Hnz].
  { assert (HE : num_edges t = 0).
    { destruct Hwf as (_ & HE & _). by rewrite decide_True in HE. }
    unfold MakeTransposeCopy. fold t. rewrite decide_True by done. simpl.
    split; [apply (bool_decide_unpack _); vm_compute; exact I|].
    unfold shuffle_of. fold t. rewrite HE.
    repeat (split; [done|]).
    intros e u v (Hu & _).
    cbn [est_base] in Hu.
    change (num_nodes empty_topology) with 0 in Hu. lia. }
  unfold MakeTransposeCopy. fold t. rewrite decide_False by done.
  set (N := num_nodes t) in *. set (E := num_edges t) in *.
  set (cnts := do_all (all_edges t) _ (replicate N 0)).
  destruct (do_all_sync_add (dests_ t) (replicate N 0)) as [Hclen Hcnt].
  assert (Hcnts : cnts = do_all (dests_ t) sync_add_and_fetch (replicate N 0)).
  { unfold cnts, do_all. rewrite <- (fmap_edge_dest_all_edges t).
    by rewrite foldl_fmap. }
  rewrite <- Hcnts in Hclen, Hcnt. rewrite length_replicate in Hclen, Hcnt.
  pose proof (edge_pairs_snd t Hwf) as Hsnd.
  set (evs1 := (λ p : nat * nat, (edge_dest t p.2, p.1)) <$> edge_ids t).
  set (evs2 := (λ p : nat * nat, (edge_dest t p.2, p.2)) <$> edge_ids t).
  assert (Hevs1 : evs1 = swap <$> edge_pairs t).
  { unfold evs1. rewrite edge_pairs_edge_ids, <- list_fmap_compose. done. }
  assert (Hfst : ∀ v, v < N → cnts !!! v = occ v (dests_ t)).
  { intros v Hv. rewrite Hcnt by done.
    by rewrite lookup_total_replicate_2 by done. }
  assert (Hf1 : fst <$> evs1 = dests_ t).
  { rewrite Hevs1, <- list_fmap_compose.
    change (fst ∘ swap) with (@snd nat nat). done. }
  assert (Hf2 : fst <$> evs2 = dests_ t).
  { unfold evs2. rewrite <- list_fmap_compose.
    change (fst ∘ _) with (edge_dest t ∘ (@snd nat nat)).
    rewrite list_fmap_compose, snd_edge_ids by done.
    apply fmap_edge_dest_all_edges. }
  assert (Hlen1 : length evs1 = E).
  { by rewrite Hevs1, length_fmap, length_edge_pairs. }
  assert (Hlen2 : length evs2 = E).
  { unfold evs2, E. rewrite length_fmap.
    rewrite <- (length_fmap snd), snd_edge_ids by done.
    apply length_seq. }
  assert (Htgt2 : ∀ ev, ev ∈ evs2 → ev.1 < N).
  { intros ev Hev.
    assert (ev.1 ∈ dests_ t) as Hin.
    { rewrite <- Hf2. apply list_elem_of_fmap. by exists ev. }
    destruct Hwf as (_ & _ & Hd). rewrite Forall_forall in Hd. by apply Hd. }
  destruct (counting_sort_topology N evs1 cnts)
    as (off1 & out1 & Hsc1 & HN1 & HE1 & Hwf1 & Hnb1); try done; try lia.
  { rewrite Hevs1. intros ev (p & -> & Hp)%list_elem_of_fmap. simpl.
    split; [by apply edge_pairs_dst|by apply edge_pairs_src]. }
  { intros v Hv. by rewrite Hfst, length_hits_occ, Hf1. }
  rewrite (layout_total N evs1 cnts) in Hsc1; try done; try lia.
  2:{ rewrite Hevs1. intros ev (p & -> & Hp)%list_elem_of_fmap. simpl.
      by apply edge_pairs_dst. }
  2:{ intros v Hv. by rewrite Hfst, length_hits_occ, Hf1. }
  rewrite Hlen1 in Hsc1, HE1.
  destruct (layout_spec N evs2 cnts (allocateInterleaved E))
    as (off2 & out2 & Hsc2 & Hl2 & Hnb2); try done; try lia.
  { intros v Hv. by rewrite Hfst, length_hits_occ, Hf2. }
  { unfold allocateInterleaved. by rewrite length_replicate. }
  rewrite Hlen2 in Hl2.
  rewrite (do_all_edge_ids t
             (λ src e '(offsets, out_dests, edge_prop_indices),
                let dest := edge_dest t e in
                let '(e_new, offsets) := sync_fetch_and_add dest offsets in
                (offsets, <[e_new := src]> out_dests,
                 <[e_new := e]> edge_prop_indices))).
  destruct (scatter_two (λ p : nat * nat, edge_dest t p.2) fst snd
              (edge_ids t) (block_starts N (partial_sum cnts))
              (allocateInterleaved E) (allocateInterleaved E))
    as [Hfold _].
  fold evs1 evs2 in Hfold. rewrite Hsc1, Hsc2 in Hfold. simpl in Hfold.
  match goal with
  | |- context [foldl ?f ?s ?l] =>
      replace (foldl f s l) with (off1, out1, out2)
  end.
  2:{ rewrite <- Hfold. apply foldl_ext_in.
      intros [[o a] b] [u e] _. done. }
  cbv beta iota zeta.
  unfold EdgeShuffleTopology_make. cbn [est_base tpose_state_
    edge_sort_state_ is_valid_].
  set (t1 := mkGraphTopology (partial_sum cnts) out1) in *.
  set (g2 := mkGraphTopology (partial_sum cnts) out2) in *.
  split; [done|]. repeat (split; [done|]).
  fold t. cbn [edge_prop_indices_]. split.
  - change out2 with (dests_ g2).
    rewrite (dests_concat g2 t1 Hwf1 eq_refl)
      by (rewrite HE1; exact Hl2).
    unfold all_nodes. rewrite HN1.
    assert (Hb : seq 0 N ≫= out_neighbors g2
                 = snd <$> (seq 0 N ≫= (λ v, hits v evs2))).
    { rewrite fmap_bind_comm. apply bind_ext_in.
      intros v Hv%elem_of_seq. apply Hnb2. lia. }
    rewrite Hb, hits_partition.
    + unfold evs2. rewrite <- list_fmap_compose.
      change (snd ∘ _) with (@snd nat nat).
      by rewrite snd_edge_ids.
    + by apply Forall_forall.
  - intros e' v u (Hv & He' & Hd).
    unfold edge_property_index.
    cbn [est_base tpose_state_ edge_prop_indices_] in *.
    rewrite HN1 in Hv.
    set (b := (edges t1 v).1) in *. set (l := (edges t1 v).2) in *.
    assert (Hl1 : out_neighbors t1 v !! (e' - b) = Some u).
    { unfold out_neighbors, range_items. fold b l.
      rewrite list_lookup_fmap, lookup_seq_lt by lia. simpl.
      replace (b + (e' - b)) with e' by lia. by rewrite Hd. }
    assert (Hl2' : out_neighbors g2 v !! (e' - b) = Some (out2 !!! e')).
    { unfold out_neighbors, range_items.
      change (edges g2 v) with (edges t1 v). fold b l.
      rewrite list_lookup_fmap, lookup_seq_lt by lia. simpl.
      replace (b + (e' - b)) with e' by lia. done. }
    rewrite Hnb1 in Hl1 by done. rewrite Hnb2 in Hl2' by done.
    unfold evs1, evs2 in Hl1, Hl2'. rewrite hits_fmap in Hl1, Hl2'.
    rewrite <- list_fmap_compose in Hl1, Hl2'.
    rewrite list_lookup_fmap in Hl1, Hl2'.
    destruct (filter _ (edge_ids t) !! (e' - b)) as [[src e]|] eqn:Hx;
      [|done].
    simpl in Hl1, Hl2'. simplify_eq.
    apply list_elem_of_lookup_2, list_elem_of_filter in Hx as [Hdst Hin].
    apply elem_of_edge_ids in Hin as [Hsrc He]. cbn [fst snd] in *.
    done.
Qed.

(** X10: [MakeTransposeCopy] returns a valid topology in the states
    [kYes] and [kAny] with the nodes and the number of edges of the
    graph; its property indices are a permutation of the edge ids of
    the graph, and every edge [u -> v] of it is, through its property
    index, an edge [v -> u] of the graph. *)
Theorem MakeTransposeCopy_transposes (pg : PropertyGraph) :
  csr_wf (topology pg) →
  let topo := MakeTransposeCopy pg in
  csr_wf (est_base topo)
  ∧ tpose_state_ topo = TransposeKind.kYes
  ∧ edge_sort_state_ topo = EdgeSortKind.kAny
  ∧ is_valid_ topo = true
  ∧ num_nodes (est_base topo) = num_nodes (topology pg)
  ∧ num_edges (est_base topo) = num_edges (topology pg)
  ∧ edge_prop_indices_ topo ≡ₚ seq 0 (num_edges (topology pg))
  ∧ ∀ e u v, is_edge (est_base topo) e u v →
      is_edge (topology pg) (edge_property_index topo e) v u.
Proof.
  intros Hwf topo.
  destruct (MakeTransposeCopy_spec pg Hwf)
    as (Hwf' & Htp & Hst & Hv & HN & HE & Hp & Hedges).
  fold topo in Hwf', Htp, Hst, Hv, HN, HE, Hp, Hedges.
  repeat (split; [done|]).
  intros e u v He. specialize (Hedges e u v He).
  by rewrite Htp in Hedges.
Qed.

Lemma MakeTransposeCopy_transposes_witness :
  let pg := example_typed_pg in
  let topo := MakeTransposeCopy pg in
  csr_wf (est_base topo)
  ∧ tpose_state_ topo = TransposeKind.kYes
  ∧ edge_sort_state_ topo = EdgeSortKind.kAny
  ∧ is_valid_ topo = true
  ∧ num_nodes (est_base topo) = num_nodes (topology pg)
  ∧ num_edges (est_base topo) = num_edges (topology pg)
  ∧ edge_prop_indices_ topo ≡ₚ seq 0 (num_edges (topology pg))
  ∧ ∀ e u v, is_edge (est_base topo) e u v →
      is_edge (topology pg) (edge_property_index topo e) v u.
Proof.
  apply (MakeTransposeCopy_transposes example_typed_pg).
  apply (bool_decide_unpack _). vm_compute. exact I.
Defined.

Section make_proofs.
Variable psort : ∀ A : Type, (A → A → bool) → list A → list A.
Hypothesis psort_perm : ∀ A (cmp : A → A → bool) l, psort A cmp l ≡ₚ l.
Hypothesis psort_sorted : ∀ A (cmp : A → A → bool) l,
  (∀ a b, cmp a b = true → cmp b a = false) →
  Sorted (λ a b, cmp b a = false) (psort A cmp l).

Lemma make_copy_spec pg tpose_todo :
  csr_wf (topology pg) →
  let ret := if decide (tpose_todo = TransposeKind.kYes)
             then MakeTransposeCopy pg else MakeOriginalCopy pg in
  csr_wf (est_base ret)
  ∧ tpose_state_ ret = tpose_todo
  ∧ edge_sort_state_ ret = EdgeSortKind.kAny
  ∧ is_valid_ ret = true
  ∧ shuffle_of pg ret.
Proof.
  intros Hwf. case_decide as Ht; cbv zeta.
  - subst. apply MakeTransposeCopy_spec, Hwf.
  - destruct (MakeOriginalCopy_spec pg Hwf) as (Hb & Htp & Hrest).
    split; [by rewrite Hb|]. split; [|done].
    rewrite Htp. by destruct tpose_todo.
Qed.

Lemma EdgeShuffleTopology_Make_spec pg tpose_todo edge_sort_todo :
  csr_wf (topology pg) →
  if decide (edge_sort_todo = EdgeSortKind.kSortedByNodeType) then
    EdgeShuffleTopology_Make psort pg tpose_todo edge_sort_todo = Fatal
  else
    ∃ topo,
      EdgeShuffleTopology_Make psort pg tpose_todo edge_sort_todo = Ok topo
      ∧ csr_wf (est_base topo)
      ∧ is_valid_ topo = true
      ∧ tpose_state_ topo = tpose_todo
      ∧ edge_sort_state_ topo = edge_sort_todo
      ∧ shuffle_of pg topo
      ∧ (edge_sort_todo = EdgeSortKind.kSortedByDestID →
         ∀ n, n < num_nodes (est_base topo) →
           Sorted (≤) (out_neighbors (est_base topo) n))
      ∧ (edge_sort_todo = EdgeSortKind.kSortedByEdgeType →
         sorted_by_type_then_dest pg topo).
Proof.
  intros Hwf. unfold EdgeShuffleTopology_Make.
  destruct (make_copy_spec pg tpose_todo Hwf)
    as (Hwf0 & Htp0 & Hst0 & Hv0 & Hsh0).
  set (ret := if decide (tpose_todo = TransposeKind.kYes) then _ else _) in *.
  destruct edge_sort_todo; simpl.
  - exists ret. by repeat (split; [done|]).
  - destruct (SortEdgesByDestID_spec psort psort_perm psort_sorted pg ret
                Hwf0 Hsh0) as (Hwf' & Hadj & Htp & Hv & Hst & Hs & Hsh).
    eexists. split; [done|]. split; [done|].
    split; [by rewrite Hv|]. split; [by rewrite Htp|].
    split; [done|]. split; [done|]. split; [|done].
    intros _ n Hn. apply Hs.
    unfold num_nodes in *. by rewrite <- Hadj.
  - destruct (SortEdgesByTypeThenDest_spec psort psort_perm psort_sorted
                pg ret Hwf0 Hsh0)
      as (Hwf' & Hadj & Htp & Hv & Hst & Hs & Hsh).
    eexists. split; [done|]. split; [done|].
    split; [by rewrite Hv|]. split; [by rewrite Htp|].
    by repeat (split; [done|]).
  - done.
Qed.

(** X11: for a graph with a well-formed topology,
    [EdgeShuffleTopology::Make] returns, for either transpose kind and
    for the sort kinds [kAny], [kSortedByDestID] and
    [kSortedByEdgeType], a valid well-formed topology in the requested
    states over the edges of the graph (reversed for [kYes]), with
    every node's edges in the requested order; for [kSortedByNodeType]
    it aborts. *)
Theorem Make_builds_requested_topology (pg : PropertyGraph)
    (tpose_todo : TransposeKind.t) (edge_sort_todo : EdgeSortKind.t) :
  csr_wf (topology pg) →
  if decide (edge_sort_todo = EdgeSortKind.kSortedByNodeType) then
    EdgeShuffleTopology_Make psort pg tpose_todo edge_sort_todo = Fatal
  else
    ∃ topo,
      EdgeShuffleTopology_Make psort pg tpose_todo edge_sort_todo = Ok topo
      ∧ csr_wf (est_base topo)
      ∧ is_valid_ topo = true
      ∧ tpose_state_ topo = tpose_todo
      ∧ edge_sort_state_ topo = edge_sort_todo
      ∧ shuffle_of pg topo
      ∧ (edge_sort_todo = EdgeSortKind.kSortedByDestID →
         ∀ n, n < num_nodes (est_base topo) →
           Sorted (≤) (out_neighbors (est_base topo) n))
      ∧ (edge_sort_todo = EdgeSortKind.kSortedByEdgeType →
         sorted_by_type_then_dest pg topo).
Proof. exact (EdgeShuffleTopology_Make_spec pg tpose_todo edge_sort_todo). Qed.
End make_proofs.

Lemma SortEdgesByDestID_sorts_witness :
  let pg := example_unsorted_pg in
  let topo := MakeOriginalCopy pg in
  let base := est_base topo in
  let res := SortEdgesByDestID merge_psort topo in
  csr_wf (est_base res)
  ∧ adj_indices_ (est_base res) = adj_indices_ base
  ∧ tpose_state_ res = tpose_state_ topo
  ∧ is_valid_ res = is_valid_ topo
  ∧ edge_sort_state_ res = EdgeSortKind.kSortedByDestID
  ∧ (∀ n, n < num_nodes base →
       Sorted (≤) (out_neighbors (est_base res) n)
       ∧ out_neighbors (est_base res) n ≡ₚ out_neighbors base n)
  ∧ shuffle_of pg res.
Proof.
  apply (SortEdgesByDestID_sorts merge_psort merge_psort_perm
           merge_psort_sorted example_unsorted_pg
           (MakeOriginalCopy example_unsorted_pg)).
  - apply (bool_decide_unpack _). vm_compute. exact I.
  - apply MakeOriginalCopy_spec.
    apply (bool_decide_unpack _). vm_compute. exact I.
Defined.

Lemma SortEdgesByTypeThenDest_sorts_witness :
  let pg := example_typed_pg in
  let topo := MakeTransposeCopy pg in
  let base := est_base topo in
  let res := SortEdgesByTypeThenDest merge_psort pg topo in
  csr_wf (est_base res)
  ∧ adj_indices_ (est_base res) = adj_indices_ base
  ∧ tpose_state_ res = tpose_state_ topo
  ∧ is_valid_ res = is_valid_ topo
  ∧ edge_sort_state_ res = EdgeSortKind.kSortedByEdgeType
  ∧ sorted_by_type_then_dest pg res
  ∧ shuffle_of pg res.
Proof.
  apply (SortEdgesByTypeThenDest_sorts merge_psort merge_psort_perm
           merge_psort_sorted example_typed_pg
           (MakeTransposeCopy example_typed_pg)).
  - apply (bool_decide_unpack _). vm_compute. exact I.
  - apply MakeTransposeCopy_spec.
    apply (bool_decide_unpack _). vm_compute. exact I.
Defined.

Lemma Make_builds_requested_topology_witness :
  let pg := example_typed_pg in
  ∃ topo,
    EdgeShuffleTopology_Make merge_psort pg TransposeKind.kYes
      EdgeSortKind.kSortedByEdgeType = Ok topo
    ∧ csr_wf (est_base topo)
    ∧ is_valid_ topo = true
    ∧ tpose_state_ topo = TransposeKind.kYes
    ∧ edge_sort_state_ topo = EdgeSortKind.kSortedByEdgeType
    ∧ shuffle_of pg topo
    ∧ (EdgeSortKind.kSortedByEdgeType = EdgeSortKind.kSortedByDestID →
       ∀ n, n < num_nodes (est_base topo) →
         Sorted (≤) (out_neighbors (est_base topo) n))
    ∧ (EdgeSortKind.kSortedByEdgeType = EdgeSortKind.kSortedByEdgeType →
       sorted_by_type_then_dest pg topo).
Proof.
  apply (Make_builds_requested_topology merge_psort merge_psort_perm
           merge_psort_sorted example_typed_pg TransposeKind.kYes
           EdgeSortKind.kSortedByEdgeType).
  apply (bool_decide_unpack _). vm_compute. exact I.
Defined.

(** ** The queries of an EdgeTypeAwareTopology *)

Lemma StronglySorted_lookup_lt {A} (R : relation A) (l : list A) i j a b :
  StronglySorted R l → i < j → l !! i = Some a → l !! j = Some b → R a b.
Proof.
  intros Hs. revert i j.
  induction Hs as [|z l Hl IH Hall]; intros i j Hij Ha Hb; [done|].
  destruct j as [|j]; [lia|]. destruct i as [|i]; simpl in *.
  - simplify_eq. rewrite Forall_forall in Hall. apply Hall.
    by eapply list_elem_of_lookup_2.
  - apply (IH i j); (lia || done).
Qed.

Global Instance type_dest_le_trans : Transitive type_dest_le.
Proof. intros a b c. unfold type_dest_le. lia. Qed.

Lemma shuffle_of_prop_index pg topo e :
  shuffle_of pg topo → e < num_edges (est_base topo) →
  edge_property_index topo e < num_edges (topology pg).
Proof.
  intros (_ & HE & Hp & _) He.
  assert (edge_property_index topo e ∈ seq 0 (num_edges (topology pg)))
    as Hin%elem_of_seq; [|lia].
  rewrite <- Hp. unfold edge_property_index.
  apply list_elem_of_lookup_total_2.
  rewrite Hp, length_seq. lia.
Qed.

Lemma sorted_by_type_then_dest_type pg e_topo :
  sorted_by_type_then_dest pg e_topo → sorted_by_edge_type pg e_topo.
Proof.
  unfold sorted_by_type_then_dest, sorted_by_edge_type.
  intros Hall. eapply Forall_impl; [exact Hall|]. intros n Hs. simpl in Hs.
  apply (Sorted_fmap fst type_dest_le (≤)) in Hs.
  - by rewrite <- list_fmap_compose in Hs.
  - intros a b. unfold type_dest_le. lia.
Qed.

(** What [MakeFrom] returns over a topology of the graph's edges whose
    nodes have their edges sorted by type and destination. *)
Lemma typed_view_setup debug activeThreads sched pg m e_topo t :
  (∀ e, e < num_edges (topology pg) → sched e < activeThreads) →
  MakeFromEdgeTypes activeThreads sched pg = Ok m →
  csr_wf (est_base e_topo) →
  shuffle_of pg e_topo →
  sorted_by_type_then_dest pg e_topo →
  EdgeTypeAwareTopology_MakeFrom debug pg m e_topo = Ok t →
  ∃ adj, t = mkEdgeTypeAwareTopology m e_topo adj
    ∧ StronglySorted (<) (index_to_type_map_ m)
    ∧ (∀ ty i, type_to_index_map_ m !! ty = Some i
               ↔ index_to_type_map_ m !! i = Some ty)
    ∧ (∀ e, e < num_edges (est_base e_topo) →
         resolved_type pg e_topo e ∈ index_to_type_map_ m)
    ∧ (0 < num_unique_types m → ∀ n, n < num_nodes (est_base e_topo) →
         node_row_ok pg m e_topo n adj).
Proof.
  intros Hsched Hm Hwf Hsh Hsorted Hmake.
  destruct (MakeFromEdgeTypes_spec activeThreads sched pg Hsched)
    as (t2i & ms & Heq & Hitt & Hpresent & Hrel).
  rewrite Heq in Hm. injection Hm as <-.
  assert (Htypes : ∀ e, e < num_edges (est_base e_topo) →
            resolved_type pg e_topo e ∈ ms).
  { intros e He. apply Hpresent. unfold resolved_type, edge_type_present.
    exists (edge_property_index e_topo e). split; [|done].
    by apply shuffle_of_prop_index. }
  destruct (per_type_index_spec pg (mkCondensedTypeIDMap t2i ms true) e_topo)
    as (adj & Hadj & Hladj & Hrows); try done.
  { by apply sorted_by_type_then_dest_type. }
  exists adj. split; [|done].
  unfold EdgeTypeAwareTopology_MakeFrom in Hmake.
  destruct (debug && negb (has_edges_sorted_by _ _)); [done|].
  destruct (debug && negb (bool_decide _)); [done|].
  rewrite Hadj, outcome_bind_Ok in Hmake.
  unfold EdgeTypeAwareTopology_make in Hmake.
  destruct (debug && negb (bool_decide _)); [done|].
  by injection Hmake as <-.
Qed.

Section typed_queries.
Variables (debug : bool) (pg : PropertyGraph) (m : CondensedTypeIDMap)
  (e_topo : EdgeShuffleTopology) (adj : list Edge).
Let topo := est_base e_topo.
Let rt := resolved_type pg e_topo.
Let t := mkEdgeTypeAwareTopology m e_topo adj.
Let itt := index_to_type_map_ m.
Hypothesis Hitt : StronglySorted (<) itt.
Hypothesis Hrel : ∀ ty i,
  type_to_index_map_ m !! ty = Some i ↔ itt !! i = Some ty.
Hypothesis Hwf : csr_wf topo.
Hypothesis Htypes : ∀ e, e < num_edges topo → rt e ∈ itt.
Hypothesis Hrows : 0 < num_unique_types m → ∀ n, n < num_nodes topo →
  node_row_ok pg m e_topo n adj.
Hypothesis Hsorted : sorted_by_type_then_dest pg e_topo.

Lemma has_edge_type_id_itt ty : has_edge_type_id m ty = true ↔ ty ∈ itt.
Proof.
  unfold has_edge_type_id. rewrite bool_decide_eq_true. split.
  - intros [i Hi%Hrel]. by eapply list_elem_of_lookup_2.
  - intros [i Hi%Hrel]%list_elem_of_lookup. by exists i.
Qed.

Lemma typed_range n ty :
  n < num_nodes topo → has_edge_type_id m ty = true →
  ∃ r, edges_of_type debug t n ty = Ok r
    ∧ (edges topo n).1 ≤ r.1 ∧ r.1 ≤ r.2 ∧ r.2 ≤ (edges topo n).2
    ∧ (∀ x, r.1 ≤ x < r.2
            ↔ ((edges topo n).1 ≤ x < (edges topo n).2 ∧ rt x = ty))
    ∧ dests_sorted_in topo r.1 r.2.
Proof.
  intros Hn [i Hi]%bool_decide_eq_true.
  assert (HT : 0 < num_unique_types m).
  { apply Hrel, lookup_lt_Some in Hi. unfold num_unique_types. fold itt. lia. }
  destruct (edges_of_type_spec debug pg m e_topo adj n ty i)
    as (r & Hrun & Hb & Hle & He & Hiff); try done.
  { by apply Hrows. }
  { by apply Hrel. }
  exists r. repeat (split; [done|]).
  intros x x' Hx Hxx' Hx'.
  destruct (decide (x = x')) as [->|Hne]; [done|].
  assert (Hin : (edges topo n).1 ≤ x < (edges topo n).2 ∧ rt x = ty)
    by (apply Hiff; lia).
  assert (Hin' : (edges topo n).1 ≤ x' < (edges topo n).2 ∧ rt x' = ty)
    by (apply Hiff; lia).
  unfold sorted_by_type_then_dest in Hsorted. rewrite Forall_forall in Hsorted.
  assert (Hs : n ∈ all_nodes (est_base e_topo)).
  { unfold all_nodes. apply elem_of_seq. fold topo. lia. }
  apply Hsorted, Sorted_StronglySorted in Hs; [|apply _].
  fold topo in Hs. unfold range_items in Hs.
  set (b := (edges topo n).1) in *. set (l := (edges topo n).2) in *.
  assert (type_dest_le (rt x, edge_dest topo x) (rt x', edge_dest topo x'))
    as Hle'.
  { apply (StronglySorted_lookup_lt _ _ (x - b) (x' - b) _ _ Hs); [lia| |].
    - rewrite list_lookup_fmap, lookup_seq_lt by lia. simpl.
      by replace (b + (x - b)) with x by lia.
    - rewrite list_lookup_fmap, lookup_seq_lt by lia. simpl.
      by replace (b + (x' - b)) with x' by lia. }
  unfold type_dest_le in Hle'. simpl in Hle'. lia.
Qed.

Lemma typed_range_missing n ty :
  has_edge_type_id m ty = false → edges_of_type debug t n ty = Fatal.
Proof.
  intros Hno%bool_decide_eq_false. unfold edges_of_type.
  destruct (debug && _); [done|].
  unfold GetIndex. simpl.
  destruct (type_to_index_map_ m !! ty) eqn:Hl; [|done].
  exfalso. apply Hno. by eexists.
Qed.

Lemma IsConnectedWithEdgeType_spec src dst ty :
  src < num_nodes topo → has_edge_type_id m ty = true →
  ∃ c, IsConnectedWithEdgeType debug t src dst ty = Ok c
    ∧ (c = true ↔ ∃ x, (edges topo src).1 ≤ x < (edges topo src).2
                       ∧ rt x = ty ∧ edge_dest topo x = dst).
Proof.
  intros Hsrc Hty.
  destruct (typed_range src ty Hsrc Hty)
    as (r & Hrun & Hb & Hle & He & Hiff & Hs).
  unfold IsConnectedWithEdgeType. rewrite Hrun, outcome_bind_Ok.
  unfold range_empty, range_begin, range_end. cbn [edge_shuff_topo_ t].
  fold topo. case_bool_decide as Hempty.
  - exists false. split; [done|]. split; [done|].
    intros (x & Hx & Hrt & _).
    assert (r.1 ≤ x < r.2) by (by apply Hiff). lia.
  - eexists. split; [reflexivity|]. unfold binary_search.
    destruct (lower_bound_spec topo r.1 r.2 dst Hle Hs)
      as (Hr & Hbelow & Habove).
    cbv zeta in *. set (it := lower_bound _ _ _ _) in *.
    rewrite andb_true_iff, !negb_true_iff, !bool_decide_eq_false. split.
    + intros [Hit Hd]. exists it.
      assert (Hin : r.1 ≤ it < r.2) by lia.
      pose proof (Habove it ltac:(lia)).
      apply Hiff in Hin as [Hin Hrt]. split; [done|]. split; [done|]. lia.
    + intros (x & Hx & Hrt & Hd).
      assert (Hin : r.1 ≤ x < r.2) by (by apply Hiff).
      destruct (decide (x < it)) as [Hlt|Hge].
      { pose proof (Hbelow x ltac:(lia)). lia. }
      split; [lia|]. pose proof (Hs it x). lia.
Qed.

Lemma IsConnected_loop_spec src dst : ∀ tys,
  src < num_nodes topo → (∀ ty, ty ∈ tys → ty ∈ itt) →
  ∃ c, IsConnected_loop debug t src dst tys = Ok c
    ∧ (c = true ↔ ∃ x, (edges topo src).1 ≤ x < (edges topo src).2
                       ∧ rt x ∈ tys ∧ edge_dest topo x = dst).
Proof.
  induction tys as [|ty tys IH]; intros Hsrc Hin; cbn [IsConnected_loop].
  - exists false. split; [done|]. split; [done|].
    intros (x & _ & Hx & _). by apply elem_of_nil in Hx.
  - destruct (IsConnectedWithEdgeType_spec src dst ty Hsrc)
      as (c & Hrun & Hc).
    { apply has_edge_type_id_itt, Hin. by left. }
    rewrite Hrun, outcome_bind_Ok. destruct c.
    + exists true. split; [done|]. split; [|done]. intros _.
      destruct Hc as [(x & Hx & Hrt & Hd) _]; [done|].
      exists x. split; [done|]. split; [|done]. rewrite Hrt. by left.
    + destruct IH as (c & Hloop & Hiff); [done| |].
      { intros ty' Hty'. apply Hin. by right. }
      exists c. split; [done|]. rewrite Hiff. split.
      * intros (x & Hx & Hrt & Hd). exists x. split; [done|].
        split; [by right|done].
      * intros (x & Hx & Hrt & Hd). exists x. split; [done|].
        split; [|done].
        apply elem_of_cons in Hrt as [Hrt|Hrt]; [|done].
        exfalso. destruct Hc as [_ Hc].
        assert (false = true); [|done]. apply Hc. by exists x.
Qed.

Lemma IsConnected_spec src dst :
  src < num_nodes topo →
  ∃ c, IsConnected debug t src dst = Ok c
    ∧ (c = true ↔ dst ∈ out_neighbors topo src).
Proof.
  intros Hsrc. unfold IsConnected. cbn [edge_shuff_topo_ t]. fold topo.
  case_decide as Hdeg.
  - exists false. split; [done|]. rewrite elem_of_out_neighbors.
    split; [done|].
    intros (x & Hx & _). unfold degree, range_size in Hdeg. lia.
  - destruct (IsConnected_loop_spec src dst itt Hsrc) as (c & Hrun & Hc);
      [done|].
    exists c. split; [done|]. rewrite Hc, elem_of_out_neighbors. split.
    + intros (x & Hx & _ & Hd). by exists x.
    + intros (x & Hx & Hd). exists x. split; [done|]. split; [|done].
      apply Htypes. pose proof (edges_end_le topo src Hwf Hsrc). lia.
Qed.

Lemma FindAllEdgesWithType_spec node key ty :
  node < num_nodes topo → has_edge_type_id m ty = true →
  ∃ r, FindAllEdgesWithType debug t node key ty = Ok r
    ∧ r.1 ≤ r.2
    ∧ ∀ x, r.1 ≤ x < r.2
           ↔ ((edges topo node).1 ≤ x < (edges topo node).2
              ∧ rt x = ty ∧ edge_dest topo x = key).
Proof.
  intros Hnode Hty.
  destruct (typed_range node ty Hnode Hty)
    as (r & Hrun & Hb & Hle & He & Hiff & Hs).
  unfold FindAllEdgesWithType. rewrite Hrun, outcome_bind_Ok.
  unfold range_empty, range_begin, range_end, equal_range.
  cbn [edge_shuff_topo_ t]. fold topo. case_bool_decide as Hempty.
  { exists r. split; [done|]. split; [lia|]. intros x. split; [lia|].
    intros (Hx & Hrt & _). assert (r.1 ≤ x < r.2) by (by apply Hiff). lia. }
  destruct (lower_bound_spec topo r.1 r.2 key Hle Hs)
    as (Hr & Hbelow & Habove).
  destruct (upper_bound_spec topo r.1 r.2 key Hle Hs)
    as (Hr' & Hbelow' & Habove').
  cbv zeta in *. set (lb := lower_bound _ _ _ _) in *.
  set (ub := upper_bound _ _ _ _) in *.
  assert (Hkey : ∀ x, r.1 ≤ x < r.2 → edge_dest topo x = key → lb ≤ x < ub).
  { intros x Hx Hd. split.
    - destruct (decide (x < lb)) as [Hlt|]; [|lia].
      pose proof (Hbelow x ltac:(lia)). lia.
    - destruct (decide (x < ub)) as [|Hge]; [done|].
      pose proof (Habove' x ltac:(lia)). lia. }
  destruct (bool_decide (lb = r.2) || negb (bool_decide (edge_dest topo lb = key)))
    eqn:Hguard.
  { exists (r.2, r.2). split; [done|]. split; [done|]. simpl.
    intros x. split; [lia|]. intros (Hx & Hrt & Hd).
    assert (Hin : r.1 ≤ x < r.2) by (by apply Hiff).
    pose proof (Hkey x Hin Hd) as Hlu.
    apply orb_true_iff in Hguard as [Hg%bool_decide_eq_true|
      Hg%negb_true_iff%bool_decide_eq_false]; [lia|].
    exfalso. apply Hg.
    pose proof (Habove lb ltac:(lia)). pose proof (Hs lb x). lia. }
  apply orb_false_iff in Hguard as [Hg1%bool_decide_eq_false
    Hg2%negb_false_iff%bool_decide_eq_true].
  assert (Hall : ∀ e, lb ≤ e < ub → edge_dest topo e = key).
  { intros e Hx. pose proof (Habove e ltac:(lia)).
    pose proof (Hbelow' e ltac:(lia)). lia. }
  assert (forallb (λ e, bool_decide (edge_dest topo e = key))
            (range_items (lb, ub)) = true) as ->.
  { apply forallb_forall. intros e Hin%list_elem_of_In%elem_of_seq.
    simpl in Hin. apply bool_decide_eq_true, Hall. lia. }
  rewrite andb_false_r. exists (lb, ub). split; [done|]. simpl.
  assert (lb ≤ ub) by (pose proof (Hkey lb ltac:(lia) Hg2); lia).
  split; [done|]. intros x. split.
  - intros Hx. assert (Hin : r.1 ≤ x < r.2) by lia.
    apply Hiff in Hin as [Hin Hrt]. split; [done|]. split; [done|].
    by apply Hall.
  - intros (Hx & Hrt & Hd). apply Hkey; [|done]. by apply Hiff.
Qed.

Lemma sum_list_filter_partition {A} (g : A → nat) (tys : list nat)
    (l : list A) :
  NoDup tys → (∀ x, x ∈ l → g x ∈ tys) →
  sum_list ((λ ty, length (filter (λ x, g x = ty) l)) <$> tys) = length l.
Proof.
  intros Hnd. induction l as [|x l IH]; intros Hin.
  - clear. induction tys as [|? ? IHt]; [done|]. csimpl in *. exact IHt.
  - erewrite (list_fmap_ext _
      (λ ty, (if decide (g x = ty) then 1 else 0)
             + length (filter (λ x, g x = ty) l))).
    2:{ intros _ ty _. rewrite filter_cons. by case_decide. }
    rewrite sum_list_fmap_add, IH by (intros; apply Hin; by right).
    assert (sum_list ((λ ty, if decide (g x = ty) then 1 else 0) <$> tys) = 1)
      as ->; [|done].
    assert (Hx : g x ∈ tys) by (apply Hin; by left).
    clear IH Hin. induction tys as [|ty tys IHt]; [by apply elem_of_nil in Hx|].
    apply NoDup_cons in Hnd as [Hni Hnd]. csimpl.
    case_decide as Heq.
    + subst. assert (sum_list ((λ ty, if decide (g x = ty) then 1 else 0)
                                 <$> tys) = 0) as ->; [|done].
      clear IHt Hx Hnd. induction tys as [|ty tys IHt]; [done|]. csimpl.
      rewrite decide_False by (intros Heq; apply Hni; rewrite Heq; by left).
      rewrite IHt; [done|]. intros Hin. apply Hni. by right.
    + rewrite IHt; [done|done|].
      apply elem_of_cons in Hx as [Hx|Hx]; [done|done].
Qed.

Lemma typed_degrees_sum_spec n :
  n < num_nodes topo →
  ∃ f : EntityType → nat,
    (∀ ty, ty ∈ itt → degree_of_type debug t n ty = Ok (f ty))
    ∧ sum_list (f <$> itt) = degree topo n.
Proof.
  intros Hn.
  exists (λ ty, length (filter (λ x, rt x = ty) (range_items (edges topo n)))).
  split.
  - intros ty Hty%has_edge_type_id_itt.
    destruct (typed_range n ty Hn Hty)
      as (r & Hrun & Hb & Hle & He & Hiff & _).
    unfold degree_of_type. rewrite Hrun, outcome_bind_Ok. f_equal.
    unfold range_size.
    transitivity (length (seq r.1 (r.2 - r.1))); [by rewrite length_seq|].
    apply Permutation_length, NoDup_Permutation.
    + apply NoDup_seq.
    + apply NoDup_filter, NoDup_seq.
    + intros x. rewrite list_elem_of_filter, !elem_of_seq.
      unfold range_items. rewrite elem_of_seq.
      specialize (Hiff x). lia.
  - rewrite sum_list_filter_partition.
    + unfold range_items, degree, range_size. apply length_seq.
    + generalize Hitt. generalize itt. clear.
      induction 1 as [|x l Hl IH Hall]; [constructor|].
      constructor; [|done]. intros Hin.
      rewrite Forall_forall in Hall. apply Hall in Hin. lia.
    + intros x Hx%elem_of_seq. apply Htypes.
      pose proof (edges_end_le topo n Hwf Hn). lia.
Qed.
End typed_queries.

(** The sorted example topology is what [SortEdgesByTypeThenDest]
    makes of the original copy of the typed example graph. *)
Lemma example_type_sorted_spec :
  csr_wf (est_base example_type_sorted)
  ∧ shuffle_of example_typed_pg example_type_sorted
  ∧ sorted_by_type_then_dest example_typed_pg example_type_sorted.
Proof.
  assert (Hwf : csr_wf (topology example_typed_pg)).
  { apply (bool_decide_unpack _). vm_compute. exact I. }
  destruct (MakeOriginalCopy_spec example_typed_pg Hwf)
    as (Hb & _ & _ & _ & Hsh).
  destruct (SortEdgesByTypeThenDest_spec merge_psort merge_psort_perm
              merge_psort_sorted example_typed_pg
              (MakeOriginalCopy example_typed_pg))
    as (Hwf' & _ & _ & _ & _ & Hs & Hsh'); [by rewrite Hb|done|].
  assert (Heq : SortEdgesByTypeThenDest merge_psort example_typed_pg
                  (MakeOriginalCopy example_typed_pg)
                = example_type_sorted) by (vm_compute; reflexivity).
  rewrite Heq in Hwf', Hs, Hsh'. done.
Qed.

(** X12: in the typed view of a graph, [IsConnected(src, dst)] returns
    [true] exactly when [src] has an edge to [dst]. *)
Theorem IsConnected_iff_neighbor (debug : bool) (activeThreads : nat)
    (sched : Edge → nat) (pg : PropertyGraph) (m : CondensedTypeIDMap)
    (e_topo : EdgeShuffleTopology) (t : EdgeTypeAwareTopology)
    (src dst : Node) :
  (∀ e, e < num_edges (topology pg) → sched e < activeThreads) →
  MakeFromEdgeTypes activeThreads sched pg = Ok m →
  csr_wf (est_base e_topo) →
  shuffle_of pg e_topo →
  sorted_by_type_then_dest pg e_topo →
  EdgeTypeAwareTopology_MakeFrom debug pg m e_topo = Ok t →
  src < num_nodes (est_base e_topo) →
  ∃ c, IsConnected debug t src dst = Ok c
    ∧ (c = true ↔ dst ∈ out_neighbors (est_base e_topo) src).
Proof.
  intros Hsched Hm Hwf Hsh Hsorted Hmake Hsrc.
  destruct (typed_view_setup debug activeThreads sched pg m e_topo t)
    as (adj & -> & Hitt & Hrel & Htypes & Hrows); try done.
  by apply (IsConnected_spec debug pg m e_topo adj).
Qed.

(** X13: [IsConnectedWithEdgeType(src, dst, edge_type)] returns [true]
    exactly when [src] has an edge of that type to [dst], for an edge
    type of the graph; for any other edge type it aborts. *)
Theorem IsConnectedWithEdgeType_iff_typed_edge (debug : bool)
    (activeThreads : nat) (sched : Edge → nat) (pg : PropertyGraph)
    (m : CondensedTypeIDMap) (e_topo : EdgeShuffleTopology)
    (t : EdgeTypeAwareTopology) (src dst : Node) (edge_type : EntityType) :
  (∀ e, e < num_edges (topology pg) → sched e < activeThreads) →
  MakeFromEdgeTypes activeThreads sched pg = Ok m →
  csr_wf (est_base e_topo) →
  shuffle_of pg e_topo →
  sorted_by_type_then_dest pg e_topo →
  EdgeTypeAwareTopology_MakeFrom debug pg m e_topo = Ok t →
  src < num_nodes (est_base e_topo) →
  if DoesEdgeTypeExist t edge_type then
    ∃ c, IsConnectedWithEdgeType debug t src dst edge_type = Ok c
      ∧ (c = true ↔ ∃ e, is_edge (est_base e_topo) e src dst
                         ∧ resolved_type pg e_topo e = edge_type)
  else IsConnectedWithEdgeType debug t src dst edge_type = Fatal.
Proof.
  intros Hsched Hm Hwf Hsh Hsorted Hmake Hsrc.
  destruct (typed_view_setup debug activeThreads sched pg m e_topo t)
    as (adj & -> & Hitt & Hrel & Htypes & Hrows); try done.
  unfold DoesEdgeTypeExist. cbn [edge_type_index_].
  destruct (has_edge_type_id m edge_type) eqn:Hty.
  - destruct (IsConnectedWithEdgeType_spec debug pg m e_topo adj Hitt Hrel
                Hwf Htypes Hrows Hsorted src dst edge_type Hsrc Hty)
      as (c & Hrun & Hc).
    exists c. split; [done|]. rewrite Hc. unfold is_edge. split.
    + intros (x & Hx & Hrt & Hd). by exists x.
    + intros (x & (_ & Hx & Hd) & Hrt). by exists x.
  - unfold IsConnectedWithEdgeType.
    by rewrite (typed_range_missing debug m e_topo adj src edge_type Hty).
Qed.

(** X14: for an edge type of the graph,
    [FindAllEdgesWithType(node, key, edge_type)] returns a range that
    holds exactly the edges of [node] of that type whose destination is
    [key] (the empty range when there is none). *)
Theorem FindAllEdgesWithType_exact (debug : bool) (activeThreads : nat)
    (sched : Edge → nat) (pg : PropertyGraph) (m : CondensedTypeIDMap)
    (e_topo : EdgeShuffleTopology) (t : EdgeTypeAwareTopology)
    (node key : Node) (edge_type : EntityType) :
  (∀ e, e < num_edges (topology pg) → sched e < activeThreads) →
  MakeFromEdgeTypes activeThreads sched pg = Ok m →
  csr_wf (est_base e_topo) →
  shuffle_of pg e_topo →
  sorted_by_type_then_dest pg e_topo →
  EdgeTypeAwareTopology_MakeFrom debug pg m e_topo = Ok t →
  node < num_nodes (est_base e_topo) →
  DoesEdgeTypeExist t edge_type = true →
  ∃ r, FindAllEdgesWithType debug t node key edge_type = Ok r
    ∧ r.1 ≤ r.2
    ∧ ∀ e, r.1 ≤ e < r.2
           ↔ (is_edge (est_base e_topo) e node key
              ∧ resolved_type pg e_topo e = edge_type).
Proof.
  intros Hsched Hm Hwf Hsh Hsorted Hmake Hnode Hty.
  destruct (typed_view_setup debug activeThreads sched pg m e_topo t)
    as (adj & -> & Hitt & Hrel & Htypes & Hrows); try done.
  destruct (FindAllEdgesWithType_spec debug pg m e_topo adj Hitt Hrel Hwf
              Htypes Hrows Hsorted node key edge_type Hnode Hty)
    as (r & Hrun & Hle & Hiff).
  exists r. split; [done|]. split; [done|]. intros e. rewrite Hiff.
  unfold is_edge. tauto.
Qed.

(** X15: the typed degrees of a node add up to its degree: over the
    distinct edge types of the graph, the sum of [degree(n, edge_type)]
    is [degree(n)]. *)
Theorem typed_degrees_sum (debug : bool) (activeThreads : nat)
    (sched : Edge → nat) (pg : PropertyGraph) (m : CondensedTypeIDMap)
    (e_topo : EdgeShuffleTopology) (t : EdgeTypeAwareTopology) (n : Node) :
  (∀ e, e < num_edges (topology pg) → sched e < activeThreads) →
  MakeFromEdgeTypes activeThreads sched pg = Ok m →
  csr_wf (est_base e_topo) →
  shuffle_of pg e_topo →
  sorted_by_type_then_dest pg e_topo →
  EdgeTypeAwareTopology_MakeFrom debug pg m e_topo = Ok t →
  n < num_nodes (est_base e_topo) →
  ∃ f : EntityType → nat,
    (∀ edge_type, edge_type ∈ GetDistinctEdgeTypes t →
       degree_of_type debug t n edge_type = Ok (f edge_type))
    ∧ sum_list (f <$> GetDistinctEdgeTypes t) = degree (est_base e_topo) n.
Proof.
  intros Hsched Hm Hwf Hsh Hsorted Hmake Hn.
  destruct (typed_view_setup debug activeThreads sched pg m e_topo t)
    as (adj & -> & Hitt & Hrel & Htypes & Hrows); try done.
  by apply (typed_degrees_sum_spec debug pg m e_topo adj).
Qed.

Lemma IsConnected_iff_neighbor_witness :
  ∃ c, IsConnected true example_typed_view 0 1 = Ok c
    ∧ (c = true ↔ 1 ∈ out_neighbors (est_base example_type_sorted) 0).
Proof.
  apply (IsConnected_iff_neighbor true 1 (λ _, 0) example_typed_pg
           example_type_map example_type_sorted example_typed_view 0 1).
  - intros e _. lia.
  - vm_compute. reflexivity.
  - apply example_type_sorted_spec.
  - apply example_type_sorted_spec.
  - apply example_type_sorted_spec.
  - vm_compute. reflexivity.
  - vm_compute. lia.
Defined.

Lemma IsConnectedWithEdgeType_iff_typed_edge_witness :
  ∃ c, IsConnectedWithEdgeType true example_typed_view 0 2 7 = Ok c
    ∧ (c = true ↔ ∃ e, is_edge (est_base example_type_sorted) e 0 2
                       ∧ resolved_type example_typed_pg example_type_sorted e
                         = 7).
Proof.
  apply (IsConnectedWithEdgeType_iff_typed_edge true 1 (λ _, 0)
           example_typed_pg example_type_map example_type_sorted
           example_typed_view 0 2 7).
  - intros e _. lia.
  - vm_compute. reflexivity.
  - apply example_type_sorted_spec.
  - apply example_type_sorted_spec.
  - apply example_type_sorted_spec.
  - vm_compute. reflexivity.
  - vm_compute. lia.
Defined.

Lemma FindAllEdgesWithType_exact_witness :
  ∃ r, FindAllEdgesWithType true example_typed_view 0 2 7 = Ok r
    ∧ r.1 ≤ r.2
    ∧ ∀ e, r.1 ≤ e < r.2
           ↔ (is_edge (est_base example_type_sorted) e 0 2
              ∧ resolved_type example_typed_pg example_type_sorted e = 7).
Proof.
  apply (FindAllEdgesWithType_exact true 1 (λ _, 0) example_typed_pg
           example_type_map example_type_sorted example_typed_view 0 2 7).
  - intros e _. lia.
  - vm_compute. reflexivity.
  - apply example_type_sorted_spec.
  - apply example_type_sorted_spec.
  - apply example_type_sorted_spec.
  - vm_compute. reflexivity.
  - vm_compute. lia.
  - vm_compute. reflexivity.
Defined.

Lemma typed_degrees_sum_witness :
  ∃ f : EntityType → nat,
    (∀ edge_type, edge_type ∈ GetDistinctEdgeTypes example_typed_view →
       degree_of_type true example_typed_view 0 edge_type = Ok (f edge_type))
    ∧ sum_list (f <$> GetDistinctEdgeTypes example_typed_view)
      = degree (est_base example_type_sorted) 0.
Proof.
  apply (typed_degrees_sum true 1 (λ _, 0) example_typed_pg
           example_type_map example_type_sorted example_typed_view 0).
  - intros e _. lia.
  - vm_compute. reflexivity.
  - apply example_type_sorted_spec.
  - apply example_type_sorted_spec.
  - apply example_type_sorted_spec.
  - vm_compute. reflexivity.
  - vm_compute. lia.
Defined.

(** ** The bidirectional typed view *)

(** Every edge id belongs to the range of exactly one node. *)
Lemma edge_owner t e :
  csr_wf t → e < num_edges t →
  ∃ n, n < num_nodes t ∧ (edges t n).1 ≤ e < (edges t n).2.
Proof.
  intros Hwf He.
  assert (Hin : e ∈ all_edges t) by (apply elem_of_seq; lia).
  rewrite <- (csr_ranges_concat t Hwf) in Hin.
  apply list_elem_of_bind in Hin as (n & Hr%elem_of_seq & Hn%elem_of_seq).
  exists n. split; lia.
Qed.

Lemma edge_owner_unique t e n n' :
  csr_wf t → n < num_nodes t → n' < num_nodes t →
  (edges t n).1 ≤ e < (edges t n).2 → (edges t n').1 ≤ e < (edges t n').2 →
  n = n'.
Proof.
  intros Hwf.
  assert (Hlt : ∀ a b, a < b → b < num_nodes t →
            (edges t a).2 ≤ (edges t b).1).
  { intros a b Hab Hb. unfold edges. simpl. rewrite decide_True by lia.
    destruct Hwf as (Hs & _). apply Sorted_le_lookup; [done|lia|].
    unfold num_nodes in Hb. lia. }
  intros Hn Hn' He He'.
  destruct (lt_eq_lt_dec n n') as [[Hc|Hc]|Hc]; [|done|].
  - pose proof (Hlt n n' Hc Hn'). lia.
  - pose proof (Hlt n' n Hc Hn). lia.
Qed.

(** Every edge of the graph is the image of an edge of a topology over
    the graph's edges. *)
Lemma shuffle_of_onto pg topo e0 u v :
  csr_wf (topology pg) → csr_wf (est_base topo) → shuffle_of pg topo →
  is_edge (topology pg) e0 u v →
  ∃ e, edge_property_index topo e = e0
    ∧ match tpose_state_ topo with
      | TransposeKind.kNo => is_edge (est_base topo) e u v
      | TransposeKind.kYes => is_edge (est_base topo) e v u
      end.
Proof.
  intros Hwfp Hwf (HN & HE & Hp & Hfwd) (Hu & He0 & Hd).
  assert (He0E : e0 < num_edges (topology pg)).
  { pose proof (edges_end_le _ u Hwfp Hu). lia. }
  assert (Hin : e0 ∈ edge_prop_indices_ topo).
  { rewrite Hp. apply elem_of_seq. lia. }
  apply list_elem_of_lookup in Hin as [e Hl].
  assert (HeE : e < num_edges (est_base topo)).
  { apply lookup_lt_Some in Hl. rewrite Hp, length_seq in Hl. lia. }
  assert (Hepi : edge_property_index topo e = e0).
  { unfold edge_property_index. by apply list_lookup_total_correct. }
  destruct (edge_owner _ e Hwf HeE) as (n & Hn & Hr).
  assert (Hedge : is_edge (est_base topo) e n (edge_dest (est_base topo) e))
    by done.
  apply Hfwd in Hedge. rewrite Hepi in Hedge.
  exists e. split; [done|].
  destruct (tpose_state_ topo); destruct Hedge as (Hn' & Hr' & Hd').
  - assert (n = u) as -> by (by apply (edge_owner_unique (topology pg) e0)).
    split; [done|]. split; [done|]. congruence.
  - assert (edge_dest (est_base topo) e = u) as Hdu
      by (by apply (edge_owner_unique (topology pg) e0)).
    assert (n = v) as -> by congruence. done.
Qed.

(** The edges of a topology over the graph's edges, in terms of the
    edges of the graph. *)
Lemma shuffle_of_edge_iff pg topo (Q : Edge → Prop) u v :
  csr_wf (topology pg) → csr_wf (est_base topo) → shuffle_of pg topo →
  (∃ e0, is_edge (topology pg) e0 u v ∧ Q e0)
  ↔ ∃ e, match tpose_state_ topo with
         | TransposeKind.kNo => is_edge (est_base topo) e u v
         | TransposeKind.kYes => is_edge (est_base topo) e v u
         end ∧ Q (edge_property_index topo e).
Proof.
  intros Hwfp Hwf Hsh. split.
  - intros (e0 & He0 & HQ).
    destruct (shuffle_of_onto pg topo e0 u v Hwfp Hwf Hsh He0)
      as (e & <- & He).
    by exists e.
  - intros (e & He & HQ). exists (edge_property_index topo e).
    split; [|done]. destruct Hsh as (_ & _ & _ & Hfwd).
    destruct (tpose_state_ topo); by apply Hfwd.
Qed.

Lemma BiDir_IsConnectedWithEdgeType_gen debug activeThreads sched pg m
    e_out e_in t_out t_in src dst ty :
  csr_wf (topology pg) →
  (∀ e, e < num_edges (topology pg) → sched e < activeThreads) →
  MakeFromEdgeTypes activeThreads sched pg = Ok m →
  csr_wf (est_base e_out) → shuffle_of pg e_out →
  sorted_by_type_then_dest pg e_out →
  tpose_state_ e_out = TransposeKind.kNo →
  csr_wf (est_base e_in) → shuffle_of pg e_in →
  sorted_by_type_then_dest pg e_in →
  tpose_state_ e_in = TransposeKind.kYes →
  EdgeTypeAwareTopology_MakeFrom debug pg m e_out = Ok t_out →
  EdgeTypeAwareTopology_MakeFrom debug pg m e_in = Ok t_in →
  src < num_nodes (topology pg) → dst < num_nodes (topology pg) →
  ∃ bt, BiDir.make debug t_out t_in = Ok bt
    ∧ if DoesEdgeTypeExist t_out ty then
        ∃ c, BiDir.IsConnectedWithEdgeType debug bt src dst ty = Ok c
          ∧ (c = true ↔ ∃ e, is_edge (topology pg) e src dst
                             ∧ GetTypeOfEdge pg e = ty)
      else BiDir.IsConnectedWithEdgeType debug bt src dst ty = Fatal.
Proof.
  intros Hwf Hsched Hm Hwfo Hsho Hso Htpo Hwfi Hshi Hsi Htpi Hfo Hfi Hsrc Hdst.
  destruct (typed_view_setup debug activeThreads sched pg m e_out t_out)
    as (adjo & -> & Hitt & Hrel & Htyo & Hrowo); try done.
  destruct (typed_view_setup debug activeThreads sched pg m e_in t_in)
    as (adji & -> & _ & _ & Htyi & Hrowi); try done.
  pose proof Hsho as (HNo & HEo & _). pose proof Hshi as (HNi & HEi & _).
  eexists. split.
  { unfold BiDir.make, is_transposed, has_transpose_state.
    cbn [edge_shuff_topo_].
    rewrite (bool_decide_eq_true_2 _ Htpi), andb_false_r.
    rewrite bool_decide_eq_true_2, andb_false_r by congruence.
    rewrite bool_decide_eq_true_2, andb_false_r by congruence.
    reflexivity. }
  unfold DoesEdgeTypeExist, BiDir.IsConnectedWithEdgeType, degree_of_type.
  cbn [edge_type_index_ topo_ptr_ in_topo_].
  destruct (has_edge_type_id m ty) eqn:Hty.
  2:{ by rewrite (typed_range_missing debug m e_out adjo src ty Hty). }
  destruct (typed_range debug pg m e_out adjo Hitt Hrel Hwfo Htyo Hrowo Hso
              src ty) as (ro & Hro & _ & _ & _ & Hiffo & _);
    [lia|done|].
  destruct (typed_range debug pg m e_in adji Hitt Hrel Hwfi Htyi Hrowi Hsi
              dst ty) as (ri & Hri & _ & _ & _ & Hiffi & _);
    [lia|done|].
  rewrite Hro, Hri, !outcome_bind_Ok. unfold range_size.
  pose proof (shuffle_of_edge_iff pg e_out
                (λ e0, GetTypeOfEdge pg e0 = ty) src dst Hwf Hwfo Hsho)
    as Heo.
  pose proof (shuffle_of_edge_iff pg e_in
                (λ e0, GetTypeOfEdge pg e0 = ty) src dst Hwf Hwfi Hshi)
    as Hei.
  rewrite Htpo in Heo. rewrite Htpi in Hei.
  assert (Hpo : (∃ e, is_edge (topology pg) e src dst
                      ∧ GetTypeOfEdge pg e = ty)
                ↔ ∃ x, (edges (est_base e_out) src).1 ≤ x
                         < (edges (est_base e_out) src).2
                       ∧ resolved_type pg e_out x = ty
                       ∧ edge_dest (est_base e_out) x = dst).
  { rewrite Heo. unfold is_edge, resolved_type. split.
    - intros (x & (_ & Hx & Hd) & Hq). by exists x.
    - intros (x & Hx & Hq & Hd). exists x. split; [|done].
      split; [lia|done]. }
  assert (Hpi : (∃ e, is_edge (topology pg) e src dst
                      ∧ GetTypeOfEdge pg e = ty)
                ↔ ∃ x, (edges (est_base e_in) dst).1 ≤ x
                         < (edges (est_base e_in) dst).2
                       ∧ resolved_type pg e_in x = ty
                       ∧ edge_dest (est_base e_in) x = src).
  { rewrite Hei. unfold is_edge, resolved_type. split.
    - intros (x & (_ & Hx & Hd) & Hq). by exists x.
    - intros (x & Hx & Hq & Hd). exists x. split; [|done].
      split; [lia|done]. }
  case_decide as Hzero.
  { exists false. split; [done|]. split; [done|]. intros HP.
    pose proof HP as (x & Hx & Hq & _)%Hpo.
    pose proof HP as (x' & Hx' & Hq' & _)%Hpi.
    assert (ro.1 ≤ x < ro.2) by (by apply Hiffo).
    assert (ri.1 ≤ x' < ri.2) by (by apply Hiffi).
    lia. }
  case_decide as Hlt.
  - destruct (IsConnectedWithEdgeType_spec debug pg m e_out adjo Hitt Hrel
                Hwfo Htyo Hrowo Hso src dst ty) as (c & Hrun & Hc);
      [lia|done|].
    exists c. split; [done|]. by rewrite Hc, Hpo.
  - destruct (IsConnectedWithEdgeType_spec debug pg m e_in adji Hitt Hrel
                Hwfi Htyi Hrowi Hsi dst src ty) as (c & Hrun & Hc);
      [lia|done|].
    exists c. split; [done|]. by rewrite Hc, Hpi.
Qed.

Lemma BiDir_IsConnected_gen debug activeThreads sched pg m
    e_out e_in t_out t_in src dst :
  csr_wf (topology pg) →
  (∀ e, e < num_edges (topology pg) → sched e < activeThreads) →
  MakeFromEdgeTypes activeThreads sched pg = Ok m →
  csr_wf (est_base e_out) → shuffle_of pg e_out →
  sorted_by_type_then_dest pg e_out →
  tpose_state_ e_out = TransposeKind.kNo →
  csr_wf (est_base e_in) → shuffle_of pg e_in →
  sorted_by_type_then_dest pg e_in →
  tpose_state_ e_in = TransposeKind.kYes →
  EdgeTypeAwareTopology_MakeFrom debug pg m e_out = Ok t_out →
  EdgeTypeAwareTopology_MakeFrom debug pg m e_in = Ok t_in →
  src < num_nodes (topology pg) → dst < num_nodes (topology pg) →
  ∃ c, BiDir.IsConnected debug
         (mkEdgeTypeAwareBiDirTopology t_out t_in) src dst = Ok c
    ∧ (c = true ↔ dst ∈ out_neighbors (topology pg) src).
Proof.
  intros Hwf Hsched Hm Hwfo Hsho Hso Htpo Hwfi Hshi Hsi Htpi Hfo Hfi Hsrc Hdst.
  destruct (typed_view_setup debug activeThreads sched pg m e_out t_out)
    as (adjo & -> & Hitt & Hrel & Htyo & Hrowo); try done.
  destruct (typed_view_setup debug activeThreads sched pg m e_in t_in)
    as (adji & -> & _ & _ & Htyi & Hrowi); try done.
  pose proof Hsho as (HNo & HEo & _). pose proof Hshi as (HNi & HEi & _).
  pose proof (shuffle_of_edge_iff pg e_out (λ _, True) src dst Hwf Hwfo Hsho)
    as Heo.
  pose proof (shuffle_of_edge_iff pg e_in (λ _, True) src dst Hwf Hwfi Hshi)
    as Hei.
  rewrite Htpo in Heo. rewrite Htpi in Hei.
  assert (HP : dst ∈ out_neighbors (topology pg) src
               ↔ ∃ e0, is_edge (topology pg) e0 src dst ∧ True).
  { rewrite elem_of_out_neighbors. unfold is_edge. split.
    - intros (e & He & Hd). by exists e.
    - intros (e & (_ & He & Hd) & _). by exists e. }
  assert (Hpo : dst ∈ out_neighbors (topology pg) src
                ↔ dst ∈ out_neighbors (est_base e_out) src).
  { rewrite HP, Heo, elem_of_out_neighbors. unfold is_edge. split.
    - intros (e & (_ & He & Hd) & _). by exists e.
    - intros (e & He & Hd). exists e. split; [|done]. split; [lia|done]. }
  assert (Hpi : dst ∈ out_neighbors (topology pg) src
                ↔ src ∈ out_neighbors (est_base e_in) dst).
  { rewrite HP, Hei, elem_of_out_neighbors. unfold is_edge. split.
    - intros (e & (_ & He & Hd) & _). by exists e.
    - intros (e & He & Hd). exists e. split; [|done]. split; [lia|done]. }
  unfold BiDir.IsConnected. cbn [edge_shuff_topo_ topo_ptr_ in_topo_].
  case_decide as Hzero.
  { exists false. split; [done|]. split; [done|]. intros Hin.
    pose proof Hin as (x & Hx & _)%Hpo%elem_of_out_neighbors.
    pose proof Hin as (x' & Hx' & _)%Hpi%elem_of_out_neighbors.
    unfold degree, range_size in Hzero. lia. }
  case_decide as Hlt.
  - destruct (IsConnected_spec debug pg m e_out adjo Hitt Hrel Hwfo Htyo
                Hrowo Hso src dst) as (c & Hrun & Hc); [lia|].
    exists c. split; [done|]. by rewrite Hc, Hpo.
  - destruct (IsConnected_spec debug pg m e_in adji Hitt Hrel Hwfi Htyi
                Hrowi Hsi dst src) as (c & Hrun & Hc); [lia|].
    exists c. split; [done|]. by rewrite Hc, Hpi.
Qed.

Lemma BiDir_make_gen debug activeThreads sched pg m e_out e_in t_out t_in :
  csr_wf (topology pg) →
  (∀ e, e < num_edges (topology pg) → sched e < activeThreads) →
  MakeFromEdgeTypes activeThreads sched pg = Ok m →
  csr_wf (est_base e_out) → shuffle_of pg e_out →
  sorted_by_type_then_dest pg e_out →
  tpose_state_ e_out = TransposeKind.kNo →
  csr_wf (est_base e_in) → shuffle_of pg e_in →
  sorted_by_type_then_dest pg e_in →
  tpose_state_ e_in = TransposeKind.kYes →
  EdgeTypeAwareTopology_MakeFrom debug pg m e_out = Ok t_out →
  EdgeTypeAwareTopology_MakeFrom debug pg m e_in = Ok t_in →
  BiDir.make debug t_out t_in = Ok (mkEdgeTypeAwareBiDirTopology t_out t_in).
Proof.
  intros Hwf Hsched Hm Hwfo Hsho Hso Htpo Hwfi Hshi Hsi Htpi Hfo Hfi.
  destruct (typed_view_setup debug activeThreads sched pg m e_out t_out)
    as (adjo & -> & _); try done.
  destruct (typed_view_setup debug activeThreads sched pg m e_in t_in)
    as (adji & -> & _); try done.
  pose proof Hsho as (HNo & HEo & _). pose proof Hshi as (HNi & HEi & _).
  unfold BiDir.make, is_transposed, has_transpose_state.
  cbn [edge_shuff_topo_].
  rewrite (bool_decide_eq_true_2 _ Htpi), andb_false_r.
  rewrite bool_decide_eq_true_2, andb_false_r by congruence.
  rewrite bool_decide_eq_true_2, andb_false_r by congruence.
  reflexivity.
Qed.

Section bidir_proofs.
Variable psort : ∀ A : Type, (A → A → bool) → list A → list A.
Hypothesis psort_perm : ∀ A (cmp : A → A → bool) l, psort A cmp l ≡ₚ l.
Hypothesis psort_sorted : ∀ A (cmp : A → A → bool) l,
  (∀ a b, cmp a b = true → cmp b a = false) →
  Sorted (λ a b, cmp b a = false) (psort A cmp l).

(** The typed view of one direction, built as [PGViewCache] builds it:
    [Make] with [kSortedByEdgeType], then [MakeFrom] with the condensed
    map of the graph. *)
Lemma typed_view_built debug activeThreads sched pg m tpose e_topo t :
  csr_wf (topology pg) →
  (∀ e, e < num_edges (topology pg) → sched e < activeThreads) →
  MakeFromEdgeTypes activeThreads sched pg = Ok m →
  EdgeShuffleTopology_Make psort pg tpose EdgeSortKind.kSortedByEdgeType
  = Ok e_topo →
  EdgeTypeAwareTopology_MakeFrom debug pg m e_topo = Ok t →
  csr_wf (est_base e_topo)
  ∧ tpose_state_ e_topo = tpose
  ∧ shuffle_of pg e_topo
  ∧ sorted_by_type_then_dest pg e_topo
  ∧ ∃ adj, t = mkEdgeTypeAwareTopology m e_topo adj
    ∧ StronglySorted (<) (index_to_type_map_ m)
    ∧ (∀ ty i, type_to_index_map_ m !! ty = Some i
               ↔ index_to_type_map_ m !! i = Some ty)
    ∧ (∀ e, e < num_edges (est_base e_topo) →
         resolved_type pg e_topo e ∈ index_to_type_map_ m)
    ∧ (0 < num_unique_types m → ∀ n, n < num_nodes (est_base e_topo) →
         node_row_ok pg m e_topo n adj).
Proof.
  intros Hwf Hsched Hm Hmake Hfrom.
  pose proof (EdgeShuffleTopology_Make_spec psort psort_perm psort_sorted
                pg tpose EdgeSortKind.kSortedByEdgeType Hwf) as Hspec.
  rewrite decide_False in Hspec by done.
  destruct Hspec as (topo & Hrun & Hwf' & _ & Htp & _ & Hsh & _ & Hs).
  rewrite Hrun in Hmake. injection Hmake as <-.
  specialize (Hs eq_refl).
  repeat (split; [done|]).
  by apply (typed_view_setup debug activeThreads sched pg m topo t).
Qed.

Lemma BiDir_IsConnectedWithEdgeType_spec debug activeThreads sched pg m
    e_out e_in t_out t_in src dst ty :
  csr_wf (topology pg) →
  (∀ e, e < num_edges (topology pg) → sched e < activeThreads) →
  MakeFromEdgeTypes activeThreads sched pg = Ok m →
  EdgeShuffleTopology_Make psort pg TransposeKind.kNo
    EdgeSortKind.kSortedByEdgeType = Ok e_out →
  EdgeShuffleTopology_Make psort pg TransposeKind.kYes
    EdgeSortKind.kSortedByEdgeType = Ok e_in →
  EdgeTypeAwareTopology_MakeFrom debug pg m e_out = Ok t_out →
  EdgeTypeAwareTopology_MakeFrom debug pg m e_in = Ok t_in →
  src < num_nodes (topology pg) → dst < num_nodes (topology pg) →
  ∃ bt, BiDir.make debug t_out t_in = Ok bt
    ∧ if DoesEdgeTypeExist t_out ty then
        ∃ c, BiDir.IsConnectedWithEdgeType debug bt src dst ty = Ok c
          ∧ (c = true ↔ ∃ e, is_edge (topology pg) e src dst
                             ∧ GetTypeOfEdge pg e = ty)
      else BiDir.IsConnectedWithEdgeType debug bt src dst ty = Fatal.
Proof.
  intros Hwf Hsched Hm Hmo Hmi Hfo Hfi Hsrc Hdst.
  destruct (typed_view_built debug activeThreads sched pg m
              TransposeKind.kNo e_out t_out)
    as (Hwfo & Htpo & Hsho & Hso & _); try done.
  destruct (typed_view_built debug activeThreads sched pg m
              TransposeKind.kYes e_in t_in)
    as (Hwfi & Htpi & Hshi & Hsi & _); try done.
  by apply (BiDir_IsConnectedWithEdgeType_gen debug activeThreads sched pg m
              e_out e_in).
Qed.

Lemma BiDir_IsConnected_spec debug activeThreads sched pg m
    e_out e_in t_out t_in src dst :
  csr_wf (topology pg) →
  (∀ e, e < num_edges (topology pg) → sched e < activeThreads) →
  MakeFromEdgeTypes activeThreads sched pg = Ok m →
  EdgeShuffleTopology_Make psort pg TransposeKind.kNo
    EdgeSortKind.kSortedByEdgeType = Ok e_out →
  EdgeShuffleTopology_Make psort pg TransposeKind.kYes
    EdgeSortKind.kSortedByEdgeType = Ok e_in →
  EdgeTypeAwareTopology_MakeFrom debug pg m e_out = Ok t_out →
  EdgeTypeAwareTopology_MakeFrom debug pg m e_in = Ok t_in →
  src < num_nodes (topology pg) → dst < num_nodes (topology pg) →
  ∃ c, BiDir.IsConnected debug
         (mkEdgeTypeAwareBiDirTopology t_out t_in) src dst = Ok c
    ∧ (c = true ↔ dst ∈ out_neighbors (topology pg) src).
Proof.
  intros Hwf Hsched Hm Hmo Hmi Hfo Hfi Hsrc Hdst.
  destruct (typed_view_built debug activeThreads sched pg m
              TransposeKind.kNo e_out t_out)
    as (Hwfo & Htpo & Hsho & Hso & _); try done.
  destruct (typed_view_built debug activeThreads sched pg m
              TransposeKind.kYes e_in t_in)
    as (Hwfi & Htpi & Hshi & Hsi & _); try done.
  by apply (BiDir_IsConnected_gen debug activeThreads sched pg m e_out e_in).
Qed.

Lemma BiDir_make_ok debug activeThreads sched pg m e_out e_in t_out t_in :
  csr_wf (topology pg) →
  (∀ e, e < num_edges (topology pg) → sched e < activeThreads) →
  MakeFromEdgeTypes activeThreads sched pg = Ok m →
  EdgeShuffleTopology_Make psort pg TransposeKind.kNo
    EdgeSortKind.kSortedByEdgeType = Ok e_out →
  EdgeShuffleTopology_Make psort pg TransposeKind.kYes
    EdgeSortKind.kSortedByEdgeType = Ok e_in →
  EdgeTypeAwareTopology_MakeFrom debug pg m e_out = Ok t_out →
  EdgeTypeAwareTopology_MakeFrom debug pg m e_in = Ok t_in →
  BiDir.make debug t_out t_in = Ok (mkEdgeTypeAwareBiDirTopology t_out t_in).
Proof.
  intros Hwf Hsched Hm Hmo Hmi Hfo Hfi.
  destruct (typed_view_built debug activeThreads sched pg m
              TransposeKind.kNo e_out t_out)
    as (Hwfo & Htpo & Hsho & Hso & _); try done.
  destruct (typed_view_built debug activeThreads sched pg m
              TransposeKind.kYes e_in t_in)
    as (Hwfi & Htpi & Hshi & Hsi & _); try done.
  by apply (BiDir_make_gen debug activeThreads sched pg m e_out e_in).
Qed.

(** X16: in the bidirectional typed view of a graph (the typed views
    of the original and of the transposed topology, built with the
    condensed map of the graph), the constructor's assertions hold and
    [IsConnected(src, dst)] returns [true] exactly when the graph has
    an edge from [src] to [dst], whichever of the two directions it
    searches. *)
Theorem BiDir_IsConnected_iff_edge (debug : bool) (activeThreads : nat)
    (sched : Edge → nat) (pg : PropertyGraph) (m : CondensedTypeIDMap)
    (e_out e_in : EdgeShuffleTopology) (t_out t_in : EdgeTypeAwareTopology)
    (src dst : Node) :
  csr_wf (topology pg) →
  (∀ e, e < num_edges (topology pg) → sched e < activeThreads) →
  MakeFromEdgeTypes activeThreads sched pg = Ok m →
  EdgeShuffleTopology_Make psort pg TransposeKind.kNo
    EdgeSortKind.kSortedByEdgeType = Ok e_out →
  EdgeShuffleTopology_Make psort pg TransposeKind.kYes
    EdgeSortKind.kSortedByEdgeType = Ok e_in →
  EdgeTypeAwareTopology_MakeFrom debug pg m e_out = Ok t_out →
  EdgeTypeAwareTopology_MakeFrom debug pg m e_in = Ok t_in →
  src < num_nodes (topology pg) → dst < num_nodes (topology pg) →
  ∃ bt, BiDir.make debug t_out t_in = Ok bt
    ∧ ∃ c, BiDir.IsConnected debug bt src dst = Ok c
        ∧ (c = true ↔ dst ∈ out_neighbors (topology pg) src).
Proof.
  intros Hwf Hsched Hm Hmo Hmi Hfo Hfi Hsrc Hdst.
  eexists. split.
  - by apply (BiDir_make_ok debug activeThreads sched pg m e_out e_in).
  - by apply (BiDir_IsConnected_spec debug activeThreads sched pg m
                e_out e_in).
Qed.

(** X17: in the bidirectional typed view of a graph,
    [IsConnectedWithEdgeType(src, dst, edge_type)] returns [true]
    exactly when the graph has an edge of that type from [src] to
    [dst], for an edge type of the graph; for any other edge type it
    aborts. *)
Theorem BiDir_IsConnectedWithEdgeType_iff_edge (debug : bool)
    (activeThreads : nat) (sched : Edge → nat) (pg : PropertyGraph)
    (m : CondensedTypeIDMap) (e_out e_in : EdgeShuffleTopology)
    (t_out t_in : EdgeTypeAwareTopology) (src dst : Node)
    (edge_type : EntityType) :
  csr_wf (topology pg) →
  (∀ e, e < num_edges (topology pg) → sched e < activeThreads) →
  MakeFromEdgeTypes activeThreads sched pg = Ok m →
  EdgeShuffleTopology_Make psort pg TransposeKind.kNo
    EdgeSortKind.kSortedByEdgeType = Ok e_out →
  EdgeShuffleTopology_Make psort pg TransposeKind.kYes
    EdgeSortKind.kSortedByEdgeType = Ok e_in →
  EdgeTypeAwareTopology_MakeFrom debug pg m e_out = Ok t_out →
  EdgeTypeAwareTopology_MakeFrom debug pg m e_in = Ok t_in →
  src < num_nodes (topology pg) → dst < num_nodes (topology pg) →
  ∃ bt, BiDir.make debug t_out t_in = Ok bt
    ∧ if DoesEdgeTypeExist t_out edge_type then
        ∃ c, BiDir.IsConnectedWithEdgeType debug bt src dst edge_type = Ok c
          ∧ (c = true ↔ ∃ e, is_edge (topology pg) e src dst
                             ∧ GetTypeOfEdge pg e = edge_type)
      else
        BiDir.IsConnectedWithEdgeType debug bt src dst edge_type = Fatal.
Proof.
  exact (BiDir_IsConnectedWithEdgeType_spec debug activeThreads sched pg m
           e_out e_in t_out t_in src dst edge_type).
Qed.
End bidir_proofs.

Lemma BiDir_IsConnected_iff_edge_witness :
  ∃ bt, BiDir.make true example_typed_view example_typed_view_in = Ok bt
    ∧ ∃ c, BiDir.IsConnected true bt 0 2 = Ok c
        ∧ (c = true ↔ 2 ∈ out_neighbors (topology example_typed_pg) 0).
Proof.
  apply (BiDir_IsConnected_iff_edge merge_psort merge_psort_perm
           merge_psort_sorted true 1 (λ _, 0) example_typed_pg
           example_type_map example_type_sorted example_type_sorted_in
           example_typed_view example_typed_view_in 0 2).
  - apply (bool_decide_unpack _). vm_compute. exact I.
  - intros e _. lia.
  - vm_compute. reflexivity.
  - vm_compute. reflexivity.
  - vm_compute. reflexivity.
  - vm_compute. reflexivity.
  - vm_compute. reflexivity.
  - vm_compute. lia.
  - vm_compute. lia.
Defined.

Lemma BiDir_IsConnectedWithEdgeType_iff_edge_witness :
  ∃ bt, BiDir.make true example_typed_view example_typed_view_in = Ok bt
    ∧ ∃ c, BiDir.IsConnectedWithEdgeType true bt 0 2 3 = Ok c
        ∧ (c = true ↔ ∃ e, is_edge (topology example_typed_pg) e 0 2
                           ∧ GetTypeOfEdge example_typed_pg e = 3).
Proof.
  apply (BiDir_IsConnectedWithEdgeType_iff_edge merge_psort merge_psort_perm
           merge_psort_sorted true 1 (λ _, 0) example_typed_pg
           example_type_map example_type_sorted example_type_sorted_in
           example_typed_view example_typed_view_in 0 2 3).
  - apply (bool_decide_unpack _). vm_compute. exact I.
  - intros e _. lia.
  - vm_compute. reflexivity.
  - vm_compute. reflexivity.
  - vm_compute. reflexivity.
  - vm_compute. reflexivity.
  - vm_compute. reflexivity.
  - vm_compute. lia.
  - vm_compute. lia.
Defined.

(** ** Sorting the nodes of a topology *)

(** A loop whose assertions hold, given an invariant, is the loop
    without them. *)
Lemma do_all_m_pure {A St} (items : list A) (body : A → St → outcome St)
    (f : A → St → St) :
  ∀ (I : nat → St → Prop),
  (∀ k x s, items !! k = Some x → I k s →
     body x s = Ok (f x s) ∧ I (S k) (f x s)) →
  ∀ s, I 0 s →
    do_all_m items body s = Ok (do_all items f s)
    ∧ I (length items) (do_all items f s).
Proof.
  unfold do_all.
  induction items as [|x items IH]; intros I Hbody s Hs; [done|].
  destruct (Hbody 0 x s) as (Hs1 & HI1); [done|done|].
  rewrite do_all_m_cons, Hs1, outcome_bind_Ok. simpl.
  apply (IH (λ k, I (S k))); [|done].
  intros k y s' Hy. by apply Hbody.
Qed.

Lemma do_all_block_write2 {A B} (g1 : nat → A) (g2 : nat → B) (l : list nat) :
  ∀ i (o1 : list A) (o2 : list B),
  do_all l (λ e '(noi, o1, o2),
              (noi + 1, <[noi := g1 e]> o1, <[noi := g2 e]> o2)) (i, o1, o2)
  = (i + length l, list_inserts i (g1 <$> l) o1, list_inserts i (g2 <$> l) o2).
Proof.
  unfold do_all. induction l as [|e l IH]; intros i o1 o2; simpl.
  - do 2 f_equal. lia.
  - rewrite IH. f_equal; [f_equal; [lia|]|]; csimpl;
      replace (i + 1) with (S i) by lia;
      by rewrite list_insert_inserts_lt by lia.
Qed.

Lemma edges_partial_sum (degs : list nat) (dests : list Node) i :
  i < length degs →
  edges (mkGraphTopology (partial_sum degs) dests) i
  = (sum_list (take i degs), sum_list (take i degs) + degs !!! i).
Proof.
  intros Hi. unfold edges. simpl.
  rewrite (lookup_total_partial_sum degs i), sum_list_take_S by lia. f_equal.
  case_decide.
  - rewrite lookup_total_partial_sum by lia.
    by replace (S (i - 1)) with i by lia.
  - by replace i with 0 by lia.
Qed.

(** The blocks of a relabelled topology: the block of the node that
    comes [i]-th in the new order starts at the sum of the degrees of
    the nodes before it. *)
Lemma relabel_blocks {A} t (perm o2n : list nat) (B : nat → list A)
    (init : list A) :
  csr_wf t → perm ≡ₚ all_nodes t →
  (∀ i, i < num_nodes t → o2n !!! (perm !!! i) = i) →
  (∀ u, u < num_nodes t → length (B u) = degree t u) →
  length init = num_edges t →
  let degs := degree t <$> perm in
  let ps := partial_sum degs in
  let pos u := if decide (0 < o2n !!! u) then ps !!! (o2n !!! u - 1) else 0 in
  let res := foldl (λ out u, list_inserts (pos u) (B u) out) init
               (all_nodes t) in
  length res = num_edges t
  ∧ ∀ i j, i < num_nodes t → j < degree t (perm !!! i) →
      res !! (sum_list (take i degs) + j) = B (perm !!! i) !! j.
Proof.
  intros Hwf Hperm Ho2n HlenB0 Hinit degs ps pos res.
  set (N := num_nodes t) in *.
  assert (HlenP : length perm = N).
  { rewrite Hperm. unfold all_nodes. apply length_seq. }
  assert (HlenD : length degs = N) by (unfold degs; by rewrite length_fmap).
  assert (Hdegs : ∀ i, i < N → degs !!! i = degree t (perm !!! i)).
  { intros i Hi. unfold degs. apply list_lookup_total_fmap. lia. }
  assert (Hmem : ∀ i, i < N → perm !!! i < N).
  { intros i Hi. assert (perm !!! i ∈ all_nodes t) as Hin.
    { rewrite <- Hperm. apply list_elem_of_lookup_total_2. lia. }
    unfold all_nodes in Hin. apply elem_of_seq in Hin. lia. }
  assert (Hinv : ∀ u, u < N → o2n !!! u < N ∧ perm !!! (o2n !!! u) = u).
  { intros u Hu. assert (u ∈ perm) as Hin.
    { rewrite Hperm. unfold all_nodes. apply elem_of_seq. lia. }
    apply list_elem_of_lookup_total in Hin as (i & Hi & <-).
    rewrite Ho2n by lia. split; [lia|done]. }
  assert (Hsum : sum_list degs = num_edges t).
  { unfold degs. rewrite Hperm. by apply sum_degrees. }
  assert (Hpos : ∀ u, u < N → pos u = sum_list (take (o2n !!! u) degs)).
  { intros u Hu. unfold pos, ps. destruct (Hinv u Hu) as [Hlt _].
    case_decide as Hz; [|by replace (o2n !!! u) with 0 by lia].
    rewrite lookup_total_partial_sum by lia.
    by replace (S (o2n !!! u - 1)) with (o2n !!! u) by lia. }
  assert (HlenB : ∀ u, u < N → length (B u) = degs !!! (o2n !!! u)).
  { intros u Hu. destruct (Hinv u Hu) as [Hlt Heq].
    rewrite Hdegs, Heq by done. by apply HlenB0. }
  assert (Hend : ∀ u, u < N →
    pos u + length (B u) = sum_list (take (S (o2n !!! u)) degs)).
  { intros u Hu. destruct (Hinv u Hu) as [Hlt _].
    rewrite Hpos, HlenB, sum_list_take_S by lia. done. }
  destruct (blocks_lookup pos B (all_nodes t) init) as (Hl & Hval & _).
  { intros u Hu. unfold all_nodes in Hu. apply elem_of_seq in Hu.
    rewrite Hend by lia. rewrite Hinit, <- Hsum.
    rewrite <- (take_ge degs N) at 2 by lia.
    apply sum_list_take_le. destruct (Hinv u); lia. }
  { intros u u' Hu Hu' Hne. unfold all_nodes in Hu, Hu'.
    apply elem_of_seq in Hu, Hu'.
    destruct (Hinv u) as [? Hpu]; [lia|]. destruct (Hinv u') as [? Hpu']; [lia|].
    rewrite !Hend by lia. rewrite !Hpos by lia.
    destruct (decide (o2n !!! u < o2n !!! u')).
    - left. apply sum_list_take_le. lia.
    - right. apply sum_list_take_le.
      assert (o2n !!! u ≠ o2n !!! u') by congruence. lia. }
  fold res in Hl, Hval. split; [lia|].
  intros i j Hi Hj. pose proof (Hmem i Hi) as Hu.
  rewrite <- (Ho2n i Hi) at 1. rewrite <- Hpos by done.
  apply Hval.
  - unfold all_nodes. apply elem_of_seq. fold N. lia.
  - rewrite HlenB0 by done. done.
Qed.

Section node_sort_general.
Variable psort : ∀ A : Type, (A → A → bool) → list A → list A.
Hypothesis psort_perm : ∀ A (cmp : A → A → bool) l, psort A cmp l ≡ₚ l.

(** What [MakeNodeSortedTopo] computes for any comparator: [npi] is the
    sorted list of the old node ids. *)
Lemma MakeNodeSortedTopo_spec debug seed_topo cmp kind :
  let seed := est_base seed_topo in
  let npi := psort _ (λ i1 i2, cmp i1 i2) (seq 0 (num_nodes seed)) in
  csr_wf seed →
  if debug && negb (is_sorted (degree seed <$> npi)) then
    MakeNodeSortedTopo psort debug seed_topo cmp kind = Fatal
  else
    ∃ st, MakeNodeSortedTopo psort debug seed_topo cmp kind = Ok st
      ∧ node_prop_indices_ st = npi
      ∧ node_sort_state_ st = kind
      ∧ tpose_state_ (st_base st) = tpose_state_ seed_topo
      ∧ edge_sort_state_ (st_base st) = edge_sort_state_ seed_topo
      ∧ is_valid_ (st_base st) = true
      ∧ adj_indices_ (st_topology st) = partial_sum (degree seed <$> npi)
      ∧ num_nodes (st_topology st) = num_nodes seed
      ∧ num_edges (st_topology st) = num_edges seed
      ∧ length (edge_prop_indices_ (st_base st)) = num_edges seed
      ∧ (∀ n, n < num_nodes seed →
           degree (st_topology st) n = degree seed (npi !!! n))
      ∧ ∀ u j, u < num_nodes seed → j < degree seed (npi !!! u) →
          let e := (edges (st_topology st) u).1 + j in
          let e' := (edges seed (npi !!! u)).1 + j in
          npi !!! (edge_dest (st_topology st) e) = edge_dest seed e'
          ∧ edge_dest (st_topology st) e < num_nodes seed
          ∧ edge_property_index (st_base st) e
            = edge_property_index seed_topo e'.
Proof.
  intros seed npi Hwf. unfold MakeNodeSortedTopo. fold seed.
  set (N := num_nodes seed) in *. fold npi.
  assert (Hperm : npi ≡ₚ all_nodes seed) by apply psort_perm.
  assert (HlenP : length npi = N).
  { rewrite Hperm. unfold all_nodes. by rewrite length_seq. }
  rewrite do_all_pair.
  set (degs := do_all (iterate 0 (length npi))
                 (λ i d, <[i := degree seed (npi !!! i)]> d)
                 (allocateInterleaved N)).
  set (o2n := do_all (iterate 0 (length npi)) _ (allocateInterleaved N)).
  assert (Hdegs : degs = degree seed <$> npi).
  { unfold degs, iterate. rewrite Nat.sub_0_r, HlenP.
    destruct (do_all_insert_seq (λ i, degree seed (npi !!! i)) N 0
                (allocateInterleaved N)) as [Hl Hlook].
    apply list_eq. intros i. rewrite Hlook, list_lookup_fmap.
    unfold allocateInterleaved.
    destruct (decide (i < N)) as [Hi|Hi].
    - rewrite decide_True by lia.
      rewrite lookup_replicate_2 by done. simpl.
      rewrite list_lookup_lookup_total_lt by lia. done.
    - rewrite decide_False by lia.
      rewrite (lookup_ge_None_2 npi) by lia.
      apply lookup_replicate_None. lia. }
  rewrite Hdegs. clearbody degs. subst degs.
  destruct (debug && negb (is_sorted (degree seed <$> npi))) eqn:Hguard;
    [done|].
  assert (Hnodup : NoDup npi).
  { rewrite Hperm. unfold all_nodes. apply NoDup_seq. }
  assert (Hmem : ∀ i, i < N → npi !!! i < N).
  { intros i Hi. assert (npi !!! i ∈ seq 0 N) as Hin%elem_of_seq; [|lia].
    unfold all_nodes in Hperm. fold N in Hperm. rewrite <- Hperm.
    apply list_elem_of_lookup_total_2. lia. }
  assert (Ho2n : ∀ i, i < N → o2n !!! (npi !!! i) = i).
  { unfold o2n, iterate. rewrite Nat.sub_0_r, HlenP.
    destruct (do_all_insert_keys (λ i, npi !!! i) N (allocateInterleaved N))
      as [_ Hlook]; [| |exact Hlook].
    - intros i Hi. unfold allocateInterleaved. rewrite length_replicate.
      by apply Hmem.
    - intros i j Hi Hj Heq.
      apply (NoDup_lookup npi i j (npi !!! i)); [done| |].
      + apply list_lookup_lookup_total_lt. lia.
      + rewrite Heq. apply list_lookup_lookup_total_lt. lia. }
  clearbody o2n.
  assert (Hinv : ∀ u, u < N → o2n !!! u < N ∧ npi !!! (o2n !!! u) = u).
  { intros u Hu. assert (u ∈ npi) as Hin.
    { rewrite Hperm. unfold all_nodes. apply elem_of_seq. fold N. lia. }
    apply list_elem_of_lookup_total in Hin as (i & Hi & <-).
    rewrite Ho2n by lia. split; [lia|done]. }
  set (E := num_edges seed).
  set (dgs := degree seed <$> npi) in *.
  set (ps := partial_sum dgs).
  set (pos := λ u, if decide (0 < o2n !!! u) then ps !!! (o2n !!! u - 1)
                   else 0).
  set (B1 := λ u, (λ e, o2n !!! edge_dest seed e)
                    <$> range_items (edges seed u)).
  set (B2 := λ u, (λ e, edge_property_index seed_topo e)
                    <$> range_items (edges seed u)).
  match goal with
  | |- context [do_all_m ?l ?b ?s0] =>
      assert (Hloop : do_all_m l b s0
        = Ok (do_all l
                (λ u '(ndv, epi),
                   (list_inserts (pos u) (B1 u) ndv,
                    list_inserts (pos u) (B2 u) epi)) s0))
  end.
  { apply do_all_m_Ok. intros old [ndv epi] Hold%elem_of_seq.
    pose proof (relabel_block_end seed npi o2n old Hperm Ho2n) as Hend.
    fold dgs ps in Hend. cbv zeta in Hend.
    match goal with
    | |- context [do_all_m ?l ?b ?s0] =>
        destruct (do_all_m_pure l b
                    (λ e '(noi, o1, o2),
                       (noi + 1, <[noi := o2n !!! edge_dest seed e]> o1,
                        <[noi := edge_property_index seed_topo e]> o2))
                    (λ k st, st.1.1 = s0.1.1 + k)) with (s := s0)
          as [Hinner _]
    end.
    - intros j e [[noi ndv'] epi'] He Hnoi. simpl in Hnoi.
      apply lookup_lt_Some in He.
      unfold range_items in He. rewrite length_seq in He.
      rewrite bool_decide_eq_true_2.
      + rewrite andb_false_r. split; [done|]. simpl. lia.
      + rewrite <- Hend by (fold N; lia). unfold degree, range_size.
        subst noi. repeat case_decide; lia.
    - done.
    - rewrite Hinner, do_all_block_write2, outcome_bind_Ok. done. }
  rewrite Hloop, outcome_bind_Ok, do_all_pair.
  unfold do_all at 1 2.
  destruct (relabel_blocks seed npi o2n B1 (allocateInterleaved E))
    as [Hl1 Hb1]; try done.
  { intros u Hu. unfold B1, degree, range_size, range_items.
    by rewrite length_fmap, length_seq. }
  { apply length_replicate. }
  destruct (relabel_blocks seed npi o2n B2 (allocateInterleaved E))
    as [Hl2 Hb2]; try done.
  { intros u Hu. unfold B2, degree, range_size, range_items.
    by rewrite length_fmap, length_seq. }
  { apply length_replicate. }
  cbv zeta in Hl1, Hb1, Hl2, Hb2. fold dgs ps pos in Hl1, Hb1, Hl2, Hb2.
  set (ndv := foldl _ _ _) in Hl1, Hb1 |- *.
  set (epi := foldl _ _ _) in Hl2, Hb2 |- *.
  eexists. split; [reflexivity|].
  unfold st_topology, ShuffleTopology_make, EdgeShuffleTopology_make.
  cbn [st_base est_base node_prop_indices_ node_sort_state_ tpose_state_
       edge_sort_state_ is_valid_ edge_prop_indices_].
  assert (HlenD : length dgs = N) by (unfold dgs; by rewrite length_fmap).
  assert (HN' : num_nodes (mkGraphTopology ps ndv) = N).
  { unfold num_nodes, ps. simpl. by rewrite length_partial_sum. }
  do 6 (split; [done|]). split; [done|]. split; [done|]. split; [done|].
  split.
  { intros n Hn. unfold ps. rewrite degree_partial_sum by lia.
    unfold dgs. apply list_lookup_total_fmap. lia. }
  intros u j Hu Hj. cbv zeta.
  assert (Hb : (edges (mkGraphTopology ps ndv) u).1 = sum_list (take u dgs)).
  { unfold ps. by rewrite edges_partial_sum by lia. }
  rewrite !Hb.
  assert (Hdeg : dgs !!! u = degree seed (npi !!! u)).
  { unfold dgs. apply list_lookup_total_fmap. lia. }
  pose proof (Hmem u Hu) as Hold.
  assert (HB : ∀ {X} (g : nat → X),
            ((λ e, g e) <$> range_items (edges seed (npi !!! u))) !! j
            = Some (g ((edges seed (npi !!! u)).1 + j))).
  { intros X g. unfold range_items.
    rewrite list_lookup_fmap, lookup_seq_lt; [done|].
    unfold degree, range_size in Hj. lia. }
  assert (Hd : edge_dest (mkGraphTopology ps ndv)
                 (sum_list (take u dgs) + j)
               = o2n !!! edge_dest seed ((edges seed (npi !!! u)).1 + j)).
  { unfold edge_dest at 1. simpl. apply list_lookup_total_correct.
    rewrite Hb1 by done. apply (HB _ (λ e, o2n !!! edge_dest seed e)). }
  assert (Hdlt : edge_dest seed ((edges seed (npi !!! u)).1 + j) < N).
  { pose proof (edges_end_le seed (npi !!! u) Hwf Hold) as Hle.
    destruct Hwf as (_ & _ & Hd'). rewrite Forall_forall in Hd'.
    apply Hd'. apply list_elem_of_lookup_total_2.
    unfold degree, range_size in Hj. unfold num_edges in Hle. lia. }
  destruct (Hinv _ Hdlt) as [Hlt Hback].
  rewrite Hd. split; [done|]. split; [done|].
  unfold edge_property_index at 1. cbn [edge_prop_indices_].
  apply list_lookup_total_correct. rewrite Hb2 by done.
  apply (HB _ (λ e, edge_property_index seed_topo e)).
Qed.
End node_sort_general.

Lemma Sorted_strict {A} (R R2 : relation A) (l : list A) :
  NoDup l → (∀ a b, a ≠ b → R a b → R2 a b) → Sorted R l → Sorted R2 l.
Proof.
  intros Hnd HR Hs. induction Hs as [|a l Hs IH Hhd]; [constructor|].
  apply NoDup_cons in Hnd as [Hni Hnd]. constructor; [by apply IH|].
  destruct Hhd as [|b l' Hab]; constructor.
  apply HR; [|done]. intros ->. apply Hni. by left.
Qed.

Section node_sort_views.
Variable psort : ∀ A : Type, (A → A → bool) → list A → list A.
Hypothesis psort_perm : ∀ A (cmp : A → A → bool) l, psort A cmp l ≡ₚ l.
Hypothesis psort_sorted : ∀ A (cmp : A → A → bool) l,
  (∀ a b, cmp a b = true → cmp b a = false) →
  Sorted (λ a b, cmp b a = false) (psort A cmp l).
Variable GetTypeOfNode : PropertyGraph → Node → EntityType.

(** The topology [MakeNodeSortedTopo] returns is the seed with its
    nodes renamed. *)
Lemma MakeNodeSortedTopo_iso debug seed_topo cmp kind :
  let seed := est_base seed_topo in
  let npi := psort _ (λ i1 i2, cmp i1 i2) (seq 0 (num_nodes seed)) in
  csr_wf seed →
  debug && negb (is_sorted (degree seed <$> npi)) = false →
  ∃ st, MakeNodeSortedTopo psort debug seed_topo cmp kind = Ok st
    ∧ node_prop_indices_ st = npi
    ∧ node_sort_state_ st = kind
    ∧ tpose_state_ (st_base st) = tpose_state_ seed_topo
    ∧ edge_sort_state_ (st_base st) = edge_sort_state_ seed_topo
    ∧ is_valid_ (st_base st) = true
    ∧ csr_wf (st_topology st)
    ∧ num_nodes (st_topology st) = num_nodes seed
    ∧ num_edges (st_topology st) = num_edges seed
    ∧ length (edge_prop_indices_ (st_base st)) = num_edges seed
    ∧ (∀ n, n < num_nodes seed →
         degree (st_topology st) n = degree seed (node_property_index st n))
    ∧ ∀ e u v, is_edge (st_topology st) e u v →
        ∃ e', is_edge seed e' (node_property_index st u)
                (node_property_index st v)
              ∧ edge_property_index (st_base st) e
                = edge_property_index seed_topo e'.
Proof.
  intros seed npi Hwf Hguard.
  pose proof (MakeNodeSortedTopo_spec psort psort_perm debug seed_topo cmp
                kind Hwf) as Hspec.
  cbv zeta in Hspec. fold seed npi in Hspec. rewrite Hguard in Hspec.
  destruct Hspec as (st & Hrun & Hnpi & Hns & Htp & Hes & Hv & Hadj & HN & HE
                     & Hlen & Hdeg & Hedges).
  set (t' := st_topology st) in *. set (N := num_nodes seed) in *.
  assert (Hperm : npi ≡ₚ all_nodes seed) by apply psort_perm.
  assert (HlenP : length npi = N).
  { rewrite Hperm. unfold all_nodes. by rewrite length_seq. }
  assert (Hmem : ∀ i, i < N → npi !!! i < N).
  { intros i Hi. assert (npi !!! i ∈ seq 0 N) as Hin%elem_of_seq; [|lia].
    unfold all_nodes in Hperm. fold N in Hperm. rewrite <- Hperm.
    apply list_elem_of_lookup_total_2. lia. }
  assert (Hsorted : Sorted (≤) (adj_indices_ t')).
  { rewrite Hadj. apply Sorted_partial_sum_from. }
  assert (Hlast : num_edges t'
                  = if decide (num_nodes t' = 0) then 0
                    else adj_indices_ t' !!! (num_nodes t' - 1)).
  { rewrite HE, HN. case_decide as Hz.
    - destruct Hwf as (_ & Hl & _). fold N in Hl.
      by rewrite decide_True in Hl.
    - rewrite Hadj, lookup_total_partial_sum
        by (rewrite length_fmap; lia).
      replace (S (N - 1)) with N by lia.
      rewrite take_ge by (rewrite length_fmap; lia).
      rewrite Hperm. symmetry. by apply sum_degrees. }
  assert (Hown : ∀ e, e < num_edges t' →
            ∃ n, n < N ∧ (edges t' n).1 ≤ e < (edges t' n).2).
  { intros e He.
    set (t0 := mkGraphTopology (adj_indices_ t')
                 (replicate (num_edges t') 0)).
    assert (Hwf0 : csr_wf t0).
    { split; [done|]. split.
      - unfold t0, num_edges at 1, num_nodes. simpl.
        rewrite length_replicate. exact Hlast.
      - apply Forall_replicate. unfold t0, num_nodes. simpl.
        fold (num_nodes t'). rewrite HN.
        destruct (decide (N = 0)) as [Hz|]; [|lia].
        rewrite HN, decide_True in Hlast by done. lia. }
    destruct (edge_owner t0 e Hwf0) as (n & Hn & Hr).
    { unfold t0, num_edges at 1. simpl. by rewrite length_replicate. }
    exists n. split; [|done].
    unfold t0, num_nodes in Hn. simpl in Hn. fold (num_nodes t') in Hn. lia. }
  assert (Hrange : ∀ u e, u < N → (edges t' u).1 ≤ e < (edges t' u).2 →
            ∃ j, j < degree seed (npi !!! u) ∧ e = (edges t' u).1 + j).
  { intros u e Hu He. exists (e - (edges t' u).1). split; [|lia].
    rewrite <- Hdeg by done. unfold degree, range_size. lia. }
  exists st. split; [done|]. do 5 (split; [done|]). split.
  { split; [done|]. split; [done|].
    apply Forall_lookup. intros e d Hl.
    assert (He : e < num_edges t') by (by apply lookup_lt_Some in Hl).
    destruct (Hown e He) as (n & Hn & Hr).
    destruct (Hrange n e Hn Hr) as (j & Hj & ->).
    destruct (Hedges n j Hn Hj) as (_ & Hlt & _). fold t' in Hlt.
    apply list_lookup_total_correct in Hl. unfold edge_dest in Hlt.
    fold t' in Hl |- *. rewrite Hl in Hlt. by rewrite HN. }
  do 3 (split; [done|]). unfold node_property_index. rewrite Hnpi.
  split; [done|].
  intros e u v (Hu & He & Hd). fold t' in Hu, He, Hd. rewrite HN in Hu.
  destruct (Hrange u e Hu He) as (j & Hj & ->).
  destruct (Hedges u j Hu Hj) as (Hback & Hlt & Hepi). fold t' in Hback, Hepi.
  exists ((edges seed (npi !!! u)).1 + j). split; [|done].
  split; [by apply Hmem|]. split.
  - unfold degree, range_size in Hj. lia.
  - by rewrite <- Hback, Hd.
Qed.

Lemma MakeSortedByDegree_sorted seed_topo :
  let seed := est_base seed_topo in
  is_sorted (degree seed
               <$> psort _ (λ i1 i2, MakeSortedByDegree_cmp seed_topo i1 i2)
                     (seq 0 (num_nodes seed))) = true.
Proof.
  intros seed. unfold is_sorted. apply bool_decide_eq_true.
  apply (Sorted_fmap _
    (λ a b, MakeSortedByDegree_cmp seed_topo b a = false)).
  - intros a b. rewrite MakeSortedByDegree_cmp_lt. fold seed.
    intros Hc%bool_decide_eq_false. lia.
  - apply (psort_sorted _ (λ i1 i2, MakeSortedByDegree_cmp seed_topo i1 i2)).
    intros a b. rewrite !MakeSortedByDegree_cmp_lt.
    intros Hc%bool_decide_eq_true. apply bool_decide_eq_false. lia.
Qed.

(** X18: the topology [MakeSortedByDegree] returns is the seed with
    its nodes renamed: it is CSR-valid, keeps the transpose and edge
    sort states of the seed, node [n] has the degree of the seed's
    node [node_property_index(n)], and every edge [u -> v] of it is an
    edge of the seed between the nodes [node_property_index(u)] and
    [node_property_index(v)] with the same edge property index. *)
Theorem MakeSortedByDegree_renames_nodes (debug : bool)
    (seed_topo : EdgeShuffleTopology) :
  let seed := est_base seed_topo in
  csr_wf seed →
  ∃ st, MakeSortedByDegree psort debug seed_topo = Ok st
    ∧ node_prop_indices_ st ≡ₚ all_nodes seed
    ∧ tpose_state_ (st_base st) = tpose_state_ seed_topo
    ∧ edge_sort_state_ (st_base st) = edge_sort_state_ seed_topo
    ∧ is_valid_ (st_base st) = true
    ∧ csr_wf (st_topology st)
    ∧ num_nodes (st_topology st) = num_nodes seed
    ∧ num_edges (st_topology st) = num_edges seed
    ∧ (∀ n, n < num_nodes seed →
         degree (st_topology st) n = degree seed (node_property_index st n))
    ∧ ∀ e u v, is_edge (st_topology st) e u v →
        ∃ e', is_edge seed e' (node_property_index st u)
                (node_property_index st v)
              ∧ edge_property_index (st_base st) e
                = edge_property_index seed_topo e'.
Proof.
  intros seed Hwf. unfold MakeSortedByDegree.
  destruct (MakeNodeSortedTopo_iso debug seed_topo
              (MakeSortedByDegree_cmp seed_topo) NodeSortKind.kSortedByDegree
              Hwf)
    as (st & Hrun & Hnpi & _ & Htp & Hes & Hv & Hwf' & HN & HE & _ & Hdeg
        & Hedges).
  { by rewrite MakeSortedByDegree_sorted, andb_false_r. }
  exists st. split; [done|]. split; [rewrite Hnpi; apply psort_perm|].
  done.
Qed.

Lemma node_type_cmp_asym pg a b :
  MakeSortedByNodeType_cmp GetTypeOfNode pg a b = true →
  MakeSortedByNodeType_cmp GetTypeOfNode pg b a = false.
Proof.
  unfold MakeSortedByNodeType_cmp. cbv zeta.
  repeat case_decide; intros Hc%bool_decide_eq_true;
    apply bool_decide_eq_false; (lia || congruence).
Qed.

Lemma node_type_sorted (pg : PropertyGraph) (l : list Node) :
  NoDup l →
  Sorted (node_type_lt GetTypeOfNode pg)
    (psort _ (λ i1 i2, MakeSortedByNodeType_cmp GetTypeOfNode pg i1 i2) l).
Proof.
  intros Hnd.
  apply (Sorted_strict
           (λ a b, MakeSortedByNodeType_cmp GetTypeOfNode pg b a = false)).
  - by rewrite psort_perm.
  - intros a b Hne. unfold MakeSortedByNodeType_cmp, node_type_lt. cbv zeta.
    case_decide; intros Hc%bool_decide_eq_false; lia.
  - apply (psort_sorted _
             (λ i1 i2, MakeSortedByNodeType_cmp GetTypeOfNode pg i1 i2)).
    apply node_type_cmp_asym.
Qed.

(** X19: [MakeSortedByNodeType] puts the nodes in ascending order of
    their type, nodes of one type by ascending id; this order does not
    depend on the sorting algorithm.  A release build returns the seed
    with its nodes renamed in that order.  A debug build does so only
    when the degrees of the nodes happen to ascend in that order:
    otherwise the assertion of [MakeNodeSortedTopo] on the degrees
    aborts it. *)
Theorem MakeSortedByNodeType_order (debug : bool) (pg : PropertyGraph)
    (seed_topo : EdgeShuffleTopology) :
  let seed := est_base seed_topo in
  csr_wf seed →
  ∃ npi, npi ≡ₚ all_nodes seed
    ∧ Sorted (node_type_lt GetTypeOfNode pg) npi
    ∧ (∀ l, l ≡ₚ all_nodes seed →
         Sorted (node_type_lt GetTypeOfNode pg) l → l = npi)
    ∧ if debug && negb (is_sorted (degree seed <$> npi)) then
        MakeSortedByNodeType psort GetTypeOfNode debug pg seed_topo = Fatal
      else
        ∃ st, MakeSortedByNodeType psort GetTypeOfNode debug pg seed_topo
              = Ok st
          ∧ node_prop_indices_ st = npi
          ∧ node_sort_state_ st = NodeSortKind.kSortedByNodeType
          ∧ csr_wf (st_topology st)
          ∧ num_nodes (st_topology st) = num_nodes seed
          ∧ num_edges (st_topology st) = num_edges seed
          ∧ ∀ e u v, is_edge (st_topology st) e u v →
              ∃ e', is_edge seed e' (node_property_index st u)
                      (node_property_index st v)
                    ∧ edge_property_index (st_base st) e
                      = edge_property_index seed_topo e'.
Proof.
  intros seed Hwf.
  set (npi := psort _ (λ i1 i2, MakeSortedByNodeType_cmp GetTypeOfNode pg
                                  i1 i2) (seq 0 (num_nodes seed))).
  assert (Hs : Sorted (node_type_lt GetTypeOfNode pg) npi).
  { apply node_type_sorted, NoDup_seq. }
  assert (Htrans : Transitive (node_type_lt GetTypeOfNode pg)).
  { intros a b c. unfold node_type_lt. lia. }
  exists npi. split; [apply psort_perm|]. split; [done|]. split.
  { intros l Hl Hsl.
    apply (Sorted_unique_strong (node_type_lt GetTypeOfNode pg) l npi);
      [|done|done|].
    - intros a b _ _. unfold node_type_lt. lia.
    - rewrite Hl. symmetry. apply psort_perm. }
  unfold MakeSortedByNodeType.
  destruct (debug && negb (is_sorted (degree seed <$> npi))) eqn:Hguard.
  - pose proof (MakeNodeSortedTopo_spec psort psort_perm debug seed_topo
                  (MakeSortedByNodeType_cmp GetTypeOfNode pg)
                  NodeSortKind.kSortedByNodeType Hwf) as Hspec.
    cbv zeta in Hspec. fold seed npi in Hspec. by rewrite Hguard in Hspec.
  - destruct (MakeNodeSortedTopo_iso debug seed_topo
                (MakeSortedByNodeType_cmp GetTypeOfNode pg)
                NodeSortKind.kSortedByNodeType Hwf Hguard)
      as (st & Hrun & Hnpi & Hns & _ & _ & _ & Hwf' & HN & HE & _ & _
          & Hedges).
    exists st. done.
Qed.
End node_sort_views.

Section node_and_edge_sort.
Variable psort : ∀ A : Type, (A → A → bool) → list A → list A.
Hypothesis psort_perm : ∀ A (cmp : A → A → bool) l, psort A cmp l ≡ₚ l.
Hypothesis psort_sorted : ∀ A (cmp : A → A → bool) l,
  (∀ a b, cmp a b = true → cmp b a = false) →
  Sorted (λ a b, cmp b a = false) (psort A cmp l).
Variable GetTypeOfNode : PropertyGraph → Node → EntityType.

(** What holds of every edge of a node, of its property index and its
    destination, still holds after the edges of the node are sorted. *)
Lemma sort_edge_ranges_preserves (Q : Node → nat * nat → Prop) cmp new_state
    topo :
  let base := est_base topo in
  let res := sort_edge_ranges psort cmp new_state topo in
  csr_wf base → length (edge_prop_indices_ topo) = num_edges base →
  (∀ u e, u < num_nodes base → (edges base u).1 ≤ e < (edges base u).2 →
     Q u (edge_property_index topo e, edge_dest base e)) →
  ∀ u e, u < num_nodes base → (edges base u).1 ≤ e < (edges base u).2 →
    Q u (edge_property_index res e, edge_dest (est_base res) e).
Proof.
  intros base res Hwf Hlen HQ u e Hu He.
  destruct (sort_edge_ranges_spec psort psort_perm cmp new_state topo Hwf Hlen)
    as (Hadj & _ & Htp & Hlp & Hpp & Hdst & Hblocks).
  fold base res in Hadj, Hlp, Hpp, Hdst, Hblocks.
  set (b := (edges base u).1) in *. set (l := (edges base u).2) in *.
  assert (HlE : l ≤ num_edges base) by (by apply edges_end_le).
  assert (HE' : length (dests_ (est_base res)) = num_edges base).
  { by rewrite Hdst. }
  unfold edge_property_index, edge_dest in *.
  apply (sorted_block_lookup psort psort_perm cmp (edge_prop_indices_ topo)
           (edge_prop_indices_ res) (dests_ base) (dests_ (est_base res))
           b l e (Q u)); try (unfold num_edges in *; lia).
  - by apply Hblocks.
  - intros x Hx. by apply HQ.
Qed.

Lemma MakeFromTopo_degree_dest_spec debug pg seed_topo :
  let seed := est_base seed_topo in
  csr_wf seed →
  (∀ edge_sort_todo,
     MakeFromTopo psort GetTypeOfNode debug pg seed_topo NodeSortKind.kAny
       edge_sort_todo = Fatal)
  ∧ ∃ st,
      MakeFromTopo psort GetTypeOfNode debug pg seed_topo
        NodeSortKind.kSortedByDegree EdgeSortKind.kSortedByDestID = Ok st
      ∧ node_sort_state_ st = NodeSortKind.kSortedByDegree
      ∧ edge_sort_state_ (st_base st) = EdgeSortKind.kSortedByDestID
      ∧ tpose_state_ (st_base st) = tpose_state_ seed_topo
      ∧ is_valid_ (st_base st) = true
      ∧ node_prop_indices_ st ≡ₚ all_nodes seed
      ∧ csr_wf (st_topology st)
      ∧ num_nodes (st_topology st) = num_nodes seed
      ∧ num_edges (st_topology st) = num_edges seed
      ∧ (∀ n, n + 1 < num_nodes seed →
           degree (st_topology st) n ≤ degree (st_topology st) (n + 1))
      ∧ (∀ n, n < num_nodes seed → Sorted (≤) (out_neighbors (st_topology st) n))
      ∧ ∀ e u v, is_edge (st_topology st) e u v →
          ∃ e', is_edge seed e' (node_property_index st u)
                  (node_property_index st v)
                ∧ edge_property_index (st_base st) e
                  = edge_property_index seed_topo e'.
Proof.
  intros seed Hwf. split; [done|].
  unfold MakeFromTopo.
  destruct (MakeNodeSortedTopo_iso psort psort_perm debug seed_topo
              (MakeSortedByDegree_cmp seed_topo) NodeSortKind.kSortedByDegree
              Hwf)
    as (st0 & Hrun & Hnpi & Hns & Htp & _ & Hv0 & Hwf0 & HN & HE & Hlen & Hdeg
        & Hedges).
  { by rewrite (MakeSortedByDegree_sorted psort psort_sorted), andb_false_r. }
  fold seed in Hnpi, HN, HE, Hlen, Hdeg, Hedges.
  unfold MakeSortedByDegree. rewrite Hrun, outcome_bind_Ok.
  cbn [sortEdges]. rewrite outcome_bind_Ok.
  unfold st_topology in *. set (topo0 := st_base st0) in *.
  set (base0 := est_base topo0) in *.
  rewrite <- HE in Hlen.
  unfold SortEdgesByDestID.
  set (cmp := λ tup1 tup2 : nat * nat, _).
  destruct (sort_edge_ranges_spec psort psort_perm cmp
              EdgeSortKind.kSortedByDestID topo0 Hwf0 Hlen)
    as (Hadj & Hst & Htp' & _ & _ & Hdst & _).
  destruct (sort_edge_ranges_csr_wf psort psort_perm cmp
              EdgeSortKind.kSortedByDestID topo0 Hwf0 Hlen) as [Hwf' Hedg].
  pose proof (λ n, SortEdgesByDestID_sorted psort psort_perm psort_sorted
                     topo0 n Hwf0 Hlen) as Hsorted.
  cbv zeta in Hsorted. unfold SortEdgesByDestID in Hsorted. fold cmp in Hsorted.
  pose proof (sort_edge_ranges_preserves
                (λ u pd, ∃ e', is_edge seed e' (node_property_index st0 u)
                                 (node_property_index st0 pd.2)
                               ∧ pd.1 = edge_property_index seed_topo e')
                cmp EdgeSortKind.kSortedByDestID topo0 Hwf0 Hlen) as Hkeep.
  cbv zeta in Hkeep. fold base0 in Hkeep, Hadj, Hdst, Hedg, Hsorted.
  set (res := sort_edge_ranges psort cmp EdgeSortKind.kSortedByDestID topo0)
    in *.
  assert (HN' : num_nodes (est_base res) = num_nodes base0).
  { unfold num_nodes. by rewrite Hadj. }
  assert (HE' : num_edges (est_base res) = num_edges base0).
  { unfold num_edges. by rewrite Hdst. }
  eexists. split; [reflexivity|].
  cbn [node_sort_state_ st_base node_prop_indices_].
  split; [done|]. split; [done|]. split; [congruence|].
  split; [unfold res; by rewrite sort_edge_ranges_is_valid|].
  split; [rewrite Hnpi; apply psort_perm|]. split; [done|].
  split; [by rewrite HN'|]. split; [by rewrite HE'|]. split.
  { intros n Hn.
    assert (Hd : ∀ k, degree (est_base res) k = degree base0 k).
    { intros k. unfold degree. by rewrite Hedg. }
    rewrite !Hd, !Hdeg by lia. unfold node_property_index. rewrite Hnpi.
    pose proof (MakeSortedByDegree_sorted psort psort_sorted seed_topo)
      as Hs%bool_decide_eq_true. cbv zeta in Hs. fold seed in Hs.
    set (npi := psort _ _ _) in *.
    assert (Hl : length npi = num_nodes seed).
    { unfold npi. by rewrite psort_perm, length_seq. }
    rewrite <- !(list_lookup_total_fmap (degree seed) npi) by lia.
    apply Sorted_le_lookup; [done|lia|]. rewrite length_fmap. lia. }
  split.
  { intros n Hn. apply Hsorted. lia. }
  intros e u v (Hu & He & Hd). rewrite HN' in Hu. rewrite Hedg in He.
  unfold node_property_index in *. cbn [node_prop_indices_].
  destruct (Hkeep) with (u := u) (e := e) as (e' & He' & Hp); [|done|done|].
  { intros u0 e0 Hu0 He0.
    destruct (Hedges e0 u0 (edge_dest base0 e0)) as (e' & He' & Hp); [done|].
    by exists e'. }
  exists e'. simpl in He', Hp. rewrite Hd in He'. done.
Qed.

(** X20: [MakeFromTopo] with the node sort [kSortedByDegree] and the
    edge sort [kSortedByDestID] (the topology of the view
    NodesSortedByDegreeEdgesSortedByDestID) returns a CSR-valid
    topology in these states whose degrees ascend with the node id,
    whose nodes have their destinations in ascending order, and whose
    edges are the edges of the seed between the nodes
    [node_property_index] names, with the seed's edge property
    indices.  With the node sort [kAny] it aborts: [MakeFrom] is not
    implemented. *)
Theorem MakeFromTopo_degree_and_dest_sorted (debug : bool)
    (pg : PropertyGraph) (seed_topo : EdgeShuffleTopology) :
  let seed := est_base seed_topo in
  csr_wf seed →
  (∀ edge_sort_todo,
     MakeFromTopo psort GetTypeOfNode debug pg seed_topo NodeSortKind.kAny
       edge_sort_todo = Fatal)
  ∧ ∃ st,
      MakeFromTopo psort GetTypeOfNode debug pg seed_topo
        NodeSortKind.kSortedByDegree EdgeSortKind.kSortedByDestID = Ok st
      ∧ node_sort_state_ st = NodeSortKind.kSortedByDegree
      ∧ edge_sort_state_ (st_base st) = EdgeSortKind.kSortedByDestID
      ∧ tpose_state_ (st_base st) = tpose_state_ seed_topo
      ∧ node_prop_indices_ st ≡ₚ all_nodes seed
      ∧ csr_wf (st_topology st)
      ∧ num_nodes (st_topology st) = num_nodes seed
      ∧ num_edges (st_topology st) = num_edges seed
      ∧ (∀ n, n + 1 < num_nodes seed →
           degree (st_topology st) n ≤ degree (st_topology st) (n + 1))
      ∧ (∀ n, n < num_nodes seed → Sorted (≤) (out_neighbors (st_topology st) n))
      ∧ ∀ e u v, is_edge (st_topology st) e u v →
          ∃ e', is_edge seed e' (node_property_index st u)
                  (node_property_index st v)
                ∧ edge_property_index (st_base st) e
                  = edge_property_index seed_topo e'.
Proof.
  intros seed Hwf.
  destruct (MakeFromTopo_degree_dest_spec debug pg seed_topo Hwf)
    as (Hany & st & Hrun & Hns & Hes & Htp & _ & Hrest).
  split; [done|]. exists st. done.
Qed.
End node_and_edge_sort.

Lemma MakeSortedByDegree_renames_nodes_witness :
  let seed := est_base example_seed in
  ∃ st, MakeSortedByDegree merge_psort true example_seed = Ok st
    ∧ node_prop_indices_ st ≡ₚ all_nodes seed
    ∧ tpose_state_ (st_base st) = tpose_state_ example_seed
    ∧ edge_sort_state_ (st_base st) = edge_sort_state_ example_seed
    ∧ is_valid_ (st_base st) = true
    ∧ csr_wf (st_topology st)
    ∧ num_nodes (st_topology st) = num_nodes seed
    ∧ num_edges (st_topology st) = num_edges seed
    ∧ (∀ n, n < num_nodes seed →
         degree (st_topology st) n = degree seed (node_property_index st n))
    ∧ ∀ e u v, is_edge (st_topology st) e u v →
        ∃ e', is_edge seed e' (node_property_index st u)
                (node_property_index st v)
              ∧ edge_property_index (st_base st) e
                = edge_property_index example_seed e'.
Proof.
  apply (MakeSortedByDegree_renames_nodes merge_psort merge_psort_perm
           merge_psort_sorted true example_seed).
  apply (bool_decide_unpack _). vm_compute. exact I.
Defined.

Lemma MakeSortedByNodeType_order_witness :
  let GetTypeOfNode := λ (_ : PropertyGraph) (n : Node), 3 - n in
  let pg := example_typed_pg in
  let seed := est_base example_seed in
  ∃ npi, npi ≡ₚ all_nodes seed
    ∧ Sorted (node_type_lt GetTypeOfNode pg) npi
    ∧ (∀ l, l ≡ₚ all_nodes seed →
         Sorted (node_type_lt GetTypeOfNode pg) l → l = npi)
    ∧ if true && negb (is_sorted (degree seed <$> npi)) then
        MakeSortedByNodeType merge_psort GetTypeOfNode true pg example_seed
        = Fatal
      else
        ∃ st, MakeSortedByNodeType merge_psort GetTypeOfNode true pg
                example_seed = Ok st
          ∧ node_prop_indices_ st = npi
          ∧ node_sort_state_ st = NodeSortKind.kSortedByNodeType
          ∧ csr_wf (st_topology st)
          ∧ num_nodes (st_topology st) = num_nodes seed
          ∧ num_edges (st_topology st) = num_edges seed
          ∧ ∀ e u v, is_edge (st_topology st) e u v →
              ∃ e', is_edge seed e' (node_property_index st u)
                      (node_property_index st v)
                    ∧ edge_property_index (st_base st) e
                      = edge_property_index example_seed e'.
Proof.
  apply (MakeSortedByNodeType_order merge_psort merge_psort_perm
           merge_psort_sorted (λ _ n, 3 - n) true example_typed_pg
           example_seed).
  apply (bool_decide_unpack _). vm_compute. exact I.
Defined.

Lemma MakeFromTopo_degree_and_dest_sorted_witness :
  let GetTypeOfNode := λ (_ : PropertyGraph) (n : Node), 0 in
  let pg := example_typed_pg in
  let seed := est_base example_seed in
  (∀ edge_sort_todo,
     MakeFromTopo merge_psort GetTypeOfNode true pg example_seed
       NodeSortKind.kAny edge_sort_todo = Fatal)
  ∧ ∃ st,
      MakeFromTopo merge_psort GetTypeOfNode true pg example_seed
        NodeSortKind.kSortedByDegree EdgeSortKind.kSortedByDestID = Ok st
      ∧ node_sort_state_ st = NodeSortKind.kSortedByDegree
      ∧ edge_sort_state_ (st_base st) = EdgeSortKind.kSortedByDestID
      ∧ tpose_state_ (st_base st) = tpose_state_ example_seed
      ∧ node_prop_indices_ st ≡ₚ all_nodes seed
      ∧ csr_wf (st_topology st)
      ∧ num_nodes (st_topology st) = num_nodes seed
      ∧ num_edges (st_topology st) = num_edges seed
      ∧ (∀ n, n + 1 < num_nodes seed →
           degree (st_topology st) n ≤ degree (st_topology st) (n + 1))
      ∧ (∀ n, n < num_nodes seed → Sorted (≤) (out_neighbors (st_topology st) n))
      ∧ ∀ e u v, is_edge (st_topology st) e u v →
          ∃ e', is_edge seed e' (node_property_index st u)
                  (node_property_index st v)
                ∧ edge_property_index (st_base st) e
                  = edge_property_index example_seed e'.
Proof.
  apply (MakeFromTopo_degree_and_dest_sorted merge_psort merge_psort_perm
           merge_psort_sorted (λ _ _, 0) true example_typed_pg example_seed).
  apply (bool_decide_unpack _). vm_compute. exact I.
Defined.

(** ** PGViewCache *)

Lemma CheckTopology_shuffle_of pg topo :
  shuffle_of pg topo → ViewCache.CheckTopology pg (est_base topo) = true.
Proof.
  intros (HN & HE & _). unfold ViewCache.CheckTopology.
  by rewrite !bool_decide_eq_true_2.
Qed.

Lemma has_edges_sorted_by_state topo kind :
  edge_sort_state_ topo = kind → has_edges_sorted_by topo kind = true.
Proof.
  intros <-. unfold has_edges_sorted_by. case_decide; [done|].
  by apply bool_decide_eq_true.
Qed.

(** [MakeFrom] returns for a well-formed topology of the graph's edges
    that is sorted by type, in the state that says so. *)
Lemma MakeFrom_ok debug activeThreads sched pg m e_topo :
  (∀ e, e < num_edges (topology pg) → sched e < activeThreads) →
  MakeFromEdgeTypes activeThreads sched pg = Ok m →
  csr_wf (est_base e_topo) → shuffle_of pg e_topo →
  edge_sort_state_ e_topo = EdgeSortKind.kSortedByEdgeType →
  sorted_by_type_then_dest pg e_topo →
  ∃ adj, EdgeTypeAwareTopology_MakeFrom debug pg m e_topo
         = Ok (mkEdgeTypeAwareTopology m e_topo adj).
Proof.
  intros Hsched Hm Hwf Hsh Hst Hsorted.
  destruct (MakeFromEdgeTypes_spec activeThreads sched pg Hsched)
    as (t2i & ms & Heq & Hitt & Hpresent & Hrel).
  rewrite Heq in Hm. injection Hm as <-.
  destruct (per_type_index_spec pg (mkCondensedTypeIDMap t2i ms true) e_topo)
    as (adj & Hadj & Hladj & Hrows); try done.
  { intros e He. apply Hpresent. unfold resolved_type, edge_type_present.
    exists (edge_property_index e_topo e). split; [|done].
    by apply shuffle_of_prop_index. }
  { by apply sorted_by_type_then_dest_type. }
  exists adj. unfold EdgeTypeAwareTopology_MakeFrom, EdgeTypeAwareTopology_make.
  rewrite (has_edges_sorted_by_state _ _ Hst), andb_false_r.
  destruct Hsh as (_ & HE & _).
  rewrite (bool_decide_eq_true_2 _ HE), andb_false_r.
  rewrite Hadj, outcome_bind_Ok.
  by rewrite (bool_decide_eq_true_2 _ Hladj), andb_false_r.
Qed.

Section view_cache_proofs.
Variable psort : ∀ A : Type, (A → A → bool) → list A → list A.
Hypothesis psort_perm : ∀ A (cmp : A → A → bool) l, psort A cmp l ≡ₚ l.
Hypothesis psort_sorted : ∀ A (cmp : A → A → bool) l,
  (∀ a b, cmp a b = true → cmp b a = false) →
  Sorted (λ a b, cmp b a = false) (psort A cmp l).
Variables (activeThreads : nat) (sched : Edge → nat).

Lemma BuildOrGetEdgeShuffTopo_spec debug pg tpose_kind sort_kind c :
  csr_wf (topology pg) →
  Forall (edge_shuff_ok pg) (edge_shuff_topos_ c) →
  sort_kind ≠ EdgeSortKind.kSortedByNodeType →
  ∃ topo c',
    ViewCache.BuildOrGetEdgeShuffTopo psort debug pg tpose_kind sort_kind c
    = Ok (topo, c')
    ∧ (c' = c
       ∨ c' = mkPGViewCache (edge_shuff_topos_ c ++ [topo])
                (fully_shuff_topos_ c) (edge_type_aware_topos_ c)
                (edge_type_id_map_ c))
    ∧ topo ∈ edge_shuff_topos_ c'
    ∧ Forall (edge_shuff_ok pg) (edge_shuff_topos_ c')
    ∧ edge_shuff_ok pg topo
    ∧ tpose_state_ topo = tpose_kind
    ∧ has_edges_sorted_by topo sort_kind = true
    ∧ ViewCache.BuildOrGetEdgeShuffTopo psort debug pg tpose_kind sort_kind c'
      = Ok (topo, c').
Proof.
  intros Hwf Hok Hkind. unfold ViewCache.BuildOrGetEdgeShuffTopo. cbv zeta.
  destruct (list_find _ (edge_shuff_topos_ c)) as [[i it]|] eqn:Hfind.
  - pose proof Hfind as (Hit & Hpred & _)%list_find_Some.
    apply list_elem_of_lookup_2 in Hit.
    rewrite Forall_forall in Hok. pose proof (Hok it Hit) as Hitok.
    pose proof Hitok as (_ & Hsh & _).
    rewrite (CheckTopology_shuffle_of pg it Hsh), andb_false_r.
    apply andb_true_iff in Hpred as [[Hv Htp]%andb_true_iff Hs].
    exists it, c. split; [done|]. split; [by left|]. split; [done|].
    split; [by apply Forall_forall|]. split; [done|].
    split; [by apply bool_decide_eq_true in Htp|]. split; [done|].
    by rewrite Hfind, (CheckTopology_shuffle_of pg it Hsh), andb_false_r.
  - pose proof (EdgeShuffleTopology_Make_spec psort psort_perm psort_sorted
                  pg tpose_kind sort_kind Hwf) as Hspec.
    rewrite decide_False in Hspec by done.
    destruct Hspec as (topo & Hrun & Hwf' & Hv & Htp & Hst & Hsh & Hd & Ht).
    rewrite Hrun, outcome_bind_Ok.
    rewrite (CheckTopology_shuffle_of pg topo Hsh), andb_false_r.
    assert (Htok : edge_shuff_ok pg topo).
    { split; [done|]. split; [done|]. split; [done|]. split.
      - intros Hs. apply Hd. congruence.
      - intros Hs. apply Ht. congruence. }
    assert (Hsorted : has_edges_sorted_by topo sort_kind = true)
      by (by apply has_edges_sorted_by_state).
    eexists topo, _. split; [reflexivity|]. split; [by right|].
    cbn [edge_shuff_topos_].
    split; [apply elem_of_app; right; by left|].
    split; [apply Forall_app; split; [done|by constructor]|].
    split; [done|]. split; [done|]. split; [done|].
    rewrite list_find_app_r by done. cbn [list_find].
    rewrite decide_True.
    + simpl.
      by rewrite (CheckTopology_shuffle_of pg topo Hsh), andb_false_r.
    + unfold has_transpose_state. rewrite Hv, Hsorted.
      by rewrite bool_decide_eq_true_2.
Qed.

Lemma BuildOrGetEdgeTypeIndex_spec pg c :
  (∀ e, e < num_edges (topology pg) → sched e < activeThreads) →
  (∀ m, edge_type_id_map_ c = Some m →
     MakeFromEdgeTypes activeThreads sched pg = Ok m) →
  ∃ m, ViewCache.BuildOrGetEdgeTypeIndex activeThreads sched pg c
       = Ok (m, mkPGViewCache (edge_shuff_topos_ c) (fully_shuff_topos_ c)
                  (edge_type_aware_topos_ c) (Some m))
    ∧ MakeFromEdgeTypes activeThreads sched pg = Ok m.
Proof.
  intros Hsched Hmap.
  destruct (MakeFromEdgeTypes_spec activeThreads sched pg Hsched)
    as (t2i & ms & Heq & _).
  exists (mkCondensedTypeIDMap t2i ms true). split; [|done].
  unfold ViewCache.BuildOrGetEdgeTypeIndex.
  destruct (edge_type_id_map_ c) as [m|] eqn:Hc.
  - specialize (Hmap m eq_refl). rewrite Heq in Hmap.
    injection Hmap as <-. simpl. destruct c. simpl in *. by subst.
  - by rewrite Heq, outcome_bind_Ok.
Qed.

Lemma BuildOrGetEdgeTypeAwareTopo_spec debug pg tpose_kind c :
  csr_wf (topology pg) →
  (∀ e, e < num_edges (topology pg) → sched e < activeThreads) →
  cache_ok debug activeThreads sched pg c →
  ∃ t c',
    ViewCache.BuildOrGetEdgeTypeAwareTopo psort activeThreads sched debug pg
      tpose_kind c = Ok (t, c')
    ∧ cache_ok debug activeThreads sched pg c'
    ∧ (∀ t0, t0 ∈ edge_type_aware_topos_ c → t0 ∈ edge_type_aware_topos_ c')
    ∧ t ∈ edge_type_aware_topos_ c'
    ∧ typed_view_ok debug activeThreads sched pg t
    ∧ tpose_state_ (edge_shuff_topo_ t) = tpose_kind
    ∧ ViewCache.BuildOrGetEdgeTypeAwareTopo psort activeThreads sched debug
        pg tpose_kind c' = Ok (t, c').
Proof.
  intros Hwf Hsched (Hes & Hty & Hmap).
  unfold ViewCache.BuildOrGetEdgeTypeAwareTopo. cbv zeta.
  destruct (list_find _ (edge_type_aware_topos_ c)) as [[i it]|] eqn:Hfind.
  - pose proof Hfind as (Hit & Hpred & _)%list_find_Some.
    apply list_elem_of_lookup_2 in Hit.
    rewrite Forall_forall in Hty. pose proof (Hty it Hit) as Hitok.
    pose proof Hitok as ((_ & Hsh & _) & _).
    rewrite (CheckTopology_shuffle_of pg _ Hsh), andb_false_r.
    apply andb_true_iff in Hpred as [Hv Htp].
    exists it, c. split; [done|].
    split; [split; [done|split; [by apply Forall_forall|done]]|].
    split; [done|]. split; [done|]. split; [done|].
    split; [by apply bool_decide_eq_true in Htp|].
    by rewrite Hfind, (CheckTopology_shuffle_of pg _ Hsh), andb_false_r.
  - destruct (BuildOrGetEdgeShuffTopo_spec debug pg tpose_kind
                EdgeSortKind.kSortedByEdgeType c Hwf Hes)
      as (e_topo & c1 & Hrun1 & Hc1 & Hin1 & Hes1 & Hok1 & Htp1 & Hs1 & _);
      [done|].
    rewrite Hrun1, outcome_bind_Ok.
    assert (Hsame : fully_shuff_topos_ c1 = fully_shuff_topos_ c
                    ∧ edge_type_aware_topos_ c1 = edge_type_aware_topos_ c
                    ∧ edge_type_id_map_ c1 = edge_type_id_map_ c).
    { by destruct Hc1 as [->| ->]. }
    destruct Hsame as (Hf1 & Ht1 & Hm1).
    destruct (BuildOrGetEdgeTypeIndex_spec pg c1 Hsched) as (m & Hrun2 & Hm).
    { rewrite Hm1. exact Hmap. }
    rewrite Hrun2, outcome_bind_Ok. cbn [edge_shuff_topos_ fully_shuff_topos_
      edge_type_aware_topos_ edge_type_id_map_].
    assert (Hst : edge_sort_state_ e_topo = EdgeSortKind.kSortedByEdgeType).
    { unfold has_edges_sorted_by in Hs1. rewrite decide_False in Hs1 by done.
      by apply bool_decide_eq_true in Hs1. }
    pose proof Hok1 as (Hwf1 & Hsh1 & Hv1 & _ & Hsorted1).
    specialize (Hsorted1 Hst).
    destruct (MakeFrom_ok debug activeThreads sched pg m e_topo)
      as (adj & Hrun3); try done.
    rewrite Hrun3, outcome_bind_Ok. cbn [edge_shuff_topo_].
    rewrite (CheckTopology_shuffle_of pg _ Hsh1), andb_false_r.
    set (t := mkEdgeTypeAwareTopology m e_topo adj) in *.
    assert (Htok : typed_view_ok debug activeThreads sched pg t) by done.
    eexists t, _. split; [reflexivity|].
    cbn [edge_type_aware_topos_]. rewrite Ht1. split.
    { split; [done|]. split.
      - cbn [edge_type_aware_topos_]. apply Forall_app. split; [done|].
        by constructor.
      - cbn [edge_type_id_map_]. intros m' Hm'. by injection Hm' as <-. }
    split; [intros t0 Ht0; apply elem_of_app; by left|].
    split; [apply elem_of_app; right; by left|].
    split; [done|]. split; [done|].
    rewrite list_find_app_r by done. cbn [list_find].
    rewrite decide_True.
    + simpl.
      by rewrite (CheckTopology_shuffle_of pg _ Hsh1), andb_false_r.
    + cbn [edge_shuff_topo_ t]. unfold has_transpose_state.
      by rewrite Hv1, bool_decide_eq_true_2.
Qed.

Lemma BuildView_EdgeTypeAwareBiDir_spec debug pg c :
  csr_wf (topology pg) →
  (∀ e, e < num_edges (topology pg) → sched e < activeThreads) →
  cache_ok debug activeThreads sched pg c →
  ∃ bt c',
    ViewCache.BuildView_EdgeTypeAwareBiDir psort activeThreads sched debug pg
      c = Ok (bt, c')
    ∧ cache_ok debug activeThreads sched pg c'
    ∧ topo_ptr_ bt ∈ edge_type_aware_topos_ c'
    ∧ in_topo_ bt ∈ edge_type_aware_topos_ c'
    ∧ (∀ src dst, src < num_nodes (topology pg) →
         dst < num_nodes (topology pg) →
         ∃ b, BiDir.IsConnected debug bt src dst = Ok b
           ∧ (b = true ↔ dst ∈ out_neighbors (topology pg) src))
    ∧ ∀ src dst edge_type, src < num_nodes (topology pg) →
        dst < num_nodes (topology pg) →
        if DoesEdgeTypeExist (topo_ptr_ bt) edge_type then
          ∃ b, BiDir.IsConnectedWithEdgeType debug bt src dst edge_type = Ok b
            ∧ (b = true ↔ ∃ e, is_edge (topology pg) e src dst
                               ∧ GetTypeOfEdge pg e = edge_type)
        else
          BiDir.IsConnectedWithEdgeType debug bt src dst edge_type = Fatal.
Proof.
  intros Hwf Hsched Hc.
  unfold ViewCache.BuildView_EdgeTypeAwareBiDir.
  destruct (BuildOrGetEdgeTypeAwareTopo_spec debug pg TransposeKind.kNo c
              Hwf Hsched Hc)
    as (t_out & c1 & Hrun1 & Hc1 & _ & Hin1 & Hok1 & Htp1 & _).
  rewrite Hrun1, outcome_bind_Ok.
  destruct (BuildOrGetEdgeTypeAwareTopo_spec debug pg TransposeKind.kYes c1
              Hwf Hsched Hc1)
    as (t_in & c2 & Hrun2 & Hc2 & Hmono & Hin2 & Hok2 & Htp2 & Hagain).
  rewrite Hrun2, outcome_bind_Ok.
  destruct Hok1 as ((Hwfo & Hsho & _ & _ & Hso) & Hsto & Hmo & Hfo).
  destruct Hok2 as ((Hwfi & Hshi & _ & _ & Hsi) & Hsti & Hmi & Hfi).
  specialize (Hso Hsto). specialize (Hsi Hsti).
  assert (Hm : edge_type_index_ t_in = edge_type_index_ t_out) by congruence.
  rewrite Hm in Hfi.
  rewrite (BiDir_make_gen debug activeThreads sched pg (edge_type_index_ t_out)
             (edge_shuff_topo_ t_out) (edge_shuff_topo_ t_in) t_out t_in)
    by done.
  rewrite outcome_bind_Ok. eexists _, c2. split; [reflexivity|].
  cbn [topo_ptr_ in_topo_]. split; [done|].
  split; [by apply Hmono|]. split; [done|]. split.
  - intros src dst Hsrc Hdst.
    by apply (BiDir_IsConnected_gen debug activeThreads sched pg
                (edge_type_index_ t_out) (edge_shuff_topo_ t_out)
                (edge_shuff_topo_ t_in)).
  - intros src dst edge_type Hsrc Hdst.
    destruct (BiDir_IsConnectedWithEdgeType_gen debug activeThreads sched pg
                (edge_type_index_ t_out) (edge_shuff_topo_ t_out)
                (edge_shuff_topo_ t_in) t_out t_in src dst edge_type)
      as (bt & Hbt & Hres); try done.
    rewrite (BiDir_make_gen debug activeThreads sched pg
               (edge_type_index_ t_out) (edge_shuff_topo_ t_out)
               (edge_shuff_topo_ t_in) t_out t_in) in Hbt by done.
    by injection Hbt as <-.
Qed.

(** X21: on a cache whose topologies are well-formed views of the
    graph, [BuildOrGetEdgeShuffTopo] returns a cached topology that is
    valid, has the requested transpose state and matches the requested
    sort kind, and its sort state tells the truth (for
    [kSortedByDestID] the destinations of every node ascend, for
    [kSortedByEdgeType] the edges are sorted by type and destination).
    The cache is left as it is on a hit and gets the new topology
    appended on a miss; it stays consistent, and the same request on the
    new cache is a hit that returns the same topology. *)
Theorem BuildOrGetEdgeShuffTopo_serves (debug : bool) (pg : PropertyGraph)
    (tpose_kind : TransposeKind.t) (sort_kind : EdgeSortKind.t)
    (c : PGViewCache) :
  csr_wf (topology pg) →
  Forall (edge_shuff_ok pg) (edge_shuff_topos_ c) →
  sort_kind ≠ EdgeSortKind.kSortedByNodeType →
  ∃ topo c',
    ViewCache.BuildOrGetEdgeShuffTopo psort debug pg tpose_kind sort_kind c
    = Ok (topo, c')
    ∧ (c' = c
       ∨ c' = mkPGViewCache (edge_shuff_topos_ c ++ [topo])
                (fully_shuff_topos_ c) (edge_type_aware_topos_ c)
                (edge_type_id_map_ c))
    ∧ topo ∈ edge_shuff_topos_ c'
    ∧ Forall (edge_shuff_ok pg) (edge_shuff_topos_ c')
    ∧ edge_shuff_ok pg topo
    ∧ tpose_state_ topo = tpose_kind
    ∧ has_edges_sorted_by topo sort_kind = true
    ∧ ViewCache.BuildOrGetEdgeShuffTopo psort debug pg tpose_kind sort_kind c'
      = Ok (topo, c').
Proof.
  exact (BuildOrGetEdgeShuffTopo_spec debug pg tpose_kind sort_kind c).
Qed.

(** X22: on a consistent cache, [BuildOrGetEdgeTypeAwareTopo] returns a
    cached typed view with the requested transpose state that is what
    [MakeFrom] builds from the condensed map of the graph and a
    well-formed topology of the graph's edges sorted by type and
    destination.  The cache stays consistent and keeps its typed
    views, and the same request on the new cache returns the same
    view. *)
Theorem BuildOrGetEdgeTypeAwareTopo_serves (debug : bool)
    (pg : PropertyGraph) (tpose_kind : TransposeKind.t) (c : PGViewCache) :
  csr_wf (topology pg) →
  (∀ e, e < num_edges (topology pg) → sched e < activeThreads) →
  cache_ok debug activeThreads sched pg c →
  ∃ t c',
    ViewCache.BuildOrGetEdgeTypeAwareTopo psort activeThreads sched debug pg
      tpose_kind c = Ok (t, c')
    ∧ cache_ok debug activeThreads sched pg c'
    ∧ (∀ t0, t0 ∈ edge_type_aware_topos_ c → t0 ∈ edge_type_aware_topos_ c')
    ∧ t ∈ edge_type_aware_topos_ c'
    ∧ typed_view_ok debug activeThreads sched pg t
    ∧ tpose_state_ (edge_shuff_topo_ t) = tpose_kind
    ∧ ViewCache.BuildOrGetEdgeTypeAwareTopo psort activeThreads sched debug
        pg tpose_kind c' = Ok (t, c').
Proof.
  exact (BuildOrGetEdgeTypeAwareTopo_spec debug pg tpose_kind c).
Qed.

(** X23: on a consistent cache (the empty cache is one), building the
    view EdgeTypeAwareBiDir returns a bidirectional typed view of two
    cached typed views on which [IsConnected(src, dst)] tells whether
    the graph has an edge from [src] to [dst], and
    [IsConnectedWithEdgeType] whether it has one of the given type, for
    an edge type of the graph (it aborts for any other).  The cache
    stays consistent. *)
Theorem BuildView_EdgeTypeAwareBiDir_answers (debug : bool)
    (pg : PropertyGraph) (c : PGViewCache) :
  csr_wf (topology pg) →
  (∀ e, e < num_edges (topology pg) → sched e < activeThreads) →
  cache_ok debug activeThreads sched pg c →
  ∃ bt c',
    ViewCache.BuildView_EdgeTypeAwareBiDir psort activeThreads sched debug pg
      c = Ok (bt, c')
    ∧ cache_ok debug activeThreads sched pg c'
    ∧ topo_ptr_ bt ∈ edge_type_aware_topos_ c'
    ∧ in_topo_ bt ∈ edge_type_aware_topos_ c'
    ∧ (∀ src dst, src < num_nodes (topology pg) →
         dst < num_nodes (topology pg) →
         ∃ b, BiDir.IsConnected debug bt src dst = Ok b
           ∧ (b = true ↔ dst ∈ out_neighbors (topology pg) src))
    ∧ ∀ src dst edge_type, src < num_nodes (topology pg) →
        dst < num_nodes (topology pg) →
        if DoesEdgeTypeExist (topo_ptr_ bt) edge_type then
          ∃ b, BiDir.IsConnectedWithEdgeType debug bt src dst edge_type = Ok b
            ∧ (b = true ↔ ∃ e, is_edge (topology pg) e src dst
                               ∧ GetTypeOfEdge pg e = edge_type)
        else
          BiDir.IsConnectedWithEdgeType debug bt src dst edge_type = Fatal.
Proof.
  exact (BuildView_EdgeTypeAwareBiDir_spec debug pg c).
Qed.
End view_cache_proofs.

Lemma cache_ok_default debug activeThreads sched pg :
  cache_ok debug activeThreads sched pg PGViewCache_default.
Proof. split; [constructor|]. split; [constructor|]. intros m Hm. done. Qed.

Lemma BuildOrGetEdgeShuffTopo_serves_witness :
  let pg := example_unsorted_pg in
  let c := PGViewCache_default in
  ∃ topo c',
    ViewCache.BuildOrGetEdgeShuffTopo merge_psort true pg TransposeKind.kNo
      EdgeSortKind.kSortedByDestID c = Ok (topo, c')
    ∧ (c' = c
       ∨ c' = mkPGViewCache (edge_shuff_topos_ c ++ [topo])
                (fully_shuff_topos_ c) (edge_type_aware_topos_ c)
                (edge_type_id_map_ c))
    ∧ topo ∈ edge_shuff_topos_ c'
    ∧ Forall (edge_shuff_ok pg) (edge_shuff_topos_ c')
    ∧ edge_shuff_ok pg topo
    ∧ tpose_state_ topo = TransposeKind.kNo
    ∧ has_edges_sorted_by topo EdgeSortKind.kSortedByDestID = true
    ∧ ViewCache.BuildOrGetEdgeShuffTopo merge_psort true pg TransposeKind.kNo
        EdgeSortKind.kSortedByDestID c' = Ok (topo, c').
Proof.
  apply (BuildOrGetEdgeShuffTopo_serves merge_psort merge_psort_perm
           merge_psort_sorted true example_unsorted_pg TransposeKind.kNo
           EdgeSortKind.kSortedByDestID PGViewCache_default).
  - apply (bool_decide_unpack _). vm_compute. exact I.
  - constructor.
  - done.
Defined.

Lemma BuildOrGetEdgeTypeAwareTopo_serves_witness :
  let pg := example_typed_pg in
  let sched := λ _ : Edge, 0 in
  ∃ t c',
    ViewCache.BuildOrGetEdgeTypeAwareTopo merge_psort 1 sched true pg
      TransposeKind.kYes PGViewCache_default = Ok (t, c')
    ∧ cache_ok true 1 sched pg c'
    ∧ (∀ t0, t0 ∈ edge_type_aware_topos_ PGViewCache_default →
         t0 ∈ edge_type_aware_topos_ c')
    ∧ t ∈ edge_type_aware_topos_ c'
    ∧ typed_view_ok true 1 sched pg t
    ∧ tpose_state_ (edge_shuff_topo_ t) = TransposeKind.kYes
    ∧ ViewCache.BuildOrGetEdgeTypeAwareTopo merge_psort 1 sched true pg
        TransposeKind.kYes c' = Ok (t, c').
Proof.
  apply (BuildOrGetEdgeTypeAwareTopo_serves merge_psort merge_psort_perm
           merge_psort_sorted 1 (λ _, 0) true example_typed_pg
           TransposeKind.kYes PGViewCache_default).
  - apply (bool_decide_unpack _). vm_compute. exact I.
  - intros e _. lia.
  - apply cache_ok_default.
Defined.

Lemma BuildView_EdgeTypeAwareBiDir_answers_witness :
  let pg := example_typed_pg in
  let sched := λ _ : Edge, 0 in
  ∃ bt c',
    ViewCache.BuildView_EdgeTypeAwareBiDir merge_psort 1 sched true pg
      PGViewCache_default = Ok (bt, c')
    ∧ cache_ok true 1 sched pg c'
    ∧ topo_ptr_ bt ∈ edge_type_aware_topos_ c'
    ∧ in_topo_ bt ∈ edge_type_aware_topos_ c'
    ∧ (∀ src dst, src < num_nodes (topology pg) →
         dst < num_nodes (topology pg) →
         ∃ b, BiDir.IsConnected true bt src dst = Ok b
           ∧ (b = true ↔ dst ∈ out_neighbors (topology pg) src))
    ∧ ∀ src dst edge_type, src < num_nodes (topology pg) →
        dst < num_nodes (topology pg) →
        if DoesEdgeTypeExist (topo_ptr_ bt) edge_type then
          ∃ b, BiDir.IsConnectedWithEdgeType true bt src dst edge_type = Ok b
            ∧ (b = true ↔ ∃ e, is_edge (topology pg) e src dst
                               ∧ GetTypeOfEdge pg e = edge_type)
        else
          BiDir.IsConnectedWithEdgeType true bt src dst edge_type = Fatal.
Proof.
  apply (BuildView_EdgeTypeAwareBiDir_answers merge_psort merge_psort_perm
           merge_psort_sorted 1 (λ _, 0) true example_typed_pg
           PGViewCache_default).
  - apply (bool_decide_unpack _). vm_compute. exact I.
  - intros e _. lia.
  - apply cache_ok_default.
Defined.

Section shuff_cache_proofs.
Variable psort : ∀ A : Type, (A → A → bool) → list A → list A.
Hypothesis psort_perm : ∀ A (cmp : A → A → bool) l, psort A cmp l ≡ₚ l.
Hypothesis psort_sorted : ∀ A (cmp : A → A → bool) l,
  (∀ a b, cmp a b = true → cmp b a = false) →
  Sorted (λ a b, cmp b a = false) (psort A cmp l).
Variable GetTypeOfNode : PropertyGraph → Node → EntityType.

Lemma CheckTopology_shuff_ok pg st :
  shuff_ok pg st → ViewCache.CheckTopology pg (st_topology st) = true.
Proof.
  intros (_ & _ & HN & HE & _). unfold ViewCache.CheckTopology.
  by rewrite !bool_decide_eq_true_2.
Qed.

Lemma has_nodes_sorted_by_state st kind :
  node_sort_state_ st = kind → has_nodes_sorted_by st kind = true.
Proof.
  intros <-. unfold has_nodes_sorted_by. case_decide; [done|].
  by apply bool_decide_eq_true.
Qed.

Lemma BuildOrGetShuffTopo_degree_dest_spec debug pg tpose_kind c :
  csr_wf (topology pg) →
  Forall (edge_shuff_ok pg) (edge_shuff_topos_ c) →
  Forall (shuff_ok pg) (fully_shuff_topos_ c) →
  ∃ st c',
    ViewCache.BuildOrGetShuffTopo psort GetTypeOfNode debug pg tpose_kind
      NodeSortKind.kSortedByDegree EdgeSortKind.kSortedByDestID c
    = Ok (st, c')
    ∧ Forall (edge_shuff_ok pg) (edge_shuff_topos_ c')
    ∧ Forall (shuff_ok pg) (fully_shuff_topos_ c')
    ∧ edge_type_aware_topos_ c' = edge_type_aware_topos_ c
    ∧ edge_type_id_map_ c' = edge_type_id_map_ c
    ∧ st ∈ fully_shuff_topos_ c'
    ∧ shuff_ok pg st
    ∧ tpose_state_ (st_base st) = tpose_kind
    ∧ node_sort_state_ st = NodeSortKind.kSortedByDegree
    ∧ edge_sort_state_ (st_base st) = EdgeSortKind.kSortedByDestID
    ∧ ViewCache.BuildOrGetShuffTopo psort GetTypeOfNode debug pg tpose_kind
        NodeSortKind.kSortedByDegree EdgeSortKind.kSortedByDestID c'
      = Ok (st, c').
Proof.
  intros Hwf Hes Hfs. unfold ViewCache.BuildOrGetShuffTopo. cbv zeta.
  destruct (list_find _ (fully_shuff_topos_ c)) as [[i it]|] eqn:Hfind.
  - pose proof Hfind as (Hit & Hpred & _)%list_find_Some.
    apply list_elem_of_lookup_2 in Hit.
    rewrite Forall_forall in Hfs. pose proof (Hfs it Hit) as Hitok.
    rewrite (CheckTopology_shuff_ok pg it Hitok), andb_false_r.
    apply andb_true_iff in Hpred as [[[Hv Htp]%andb_true_iff Hs]%andb_true_iff
                                      Hn].
    unfold has_edges_sorted_by in Hs. rewrite decide_False in Hs by done.
    unfold has_nodes_sorted_by in Hn. rewrite decide_False in Hn by done.
    apply bool_decide_eq_true in Htp, Hs, Hn.
    exists it, c. split; [done|]. split; [done|].
    split; [by apply Forall_forall|]. do 6 (split; [done|]).
    split; [done|].
    by rewrite Hfind, (CheckTopology_shuff_ok pg it Hitok), andb_false_r.
  - destruct (BuildOrGetEdgeShuffTopo_spec psort psort_perm psort_sorted
                debug pg tpose_kind EdgeSortKind.kSortedByDestID c Hwf Hes)
      as (e_topo & c1 & Hrun1 & Hc1 & Hin1 & Hes1 & Hok1 & Htp1 & Hs1 & _);
      [done|].
    rewrite Hrun1, outcome_bind_Ok.
    assert (Hsame : fully_shuff_topos_ c1 = fully_shuff_topos_ c
                    ∧ edge_type_aware_topos_ c1 = edge_type_aware_topos_ c
                    ∧ edge_type_id_map_ c1 = edge_type_id_map_ c).
    { by destruct Hc1 as [->| ->]. }
    destruct Hsame as (Hf1 & Ht1 & Hm1).
    unfold has_transpose_state.
    rewrite (bool_decide_eq_true_2 _ Htp1), andb_false_r.
    pose proof Hok1 as (Hwf1 & Hsh1 & _).
    destruct (MakeFromTopo_degree_dest_spec psort psort_perm psort_sorted
                GetTypeOfNode debug pg e_topo Hwf1)
      as (_ & st & Hrun2 & Hns & Hss & Htp & Hv & Hnpi & Hwf' & HN & HE & Hdeg
          & Hsorted & Hedges).
    rewrite Hrun2, outcome_bind_Ok.
    pose proof Hsh1 as (HN1 & HE1 & _ & Hfwd).
    assert (Hstok : shuff_ok pg st).
    { split; [done|]. split; [done|]. split; [congruence|].
      split; [congruence|]. split.
      { rewrite Hnpi. unfold all_nodes. by rewrite HN1. }
      split.
      { intros e u v He. destruct (Hedges e u v He) as (e' & He' & ->).
        rewrite Htp. by apply Hfwd. }
      split.
      - intros _ n Hn. apply Hdeg. lia.
      - intros _ n Hn. apply Hsorted. lia. }
    rewrite (CheckTopology_shuff_ok pg st Hstok), andb_false_r.
    eexists st, _. split; [reflexivity|].
    cbn [edge_shuff_topos_ fully_shuff_topos_ edge_type_aware_topos_
         edge_type_id_map_].
    split; [done|]. rewrite Hf1.
    split; [apply Forall_app; split; [done|by constructor]|].
    split; [done|]. split; [done|].
    split; [apply elem_of_app; right; by left|].
    split; [done|]. split; [congruence|]. split; [done|]. split; [done|].
    rewrite list_find_app_r by done. cbn [list_find].
    rewrite decide_True.
    + simpl.
      by rewrite (CheckTopology_shuff_ok pg st Hstok), andb_false_r.
    + unfold has_transpose_state.
      rewrite Hv, (has_edges_sorted_by_state _ _ Hss),
        (has_nodes_sorted_by_state _ _ Hns).
      rewrite bool_decide_eq_true_2; [done|congruence].
Qed.

(** X24: on a cache whose topologies are well-formed views of the
    graph, building the view NodesSortedByDegreeEdgesSortedByDestID
    returns a cached, valid, well-formed topology of the transposed
    graph: every edge [u -> v] of it is, through the node and edge
    property indices, an edge of the graph from the node of [v] to the
    node of [u]; the degrees (in-degrees of the graph) ascend with the
    node id, and the destinations of every node ascend.  The cache
    stays consistent and the same request on it returns the same
    topology. *)
Theorem BuildView_NodesSortedByDegree_transposed (debug : bool)
    (pg : PropertyGraph) (c : PGViewCache) :
  csr_wf (topology pg) →
  Forall (edge_shuff_ok pg) (edge_shuff_topos_ c) →
  Forall (shuff_ok pg) (fully_shuff_topos_ c) →
  ∃ st c',
    ViewCache.BuildView_NodesSortedByDegreeEdgesSortedByDestID psort
      GetTypeOfNode debug pg c = Ok (st, c')
    ∧ Forall (edge_shuff_ok pg) (edge_shuff_topos_ c')
    ∧ Forall (shuff_ok pg) (fully_shuff_topos_ c')
    ∧ st ∈ fully_shuff_topos_ c'
    ∧ csr_wf (st_topology st)
    ∧ is_valid_ (st_base st) = true
    ∧ num_nodes (st_topology st) = num_nodes (topology pg)
    ∧ num_edges (st_topology st) = num_edges (topology pg)
    ∧ node_prop_indices_ st ≡ₚ all_nodes (topology pg)
    ∧ (∀ e u v, is_edge (st_topology st) e u v →
         is_edge (topology pg) (edge_property_index (st_base st) e)
           (node_property_index st v) (node_property_index st u))
    ∧ (∀ n, n + 1 < num_nodes (st_topology st) →
         degree (st_topology st) n ≤ degree (st_topology st) (n + 1))
    ∧ (∀ n, n < num_nodes (st_topology st) →
         Sorted (≤) (out_neighbors (st_topology st) n))
    ∧ ViewCache.BuildView_NodesSortedByDegreeEdgesSortedByDestID psort
        GetTypeOfNode debug pg c' = Ok (st, c').
Proof.
  intros Hwf Hes Hfs.
  unfold ViewCache.BuildView_NodesSortedByDegreeEdgesSortedByDestID.
  destruct (BuildOrGetShuffTopo_degree_dest_spec debug pg TransposeKind.kYes
              c Hwf Hes Hfs)
    as (st & c' & Hrun & Hes' & Hfs' & _ & _ & Hin & Hok & Htp & Hns & Hss
        & Hagain).
  exists st, c'. rewrite Hrun, Hagain, !outcome_bind_Ok.
  rewrite (has_edges_sorted_by_state _ _ Hss), andb_false_r.
  split; [done|]. do 3 (split; [done|]).
  destruct Hok as (Hwf' & Hv & HN & HE & Hnpi & Hedges & Hdeg & Hsorted).
  rewrite Htp in Hedges.
  do 6 (split; [done|]). split; [by apply Hdeg|]. split; [by apply Hsorted|].
  done.
Qed.
End shuff_cache_proofs.

Lemma BuildView_NodesSortedByDegree_transposed_witness :
  let pg := example_typed_pg in
  let GetTypeOfNode := λ (_ : PropertyGraph) (_ : Node), 0 in
  let c := PGViewCache_default in
  ∃ st c',
    ViewCache.BuildView_NodesSortedByDegreeEdgesSortedByDestID merge_psort
      GetTypeOfNode true pg c = Ok (st, c')
    ∧ Forall (edge_shuff_ok pg) (edge_shuff_topos_ c')
    ∧ Forall (shuff_ok pg) (fully_shuff_topos_ c')
    ∧ st ∈ fully_shuff_topos_ c'
    ∧ csr_wf (st_topology st)
    ∧ is_valid_ (st_base st) = true
    ∧ num_nodes (st_topology st) = num_nodes (topology pg)
    ∧ num_edges (st_topology st) = num_edges (topology pg)
    ∧ node_prop_indices_ st ≡ₚ all_nodes (topology pg)
    ∧ (∀ e u v, is_edge (st_topology st) e u v →
         is_edge (topology pg) (edge_property_index (st_base st) e)
           (node_property_index st v) (node_property_index st u))
    ∧ (∀ n, n + 1 < num_nodes (st_topology st) →
         degree (st_topology st) n ≤ degree (st_topology st) (n + 1))
    ∧ (∀ n, n < num_nodes (st_topology st) →
         Sorted (≤) (out_neighbors (st_topology st) n))
    ∧ ViewCache.BuildView_NodesSortedByDegreeEdgesSortedByDestID merge_psort
        GetTypeOfNode true pg c' = Ok (st, c').
Proof.
  apply (BuildView_NodesSortedByDegree_transposed merge_psort
           merge_psort_perm merge_psort_sorted (λ _ _, 0) true
           example_typed_pg PGViewCache_default).
  - apply (bool_decide_unpack _). vm_compute. exact I.
  - constructor.
  - constructor.
Defined.

(** ** The views BiDirectional and EdgesSortedByDestID *)

(** The edges of a node in a topology over the edges of a graph are,
    through the edge property index, the edges of that node in the
    graph; in a transposed topology, the edges of the graph into that
    node. *)
Lemma shuffle_of_edges_perm pg topo u :
  csr_wf (topology pg) → csr_wf (est_base topo) → shuffle_of pg topo →
  u < num_nodes (topology pg) →
  edge_property_index topo <$> range_items (edges (est_base topo) u)
  ≡ₚ match tpose_state_ topo with
     | TransposeKind.kNo => range_items (edges (topology pg) u)
     | TransposeKind.kYes =>
         filter (λ e0, edge_dest (topology pg) e0 = u) (all_edges (topology pg))
     end.
Proof.
  intros Hwf Hwf' Hsh Hu.
  pose proof Hsh as (HN & HE & Hperm & Hedges).
  assert (Hlen : length (edge_prop_indices_ topo) = num_edges (topology pg)).
  { rewrite Hperm. apply length_seq. }
  assert (Hnd : NoDup (edge_prop_indices_ topo)).
  { rewrite Hperm. apply NoDup_seq. }
  pose proof (edges_end_le _ u Hwf' ltac:(lia)) as Hend.
  pose proof (shuffle_of_onto pg topo) as Honto.
  unfold range_items, all_edges.
  apply NoDup_Permutation.
  - apply NoDup_fmap_2_strong; [|apply NoDup_seq].
    intros e e' He%elem_of_seq He'%elem_of_seq Heq.
    unfold edge_property_index in Heq.
    apply (NoDup_lookup _ e e' (edge_prop_indices_ topo !!! e) Hnd).
    + apply list_lookup_lookup_total_lt. lia.
    + rewrite Heq. apply list_lookup_lookup_total_lt. lia.
  - destruct (tpose_state_ topo); [apply NoDup_seq|].
    apply NoDup_filter, NoDup_seq.
  - intros x. rewrite list_elem_of_fmap. split.
    + intros (e & -> & He%elem_of_seq).
      assert (is_edge (est_base topo) e u (edge_dest (est_base topo) e)) as Hie.
      { split; [lia|]. split; [lia|done]. }
      apply Hedges in Hie. destruct (tpose_state_ topo).
      * destruct Hie as (_ & Hr & _). apply elem_of_seq. lia.
      * destruct Hie as (Hv & Hr & Hd). apply list_elem_of_filter.
        split; [done|]. apply elem_of_seq.
        pose proof (edges_end_le _ _ Hwf Hv). lia.
    + intros Hx. destruct (tpose_state_ topo).
      * apply elem_of_seq in Hx.
        destruct (Honto x u (edge_dest (topology pg) x)) as (e & He & Hie);
          try done.
        { split; [done|]. split; [lia|done]. }
        destruct Hie as (_ & Hr & _). exists e. split; [done|].
        apply elem_of_seq. lia.
      * apply list_elem_of_filter in Hx as [Hd Hx%elem_of_seq].
        destruct (edge_owner (topology pg) x Hwf ltac:(lia)) as (v & Hv & Hr).
        destruct (Honto x v u) as (e & He & Hie); try done.
        destruct Hie as (_ & Hr' & _). exists e. split; [done|].
        apply elem_of_seq. lia.
Qed.

(** In a topology over the edges of a graph that is not transposed,
    every node has the neighbors it has in the graph. *)
Lemma shuffle_of_out_neighbors pg topo u :
  csr_wf (topology pg) → csr_wf (est_base topo) → shuffle_of pg topo →
  tpose_state_ topo = TransposeKind.kNo →
  u < num_nodes (topology pg) →
  out_neighbors (est_base topo) u ≡ₚ out_neighbors (topology pg) u.
Proof.
  intros Hwf Hwf' Hsh Htp Hu.
  pose proof (shuffle_of_edges_perm pg topo u Hwf Hwf' Hsh Hu) as Hp.
  rewrite Htp in Hp. unfold out_neighbors. rewrite <- Hp.
  rewrite <- list_fmap_compose.
  destruct Hsh as (HN & _ & _ & Hedges). rewrite Htp in Hedges.
  assert (Heq : edge_dest (est_base topo)
                  <$> range_items (edges (est_base topo) u)
                = (edge_dest (topology pg) ∘ edge_property_index topo)
                  <$> range_items (edges (est_base topo) u)); [|by rewrite Heq].
  apply list_fmap_ext. intros i e He. simpl.
  apply list_elem_of_lookup_2, elem_of_seq in He.
  destruct (Hedges e u (edge_dest (est_base topo) e)) as (_ & _ & Hd);
    [|done].
  split; [lia|]. split; [lia|done].
Qed.

(** [has_edge] on a node of a CSR-valid topology. *)
Lemma has_edge_csr debug topo src dst :
  let base := est_base topo in
  csr_wf base → src < num_nodes base →
  (kBinarySearchThreshold < degree base src →
     Sorted (≤) (out_neighbors base src)
     ∧ (range_end (edges base src) < num_edges base
        ∨ Exists (λ d, dst ≤ d) (out_neighbors base src))) →
  has_edge debug topo src dst = Ok (bool_decide (dst ∈ out_neighbors base src)).
Proof.
  intros base Hwf Hsrc Hlarge.
  destruct (find_edge_core_csr debug base src dst Hwf Hsrc Hlarge)
    as (it & Hrun & Hr & Hfound & Hend).
  change (find_edge debug topo src dst = Ok it) in Hrun.
  unfold has_edge. rewrite Hrun, outcome_bind_Ok. fold base. f_equal.
  destruct (decide (dst ∈ out_neighbors base src)) as [Hin|Hnin].
  - rewrite (bool_decide_eq_true_2 _ Hin).
    rewrite bool_decide_eq_false_2; [done|]. intros Hc%Hend. done.
  - rewrite (bool_decide_eq_false_2 _ Hnin).
    rewrite bool_decide_eq_true_2; [done|]. by apply Hend.
Qed.

Section simple_views_proofs.
Variable psort : ∀ A : Type, (A → A → bool) → list A → list A.
Hypothesis psort_perm : ∀ A (cmp : A → A → bool) l, psort A cmp l ≡ₚ l.
Hypothesis psort_sorted : ∀ A (cmp : A → A → bool) l,
  (∀ a b, cmp a b = true → cmp b a = false) →
  Sorted (λ a b, cmp b a = false) (psort A cmp l).

Lemma BuildView_BiDirectional_spec debug pg c :
  csr_wf (topology pg) →
  Forall (edge_shuff_ok pg) (edge_shuff_topos_ c) →
  let into u := filter (λ e0, edge_dest (topology pg) e0 = u)
                  (all_edges (topology pg)) in
  ∃ bt c',
    ViewCache.BuildView_BiDirectional psort debug pg c = Ok (bt, c')
    ∧ simple_topo_ptr_ bt = topology pg
    ∧ simple_in_topo_ bt ∈ edge_shuff_topos_ c'
    ∧ Forall (edge_shuff_ok pg) (edge_shuff_topos_ c')
    ∧ ∀ u, u < num_nodes (topology pg) →
        SimpleBiDir.in_edge_property_index bt
          <$> range_items (SimpleBiDir.in_edges bt u) ≡ₚ into u
        ∧ SimpleBiDir.in_degree bt u = length (into u)
        ∧ ∀ e, (SimpleBiDir.in_edges bt u).1 ≤ e
               < (SimpleBiDir.in_edges bt u).2 →
            is_edge (topology pg) (SimpleBiDir.in_edge_property_index bt e)
              (SimpleBiDir.in_edge_dest bt e) u.
Proof.
  intros Hwf Hok into. unfold ViewCache.BuildView_BiDirectional.
  destruct (BuildOrGetEdgeShuffTopo_spec psort psort_perm psort_sorted debug
              pg TransposeKind.kYes EdgeSortKind.kAny c Hwf Hok)
    as (topo & c' & Hrun & _ & Hin & Hok' & Htok & Htp & _); [done|].
  rewrite Hrun, outcome_bind_Ok.
  destruct Htok as (Hwf' & Hsh & _).
  pose proof Hsh as (HN & HE & _ & Hedges).
  unfold SimpleBiDir.make, is_transposed, has_transpose_state.
  rewrite (bool_decide_eq_true_2 _ Htp).
  rewrite (bool_decide_eq_true_2 _ (eq_sym HN)).
  rewrite (bool_decide_eq_true_2 _ (eq_sym HE)).
  rewrite !andb_false_r, outcome_bind_Ok.
  eexists _, c'. split; [reflexivity|]. cbn [simple_topo_ptr_ simple_in_topo_].
  split; [done|]. split; [done|]. split; [done|].
  intros u Hu.
  unfold SimpleBiDir.in_edge_property_index, SimpleBiDir.in_edges,
    SimpleBiDir.in_degree, SimpleBiDir.in_edge_dest.
  cbn [simple_in_topo_].
  pose proof (shuffle_of_edges_perm pg topo u Hwf Hwf' Hsh Hu) as Hp.
  rewrite Htp in Hp. split; [exact Hp|]. split.
  - fold (into u) in Hp. rewrite <- Hp, length_fmap.
    unfold degree, range_size, range_items. by rewrite length_seq.
  - intros e He. rewrite Htp in Hedges. apply Hedges.
    split; [lia|]. split; [done|done].
Qed.

Lemma BuildView_EdgesSortedByDestID_spec debug pg c :
  csr_wf (topology pg) →
  Forall (edge_shuff_ok pg) (edge_shuff_topos_ c) →
  ∃ topo c',
    ViewCache.BuildView_EdgesSortedByDestID psort debug pg c = Ok (topo, c')
    ∧ topo ∈ edge_shuff_topos_ c'
    ∧ Forall (edge_shuff_ok pg) (edge_shuff_topos_ c')
    ∧ num_nodes (est_base topo) = num_nodes (topology pg)
    ∧ (∀ n, n < num_nodes (topology pg) →
         out_neighbors (est_base topo) n ≡ₚ out_neighbors (topology pg) n
         ∧ Sorted (≤) (out_neighbors (est_base topo) n))
    ∧ (∀ e u v, is_edge (est_base topo) e u v →
         is_edge (topology pg) (edge_property_index topo e) u v)
    ∧ ∀ src dst, src < num_nodes (topology pg) →
        (kBinarySearchThreshold < degree (topology pg) src →
         Exists (λ d, dst ≤ d) (out_neighbors (topology pg) src)) →
        has_edge debug topo src dst
        = Ok (bool_decide (dst ∈ out_neighbors (topology pg) src)).
Proof.
  intros Hwf Hok. unfold ViewCache.BuildView_EdgesSortedByDestID.
  destruct (BuildOrGetEdgeShuffTopo_spec psort psort_perm psort_sorted debug
              pg TransposeKind.kNo EdgeSortKind.kSortedByDestID c Hwf Hok)
    as (topo & c' & Hrun & _ & Hin & Hok' & Htok & Htp & Hs & _); [done|].
  rewrite Hrun, outcome_bind_Ok. rewrite Hs, andb_false_r.
  assert (Hst : edge_sort_state_ topo = EdgeSortKind.kSortedByDestID).
  { unfold has_edges_sorted_by in Hs. rewrite decide_False in Hs by done.
    by apply bool_decide_eq_true in Hs. }
  destruct Htok as (Hwf' & Hsh & _ & Hd & _). specialize (Hd Hst).
  pose proof Hsh as (HN & _ & _ & Hedges). rewrite Htp in Hedges.
  exists topo, c'. split; [done|]. split; [done|]. split; [done|].
  split; [done|].
  assert (Hnb : ∀ n, n < num_nodes (topology pg) →
            out_neighbors (est_base topo) n ≡ₚ out_neighbors (topology pg) n).
  { intros n Hn. by apply shuffle_of_out_neighbors. }
  split.
  { intros n Hn. split; [by apply Hnb|]. apply Hd. lia. }
  split; [done|].
  intros src dst Hsrc Hlarge.
  rewrite (has_edge_csr debug topo src dst Hwf' ltac:(lia)).
  - f_equal. apply bool_decide_ext. by rewrite (Hnb src Hsrc).
  - intros Hdeg. split; [apply Hd; lia|]. right.
    rewrite (Hnb src Hsrc). apply Hlarge.
    rewrite !degree_length_out_neighbors in *. by rewrite <- (Hnb src Hsrc).
Qed.

(** X27: on a cache of well-formed topologies of the graph (the empty
    cache is one), building the view BiDirectional returns, in debug and
    in release builds, the topology of the graph for the out-edges
    together with a cached transposed topology in which the in-edges of
    every node [u] are, through [in_edge_property_index], exactly the
    edges of the graph with destination [u], each once: [in_degree(u)]
    counts them and [in_edge_dest] is the source of the edge. *)
Theorem BuildView_BiDirectional_in_edges (debug : bool) (pg : PropertyGraph)
    (c : PGViewCache) :
  csr_wf (topology pg) →
  Forall (edge_shuff_ok pg) (edge_shuff_topos_ c) →
  let into u := filter (λ e0, edge_dest (topology pg) e0 = u)
                  (all_edges (topology pg)) in
  ∃ bt c',
    ViewCache.BuildView_BiDirectional psort debug pg c = Ok (bt, c')
    ∧ simple_topo_ptr_ bt = topology pg
    ∧ simple_in_topo_ bt ∈ edge_shuff_topos_ c'
    ∧ Forall (edge_shuff_ok pg) (edge_shuff_topos_ c')
    ∧ ∀ u, u < num_nodes (topology pg) →
        SimpleBiDir.in_edge_property_index bt
          <$> range_items (SimpleBiDir.in_edges bt u) ≡ₚ into u
        ∧ SimpleBiDir.in_degree bt u = length (into u)
        ∧ ∀ e, (SimpleBiDir.in_edges bt u).1 ≤ e
               < (SimpleBiDir.in_edges bt u).2 →
            is_edge (topology pg) (SimpleBiDir.in_edge_property_index bt e)
              (SimpleBiDir.in_edge_dest bt e) u.
Proof. exact (BuildView_BiDirectional_spec debug pg c). Qed.

(** X28: on a cache of well-formed topologies of the graph, building
    the view EdgesSortedByDestID returns, in debug and in release
    builds, a cached topology with the nodes of the graph in which every
    node has the neighbors it has in the graph, in ascending order, and
    every edge is the edge of the graph its property index names.  On
    this view [has_edge(src, dst)] tells whether the graph has an edge
    from [src] to [dst], for a node of at most 64 edges and, for a
    larger one, when some neighbor of [src] is at least [dst]. *)
Theorem BuildView_EdgesSortedByDestID_has_edge (debug : bool)
    (pg : PropertyGraph) (c : PGViewCache) :
  csr_wf (topology pg) →
  Forall (edge_shuff_ok pg) (edge_shuff_topos_ c) →
  ∃ topo c',
    ViewCache.BuildView_EdgesSortedByDestID psort debug pg c = Ok (topo, c')
    ∧ topo ∈ edge_shuff_topos_ c'
    ∧ Forall (edge_shuff_ok pg) (edge_shuff_topos_ c')
    ∧ num_nodes (est_base topo) = num_nodes (topology pg)
    ∧ (∀ n, n < num_nodes (topology pg) →
         out_neighbors (est_base topo) n ≡ₚ out_neighbors (topology pg) n
         ∧ Sorted (≤) (out_neighbors (est_base topo) n))
    ∧ (∀ e u v, is_edge (est_base topo) e u v →
         is_edge (topology pg) (edge_property_index topo e) u v)
    ∧ ∀ src dst, src < num_nodes (topology pg) →
        (kBinarySearchThreshold < degree (topology pg) src →
         Exists (λ d, dst ≤ d) (out_neighbors (topology pg) src)) →
        has_edge debug topo src dst
        = Ok (bool_decide (dst ∈ out_neighbors (topology pg) src)).
Proof. exact (BuildView_EdgesSortedByDestID_spec debug pg c). Qed.
End simple_views_proofs.

Lemma BuildView_BiDirectional_in_edges_witness :
  let pg := example_unsorted_pg in
  let c := PGViewCache_default in
  let into u := filter (λ e0, edge_dest (topology pg) e0 = u)
                  (all_edges (topology pg)) in
  ∃ bt c',
    ViewCache.BuildView_BiDirectional merge_psort true pg c = Ok (bt, c')
    ∧ simple_topo_ptr_ bt = topology pg
    ∧ simple_in_topo_ bt ∈ edge_shuff_topos_ c'
    ∧ Forall (edge_shuff_ok pg) (edge_shuff_topos_ c')
    ∧ ∀ u, u < num_nodes (topology pg) →
        SimpleBiDir.in_edge_property_index bt
          <$> range_items (SimpleBiDir.in_edges bt u) ≡ₚ into u
        ∧ SimpleBiDir.in_degree bt u = length (into u)
        ∧ ∀ e, (SimpleBiDir.in_edges bt u).1 ≤ e
               < (SimpleBiDir.in_edges bt u).2 →
            is_edge (topology pg) (SimpleBiDir.in_edge_property_index bt e)
              (SimpleBiDir.in_edge_dest bt e) u.
Proof.
  apply (BuildView_BiDirectional_in_edges merge_psort merge_psort_perm
           merge_psort_sorted true example_unsorted_pg PGViewCache_default).
  - apply (bool_decide_unpack _). vm_compute. exact I.
  - constructor.
Defined.

Lemma BuildView_EdgesSortedByDestID_has_edge_witness :
  let pg := example_unsorted_pg in
  let c := PGViewCache_default in
  ∃ topo c',
    ViewCache.BuildView_EdgesSortedByDestID merge_psort true pg c
    = Ok (topo, c')
    ∧ topo ∈ edge_shuff_topos_ c'
    ∧ Forall (edge_shuff_ok pg) (edge_shuff_topos_ c')
    ∧ num_nodes (est_base topo) = num_nodes (topology pg)
    ∧ (∀ n, n < num_nodes (topology pg) →
         out_neighbors (est_base topo) n ≡ₚ out_neighbors (topology pg) n
         ∧ Sorted (≤) (out_neighbors (est_base topo) n))
    ∧ (∀ e u v, is_edge (est_base topo) e u v →
         is_edge (topology pg) (edge_property_index topo e) u v)
    ∧ ∀ src dst, src < num_nodes (topology pg) →
        (kBinarySearchThreshold < degree (topology pg) src →
         Exists (λ d, dst ≤ d) (out_neighbors (topology pg) src)) →
        has_edge true topo src dst
        = Ok (bool_decide (dst ∈ out_neighbors (topology pg) src)).
Proof.
  apply (BuildView_EdgesSortedByDestID_has_edge merge_psort merge_psort_perm
           merge_psort_sorted true example_unsorted_pg PGViewCache_default).
  - apply (bool_decide_unpack _). vm_compute. exact I.
  - constructor.
Defined.

(** ** The order SortNodesByDegree gives the nodes *)

Lemma merge_psort_rev_perm A (cmp : A → A → bool) l :
  merge_psort_rev A cmp l ≡ₚ l.
Proof.
  unfold merge_psort_rev. rewrite merge_psort_perm. apply reverse_Permutation.
Qed.

Lemma merge_psort_rev_sorted A (cmp : A → A → bool) l :
  (∀ a b, cmp a b = true → cmp b a = false) →
  Sorted (λ a b, cmp b a = false) (merge_psort_rev A cmp l).
Proof. intros Hasym. by apply merge_psort_sorted. Qed.

Lemma pair_greater_total a b : a ≠ b → pair_greater b a = false →
  pair_greater a b = true.
Proof.
  unfold pair_greater. destruct a as [a1 a2], b as [b1 b2]. simpl.
  intros Hne. repeat case_bool_decide; simpl; try done.
  intros _. exfalso. apply Hne. f_equal; lia.
Qed.

Lemma pair_greater_trans a b c :
  pair_greater a b = true → pair_greater b c = true → pair_greater a c = true.
Proof.
  unfold pair_greater. destruct a as [a1 a2], b as [b1 b2], c as [c1 c2].
  simpl. repeat case_bool_decide; simpl; try done; lia.
Qed.

Section sort_choice.
Variables psort psort' : ∀ A : Type, (A → A → bool) → list A → list A.
Hypothesis psort_perm : ∀ A (cmp : A → A → bool) l, psort A cmp l ≡ₚ l.
Hypothesis psort_sorted : ∀ A (cmp : A → A → bool) l,
  (∀ a b, cmp a b = true → cmp b a = false) →
  Sorted (λ a b, cmp b a = false) (psort A cmp l).
Hypothesis psort_perm' : ∀ A (cmp : A → A → bool) l, psort' A cmp l ≡ₚ l.
Hypothesis psort_sorted' : ∀ A (cmp : A → A → bool) l,
  (∀ a b, cmp a b = true → cmp b a = false) →
  Sorted (λ a b, cmp b a = false) (psort' A cmp l).

(** The (degree, node) pairs are distinct, so [std::greater] orders
    them in one way only. *)
Lemma sort_pairs_unique (dn : list (nat * nat)) :
  NoDup dn → psort _ pair_greater dn = psort' _ pair_greater dn.
Proof.
  intros Hnd.
  assert (Htrans : Transitive (λ a b : nat * nat, pair_greater a b = true)).
  { intros a b c. apply pair_greater_trans. }
  apply (Sorted_unique_strong (λ a b : nat * nat, pair_greater a b = true)).
  - intros a b _ _ Hab Hba. apply pair_greater_asym in Hab. congruence.
  - apply (Sorted_strict (λ a b, pair_greater b a = false)).
    + by rewrite psort_perm.
    + intros a b. apply pair_greater_total.
    + apply psort_sorted, pair_greater_asym.
  - apply (Sorted_strict (λ a b, pair_greater b a = false)).
    + by rewrite psort_perm'.
    + intros a b. apply pair_greater_total.
    + apply psort_sorted', pair_greater_asym.
  - by rewrite psort_perm, psort_perm'.
Qed.

Lemma SortNodesByDegree_sort_choice debug pg :
  SortNodesByDegree psort debug pg = SortNodesByDegree psort' debug pg.
Proof.
  unfold SortNodesByDegree.
  set (t := topology pg). set (N := num_nodes t).
  set (dn0 := do_all (all_nodes t) _ (replicate N (0, 0))).
  assert (Hdn0 : dn0 = (λ n, (degree t n, n)) <$> seq 0 N).
  { unfold dn0, all_nodes. fold N.
    destruct (do_all_insert_seq (λ n, (range_size (edges t n), n)) N 0
                (replicate N (0, 0))) as [Hl Hlook].
    apply list_eq. intros i. rewrite Hlook, list_lookup_fmap.
    destruct (decide (i < N)) as [Hi|Hi].
    - rewrite decide_True by lia.
      rewrite lookup_replicate_2, lookup_seq_lt by done. done.
    - rewrite decide_False by lia.
      rewrite lookup_seq_ge by lia. apply lookup_replicate_None. lia. }
  assert (Hnd : NoDup dn0).
  { rewrite Hdn0. apply NoDup_fmap_2_strong; [|apply NoDup_seq].
    intros x y _ _ Heq. by injection Heq. }
  by rewrite (sort_pairs_unique dn0 Hnd).
Qed.

(** X26: the graph [SortNodesByDegree] returns does not depend on the
    sorting algorithm behind [ParallelSTL::sort]: the (degree, node)
    pairs it sorts are distinct, so any two sorts that return a sorted
    permutation of their input give the same order of the nodes and
    the same result, in debug and in release builds. *)
Theorem SortNodesByDegree_any_sort (debug : bool) (pg : PropertyGraph) :
  SortNodesByDegree psort debug pg = SortNodesByDegree psort' debug pg.
Proof. exact (SortNodesByDegree_sort_choice debug pg). Qed.
End sort_choice.

Lemma SortNodesByDegree_any_sort_witness :
  SortNodesByDegree merge_psort true (PropertyGraph_of example_topology)
  = SortNodesByDegree merge_psort_rev true (PropertyGraph_of example_topology).
Proof.
  apply (SortNodesByDegree_any_sort merge_psort merge_psort_rev
           merge_psort_perm merge_psort_sorted merge_psort_rev_perm
           merge_psort_rev_sorted true (PropertyGraph_of example_topology)).
Defined.

(** ** Reading a topology file of any size *)



